(** * filterexpression: AIP-160 list filters

    A shallow embedding of the Go package [filterexpression]:

    - the tokenizer [Lexer] (five ordered regular-expression rules),
    - the grammar carried by the struct tags of [Filter] ... [Name],
      run by the parsing engine the package builds with
      [participle.MustBuild] (white space elided, look-ahead 7),
    - the visitor of visitor.go ([Visit] and the [Accept] methods).

    The struct tags and the lexer rules are data of the package; the
    engine that interprets them is the library's.  Its behaviour is
    written out here node by node (literal, reference, sequence,
    disjunction, group, struct), with the branch and look-ahead
    bookkeeping that decides which alternative is taken. *)

From Stdlib Require Import String Ascii List NArith Arith Lia Bool.
Import ListNotations.
Open Scope string_scope.
Open Scope list_scope.
Open Scope nat_scope.

Set Implicit Arguments.

(** ** Regular expressions of the lexer rules

    The rule patterns use character classes, concatenation, ordered
    alternation, greedy repetition and the word boundary.  Matching is
    leftmost-first: alternatives are tried in the order written, a
    repetition takes as many rounds as it can and gives rounds back
    only when the rest of the pattern fails. *)

Module Regex.

Inductive regex : Type :=
| Eps : regex
| Chars : (ascii -> bool) -> regex
| Cat : regex -> regex -> regex
| Or : regex -> regex -> regex
| Star : regex -> regex
| WordBoundary : regex.

Definition Plus (r : regex) : regex := Cat r (Star r).
Definition Opt (r : regex) : regex := Or r Eps.

Fixpoint Lit (w : string) : regex :=
  match w with
  | EmptyString => Eps
  | String c EmptyString => Chars (Ascii.eqb c)
  | String c w' => Cat (Chars (Ascii.eqb c)) (Lit w')
  end.

Definition in_range (lo hi c : ascii) : bool :=
  Nat.leb (nat_of_ascii lo) (nat_of_ascii c)
  && Nat.leb (nat_of_ascii c) (nat_of_ascii hi).

(** [\w] of the word boundary: ASCII letters, digits and underscore. *)
Definition word_char (c : ascii) : bool :=
  in_range "a" "z" c || in_range "A" "Z" c || in_range "0" "9" c
  || Ascii.eqb c "_".

Definition is_word (o : option ascii) : bool :=
  match o with Some c => word_char c | None => false end.

Definition head (s : string) : option ascii :=
  match s with EmptyString => None | String c _ => Some c end.

(** A matcher takes the character before the position, the input from
    the position on and the continuation to run on what it leaves. *)
Definition matcher : Type :=
  option ascii -> string -> (option ascii -> string -> option string) ->
  option string.

(** Greedy repetition of [body], at most [n] rounds: one more round is
    tried first, and the continuation [k] is run on the input as it
    stands only when that fails.  A round has to consume input. *)
Fixpoint rounds (body : matcher) (k : option ascii -> string -> option string)
    (n : nat) (prev : option ascii) (s : string) {struct n} : option string :=
  match n with
  | O => k prev s
  | S n' =>
      match body prev s
              (fun prev' s' =>
                 if Nat.ltb (String.length s') (String.length s)
                 then rounds body k n' prev' s' else None) with
      | Some rest => Some rest
      | None => k prev s
      end
  end.

(** [run r prev s k]: match [r] at the front of [s], [prev] being the
    character before it, then hand what is left to [k]; the first
    success in priority order is the answer. *)
Fixpoint run (r : regex) : matcher :=
  fun prev s k =>
  match r with
  | Eps => k prev s
  | Chars p =>
      match s with
      | String c s' => if p c then k (Some c) s' else None
      | EmptyString => None
      end
  | Cat r1 r2 => run r1 prev s (fun prev' s' => run r2 prev' s' k)
  | Or r1 r2 =>
      match run r1 prev s k with
      | Some rest => Some rest
      | None => run r2 prev s k
      end
  | Star r1 => rounds (run r1) k (String.length s) prev s
  | WordBoundary =>
      if xorb (is_word prev) (is_word (head s)) then k prev s else None
  end.

(** The rule is compiled anchored at the front of the remaining input,
    so nothing precedes it.  The result is the span and the rest. *)
Definition matches (r : regex) (s : string) : option (string * string) :=
  match run r None s (fun _ rest => Some rest) with
  | Some rest =>
      Some (substring 0 (String.length s - String.length rest) s, rest)
  | None => None
  end.

End Regex.

(** ** The tokenizer *)

Inductive TokenType : Type :=
| T_EOF | T_Text | T_String | T_Keyword | T_Whitespace | T_Operators.

Definition TokenType_eqb (a b : TokenType) : bool :=
  match a, b with
  | T_EOF, T_EOF | T_Text, T_Text | T_String, T_String | T_Keyword, T_Keyword
  | T_Whitespace, T_Whitespace | T_Operators, T_Operators => true
  | _, _ => false
  end.

(** [lexer.Position], by its byte offset (line and column are
    functions of the offset and the input). *)
Record Position : Type := { Offset : nat }.

Record Token : Type := { Token_Type : TokenType; Token_Value : string; Token_Pos : Position }.

Definition dquote : ascii := "034"%char.
Definition squote : ascii := "'"%char.
Definition backslash : ascii := "\"%char.

Definition is_quote (c : ascii) : bool := Ascii.eqb c squote || Ascii.eqb c dquote.
Definition is_space (c : ascii) : bool :=
  Ascii.eqb c " " || Ascii.eqb c "009" || Ascii.eqb c "010" || Ascii.eqb c "013".
Definition is_operator (c : ascii) : bool :=
  Ascii.eqb c "=" || Ascii.eqb c ":" || Ascii.eqb c "." || Ascii.eqb c "<"
  || Ascii.eqb c ">" || Ascii.eqb c "(" || Ascii.eqb c ")" || Ascii.eqb c ","
  || Ascii.eqb c "-".

Import Regex.

(** [[a-zA-Z0-9_]+] *)
Definition TextPattern : regex := Plus (Chars word_char).

(** [[Q]\*?(\\q|\\d|[^Q])+\*?[Q]] with the last [+] a star, where [q] is
    the single quote, [d] the double quote and [Q] either of them. *)
Definition StringPattern : regex :=
  Cat (Chars is_quote)
   (Cat (Opt (Chars (Ascii.eqb "*")))
     (Cat (Star (Or (Cat (Chars (Ascii.eqb backslash)) (Chars (Ascii.eqb squote)))
                (Or (Cat (Chars (Ascii.eqb backslash)) (Chars (Ascii.eqb dquote)))
                    (Chars (fun c => negb (is_quote c))))))
       (Cat (Opt (Chars (Ascii.eqb "*")))
            (Chars is_quote)))).

(** [\b(AND|OR|NOT)\b] *)
Definition KeywordPattern : regex :=
  Cat WordBoundary (Cat (Or (Lit "AND") (Or (Lit "OR") (Lit "NOT"))) WordBoundary).

(** [[ \t\n\r]+] *)
Definition WhitespacePattern : regex := Plus (Chars is_space).

(** [<=|>=|!=|[=\:.<>=(),-]] *)
Definition OperatorsPattern : regex :=
  Or (Lit "<=") (Or (Lit ">=") (Or (Lit "!=") (Chars is_operator))).

(** The rules of [Lexer], in the order of the source. *)
Definition Lexer : list (TokenType * regex) :=
  [ (T_Text, TextPattern);
    (T_String, StringPattern);
    (T_Keyword, KeywordPattern);
    (T_Whitespace, WhitespacePattern);
    (T_Operators, OperatorsPattern) ].

(** The rules are tried in order and the first one that matches wins. *)
Fixpoint first_match (rules : list (TokenType * regex)) (s : string)
  : option (TokenType * string * string) :=
  match rules with
  | [] => None
  | (ty, r) :: rules' =>
      match matches r s with
      | Some (span, rest) => Some (ty, span, rest)
      | None => first_match rules' s
      end
  end.

(** Tokens up to the end of the input, or the offset at which no rule
    matches.  The fuel is the input length: every token is non-empty. *)
Fixpoint tokens_from (fuel : nat) (off : nat) (s : string)
  : list Token * option Position :=
  match s with
  | EmptyString => ([], None)
  | _ =>
      match fuel with
      | O => ([], Some {| Offset := off |})
      | S fuel' =>
          match first_match Lexer s with
          | None => ([], Some {| Offset := off |})
          | Some (ty, span, rest) =>
              if Nat.ltb (String.length rest) (String.length s) then
                let '(ts, e) :=
                  tokens_from fuel' (off + String.length span) rest in
                ({| Token_Type := ty; Token_Value := span; Token_Pos := {| Offset := off |} |} :: ts, e)
              else ([], Some {| Offset := off |})
          end
      end
  end.

Definition Lex (s : string) : list Token * option Position :=
  tokens_from (String.length s) 0 s.

(** ** The syntax tree

    One record per struct of filterexpression.go.  The alternatives that
    visitor.go tests against nil ([Simple.Restriction],
    [Simple.Composite], [Comparable.Function], [Comparable.Member]) and
    the pointer [Field.Value] are options; a field that was never
    captured keeps its zero value. *)

Inductive Comparator : Type :=
| CompLessEquals | CompLessThan | CompGreaterEquals | CompGreaterThan
| CompNotEquals | CompEquals | CompHas.

(** A key that is not in the map gives the zero value. *)
Definition comparatorMap (s : string) : Comparator :=
  if (s =? "<=")%string then CompLessEquals
  else if (s =? "<")%string then CompLessThan
  else if (s =? ">=")%string then CompGreaterEquals
  else if (s =? ">")%string then CompGreaterThan
  else if (s =? "!=")%string then CompNotEquals
  else if (s =? "=")%string then CompEquals
  else if (s =? ":")%string then CompHas
  else CompLessEquals.

(** [func (c *Comparator) Capture(s []string) error]: the comparator
    of the first captured token; the error is always nil. *)
Definition Comparator_Capture (s : list string) : Comparator :=
  comparatorMap (hd EmptyString s).

Record Value : Type :=
  { Value_Pos : Position; Value_Text : string; Value_String : string }.

Record Field : Type :=
  { Field_Pos : Position; Field_Value : option Value; Field_Keyword : string }.

Record Name : Type :=
  { Name_Pos : Position; Name_Text : string; Name_Keyword : string }.

Record Member : Type :=
  { Member_Pos : Position; Member_Value : Value; Member_Fields : list Field }.

Inductive Expression : Type :=
  Build_Expression
    { Expression_Pos : Position; Expression_Sequence : list Sequence }
with Sequence : Type :=
  Build_Sequence { Sequence_Pos : Position; Sequence_Factor : list Factor }
with Factor : Type :=
  Build_Factor { Factor_Pos : Position; Factor_Term : list Term }
with Term : Type :=
  Build_Term { Term_Pos : Position; Term_Negate : bool; Term_Simple : Simple }
with Simple : Type :=
  Build_Simple
    { Simple_Pos : Position;
      Simple_Restriction : option Restriction;
      Simple_Composite : option Composite }
with Restriction : Type :=
  Build_Restriction
    { Restriction_Pos : Position;
      Restriction_Comparable : Comparable;
      Restriction_Comparator : Comparator;
      Restriction_Arg : Arg }
with Comparable : Type :=
  Build_Comparable
    { Comparable_Pos : Position;
      Comparable_Function : option Function;
      Comparable_Member : option Member }
with Function : Type :=
  Build_Function
    { Function_Pos : Position; Function_Name : list Name; Function_Args : list Arg }
with Composite : Type :=
  Build_Composite { Composite_Pos : Position; Composite_Expression : Expression }
with Arg : Type :=
  Build_Arg
    { Arg_Pos : Position; Arg_Comparable : Comparable; Arg_Composite : Composite }.

Record Filter : Type :=
  { Filter_Pos : Position; Filter_Expression : list Expression }.

(** Zero values. *)
Definition Position0 : Position := {| Offset := 0 |}.
Definition Comparable0 : Comparable :=
  {| Comparable_Pos := Position0; Comparable_Function := None;
     Comparable_Member := None |}.
Definition Expression0 : Expression :=
  {| Expression_Pos := Position0; Expression_Sequence := [] |}.
Definition Composite0 : Composite :=
  {| Composite_Pos := Position0; Composite_Expression := Expression0 |}.
Definition Arg0 : Arg :=
  {| Arg_Pos := Position0; Arg_Comparable := Comparable0;
     Arg_Composite := Composite0 |}.

(** ** The parsing engine

    The parser sees the tokens that are not elided, then the end-of-file
    token for ever.  A context holds the cursor (the number of tokens
    consumed) and the deepest error seen so far.  Every repetition and
    every disjunction runs its body on a copy of the context (a branch):
    the copy is accepted when the body matches and dropped when it does
    not, unless the failed branch consumed more than [lookahead] tokens,
    in which case the failure is final. *)

Inductive Error : Type :=
| LexError (pos : Position)
| UnexpectedToken (unexpected : Token)
| ParseError (msg : string) (pos : Position).

Record Context : Type :=
  { cursor : nat; deepestError : option Error; deepestErrorDepth : nat }.

Inductive Outcome (A : Type) : Type :=
| Matched (a : A)
| Unmatched
| Failed (e : Error)
| OutOfFuel.
Arguments Unmatched {A}.
Arguments Failed {A} e.
Arguments OutOfFuel {A}.

Definition parser (A : Type) : Type := Context -> Outcome A * Context.

(** [participle.UseLookahead(7)] *)
Definition lookahead : nat := 7.

Definition MaxIterations : N := 1000000%N.

Definition MaybeUpdateError (e : Error) (p : Context) : Context :=
  if deepestErrorDepth p <=? cursor p
  then {| cursor := cursor p; deepestError := Some e;
          deepestErrorDepth := cursor p |}
  else p.

Definition Accept (p branch : Context) : Context :=
  if deepestErrorDepth p <=? deepestErrorDepth branch
  then branch
  else {| cursor := cursor branch; deepestError := deepestError p;
          deepestErrorDepth := deepestErrorDepth p |}.

(** [Stop] says whether a failed branch ends the parse: it does when the
    branch went further than the look-ahead allows. *)
Definition Stop (e : Error) (branch p : Context) : bool * Context :=
  let p1 :=
    if deepestErrorDepth p <? deepestErrorDepth branch
    then {| cursor := cursor p; deepestError := deepestError branch;
            deepestErrorDepth := deepestErrorDepth branch |}
    else if deepestErrorDepth p <=? cursor branch
    then {| cursor := cursor p; deepestError := Some e;
            deepestErrorDepth := Nat.max (cursor branch) (deepestErrorDepth branch) |}
    else p in
  if cursor p + lookahead <? cursor branch
  then (true, Accept p1 branch)
  else (false, p1).

Definition DeepestError (p : Context) (e : Error) : Error :=
  if deepestErrorDepth p <=? cursor p then e
  else match deepestError p with Some d => d | None => e end.

Section Engine.

Variable toks : list Token.
Variable eof : Token.

Definition Peek (c : Context) : Token := nth (cursor c) toks eof.

Definition Next (c : Context) : Context :=
  {| cursor := S (cursor c); deepestError := deepestError c;
     deepestErrorDepth := deepestErrorDepth c |}.

(** A literal of the grammar matches a token by its text, whatever the
    type of the token. *)
Definition literal (s : string) : parser string :=
  fun c =>
    let t := Peek c in
    if (Token_Value t =? s)%string then (Matched (Token_Value t), Next c)
    else (Unmatched, c).

(** A token reference matches a token by its type. *)
Definition reference (ty : TokenType) : parser string :=
  fun c =>
    let t := Peek c in
    if TokenType_eqb (Token_Type t) ty then (Matched (Token_Value t), Next c)
    else (Unmatched, c).

Definition ret {A} (a : A) : parser A := fun c => (Matched a, c).

(** Sequencing.  The head of a sequence may fail to match; *)
Definition bind {A B} (p : parser A) (f : A -> parser B) : parser B :=
  fun c =>
    match p c with
    | (Matched a, c') => f a c'
    | (Unmatched, c') => (Unmatched, c')
    | (Failed e, c') => (Failed e, c')
    | (OutOfFuel, c') => (OutOfFuel, c')
    end.

(** every later element has to match. *)
Definition must {A} (p : parser A) : parser A :=
  fun c =>
    match p c with
    | (Unmatched, c') => (Failed (UnexpectedToken (Peek c')), c')
    | r => r
    end.

Definition pmap {A B} (f : A -> B) (p : parser A) : parser B :=
  bind p (fun a => ret (f a)).

(** Disjunction: the first alternative that matches is taken.  Of the
    alternatives that fail, the error of the one that went furthest is
    kept and returned when none matches.  (The engine panics when an
    alternative matches without consuming a token; every alternative of
    this grammar starts with a token, so that cannot happen here.) *)
Fixpoint disjunction_from {A} (nodes : list (parser A))
    (firstError : option Error) (deepest : nat) (ctx : Context)
  : Outcome A * Context :=
  match nodes with
  | [] =>
      match firstError with
      | Some e => (Failed e, MaybeUpdateError e ctx)
      | None => (Unmatched, ctx)
      end
  | a :: nodes' =>
      match a ctx with
      | (Failed e, branch) =>
          let '(stop, ctx') := Stop e branch ctx in
          if stop then (Failed e, ctx')
          else if deepest <=? cursor branch
          then disjunction_from nodes' (Some e) (cursor branch) ctx'
          else disjunction_from nodes' firstError deepest ctx'
      | (Matched v, branch) => (Matched v, Accept ctx branch)
      | (Unmatched, _) => disjunction_from nodes' firstError deepest ctx
      | (OutOfFuel, _) => (OutOfFuel, ctx)
      end
  end.

Definition disjunction {A} (nodes : list (parser A)) : parser A :=
  disjunction_from nodes None 0.

(** Groups with a modifier: [?], [*] and [+]. *)
Inductive groupMode : Type :=
| groupMatchZeroOrOne | groupMatchZeroOrMore | groupMatchOneOrMore.

Definition group_min (m : groupMode) : N :=
  match m with groupMatchOneOrMore => 1%N | _ => 0%N end.
Definition group_max (m : groupMode) : N :=
  match m with groupMatchZeroOrOne => 1%N | _ => MaxIterations end.

Definition group_end {A} (mode : groupMode) (matches : N) (out : list A)
  : parser (list A) :=
  fun ctx =>
    let t := Peek ctx in
    if (MaxIterations <=? matches)%N
    then (Failed (ParseError "too many iterations" (Token_Pos t)), ctx)
    else if (matches <? group_min mode)%N
    then (Failed (ParseError "must match at least once" (Token_Pos t)), ctx)
    else (Matched out, ctx).

Fixpoint group_from {A} (fuel : nat) (mode : groupMode) (expr : parser A)
    (matches : N) (out : list A) (ctx : Context) : Outcome (list A) * Context :=
  if (matches <? group_max mode)%N then
    match fuel with
    | O => (OutOfFuel, ctx)
    | S fuel' =>
        match expr ctx with
        | (Failed e, branch) =>
            let '(stop, ctx') := Stop e branch (MaybeUpdateError e ctx) in
            if stop then (Failed e, ctx')
            else group_end mode matches out ctx'
        | (Matched v, branch) =>
            group_from fuel' mode expr (matches + 1)%N (out ++ [v])
              (Accept ctx branch)
        | (Unmatched, branch) => group_end mode matches out (Accept ctx branch)
        | (OutOfFuel, _) => (OutOfFuel, ctx)
        end
    end
  else group_end mode matches out ctx.

(** A round that matches consumes a token, so there are no more rounds
    than tokens. *)
Definition group {A} (mode : groupMode) (expr : parser A) : parser (list A) :=
  fun ctx => group_from (S (length toks)) mode expr 0%N [] ctx.

(** A struct: its [Pos] is the position of the token it starts at. *)
Definition strct {X T} (build : Position -> X -> T) (expr : parser X)
  : parser T :=
  fun ctx =>
    let pos := Token_Pos (Peek ctx) in
    match expr ctx with
    | (Matched x, ctx') => (Matched (build pos x), ctx')
    | (Unmatched, ctx') => (Unmatched, ctx')
    | (Failed e, ctx') => (Failed e, MaybeUpdateError e ctx')
    | (OutOfFuel, ctx') => (OutOfFuel, ctx')
    end.

End Engine.

Declare Scope parser_scope.
Delimit Scope parser_scope with parser.
Notation "x <- p ;; k" := (bind p (fun x => k))
  (at level 61, p at next level, right associativity) : parser_scope.
Notation "p ;;; k" := (bind p (fun _ => k))
  (at level 61, right associativity) : parser_scope.

(** ** The grammar

    One parser per struct, read off its tags.  The tags of the fields of
    a struct are joined into one expression; [@@] parses the struct of
    the field, [@Text] and [@String] refer to a token type, a quoted
    word is a literal.  A capture does not change what is matched. *)

Section Grammar.

Variable toks : list Token.
Variable eof : Token.

Local Open Scope parser_scope.

Local Abbreviation lit := (literal toks eof).
Local Abbreviation tok := (reference toks eof).
Local Abbreviation req := (must toks eof).
Local Abbreviation rep := (group toks eof).
Local Abbreviation node := (strct toks eof).

Definition keyword : parser string :=
  disjunction [lit "AND"; lit "OR"; lit "NOT"].

(** [Text @Text | String @String] *)
Definition parseValue : parser Value :=
  node (fun pos (x : string + string) =>
          match x with
          | inl t => {| Value_Pos := pos; Value_Text := t; Value_String := EmptyString |}
          | inr s => {| Value_Pos := pos; Value_Text := EmptyString; Value_String := s |}
          end)
       (disjunction [pmap inl (tok T_Text); pmap inr (tok T_String)]).

(** [Value @@ | Keyword @( AND | OR | NOT )] *)
Definition parseField : parser Field :=
  node (fun pos (x : Value + string) =>
          match x with
          | inl v => {| Field_Pos := pos; Field_Value := Some v; Field_Keyword := EmptyString |}
          | inr k => {| Field_Pos := pos; Field_Value := None; Field_Keyword := k |}
          end)
       (disjunction [pmap inl parseValue; pmap inr keyword]).

(** [Text @Text | Keyword @( AND | OR | NOT )] *)
Definition parseName : parser Name :=
  node (fun pos (x : string + string) =>
          match x with
          | inl t => {| Name_Pos := pos; Name_Text := t; Name_Keyword := EmptyString |}
          | inr k => {| Name_Pos := pos; Name_Text := EmptyString; Name_Keyword := k |}
          end)
       (disjunction [pmap inl (tok T_Text); pmap inr keyword]).

(** [Value @@] [Fields ( . @@ )-star] *)
Definition parseMember : parser Member :=
  node (fun pos (x : Value * list Field) =>
          {| Member_Pos := pos; Member_Value := fst x; Member_Fields := snd x |})
       (v <- parseValue ;;
        fs <- req (rep groupMatchZeroOrMore (lit "." ;;; req parseField)) ;;
        ret (v, fs)).

Definition comparator : parser string :=
  disjunction [lit "<="; lit "<"; lit ">="; lit ">"; lit "!="; lit "="; lit ":"].

Definition out_of_fuel {A} : parser A := fun c => (OutOfFuel, c).

Fixpoint parseExpression (fuel : nat) : parser Expression :=
  match fuel with
  | O => out_of_fuel
  | S n =>
      (* Sequence: @@ ( AND @@ )-star *)
      node (fun pos ss =>
              {| Expression_Pos := pos; Expression_Sequence := ss |})
           (s <- parseSequence n ;;
            ss <- req (rep groupMatchZeroOrMore
                         (lit "AND" ;;; req (parseSequence n))) ;;
            ret (s :: ss))
  end

with parseSequence (fuel : nat) : parser Sequence :=
  match fuel with
  | O => out_of_fuel
  | S n =>
      (* Factor: @@+ *)
      node (fun pos fs => {| Sequence_Pos := pos; Sequence_Factor := fs |})
           (rep groupMatchOneOrMore (parseFactor n))
  end

with parseFactor (fuel : nat) : parser Factor :=
  match fuel with
  | O => out_of_fuel
  | S n =>
      (* Term: @@ ( OR @@ )-star *)
      node (fun pos ts => {| Factor_Pos := pos; Factor_Term := ts |})
           (t <- parseTerm n ;;
            ts <- req (rep groupMatchZeroOrMore (lit "OR" ;;; req (parseTerm n))) ;;
            ret (t :: ts))
  end

with parseTerm (fuel : nat) : parser Term :=
  match fuel with
  | O => out_of_fuel
  | S n =>
      (* Negate: @( NOT | - )?   Simple: @@ *)
      node (fun pos (x : list string * Simple) =>
              {| Term_Pos := pos;
                 Term_Negate := match fst x with [] => false | _ => true end;
                 Term_Simple := snd x |})
           (neg <- rep groupMatchZeroOrOne (disjunction [lit "NOT"; lit "-"]) ;;
            s <- req (parseSimple n) ;;
            ret (neg, s))
  end

with parseSimple (fuel : nat) : parser Simple :=
  match fuel with
  | O => out_of_fuel
  | S n =>
      (* Restriction: @@   Composite: | @@ *)
      node (fun pos (x : Restriction + Composite) =>
              match x with
              | inl r => {| Simple_Pos := pos; Simple_Restriction := Some r;
                            Simple_Composite := None |}
              | inr c => {| Simple_Pos := pos; Simple_Restriction := None;
                            Simple_Composite := Some c |}
              end)
           (disjunction [pmap inl (parseRestriction n); pmap inr (parseComposite n)])
  end

with parseRestriction (fuel : nat) : parser Restriction :=
  match fuel with
  | O => out_of_fuel
  | S n =>
      (* Comparable: @@   Comparator: ( @( <= | < | >= | > | != | = | : )
         Arg: @@ )? *)
      node (fun pos (x : Comparable * list (string * Arg)) =>
              match snd x with
              | [] => {| Restriction_Pos := pos; Restriction_Comparable := fst x;
                         Restriction_Comparator := CompLessEquals;
                         Restriction_Arg := Arg0 |}
              | (op, a) :: _ =>
                  {| Restriction_Pos := pos; Restriction_Comparable := fst x;
                     Restriction_Comparator := Comparator_Capture [op];
                     Restriction_Arg := a |}
              end)
           (c <- parseComparable n ;;
            oa <- req (rep groupMatchZeroOrOne
                         (op <- comparator ;; a <- req (parseArg n) ;; ret (op, a))) ;;
            ret (c, oa))
  end

with parseComparable (fuel : nat) : parser Comparable :=
  match fuel with
  | O => out_of_fuel
  | S n =>
      (* Function: @@   Member: | @@ *)
      node (fun pos (x : Function + Member) =>
              match x with
              | inl f => {| Comparable_Pos := pos; Comparable_Function := Some f;
                            Comparable_Member := None |}
              | inr m => {| Comparable_Pos := pos; Comparable_Function := None;
                            Comparable_Member := Some m |}
              end)
           (disjunction [pmap inl (parseFunction n); pmap inr parseMember])
  end

with parseFunction (fuel : nat) : parser Function :=
  match fuel with
  | O => out_of_fuel
  | S n =>
      (* Name: @@ ( . @@ )-star   Args: ( ( @@ ( , @@ )-star )? ) *)
      node (fun pos (x : list Name * list Arg) =>
              {| Function_Pos := pos; Function_Name := fst x; Function_Args := snd x |})
           (nm <- parseName ;;
            nms <- req (rep groupMatchZeroOrMore (lit "." ;;; req parseName)) ;;
            req (lit "(") ;;;
            args <- req (rep groupMatchZeroOrOne
                           (a <- parseArg n ;;
                            more <- req (rep groupMatchZeroOrMore
                                           (lit "," ;;; req (parseArg n))) ;;
                            ret (a :: more))) ;;
            req (lit ")") ;;;
            ret (nm :: nms, concat args))
  end

with parseComposite (fuel : nat) : parser Composite :=
  match fuel with
  | O => out_of_fuel
  | S n =>
      (* Expression: ( @@ ) *)
      node (fun pos e => {| Composite_Pos := pos; Composite_Expression := e |})
           (lit "(" ;;; e <- req (parseExpression n) ;; req (lit ")") ;;; ret e)
  end

with parseArg (fuel : nat) : parser Arg :=
  match fuel with
  | O => out_of_fuel
  | S n =>
      (* Comparable: @@   Composite: | @@ *)
      node (fun pos (x : Comparable + Composite) =>
              match x with
              | inl c => {| Arg_Pos := pos; Arg_Comparable := c;
                            Arg_Composite := Composite0 |}
              | inr c => {| Arg_Pos := pos; Arg_Comparable := Comparable0;
                            Arg_Composite := c |}
              end)
           (disjunction [pmap inl (parseComparable n); pmap inr (parseComposite n)])
  end.

(** [Expression @@-star] *)
Definition parseFilter (fuel : nat) : parser Filter :=
  node (fun pos es => {| Filter_Pos := pos; Filter_Expression := es |})
       (rep groupMatchZeroOrMore (parseExpression fuel)).

End Grammar.

(** ** Parse

    [DefaultParser.ParseString]: tokenize the whole input, elide white
    space, parse a [Filter], and require the end of the input.  A
    tokenizer error gives no tree; a parse error comes with the tree
    built so far, whose content is not modelled here. *)

Inductive ParseResult : Type :=
| Parsed (ast : Filter)        (* the tree and a nil error *)
| ParseFailure (err : Error)   (* a non-nil partial tree and the error *)
| LexFailure (err : Error)     (* a nil tree and the error *)
| FuelExhausted.               (* the fuel of this model did not suffice *)

Definition elide (ts : list Token) : list Token :=
  filter (fun t => negb (TokenType_eqb (Token_Type t) T_Whitespace)) ts.

Definition eof_token (expression : string) : Token :=
  {| Token_Type := T_EOF; Token_Value := EmptyString;
     Token_Pos := {| Offset := String.length expression |} |}.

Definition Context0 : Context :=
  {| cursor := 0; deepestError := None; deepestErrorDepth := 0 |}.

(** Twelve levels of structs for every token and twelve more: a struct
    is entered again only after a token has been consumed, and there
    are ten structs.  [Parse_always_returns] shows that this is
    enough for every input. *)
Definition parse_fuel (toks : list Token) : nat := 12 * S (length toks).

Definition parseTokens (toks : list Token) (eof : Token) : ParseResult :=
  match parseFilter toks eof (parse_fuel toks) Context0 with
  | (Failed e, _) => ParseFailure e
  | (OutOfFuel, _) => FuelExhausted
  | (Unmatched, ctx) =>
      ParseFailure (DeepestError ctx (UnexpectedToken (Peek toks eof ctx)))
  | (Matched ast, ctx) =>
      match Token_Type (Peek toks eof ctx) with
      | T_EOF => Parsed ast
      | _ => ParseFailure (DeepestError ctx (UnexpectedToken (Peek toks eof ctx)))
      end
  end.

(** [DefaultParser.ParseString] *)
Definition DefaultParser_ParseString (expression : string) : ParseResult :=
  match Lex expression with
  | (_, Some pos) => LexFailure (LexError pos)
  | (ts, None) => parseTokens (elide ts) (eof_token expression)
  end.

Definition Parse (expression : string) : ParseResult :=
  DefaultParser_ParseString expression.

(** The result is one that Parse can return: the fuel sufficed. *)
Definition returned (r : ParseResult) : bool :=
  match r with FuelExhausted => false | _ => true end.

(** ** The visitor (visitor.go)

    A visitor is an object with six hooks.  A hook may change the
    visitor and may return an error: it maps the state [V] of the
    visitor to the new state and [Some err] or [None] (nil). *)

Section Visitor.

Variable E : Type.   (* error values *)
Variable V : Type.   (* states of the visitor *)

Definition action : Type := V -> V * option E.

Record FilterVisitor : Type :=
  { VisitSequence : Sequence -> action;
    VisitFactor : Factor -> action;
    VisitTerm : Term -> action;
    VisitRestriction : Restriction -> action;
    VisitFunction : Function -> action;
    VisitMember : Member -> action }.

(** The base [Visitor]: every hook returns nil. *)
Definition Visitor : FilterVisitor :=
  {| VisitSequence := fun _ v => (v, None);
     VisitFactor := fun _ v => (v, None);
     VisitTerm := fun _ v => (v, None);
     VisitRestriction := fun _ v => (v, None);
     VisitFunction := fun _ v => (v, None);
     VisitMember := fun _ v => (v, None) |}.

Definition nil_ : action := fun v => (v, None).

(** [err := a; if err != nil { return err }; b] *)
Definition and_then (a b : action) : action :=
  fun v =>
    match a v with
    | (v', Some err) => (v', Some err)
    | (v', None) => b v'
    end.

(** [for _, x := range xs { err := x.Accept(visitor); if err != nil
    { return err } }] *)
Fixpoint for_range {A} (accept : A -> action) (xs : list A) : action :=
  match xs with
  | [] => nil_
  | x :: xs' => and_then (accept x) (for_range accept xs')
  end.

Variable visitor : FilterVisitor.

Definition Member_Accept (ast : Member) : action := nil_.

Definition Function_Accept (ast : Function) : action := nil_.

Definition Arg_Accept (ast : Arg) : action := nil_.

Definition Comparable_Accept (ast : Comparable) : action :=
  match Comparable_Function ast with
  | Some f => and_then (Function_Accept f) (VisitFunction visitor f)
  | None =>
      match Comparable_Member ast with
      | Some m => and_then (Member_Accept m) (VisitMember visitor m)
      | None => nil_
      end
  end.

Definition Restriction_Accept (ast : Restriction) : action :=
  and_then (Comparable_Accept (Restriction_Comparable ast))
    (and_then (Arg_Accept (Restriction_Arg ast))
       (VisitRestriction visitor ast)).

(** Modelled from the spec: [Composite.Accept], which [Simple.Accept]
    calls and which visitor.go does not declare.  The spec has the
    Composite opaque: its interior Expression is not traversed and it
    has no hook of its own. *)
Definition Composite_Accept (ast : Composite) : action := nil_.

Definition Simple_Accept (ast : Simple) : action :=
  match Simple_Restriction ast with
  | Some r => Restriction_Accept r
  | None =>
      match Simple_Composite ast with
      | Some c => Composite_Accept c
      | None => nil_
      end
  end.

Definition Term_Accept (ast : Term) : action :=
  and_then (Simple_Accept (Term_Simple ast)) (VisitTerm visitor ast).

Definition Factor_Accept (ast : Factor) : action :=
  and_then (for_range Term_Accept (Factor_Term ast)) (VisitFactor visitor ast).

Definition Sequence_Accept (ast : Sequence) : action :=
  and_then (for_range Factor_Accept (Sequence_Factor ast))
    (VisitSequence visitor ast).

Definition Expression_Accept (ast : Expression) : action :=
  for_range Sequence_Accept (Expression_Sequence ast).

Definition Filter_Accept (ast : Filter) : action :=
  for_range Expression_Accept (Filter_Expression ast).

Definition Visit (ast : Filter) : action := Filter_Accept ast.

(** *** The traversal as a list of hook calls

    The order in which the spec has the hooks called, as a list; [run]
    calls them one after the other and stops at the first error. *)

Inductive Hook : Type :=
| OnSequence (ast : Sequence)
| OnFactor (ast : Factor)
| OnTerm (ast : Term)
| OnRestriction (ast : Restriction)
| OnFunction (ast : Function)
| OnMember (ast : Member).

Definition invoke (h : Hook) : action :=
  match h with
  | OnSequence ast => VisitSequence visitor ast
  | OnFactor ast => VisitFactor visitor ast
  | OnTerm ast => VisitTerm visitor ast
  | OnRestriction ast => VisitRestriction visitor ast
  | OnFunction ast => VisitFunction visitor ast
  | OnMember ast => VisitMember visitor ast
  end.

Fixpoint run (hs : list Hook) : action :=
  match hs with
  | [] => nil_
  | h :: hs' => and_then (invoke h) (run hs')
  end.

End Visitor.

Arguments Visitor {E V}.
Arguments nil_ {E V} v.
Arguments and_then {E V} a b v.
Arguments for_range {E V A} accept xs v.
Arguments Member_Accept {E V} ast v.
Arguments Function_Accept {E V} ast v.
Arguments Arg_Accept {E V} ast v.
Arguments Composite_Accept {E V} ast v.
Arguments Comparable_Accept {E V} visitor ast v.
Arguments Restriction_Accept {E V} visitor ast v.
Arguments Simple_Accept {E V} visitor ast v.
Arguments Term_Accept {E V} visitor ast v.
Arguments Factor_Accept {E V} visitor ast v.
Arguments Sequence_Accept {E V} visitor ast v.
Arguments Expression_Accept {E V} visitor ast v.
Arguments Filter_Accept {E V} visitor ast v.
Arguments Visit {E V} visitor ast v.
Arguments invoke {E V} visitor h v.
Arguments run {E V} visitor hs v.

(** A Comparable that holds a Function has [VisitFunction] called on
    it, one that holds a Member has [VisitMember] called on it. *)
Definition schedule_Comparable (ast : Comparable) : list Hook :=
  match Comparable_Function ast with
  | Some f => [OnFunction f]
  | None =>
      match Comparable_Member ast with
      | Some m => [OnMember m]
      | None => []
      end
  end.

(** The Comparable, then [VisitRestriction]; the Arg is not traversed. *)
Definition schedule_Restriction (ast : Restriction) : list Hook :=
  schedule_Comparable (Restriction_Comparable ast) ++ [OnRestriction ast].

(** The Restriction if there is one; a Composite is opaque. *)
Definition schedule_Simple (ast : Simple) : list Hook :=
  match Simple_Restriction ast with
  | Some r => schedule_Restriction r
  | None => []
  end.

(** The Simple, then [VisitTerm]. *)
Definition schedule_Term (ast : Term) : list Hook :=
  schedule_Simple (Term_Simple ast) ++ [OnTerm ast].

(** Every Term in order, then [VisitFactor]. *)
Definition schedule_Factor (ast : Factor) : list Hook :=
  flat_map schedule_Term (Factor_Term ast) ++ [OnFactor ast].

(** Every Factor in order, then [VisitSequence]. *)
Definition schedule_Sequence (ast : Sequence) : list Hook :=
  flat_map schedule_Factor (Sequence_Factor ast) ++ [OnSequence ast].

(** Every child in order; no hook of its own. *)
Definition schedule_Expression (ast : Expression) : list Hook :=
  flat_map schedule_Sequence (Expression_Sequence ast).

Definition schedule_Filter (ast : Filter) : list Hook :=
  flat_map schedule_Expression (Filter_Expression ast).

(** *** Addresses of nodes

    A node of a tree is named by the path of fields (and indices) that
    leads to it from the root, as a pointer names it in the Go tree. *)

Inductive step : Type :=
| Expression_at (i : nat)     (* Filter.Expression[i] *)
| Sequence_at (i : nat)       (* Expression.Sequence[i] *)
| Factor_at (i : nat)         (* Sequence.Factor[i] *)
| Term_at (i : nat)           (* Factor.Term[i] *)
| Simple_of                   (* Term.Simple *)
| Restriction_of              (* Simple.Restriction *)
| Composite_of                (* Simple.Composite, Arg.Composite *)
| Interior_of                 (* Composite.Expression *)
| Comparable_of               (* Restriction.Comparable, Arg.Comparable *)
| Arg_of                      (* Restriction.Arg *)
| Function_of                 (* Comparable.Function *)
| Member_of                   (* Comparable.Member *)
| Name_at (i : nat)           (* Function.Name[i] *)
| Args_at (i : nat)           (* Function.Args[i] *)
| Value_of                    (* Member.Value, Field.Value *)
| Fields_at (i : nat).        (* Member.Fields[i] *)

Inductive node : Type :=
| N_Filter (ast : Filter)
| N_Expression (ast : Expression)
| N_Sequence (ast : Sequence)
| N_Factor (ast : Factor)
| N_Term (ast : Term)
| N_Simple (ast : Simple)
| N_Restriction (ast : Restriction)
| N_Composite (ast : Composite)
| N_Comparable (ast : Comparable)
| N_Arg (ast : Arg)
| N_Function (ast : Function)
| N_Member (ast : Member)
| N_Name (ast : Name)
| N_Value (ast : Value)
| N_Field (ast : Field).

Definition child (n : node) (s : step) : option node :=
  match n, s with
  | N_Filter ast, Expression_at i =>
      option_map N_Expression (nth_error (Filter_Expression ast) i)
  | N_Expression ast, Sequence_at i =>
      option_map N_Sequence (nth_error (Expression_Sequence ast) i)
  | N_Sequence ast, Factor_at i =>
      option_map N_Factor (nth_error (Sequence_Factor ast) i)
  | N_Factor ast, Term_at i =>
      option_map N_Term (nth_error (Factor_Term ast) i)
  | N_Term ast, Simple_of => Some (N_Simple (Term_Simple ast))
  | N_Simple ast, Restriction_of =>
      option_map N_Restriction (Simple_Restriction ast)
  | N_Simple ast, Composite_of => option_map N_Composite (Simple_Composite ast)
  | N_Composite ast, Interior_of => Some (N_Expression (Composite_Expression ast))
  | N_Restriction ast, Comparable_of =>
      Some (N_Comparable (Restriction_Comparable ast))
  | N_Restriction ast, Arg_of => Some (N_Arg (Restriction_Arg ast))
  | N_Comparable ast, Function_of =>
      option_map N_Function (Comparable_Function ast)
  | N_Comparable ast, Member_of => option_map N_Member (Comparable_Member ast)
  | N_Function ast, Name_at i => option_map N_Name (nth_error (Function_Name ast) i)
  | N_Function ast, Args_at i => option_map N_Arg (nth_error (Function_Args ast) i)
  | N_Arg ast, Comparable_of => Some (N_Comparable (Arg_Comparable ast))
  | N_Arg ast, Composite_of => Some (N_Composite (Arg_Composite ast))
  | N_Member ast, Value_of => Some (N_Value (Member_Value ast))
  | N_Member ast, Fields_at i =>
      option_map N_Field (nth_error (Member_Fields ast) i)
  | N_Field ast, Value_of => option_map N_Value (Field_Value ast)
  | _, _ => None
  end.

Fixpoint resolve (n : node) (path : list step) : option node :=
  match path with
  | [] => Some n
  | s :: path' =>
      match child n s with
      | Some n' => resolve n' path'
      | None => None
      end
  end.

Definition hooked (h : Hook) : node :=
  match h with
  | OnSequence ast => N_Sequence ast
  | OnFactor ast => N_Factor ast
  | OnTerm ast => N_Term ast
  | OnRestriction ast => N_Restriction ast
  | OnFunction ast => N_Function ast
  | OnMember ast => N_Member ast
  end.

(** The step that enters the interior Expression of a Composite. *)
Definition is_interior (s : step) : bool :=
  match s with Interior_of => true | _ => false end.

(** The address is inside the interior Expression of a Composite. *)
Definition in_composite (path : list step) : bool := existsb is_interior path.

(** The steps that enter the Arg of a Restriction, the Name list or the
    Args of a Function, the Fields of a Member. *)
Definition is_detail (s : step) : bool :=
  match s with
  | Arg_of | Name_at _ | Args_at _ | Fields_at _ => true
  | _ => false
  end.

Definition in_detail (path : list step) : bool := existsb is_detail path.

(** The hook calls of a traversal, each with the address, below the
    node traversed, of the node it is called on. *)
Definition below (s : step) (hs : list (list step * Hook)) : list (list step * Hook) :=
  map (fun ph => (s :: fst ph, snd ph)) hs.

Fixpoint indexed {A} (at_ : nat -> step) (sub : A -> list (list step * Hook))
    (i : nat) (xs : list A) : list (list step * Hook) :=
  match xs with
  | [] => []
  | x :: xs' => below (at_ i) (sub x) ++ indexed at_ sub (S i) xs'
  end.

Definition stops_Comparable (ast : Comparable) : list (list step * Hook) :=
  match Comparable_Function ast with
  | Some f => [([Function_of], OnFunction f)]
  | None =>
      match Comparable_Member ast with
      | Some m => [([Member_of], OnMember m)]
      | None => []
      end
  end.

Definition stops_Restriction (ast : Restriction) : list (list step * Hook) :=
  below Comparable_of (stops_Comparable (Restriction_Comparable ast))
  ++ [([], OnRestriction ast)].

Definition stops_Simple (ast : Simple) : list (list step * Hook) :=
  match Simple_Restriction ast with
  | Some r => below Restriction_of (stops_Restriction r)
  | None => []
  end.

Definition stops_Term (ast : Term) : list (list step * Hook) :=
  below Simple_of (stops_Simple (Term_Simple ast)) ++ [([], OnTerm ast)].

Definition stops_Factor (ast : Factor) : list (list step * Hook) :=
  indexed Term_at stops_Term 0 (Factor_Term ast) ++ [([], OnFactor ast)].

Definition stops_Sequence (ast : Sequence) : list (list step * Hook) :=
  indexed Factor_at stops_Factor 0 (Sequence_Factor ast) ++ [([], OnSequence ast)].

Definition stops_Expression (ast : Expression) : list (list step * Hook) :=
  indexed Sequence_at stops_Sequence 0 (Expression_Sequence ast).

Definition stops_Filter (ast : Filter) : list (list step * Hook) :=
  indexed Expression_at stops_Expression 0 (Filter_Expression ast).

(** ** Trees of the examples

    Short names for the trees that the examples of the package parse
    to.  [at_ n] is the position at byte offset [n]. *)

Definition at_ (n : nat) : Position := {| Offset := n |}.

Definition text_value (n : nat) (t : string) : Value :=
  {| Value_Pos := at_ n; Value_Text := t; Value_String := EmptyString |}.

Definition string_value (n : nat) (s : string) : Value :=
  {| Value_Pos := at_ n; Value_Text := EmptyString; Value_String := s |}.

Definition value_field (v : Value) : Field :=
  {| Field_Pos := Value_Pos v; Field_Value := Some v; Field_Keyword := EmptyString |}.

Definition text_name (n : nat) (t : string) : Name :=
  {| Name_Pos := at_ n; Name_Text := t; Name_Keyword := EmptyString |}.

Definition member (v : Value) (fs : list Field) : Member :=
  {| Member_Pos := Value_Pos v; Member_Value := v; Member_Fields := fs |}.

Definition member_comparable (m : Member) : Comparable :=
  {| Comparable_Pos := Member_Pos m; Comparable_Function := None;
     Comparable_Member := Some m |}.

Definition function_comparable (f : Function) : Comparable :=
  {| Comparable_Pos := Function_Pos f; Comparable_Function := Some f;
     Comparable_Member := None |}.

Definition comparable_arg (c : Comparable) : Arg :=
  {| Arg_Pos := Comparable_Pos c; Arg_Comparable := c; Arg_Composite := Composite0 |}.

(** A restriction without operator: the comparator and the argument
    keep their zero values. *)
Definition global_restriction (c : Comparable) : Restriction :=
  {| Restriction_Pos := Comparable_Pos c; Restriction_Comparable := c;
     Restriction_Comparator := CompLessEquals; Restriction_Arg := Arg0 |}.

Definition restriction_term (r : Restriction) : Term :=
  {| Term_Pos := Restriction_Pos r; Term_Negate := false;
     Term_Simple := {| Simple_Pos := Restriction_Pos r;
                       Simple_Restriction := Some r;
                       Simple_Composite := None |} |}.

Definition term_factor (t : Term) : Factor :=
  {| Factor_Pos := Term_Pos t; Factor_Term := [t] |}.

(** The factor of a bare word. *)
Definition word (n : nat) (t : string) : Factor :=
  term_factor (restriction_term
    (global_restriction (member_comparable (member (text_value n t) [])))).

Definition sequence_of (fs : list Factor) : Sequence :=
  {| Sequence_Pos := match fs with f :: _ => Factor_Pos f | [] => Position0 end;
     Sequence_Factor := fs |}.

Definition expression_of (ss : list Sequence) : Expression :=
  {| Expression_Pos := match ss with s :: _ => Sequence_Pos s | [] => Position0 end;
     Expression_Sequence := ss |}.

Definition filter_of (es : list Expression) : Filter :=
  {| Filter_Pos := match es with e :: _ => Expression_Pos e | [] => Position0 end;
     Filter_Expression := es |}.

(** The filter that is one restriction. *)
Definition restriction_filter (r : Restriction) : Filter :=
  filter_of [expression_of [sequence_of [term_factor (restriction_term r)]]].

(** The input of the mixed-quote example: a single quote, abc, a double
    quote. *)
Definition sq_abc_dq : string :=
  String squote ("abc" ++ String dquote EmptyString)%string.

(** A visitor that logs the name of every hook called on it and whose
    [VisitFactor] returns an error. *)
Definition failing_factor_visitor : FilterVisitor string (list string) :=
  {| VisitSequence := fun _ log => ((log ++ ["VisitSequence"])%list, None);
     VisitFactor := fun _ log => ((log ++ ["VisitFactor"])%list, Some "no factors");
     VisitTerm := fun _ log => ((log ++ ["VisitTerm"])%list, None);
     VisitRestriction := fun _ log => ((log ++ ["VisitRestriction"])%list, None);
     VisitFunction := fun _ log => ((log ++ ["VisitFunction"])%list, None);
     VisitMember := fun _ log => ((log ++ ["VisitMember"])%list, None) |}.

(** The tree of [a b]. *)
Definition two_words : Filter :=
  filter_of [expression_of [sequence_of [word 0 "a"; word 2 "b"]]].

(** ** Dotted chains

    The input made of the words [w :: ws] joined by dots, its tokens and
    the Member it spells. *)

Fixpoint all_word (w : string) : bool :=
  match w with
  | EmptyString => true
  | String c w' => Regex.word_char c && all_word w'
  end.

(** A non-empty run of letters, digits and underscores. *)
Definition identifier (w : string) : bool :=
  match w with EmptyString => false | _ => all_word w end.

Definition dotted (ws : list string) : string := String.concat "." ws.

Definition text_token (off : nat) (w : string) : Token :=
  {| Token_Type := T_Text; Token_Value := w; Token_Pos := at_ off |}.

Definition dot_token (off : nat) : Token :=
  {| Token_Type := T_Operators; Token_Value := "."; Token_Pos := at_ off |}.

Fixpoint chain_tail_tokens (off : nat) (ws : list string) : list Token :=
  match ws with
  | [] => []
  | w :: ws' =>
      dot_token off :: text_token (S off) w
        :: chain_tail_tokens (S off + String.length w) ws'
  end.

Definition chain_tokens (w : string) (ws : list string) : list Token :=
  text_token 0 w :: chain_tail_tokens (String.length w) ws.

Fixpoint chain_fields (off : nat) (ws : list string) : list Field :=
  match ws with
  | [] => []
  | w :: ws' =>
      value_field (text_value (S off) w)
        :: chain_fields (S off + String.length w) ws'
  end.

Fixpoint chain_names (off : nat) (ws : list string) : list Name :=
  match ws with
  | [] => []
  | w :: ws' =>
      text_name (S off) w :: chain_names (S off + String.length w) ws'
  end.

(** The Member with head [w] and the Fields [ws]. *)
Definition chain_member (w : string) (ws : list string) : Member :=
  member (text_value 0 w) (chain_fields (String.length w) ws).

(** ** What a parser does at a cursor

    Which alternative is taken depends on the cursor of the context
    only.  [gives p i a j]: from any context at cursor [i], [p] matches
    with value [a] and leaves the cursor at [j]; [misses p i]: [p] does
    not match and consumes nothing; [fails p i j]: [p] fails, the
    cursor being left at [j]. *)

Section Judgments.

Variable toks : list Token.
Variable eof : Token.

Definition gives {A} (p : parser A) (i : nat) (a : A) (j : nat) : Prop :=
  forall c, cursor c = i ->
    exists c', p c = (Matched a, c') /\ cursor c' = j.

Definition misses {A} (p : parser A) (i : nat) : Prop :=
  forall c, cursor c = i ->
    exists c', p c = (Unmatched, c') /\ cursor c' = i.

Definition fails {A} (p : parser A) (i j : nat) : Prop :=
  forall c, cursor c = i ->
    exists e c', p c = (Failed e, c') /\ cursor c' = j.

(** The token at cursor [i]. *)
Definition token_at (i : nat) : Token := nth i toks eof.

End Judgments.

(** A token that starts nothing: neither a Text nor a String, and none
    of the words that open a Term, a Composite or a Name. *)
Definition inert (t : Token) : Prop :=
  Token_Type t <> T_Text /\ Token_Type t <> T_String /\
  ~ In (Token_Value t) ["AND"; "OR"; "NOT"; "-"; "("].

Section Chains.

Variable toks : list Token.
Variable eof : Token.

(** From cursor [i] on, the tokens are those of the dotted words [ws],
    the first dot standing at offset [off]; then the input ends. *)
Fixpoint tail_at (i off : nat) (ws : list string) : Prop :=
  match ws with
  | [] => token_at toks eof i = eof
  | w :: ws' =>
      token_at toks eof i = dot_token off /\
      token_at toks eof (S i) = text_token (S off) w /\
      tail_at (S (S i)) (S off + String.length w) ws'
  end.

(** The bodies of the repetitions of a Function and of a Member. *)
Definition dot_Name : parser Name :=
  bind (literal toks eof ".") (fun _ => must toks eof (parseName toks eof)).

Definition dot_Field : parser Field :=
  bind (literal toks eof ".") (fun _ => must toks eof (parseField toks eof)).

End Chains.

(** ** Parsers that behave

    [good strict p i]: from any context at cursor [i], [p] does not run
    out of fuel, never moves the cursor back nor past the end of the
    tokens, and, when [strict], consumes a token when it matches. *)

Section Good.

Variable toks : list Token.
Variable eof : Token.

Definition good {A} (strict : bool) (p : parser A) (i : nat) : Prop :=
  forall c, cursor c = i ->
    match p c with
    | (OutOfFuel, _) => False
    | (Matched _, c') =>
        (if strict then i < cursor c' else i <= cursor c') /\ cursor c' <= length toks
    | (_, c') => i <= cursor c' /\ cursor c' <= length toks
    end.

End Good.

(** [firm p i]: from any context at cursor [i], [p] matches, or fails
    beyond the look-ahead: a repetition or a disjunction that tries [p]
    there cannot fall back on something else.  [sure p]: [p] never just
    fails to match. *)
Definition firm {A} (p : parser A) (i : nat) : Prop :=
  forall c, cursor c = i ->
    match p c with
    | (Unmatched, _) => False
    | (Failed _, b) => i + lookahead < cursor b
    | _ => True
    end.

Definition sure {A} (p : parser A) : Prop :=
  forall c, fst (p c) <> Unmatched.

(** A word that is a value and nothing else where a Term starts. *)
Definition plain_word (t : Token) : Prop :=
  Token_Type t = T_Text /\ Token_Value t <> "NOT" /\ Token_Value t <> "-".

(** [sound avoid root ph]: the address of the call [ph] leads, from
    [root], to the node the hook is called on, and uses no step of
    [avoid]. *)
Definition sound (avoid : step -> bool) (root : node) (ph : list step * Hook) : Prop :=
  resolve root (fst ph) = Some (hooked (snd ph)) /\ existsb avoid (fst ph) = false.

(** ** The words of a rule

    [denotes r w]: the rule [r] can span the word [w].  A word boundary
    spans nothing; where it may stand is not recorded here. *)

Inductive star (P : string -> Prop) : string -> Prop :=
| star_nil : star P EmptyString
| star_more u v : P u -> star P v -> star P (u ++ v)%string.

Fixpoint denotes (r : Regex.regex) (w : string) : Prop :=
  match r with
  | Regex.Eps => w = EmptyString
  | Regex.Chars p => exists c, w = String c EmptyString /\ p c = true
  | Regex.Cat r1 r2 => exists u v, w = (u ++ v)%string /\ denotes r1 u /\ denotes r2 v
  | Regex.Or r1 r2 => denotes r1 w \/ denotes r2 w
  | Regex.Star r1 => star (denotes r1) w
  | Regex.WordBoundary => w = EmptyString
  end.

(** The input that a list of tokens spells. *)
Fixpoint spelling (ts : list Token) : string :=
  match ts with
  | [] => EmptyString
  | t :: ts' => (Token_Value t ++ spelling ts')%string
  end.

(** A non-empty run of white space. *)
Fixpoint all_space (w : string) : bool :=
  match w with
  | EmptyString => true
  | String c w' => is_space c && all_space w'
  end.

Definition blank (w : string) : bool :=
  match w with EmptyString => false | _ => all_space w end.

(** The twelve operators of the Operators rule. *)
Definition operators : list string :=
  ["<="; ">="; "!="; "="; ":"; "."; "<"; ">"; "("; ")"; ","; "-"].

(** Every quote of [w] stands after a backslash; [escaped] says whether
    a backslash stands before [w]. *)
Fixpoint guarded (escaped : bool) (w : string) : bool :=
  match w with
  | EmptyString => true
  | String c w' =>
      (negb (is_quote c) || escaped) && guarded (Ascii.eqb c backslash) w'
  end.

(** [w] is [inner] between two quotes. *)
Definition quoted (w inner : string) : Prop :=
  exists q1 q2, is_quote q1 = true /\ is_quote q2 = true /\
    w = String q1 (inner ++ String q2 EmptyString)%string.

(** What a token of each type reads. *)
Definition well_spelt (t : Token) : Prop :=
  match Token_Type t with
  | T_Text => identifier (Token_Value t) = true
  | T_String => exists inner, quoted (Token_Value t) inner /\ guarded false inner = true
  | T_Whitespace => blank (Token_Value t) = true
  | T_Operators => In (Token_Value t) operators
  | T_Keyword | T_EOF => False
  end.

(** A character that a Text, a Whitespace or an Operators token can
    start with. *)
Definition plain_char (c : ascii) : bool :=
  Regex.word_char c || is_space c || is_operator c.

Fixpoint all_plain (s : string) : bool :=
  match s with
  | EmptyString => true
  | String c s' => plain_char c && all_plain s'
  end.

Fixpoint count_quotes (s : string) : nat :=
  match s with
  | EmptyString => 0
  | String c s' => (if is_quote c then 1 else 0) + count_quotes s'
  end.

(** No two tokens in a row are both of type [ty]. *)
Fixpoint no_two (ty : TokenType) (ts : list Token) : Prop :=
  match ts with
  | t1 :: (t2 :: _) as ts' =>
      ~ (Token_Type t1 = ty /\ Token_Type t2 = ty) /\ no_two ty ts'
  | _ => True
  end.

(** The rule that a first match of [Lexer] is a match of. *)
Definition rule_of (ty : TokenType) : regex :=
  match ty with
  | T_Text => TextPattern
  | T_String => StringPattern
  | T_Keyword => KeywordPattern
  | T_Whitespace => WhitespacePattern
  | T_Operators => OperatorsPattern
  | T_EOF => Eps
  end.

(** ** Lexemes

    A lexeme is the type and the text of a token; [place] lays lexemes
    end to end, each at the offset where it then starts. *)

Definition lexeme : Type := (TokenType * string)%type.

Fixpoint text_of (ls : list lexeme) : string :=
  match ls with
  | [] => EmptyString
  | l :: ls' => (snd l ++ text_of ls')%string
  end.

Fixpoint place (off : nat) (ls : list lexeme) : list Token :=
  match ls with
  | [] => []
  | l :: ls' =>
      {| Token_Type := fst l; Token_Value := snd l; Token_Pos := at_ off |}
        :: place (off + String.length (snd l)) ls'
  end.

Definition starts_with (p : ascii -> bool) (s : string) : bool :=
  match s with EmptyString => false | String c _ => p c end.

(** The lexeme is a word, white space or an operator, and what
    follows does not prolong it: no word character after a word, no
    white space after white space, no [=] after [<], [>]. *)
Definition stands (l : lexeme) (rest : string) : bool :=
  match fst l with
  | T_Text => identifier (snd l) && negb (starts_with Regex.word_char rest)
  | T_Whitespace => blank (snd l) && negb (starts_with is_space rest)
  | T_Operators =>
      existsb (String.eqb (snd l)) operators
      && negb (((snd l =? "<")%string || (snd l =? ">")%string)
               && starts_with (Ascii.eqb "=") rest)
  | _ => false
  end.

Fixpoint canonical (ls : list lexeme) : bool :=
  match ls with
  | [] => true
  | l :: ls' => stands l (text_of ls') && canonical ls'
  end.

(** ** The shape of the trees that are parsed

    What holds of every node of a tree that [Parse] returns.  The
    alternative of an Arg that was not taken, and the Arg of a
    Restriction without operator, keep their zero values, which the
    conditions below allow. *)

Definition is_empty (s : string) : bool :=
  match s with EmptyString => true | _ => false end.

(** [w] goes on to a closing quote, and every quote before that one
    stands after a backslash. *)
Fixpoint closes (escaped : bool) (w : string) : bool :=
  match w with
  | EmptyString => false
  | String c EmptyString => is_quote c
  | String c w' =>
      (negb (is_quote c) || escaped) && closes (Ascii.eqb c backslash) w'
  end.

(** A string between its two quotes. *)
Definition is_string (w : string) : bool :=
  match w with
  | EmptyString => false
  | String q w' => is_quote q && closes false w'
  end.

(** The Text is a word and the String is empty, or the Text is empty
    and the String is a string with its quotes. *)
Definition shaped_Value (v : Value) : bool :=
  identifier (Value_Text v) && is_empty (Value_String v)
  || is_empty (Value_Text v) && is_string (Value_String v).

(** The Value is set and the Keyword is empty. *)
Definition shaped_Field (f : Field) : bool :=
  is_empty (Field_Keyword f)
  && match Field_Value f with Some v => shaped_Value v | None => false end.

(** The Text is a word and the Keyword is empty. *)
Definition shaped_Name (n : Name) : bool :=
  is_empty (Name_Keyword n) && identifier (Name_Text n).

Definition shaped_Member (m : Member) : bool :=
  shaped_Value (Member_Value m) && forallb shaped_Field (Member_Fields m).

(** The Comparable holds a Function or a Member and not both. *)
Definition set_Comparable (c : Comparable) : bool :=
  match Comparable_Function c, Comparable_Member c with
  | Some _, None | None, Some _ => true
  | _, _ => false
  end.

(** The Composite holds an Expression that was parsed. *)
Definition set_Composite (c : Composite) : bool :=
  match Expression_Sequence (Composite_Expression c) with
  | [] => false
  | _ :: _ => true
  end.

(** The Arg holds a Comparable or a Composite and not both. *)
Definition set_Arg (a : Arg) : bool :=
  xorb (set_Comparable (Arg_Comparable a)) (set_Composite (Arg_Composite a)).

Definition some_of {A} (xs : list A) : bool :=
  match xs with [] => false | _ :: _ => true end.

Fixpoint shaped_Expression (e : Expression) : bool :=
  match e with
  | Build_Expression _ ss =>
      (length ss <=? 1) && forallb shaped_Sequence ss
  end

with shaped_Sequence (s : Sequence) : bool :=
  match s with
  | Build_Sequence _ fs => some_of fs && forallb shaped_Factor fs
  end

with shaped_Factor (f : Factor) : bool :=
  match f with
  | Build_Factor _ ts => some_of ts && forallb shaped_Term ts
  end

with shaped_Term (t : Term) : bool :=
  match t with
  | Build_Term _ _ s => shaped_Simple s
  end

with shaped_Simple (s : Simple) : bool :=
  match s with
  | Build_Simple _ (Some r) None => shaped_Restriction r
  | Build_Simple _ None (Some c) => set_Composite c && shaped_Composite c
  | Build_Simple _ _ _ => false
  end

with shaped_Restriction (r : Restriction) : bool :=
  match r with
  | Build_Restriction _ c _ a =>
      set_Comparable c && shaped_Comparable c
      && negb (set_Comparable (Arg_Comparable a) && set_Composite (Arg_Composite a))
      && shaped_Arg a
  end

with shaped_Comparable (c : Comparable) : bool :=
  match c with
  | Build_Comparable _ (Some f) None => shaped_Function f
  | Build_Comparable _ None (Some m) => shaped_Member m
  | Build_Comparable _ None None => true
  | Build_Comparable _ (Some _) (Some _) => false
  end

with shaped_Function (f : Function) : bool :=
  match f with
  | Build_Function _ ns args =>
      some_of ns && forallb shaped_Name ns
      && forallb set_Arg args && forallb shaped_Arg args
  end

with shaped_Composite (c : Composite) : bool :=
  match c with
  | Build_Composite _ e => shaped_Expression e
  end

with shaped_Arg (a : Arg) : bool :=
  match a with
  | Build_Arg _ c k => shaped_Comparable c && shaped_Composite k
  end.

Definition shaped_Filter (ast : Filter) : bool :=
  forallb (fun e => (length (Expression_Sequence e) =? 1) && shaped_Expression e)
          (Filter_Expression ast).

Definition shaped (n : node) : bool :=
  match n with
  | N_Filter ast => shaped_Filter ast
  | N_Expression ast => shaped_Expression ast
  | N_Sequence ast => shaped_Sequence ast
  | N_Factor ast => shaped_Factor ast
  | N_Term ast => shaped_Term ast
  | N_Simple ast => shaped_Simple ast
  | N_Restriction ast => shaped_Restriction ast
  | N_Composite ast => shaped_Composite ast
  | N_Comparable ast => shaped_Comparable ast
  | N_Arg ast => shaped_Arg ast
  | N_Function ast => shaped_Function ast
  | N_Member ast => shaped_Member ast
  | N_Name ast => shaped_Name ast
  | N_Value ast => shaped_Value ast
  | N_Field ast => shaped_Field ast
  end.

(** [builds P p i]: whatever [p] matches from a context at cursor [i]
    satisfies [P]. *)
Definition builds {A} (P : A -> Prop) (p : parser A) (i : nat) : Prop :=
  forall c, cursor c = i -> forall a c', p c = (Matched a, c') -> P a.

(** ** Rounds of a repetition

    [repeats body i vs j]: from cursor [i] the rounds of [body] match
    the values [vs] one after the other and leave the cursor at [j],
    where one more round does not match, or fails within the
    look-ahead. *)

Inductive repeats {A} (body : parser A) : nat -> list A -> nat -> Prop :=
| repeats_done i :
    misses body i \/ (exists k, fails body i k /\ k <= i + lookahead) ->
    repeats body i [] i
| repeats_more i v k vs j :
    gives body i v k -> repeats body k vs j -> repeats body i (v :: vs) j.

(** ** Inputs made of words

    Words separated by a blank and words separated by [OR]: their
    lexemes, their tokens once the white space is elided, and the
    Factors and Terms they parse to.  [off] is the offset of the first
    token. *)

Definition space : lexeme := (T_Whitespace, " ").

Definition spaced (ws : list string) : list lexeme :=
  flat_map (fun w => [(T_Text, w); space]) ws.

Fixpoint word_tokens (off : nat) (ws : list string) : list Token :=
  match ws with
  | [] => []
  | w :: ws' => text_token off w :: word_tokens (off + String.length w + 1) ws'
  end.

(** The restriction of a bare word. *)
Definition word_restriction (off : nat) (w : string) : Restriction :=
  global_restriction (member_comparable (member (text_value off w) [])).

Fixpoint word_factors (off : nat) (ws : list string) : list Factor :=
  match ws with
  | [] => []
  | w :: ws' => word off w :: word_factors (off + String.length w + 1) ws'
  end.

Definition alternatives (ws : list string) : list lexeme :=
  flat_map (fun w => [space; (T_Text, "OR"); space; (T_Text, w)]) ws.

Fixpoint alternative_tokens (off : nat) (ws : list string) : list Token :=
  match ws with
  | [] => []
  | w :: ws' =>
      text_token (off + 1) "OR" :: text_token (off + 4) w
        :: alternative_tokens (off + 4 + String.length w) ws'
  end.

Fixpoint alternative_terms (off : nat) (ws : list string) : list Term :=
  match ws with
  | [] => []
  | w :: ws' =>
      restriction_term (word_restriction (off + 4) w)
        :: alternative_terms (off + 4 + String.length w) ws'
  end.

Section WordsAt.

Variable toks : list Token.
Variable eof : Token.

(** From cursor [i] on, the tokens are the words [ws], the first at
    offset [off]; then comes the token [close]. *)
Variable close : Token.

Fixpoint words_at (i off : nat) (ws : list string) : Prop :=
  match ws with
  | [] => token_at toks eof i = close
  | w :: ws' =>
      token_at toks eof i = text_token off w /\
      words_at (S i) (off + String.length w + 1) ws'
  end.

(** From cursor [i] on, the tokens are [OR] and a word, for every word
    of [ws]; then the input ends.  [off] is the offset at which the
    word before ends. *)
Fixpoint alternatives_at (i off : nat) (ws : list string) : Prop :=
  match ws with
  | [] => token_at toks eof i = eof
  | w :: ws' =>
      token_at toks eof i = text_token (off + 1) "OR" /\
      token_at toks eof (S i) = text_token (off + 4) w /\
      alternatives_at (S (S i)) (off + 4 + String.length w) ws'
  end.

End WordsAt.

(** A word that is a value where a Term starts, and one that is a
    value wherever it stands in a Sequence. *)
Definition value_word (w : string) : Prop :=
  identifier w = true /\ w <> "NOT".

Definition bare_word (w : string) : Prop :=
  value_word w /\ w <> "OR".

(** The seven comparison operators. *)
Definition comparators : list string := ["<="; "<"; ">="; ">"; "!="; "="; ":"].

(** A token after which a word is a complete Term: the word does not
    go on as a Member, as a Function or as a comparison. *)
Definition ends_term (t : Token) : Prop :=
  ~ In (Token_Value t) ("." :: "(" :: comparators).

(** White space that may be there or not. *)
Definition gap (sp : string) : list lexeme :=
  match sp with EmptyString => [] | _ => [(T_Whitespace, sp)] end.

(** The lexemes of a comparison of two words, with the white space
    [sp1] before the operator and [sp2] after it. *)
Definition comparison (a sp1 op sp2 b : string) : list lexeme :=
  (T_Text, a) :: gap sp1 ++ (T_Operators, op) :: gap sp2 ++ [(T_Text, b)].

(** The Restriction that compares the word [a] at offset 0 with the
    word [b] at offset [off]. *)
Definition word_comparison (a op : string) (off : nat) (b : string) : Restriction :=
  {| Restriction_Pos := at_ 0;
     Restriction_Comparable := member_comparable (member (text_value 0 a) []);
     Restriction_Comparator := comparatorMap op;
     Restriction_Arg :=
       comparable_arg (member_comparable (member (text_value off b) [])) |}.

(** The Term that negates the word [w] at offset [off]. *)
Definition negated_word (off : nat) (w : string) : Term :=
  {| Term_Pos := at_ 0; Term_Negate := true;
     Term_Simple := Term_Simple (restriction_term (word_restriction off w)) |}.

(** ** Calls

    The lexemes of the call [f(a1,a2,...)] of a function on words, and
    the arguments it parses to. *)

Definition operator_token (off : nat) (op : string) : Token :=
  {| Token_Type := T_Operators; Token_Value := op; Token_Pos := at_ off |}.

Definition more_arguments (ws : list string) : list lexeme :=
  flat_map (fun w => [(T_Operators, ","); (T_Text, w)]) ws.

Definition arguments (ws : list string) : list lexeme :=
  match ws with
  | [] => []
  | w :: ws' => (T_Text, w) :: more_arguments ws'
  end.

Definition call (f : string) (ws : list string) : list lexeme :=
  (T_Text, f) :: (T_Operators, "(") :: arguments ws ++ [(T_Operators, ")")].

(** The Arg that is the word [w] at offset [off]. *)
Definition word_arg (off : nat) (w : string) : Arg :=
  comparable_arg (member_comparable (member (text_value off w) [])).

(** The Args after the first: [off] is the offset of the comma. *)
Fixpoint more_word_args (off : nat) (ws : list string) : list Arg :=
  match ws with
  | [] => []
  | w :: ws' => word_arg (off + 1) w :: more_word_args (off + 1 + String.length w) ws'
  end.

Definition word_args (off : nat) (ws : list string) : list Arg :=
  match ws with
  | [] => []
  | w :: ws' => word_arg off w :: more_word_args (off + String.length w) ws'
  end.

(** The Function [f] called on the words [ws]. *)
Definition word_call (f : string) (ws : list string) : Function :=
  {| Function_Pos := at_ 0; Function_Name := [text_name 0 f];
     Function_Args := word_args (String.length f + 1) ws |}.

Section Calls.

Variable toks : list Token.
Variable eof : Token.

(** From cursor [i] on, the tokens are a comma and a word, for every
    word of [ws], then the closing parenthesis and the end of the
    input.  [off] is the offset of the first of these tokens. *)
Fixpoint more_arguments_at (i off : nat) (ws : list string) : Prop :=
  match ws with
  | [] =>
      token_at toks eof i = operator_token off ")" /\ token_at toks eof (S i) = eof
  | w :: ws' =>
      token_at toks eof i = operator_token off "," /\
      token_at toks eof (S i) = text_token (off + 1) w /\
      more_arguments_at (S (S i)) (off + 1 + String.length w) ws'
  end.

Definition arguments_at (i off : nat) (ws : list string) : Prop :=
  match ws with
  | [] => more_arguments_at i off []
  | w :: ws' =>
      token_at toks eof i = text_token off w /\
      more_arguments_at (S i) (off + String.length w) ws'
  end.

End Calls.

(** The cursor of the closing parenthesis of a call on the words
    [ws]. *)
Definition call_end (ws : list string) : nat :=
  match ws with [] => 2 | _ :: ws' => 3 + 2 * length ws' end.

(** ** Words in parentheses

    The lexemes of [(w1 w2 ... wn)] and the Term they parse to. *)

Definition parenthesized (ws : list string) (w : string) : list lexeme :=
  (T_Operators, "(") :: (spaced ws ++ [(T_Text, w)]) ++ [(T_Operators, ")")].

(** The Term at offset 0 that is the Expression [e] in parentheses. *)
Definition composite_term (e : Expression) : Term :=
  {| Term_Pos := at_ 0; Term_Negate := false;
     Term_Simple :=
       {| Simple_Pos := at_ 0; Simple_Restriction := None;
          Simple_Composite :=
            Some {| Composite_Pos := at_ 0; Composite_Expression := e |} |} |}.

(** The hooks that a traversal calls on the Factors of the words [ws]:
    for every word the Member, the Restriction, the Term and the
    Factor. *)
Fixpoint word_hooks (off : nat) (ws : list string) : list Hook :=
  match ws with
  | [] => []
  | w :: ws' =>
      OnMember (member (text_value off w) [])
        :: OnRestriction (word_restriction off w)
        :: OnTerm (restriction_term (word_restriction off w))
        :: OnFactor (word off w)
        :: word_hooks (off + String.length w + 1) ws'
  end.

(** ** Inputs that are rejected

    The lexemes of a word and a comparison operator with nothing after
    it, and of words with a closing token after the last. *)

Definition dangling (a sp1 op sp2 : string) : list lexeme :=
  (T_Text, a) :: gap sp1 ++ (T_Operators, op) :: gap sp2.

Definition closed_words (ws : list string) (w op : string) : list lexeme :=
  spaced ws ++ [(T_Text, w); (T_Operators, op)].

(* ================================================================== *)
(** * Properties of the tokenizer *)

(** A repetition whose continuation always succeeds succeeds. *)
Lemma run_Star_total r prev s k :
  (forall p s', k p s' <> None) -> Regex.run (Star r) prev s k <> None.
Proof.
  intro Hk. simpl. destruct (String.length s); simpl; [apply Hk|].
  match goal with |- (match ?x with _ => _ end) <> None => destruct x end;
    [discriminate | apply Hk].
Qed.

(** The Text rule matches whenever the input starts with a word
    character. *)
Lemma TextPattern_matches c s :
  word_char c = true -> matches TextPattern (String c s) <> None.
Proof.
  intro Hc. unfold matches, TextPattern, Plus.
  change (Regex.run (Cat (Chars word_char) (Star (Chars word_char))) None (String c s)
            (fun _ rest => Some rest))
    with (if word_char c
          then Regex.run (Star (Chars word_char)) (Some c) s (fun _ rest => Some rest)
          else None).
  rewrite Hc.
  destruct (Regex.run (Star (Chars word_char)) (Some c) s (fun _ rest => Some rest)) eqn:H.
  - discriminate.
  - exfalso. revert H. apply run_Star_total. discriminate.
Qed.

(** The Keyword rule needs a word character at the start. *)
Lemma KeywordPattern_needs_word s :
  matches KeywordPattern s <> None ->
  exists c s', s = String c s' /\ word_char c = true.
Proof.
  intro H. destruct s as [|c s'].
  - exfalso. apply H. reflexivity.
  - exists c, s'. split; [reflexivity|].
    destruct (word_char c) eqn:Hc; [reflexivity|].
    exfalso. apply H. unfold matches, KeywordPattern. simpl. rewrite Hc. reflexivity.
Qed.

Lemma first_match_word c s :
  word_char c = true ->
  exists span rest, first_match Lexer (String c s) = Some (T_Text, span, rest).
Proof.
  intro Hc. simpl. pose proof (TextPattern_matches c s Hc) as H.
  destruct (matches TextPattern (String c s)) as [[span rest]|];
    [eauto | contradiction].
Qed.

(** The Keyword rule stands after the Text rule, which matches wherever
    it does: no token is ever a Keyword. *)
Lemma first_match_not_Keyword s ty span rest :
  first_match Lexer s = Some (ty, span, rest) -> ty <> T_Keyword.
Proof.
  unfold Lexer. simpl.
  destruct (matches TextPattern s) as [[sp rs]|] eqn:Ht.
  { intros [= <- _ _]. discriminate. }
  destruct (matches StringPattern s) as [[sp rs]|].
  { intros [= <- _ _]. discriminate. }
  destruct (matches KeywordPattern s) as [[sp rs]|] eqn:Hk.
  { exfalso.
    destruct (KeywordPattern_needs_word s) as (c & s' & -> & Hc).
    - rewrite Hk. discriminate.
    - now apply (TextPattern_matches c s') in Hc. }
  destruct (matches WhitespacePattern s) as [[sp rs]|].
  { intros [= <- _ _]. discriminate. }
  destruct (matches OperatorsPattern s) as [[sp rs]|].
  { intros [= <- _ _]. discriminate. }
  discriminate.
Qed.

Lemma substring_head n s c x :
  substring 0 n s = String c x -> exists s', s = String c s'.
Proof.
  destruct s as [|c' s']; destruct n; simpl; try discriminate.
  intros [= -> _]. eauto.
Qed.

Lemma matches_span r s span rest :
  matches r s = Some (span, rest) ->
  span = substring 0 (String.length s - String.length rest) s.
Proof.
  unfold matches. destruct (Regex.run r None s _); [|discriminate].
  now intros [= <- <-].
Qed.

Lemma first_match_span rules s ty span rest :
  first_match rules s = Some (ty, span, rest) ->
  span = substring 0 (String.length s - String.length rest) s.
Proof.
  induction rules as [|[ty' r] rules IH]; simpl; [discriminate|].
  destruct (matches r s) as [[sp rs]|] eqn:Hm.
  - intros [= <- <- <-]. now apply matches_span with (r := r).
  - exact IH.
Qed.

(** A token that starts with a word character is a Text token. *)
Lemma first_match_word_span s ty c x rest :
  first_match Lexer s = Some (ty, String c x, rest) ->
  word_char c = true -> ty = T_Text.
Proof.
  intros H Hc. pose proof (first_match_span _ _ H) as Hs.
  symmetry in Hs. apply substring_head in Hs. destruct Hs as [s' ->].
  destruct (first_match_word c s' Hc) as (sp & rs & H').
  rewrite H' in H. now injection H as <- _ _.
Qed.

(** Every token comes from a first match of the rules. *)
Lemma tokens_from_first_match fuel off s t :
  In t (fst (tokens_from fuel off s)) ->
  exists s' rest,
    first_match Lexer s' = Some (Token_Type t, Token_Value t, rest).
Proof.
  revert off s. induction fuel as [|fuel IH]; intros off s.
  - destruct s; simpl; intros [].
  - destruct s as [|c s']; [intros []|].
    cbn [tokens_from].
    destruct (first_match Lexer (String c s')) as [[[ty span] rest]|] eqn:Hm;
      [|intros []].
    destruct (Nat.ltb (String.length rest) (String.length (String c s')));
      [|intros []].
    destruct (tokens_from fuel (off + String.length span) rest) as [ts e] eqn:Hr.
    simpl. intros [<- | Hin].
    + exists (String c s'), rest. exact Hm.
    + apply (IH (off + String.length span) rest). rewrite Hr. exact Hin.
Qed.

Lemma Lex_never_Keyword s t :
  In t (fst (Lex s)) -> Token_Type t <> T_Keyword.
Proof.
  intro H. apply tokens_from_first_match in H. destruct H as (s' & rest & H).
  now apply first_match_not_Keyword in H.
Qed.

Lemma Lex_word_is_Text s t c x :
  In t (fst (Lex s)) -> Token_Value t = String c x -> word_char c = true ->
  Token_Type t = T_Text.
Proof.
  intros H Hv Hc. apply tokens_from_first_match in H.
  destruct H as (s' & rest & H). rewrite Hv in H.
  now apply first_match_word_span in H.
Qed.

(** ** The tokens of a dotted chain *)

Lemma length_append (a b : string) :
  String.length (a ++ b) = String.length a + String.length b.
Proof. induction a as [|c a IH]; simpl; [reflexivity | now rewrite IH]. Qed.

Lemma substring_append (a b : string) :
  substring 0 (String.length a) (a ++ b) = a.
Proof.
  induction a as [|c a IH]; simpl.
  - destruct b; reflexivity.
  - now rewrite IH.
Qed.

(** The repetition of the Text rule takes the whole word. *)
Lemma rounds_word w : forall n prev rest,
  all_word w = true -> is_word (head rest) = false ->
  String.length w <= n ->
  rounds (Regex.run (Chars word_char)) (fun _ r => Some r) n prev (w ++ rest)
  = Some rest.
Proof.
  induction w as [|c w IH]; intros n prev rest Hw Hr Hn.
  - simpl. destruct n; simpl; [reflexivity|].
    destruct rest as [|c r]; [reflexivity|].
    simpl in Hr. now rewrite Hr.
  - simpl in Hw. apply andb_true_iff in Hw. destruct Hw as [Hc Hw].
    destruct n as [|n]; [simpl in Hn; lia|].
    cbn [rounds append Regex.run]. rewrite Hc.
    replace (Nat.ltb (String.length (w ++ rest)) (String.length (String c (w ++ rest))))
      with true by (symmetry; apply Nat.ltb_lt; cbn [String.length]; lia).
    rewrite IH; [reflexivity | assumption | assumption | simpl in Hn; lia].
Qed.

Lemma TextPattern_word w rest :
  identifier w = true -> is_word (head rest) = false ->
  matches TextPattern (w ++ rest) = Some (w, rest).
Proof.
  intros Hw Hr. destruct w as [|c w]; [discriminate|].
  simpl in Hw. apply andb_true_iff in Hw. destruct Hw as [Hc Hw].
  unfold matches, TextPattern, Plus. cbn [Regex.run append]. rewrite Hc.
  rewrite rounds_word by (auto; rewrite length_append; lia).
  f_equal. f_equal.
  replace (String.length (String c (w ++ rest)) - String.length rest)
    with (String.length (String c w))
    by (cbn [String.length]; rewrite length_append; lia).
  apply (substring_append (String c w) rest).
Qed.

Lemma first_match_identifier w rest :
  identifier w = true -> is_word (head rest) = false ->
  first_match Lexer (w ++ rest) = Some (T_Text, w, rest).
Proof. intros Hw Hr. simpl. now rewrite TextPattern_word. Qed.

Lemma first_match_dot rest :
  first_match Lexer (String "." rest) = Some (T_Operators, ".", rest).
Proof.
  assert (H : String.length (String "." rest) - String.length rest = 1)
    by (cbn [String.length]; lia).
  unfold Lexer, first_match, matches. cbn -[Nat.sub String.length substring word_char].
  change (word_char ".") with false. cbv iota.
  rewrite H. simpl. destruct rest; reflexivity.
Qed.

Lemma dotted_cons w ws :
  dotted (w :: ws) =
  (w ++ match ws with [] => EmptyString | _ => String "." (dotted ws) end)%string.
Proof.
  unfold dotted. destruct ws; simpl.
  - induction w; simpl; [reflexivity | now f_equal].
  - reflexivity.
Qed.

Lemma dotted_length w ws :
  String.length (dotted (w :: ws)) =
  String.length w +
  match ws with [] => 0 | _ => S (String.length (dotted ws)) end.
Proof. rewrite dotted_cons, length_append. destruct ws; reflexivity. Qed.

Lemma tokens_from_chain ws : forall w fuel off,
  Forall (fun x => identifier x = true) (w :: ws) ->
  String.length (dotted (w :: ws)) <= fuel ->
  tokens_from fuel off (dotted (w :: ws)) =
  (text_token off w :: chain_tail_tokens (off + String.length w) ws, None).
Proof.
  induction ws as [|w' ws IH]; intros w fuel off Hall Hfuel.
  - inversion Hall as [|? ? Hw _]; subst.
    rewrite dotted_cons in *. rewrite length_append in Hfuel. simpl in Hfuel.
    destruct w as [|c w]; [discriminate|].
    destruct fuel as [|fuel]; [simpl in Hfuel; lia|].
    change (String c w ++ EmptyString)%string with (String c (w ++ EmptyString)).
    cbn [tokens_from].
    change (String c (w ++ EmptyString)) with (String c w ++ EmptyString)%string.
    rewrite first_match_identifier by auto.
    rewrite length_append. simpl String.length.
    replace (Nat.ltb 0 (S (String.length w + 0))) with true
      by (symmetry; apply Nat.ltb_lt; lia).
    destruct fuel; reflexivity.
  - inversion Hall as [|? ? Hw Hrest]; subst.
    rewrite dotted_length in Hfuel. rewrite dotted_cons.
    destruct w as [|c w]; [discriminate|].
    destruct fuel as [|fuel]; [simpl in Hfuel; lia|].
    change (String c w ++ String "." (dotted (w' :: ws)))%string
      with (String c (w ++ String "." (dotted (w' :: ws)))).
    cbn [tokens_from].
    change (String c (w ++ String "." (dotted (w' :: ws))))
      with (String c w ++ String "." (dotted (w' :: ws)))%string.
    rewrite first_match_identifier by auto.
    replace (Nat.ltb (String.length (String "." (dotted (w' :: ws))))
               (String.length (String c w ++ String "." (dotted (w' :: ws)))))
      with true by (symmetry; apply Nat.ltb_lt; rewrite length_append; cbn [String.length]; lia).
    destruct fuel as [|fuel]; [simpl in Hfuel; lia|].
    cbn [tokens_from]. rewrite first_match_dot.
    replace (Nat.ltb (String.length (dotted (w' :: ws)))
               (String.length (String "." (dotted (w' :: ws)))))
      with true by (symmetry; apply Nat.ltb_lt; cbn [String.length]; lia).
    rewrite IH; [| assumption | simpl in Hfuel; lia].
    simpl. unfold text_token, dot_token, at_.
    replace (off + S (String.length w) + 1 + String.length w')
      with (S (off + S (String.length w)) + String.length w') by lia.
    replace (off + S (String.length w) + 1) with (S (off + S (String.length w))) by lia.
    reflexivity.
Qed.

Lemma Lex_chain w ws :
  Forall (fun x => identifier x = true) (w :: ws) ->
  Lex (dotted (w :: ws)) = (chain_tokens w ws, None).
Proof.
  intro H. unfold Lex, chain_tokens. now rewrite tokens_from_chain.
Qed.

Lemma elide_chain_tail off ws :
  elide (chain_tail_tokens off ws) = chain_tail_tokens off ws.
Proof.
  revert off. induction ws as [|w ws IH]; intro off; simpl; [reflexivity|].
  now rewrite IH.
Qed.

Lemma elide_chain w ws : elide (chain_tokens w ws) = chain_tokens w ws.
Proof. unfold chain_tokens. simpl. now rewrite elide_chain_tail. Qed.

(* ================================================================== *)
(** * What the tokens read *)

Lemma append_empty (a : string) : (a ++ EmptyString)%string = a.
Proof. induction a as [|c a IH]; simpl; [reflexivity | now rewrite IH]. Qed.

Lemma append_append (a b c : string) :
  ((a ++ b) ++ c)%string = (a ++ (b ++ c))%string.
Proof. induction a as [|x a IH]; simpl; [reflexivity | now rewrite IH]. Qed.

(** The matcher is sound for the words of a rule: what it hands to the
    continuation is the input without a word of the rule. *)
Lemma rounds_sound (body : matcher) (P : string -> Prop) k :
  (forall prev s k' res, body prev s k' = Some res ->
     exists u s' p', s = (u ++ s')%string /\ P u /\ k' p' s' = Some res) ->
  forall n prev s res, rounds body k n prev s = Some res ->
    exists u s' p', s = (u ++ s')%string /\ star P u /\ k p' s' = Some res.
Proof.
  intro Hbody. induction n as [|n IH]; intros prev s res H.
  - exists EmptyString, s, prev. repeat split; [constructor | exact H].
  - cbn [rounds] in H.
    destruct (body prev s _) as [rest|] eqn:E.
    + injection H as ->. apply Hbody in E.
      destruct E as (u & s1 & p1 & -> & Hu & E).
      destruct (Nat.ltb (String.length s1) (String.length (u ++ s1))); [|discriminate].
      apply IH in E. destruct E as (u2 & s2 & p2 & -> & Hu2 & E2).
      exists (u ++ u2)%string, s2, p2. rewrite append_append.
      repeat split; [now constructor | exact E2].
    + exists EmptyString, s, prev. repeat split; [constructor | exact H].
Qed.

Lemma run_sound r : forall prev s k res,
  Regex.run r prev s k = Some res ->
  exists u s' p', s = (u ++ s')%string /\ denotes r u /\ k p' s' = Some res.
Proof.
  induction r as [|p|r1 IH1 r2 IH2|r1 IH1 r2 IH2|r1 IH1|]; intros prev s k res H.
  - exists EmptyString, s, prev. repeat split. exact H.
  - destruct s as [|c s']; [discriminate|]. cbn [Regex.run] in H.
    destruct (p c) eqn:Hc; [|discriminate].
    exists (String c EmptyString), s', (Some c). repeat split; [|exact H].
    exists c. now split.
  - cbn [Regex.run] in H. apply IH1 in H. destruct H as (u1 & s1 & p1 & -> & H1 & H).
    apply IH2 in H. destruct H as (u2 & s2 & p2 & -> & H2 & H).
    exists (u1 ++ u2)%string, s2, p2. rewrite append_append.
    repeat split; [|exact H]. now exists u1, u2.
  - cbn [Regex.run] in H. destruct (Regex.run r1 prev s k) as [rest|] eqn:E.
    + injection H as ->. apply IH1 in E. destruct E as (u & s' & p' & -> & Hu & Hk).
      exists u, s', p'. repeat split; [now left | exact Hk].
    + apply IH2 in H. destruct H as (u & s' & p' & -> & Hu & Hk).
      exists u, s', p'. repeat split; [now right | exact Hk].
  - cbn [Regex.run] in H.
    apply rounds_sound with (P := denotes r1) in H; [|exact IH1].
    exact H.
  - cbn [Regex.run] in H. destruct (xorb _ _); [|discriminate].
    exists EmptyString, s, prev. repeat split. exact H.
Qed.

(** A match splits the input into a word of the rule and the rest. *)
Lemma matches_sound r s span rest :
  matches r s = Some (span, rest) -> s = (span ++ rest)%string /\ denotes r span.
Proof.
  unfold matches. destruct (Regex.run r None s _) as [res|] eqn:E; [|discriminate].
  intros [= <- <-]. apply run_sound in E.
  destruct E as (u & s' & p' & -> & Hu & [= ->]).
  replace (String.length (u ++ res) - String.length res) with (String.length u)
    by (rewrite length_append; lia).
  now rewrite substring_append.
Qed.

Lemma first_match_sound s ty span rest :
  first_match Lexer s = Some (ty, span, rest) ->
  s = (span ++ rest)%string /\ denotes (rule_of ty) span /\
  ty <> T_Keyword /\ ty <> T_EOF.
Proof.
  intro H. pose proof (first_match_not_Keyword _ H) as Hk. revert H.
  unfold Lexer. cbn [first_match].
  destruct (matches TextPattern s) as [[sp rs]|] eqn:E1.
  { intros [= <- <- <-]. apply matches_sound in E1. repeat split; (tauto || discriminate). }
  destruct (matches StringPattern s) as [[sp rs]|] eqn:E2.
  { intros [= <- <- <-]. apply matches_sound in E2. repeat split; (tauto || discriminate). }
  destruct (matches KeywordPattern s) as [[sp rs]|] eqn:E3.
  { intros [= <- <- <-]. apply matches_sound in E3. repeat split; (tauto || discriminate). }
  destruct (matches WhitespacePattern s) as [[sp rs]|] eqn:E4.
  { intros [= <- <- <-]. apply matches_sound in E4. repeat split; (tauto || discriminate). }
  destruct (matches OperatorsPattern s) as [[sp rs]|] eqn:E5.
  { intros [= <- <- <-]. apply matches_sound in E5. repeat split; (tauto || discriminate). }
  discriminate.
Qed.

(** *** The words of the five rules *)

Lemma star_chars p w :
  star (denotes (Chars p)) w ->
  (fix all (w : string) : Prop :=
     match w with EmptyString => True | String c w' => p c = true /\ all w' end) w.
Proof.
  induction 1 as [|u v (c & -> & Hc) _ IH]; simpl; auto.
Qed.

Lemma denotes_Text w : denotes TextPattern w -> identifier w = true.
Proof.
  intros (u & v & -> & (c & -> & Hc) & Hv). simpl. rewrite Hc. simpl.
  apply star_chars in Hv. induction v as [|d v IH]; [reflexivity|].
  destruct Hv as [Hd Hv]. simpl. rewrite Hd. now apply IH.
Qed.

Lemma denotes_Whitespace w : denotes WhitespacePattern w -> blank w = true.
Proof.
  intros (u & v & -> & (c & -> & Hc) & Hv). simpl. rewrite Hc. simpl.
  apply star_chars in Hv. induction v as [|d v IH]; [reflexivity|].
  destruct Hv as [Hd Hv]. simpl. rewrite Hd. now apply IH.
Qed.

Lemma denotes_Operators w : denotes OperatorsPattern w -> In w operators.
Proof.
  unfold OperatorsPattern, operators. cbn [denotes Lit].
  intros [H | [H | [H | H]]].
  - destruct H as (u & v & -> & (c & -> & Hc) & (d & -> & Hd)).
    apply Ascii.eqb_eq in Hc, Hd. subst. simpl. tauto.
  - destruct H as (u & v & -> & (c & -> & Hc) & (d & -> & Hd)).
    apply Ascii.eqb_eq in Hc, Hd. subst. simpl. tauto.
  - destruct H as (u & v & -> & (c & -> & Hc) & (d & -> & Hd)).
    apply Ascii.eqb_eq in Hc, Hd. subst. simpl. tauto.
  - destruct H as (c & -> & Hc). unfold is_operator in Hc.
    repeat (apply orb_true_iff in Hc; destruct Hc as [Hc | Hc]);
      apply Ascii.eqb_eq in Hc; subst; simpl; tauto.
Qed.

Lemma guarded_weaken w : guarded false w = true -> guarded true w = true.
Proof.
  destruct w as [|c w]; [reflexivity|]. simpl.
  intro H. apply andb_true_iff in H. destruct H as [_ H].
  rewrite H. now rewrite orb_true_r.
Qed.

Lemma guarded_append u v b :
  guarded b u = true -> guarded false v = true -> guarded b (u ++ v) = true.
Proof.
  revert b. induction u as [|c u IH]; intros b Hu Hv; simpl.
  - destruct b; [now apply guarded_weaken | exact Hv].
  - simpl in Hu. apply andb_true_iff in Hu. destruct Hu as [Hc Hu].
    rewrite Hc. simpl. now apply IH.
Qed.

Lemma guarded_star (P : string -> Prop) w :
  (forall u, P u -> guarded false u = true) -> star P w -> guarded false w = true.
Proof.
  intros HP. induction 1 as [|u v Hu _ IH]; [reflexivity|].
  apply guarded_append; auto.
Qed.

Lemma denotes_String w :
  denotes StringPattern w ->
  exists inner, quoted w inner /\ guarded false inner = true.
Proof.
  unfold StringPattern. cbn [denotes Opt].
  intros (u1 & v1 & -> & (q1 & -> & Hq1) & u2 & v2 & -> & Hopen & u3 & v3 & -> & Hbody
          & u4 & v4 & -> & Hclose & (q2 & -> & Hq2)).
  exists (u2 ++ u3 ++ u4)%string. split.
  - exists q1, q2. repeat split; auto. simpl. f_equal.
    now rewrite !append_append.
  - assert (Hstar : forall u, (exists c, u = String c EmptyString /\ Ascii.eqb "*" c = true)
                      \/ u = EmptyString -> guarded false u = true).
    { intros u [(c & -> & Hc) | ->]; [|reflexivity].
      apply Ascii.eqb_eq in Hc. subst. reflexivity. }
    apply guarded_append; [now apply Hstar|].
    apply guarded_append; [|now apply Hstar].
    revert Hbody. apply guarded_star.
    intros u [H | [H | H]].
    + destruct H as (a & b & -> & (c & -> & Hc) & (d & -> & Hd)).
      apply Ascii.eqb_eq in Hc, Hd. subst. reflexivity.
    + destruct H as (a & b & -> & (c & -> & Hc) & (d & -> & Hd)).
      apply Ascii.eqb_eq in Hc, Hd. subst. reflexivity.
    + destruct H as (c & -> & Hc). simpl. now rewrite Hc.
Qed.

Lemma first_match_well_spelt s t rest :
  first_match Lexer s = Some (Token_Type t, Token_Value t, rest) -> well_spelt t.
Proof.
  intro H. apply first_match_sound in H. destruct H as (_ & H & Hk & He).
  unfold well_spelt. destruct (Token_Type t); simpl in H.
  - now elim He.
  - now apply denotes_Text.
  - now apply denotes_String.
  - now elim Hk.
  - now apply denotes_Whitespace.
  - now apply denotes_Operators.
Qed.

(** *** The tokens of an input *)

Lemma well_spelt_nonempty t : well_spelt t -> Token_Value t <> EmptyString.
Proof.
  unfold well_spelt. destruct (Token_Type t); try contradiction.
  - intros H E. rewrite E in H. discriminate.
  - intros (inner & (q1 & q2 & _ & _ & E) & _) E'. rewrite E' in E. discriminate.
  - intros H E. rewrite E in H. discriminate.
  - intros H E. rewrite E in H. simpl in H.
    repeat (destruct H as [H | H]; [discriminate|]). exact H.
Qed.

Lemma append_shorter (u v : string) :
  u <> EmptyString -> String.length v < String.length (u ++ v).
Proof. intro H. rewrite length_append. destruct u; [congruence | simpl; lia]. Qed.

(** The tokens of an input are well spelt, they spell the input up to
    the place where no rule matches, and each stands at the offset of
    what is spelt before it. *)
Lemma tokens_from_spec : forall fuel off s toks e,
  String.length s <= fuel ->
  tokens_from fuel off s = (toks, e) ->
  Forall well_spelt toks /\
  (forall pre t post, toks = pre ++ t :: post ->
     Offset (Token_Pos t) = off + String.length (spelling pre)) /\
  match e with
  | None => s = spelling toks
  | Some p =>
      Offset p = off + String.length (spelling toks) /\
      exists rest, s = (spelling toks ++ rest)%string /\ rest <> EmptyString /\
                   first_match Lexer rest = None
  end.
Proof.
  induction fuel as [|fuel IH]; intros off s toks e Hfuel H.
  - destruct s; [|simpl in Hfuel; lia]. injection H as <- <-.
    repeat split; [constructor | intros [|] ? ? ?; discriminate].
  - destruct s as [|c s'].
    { injection H as <- <-.
      repeat split; [constructor | intros [|] ? ? ?; discriminate]. }
    cbn [tokens_from] in H.
    destruct (first_match Lexer (String c s')) as [[[ty span] rest]|] eqn:Hm.
    2:{ injection H as <- <-. repeat split; [constructor | intros [|] ? ? ?; discriminate
                                            | simpl; lia |].
        exists (String c s'). repeat split; [discriminate | exact Hm]. }
    pose (t := {| Token_Type := ty; Token_Value := span; Token_Pos := {| Offset := off |} |}).
    assert (Ht : well_spelt t)
      by (apply (@first_match_well_spelt (String c s') t rest); exact Hm).
    pose proof (well_spelt_nonempty t Ht) as Hne. simpl in Hne.
    apply first_match_sound in Hm. destruct Hm as (Hs & _).
    rewrite Hs in H, Hfuel |- *.
    replace (Nat.ltb (String.length rest) (String.length (span ++ rest))) with true in H
      by (symmetry; apply Nat.ltb_lt; now apply append_shorter).
    destruct (tokens_from fuel (off + String.length span) rest) as [ts e'] eqn:Hr.
    injection H as <- <-.
    apply IH in Hr; [|apply append_shorter with (v := rest) in Hne; lia].
    destruct Hr as (Hall & Hoff & He). repeat split.
    + now constructor.
    + intros [|t0 pre] t1 post E; injection E as E1 E2.
      * subst t1. simpl. lia.
      * subst t0. apply Hoff in E2. rewrite E2. cbn [spelling Token_Value].
        rewrite length_append. lia.
    + destruct e' as [p|].
      * destruct He as (Hp & r & Hr & Hr1 & Hr2). cbn [spelling Token_Value]. split.
        -- rewrite Hp, length_append. lia.
        -- exists r. rewrite append_append, <- Hr. auto.
      * cbn [spelling Token_Value]. now rewrite <- He.
Qed.

Lemma Lex_spec s toks e :
  Lex s = (toks, e) ->
  Forall well_spelt toks /\
  (forall pre t post, toks = pre ++ t :: post ->
     Offset (Token_Pos t) = String.length (spelling pre)) /\
  match e with
  | None => s = spelling toks
  | Some p =>
      Offset p = String.length (spelling toks) /\
      exists rest, s = (spelling toks ++ rest)%string /\ rest <> EmptyString /\
                   first_match Lexer rest = None
  end.
Proof. intro H. apply tokens_from_spec in H; [exact H | apply Nat.le_refl]. Qed.

(** *** Greedy rules *)

Lemma first_match_rule s ty span rest :
  first_match Lexer s = Some (ty, span, rest) ->
  matches (rule_of ty) s = Some (span, rest).
Proof.
  unfold Lexer. cbn [first_match].
  destruct (matches TextPattern s) as [[sp rs]|] eqn:E1; [now intros [= <- <- <-]|].
  destruct (matches StringPattern s) as [[sp rs]|] eqn:E2; [now intros [= <- <- <-]|].
  destruct (matches KeywordPattern s) as [[sp rs]|] eqn:E3; [now intros [= <- <- <-]|].
  destruct (matches WhitespacePattern s) as [[sp rs]|] eqn:E4; [now intros [= <- <- <-]|].
  destruct (matches OperatorsPattern s) as [[sp rs]|] eqn:E5; [now intros [= <- <- <-]|].
  discriminate.
Qed.

Lemma rounds_total (body : matcher) k n prev s :
  (forall p s', k p s' <> None) -> rounds body k n prev s <> None.
Proof.
  intro Hk. destruct n; cbn [rounds]; [apply Hk|].
  destruct (body prev s _); [discriminate | apply Hk].
Qed.

(** A repetition of one class of characters stops where the class
    stops. *)
Lemma rounds_greedy (p : ascii -> bool) (body : matcher) :
  (forall prev s k, body prev s k =
     match s with
     | EmptyString => None
     | String c s' => if p c then k (Some c) s' else None
     end) ->
  forall n prev s res,
  String.length s <= n ->
  rounds body (fun _ r => Some r) n prev s = Some res ->
  match res with String c _ => p c = false | EmptyString => True end.
Proof.
  intro Hbody. induction n as [|n IH]; intros prev s res Hn H.
  - destruct s; [|simpl in Hn; lia]. cbn [rounds] in H. now injection H as <-.
  - cbn [rounds] in H. rewrite Hbody in H. destruct s as [|c s'].
    + now injection H as <-.
    + destruct (p c) eqn:Hc.
      * replace (Nat.ltb (String.length s') (String.length (String c s'))) with true in H
          by (symmetry; apply Nat.ltb_lt; simpl; lia).
        destruct (rounds body (fun _ r => Some r) n (Some c) s') as [r|] eqn:E.
        -- injection H as <-. apply IH in E; [exact E | simpl in Hn; lia].
        -- exfalso. revert E. apply rounds_total. discriminate.
      * injection H as <-. exact Hc.
Qed.

Lemma matches_Plus_greedy p s span rest :
  matches (Plus (Chars p)) s = Some (span, rest) ->
  match rest with String c _ => p c = false | EmptyString => True end.
Proof.
  unfold matches, Plus. cbn [Regex.run]. destruct s as [|c s']; [discriminate|].
  destruct (p c); [|discriminate].
  destruct (rounds _ _ _ _ _) as [res|] eqn:E; [|discriminate].
  intros [= _ <-].
  apply rounds_greedy with (p := p) in E; [exact E | reflexivity | apply Nat.le_refl].
Qed.

Lemma identifier_head w :
  identifier w = true -> exists c w', w = String c w' /\ word_char c = true.
Proof.
  destruct w as [|c w]; [discriminate|]. simpl. intro H.
  apply andb_true_iff in H. destruct H. eauto.
Qed.

Lemma blank_head w :
  blank w = true -> exists c w', w = String c w' /\ is_space c = true.
Proof.
  destruct w as [|c w]; [discriminate|]. simpl. intro H.
  apply andb_true_iff in H. destruct H. eauto.
Qed.

(** After a Text token comes no Text token, after white space no white
    space. *)
Lemma tokens_from_no_two : forall fuel off s,
  no_two T_Text (fst (tokens_from fuel off s)) /\
  no_two T_Whitespace (fst (tokens_from fuel off s)).
Proof.
  induction fuel as [|fuel IH]; intros off s.
  - destruct s; simpl; auto.
  - destruct s as [|c s']; [simpl; auto|].
    cbn [tokens_from].
    destruct (first_match Lexer (String c s')) as [[[ty span] rest]|] eqn:Hm;
      [|simpl; auto].
    destruct (Nat.ltb (String.length rest) (String.length (String c s')));
      [|simpl; auto].
    specialize (IH (off + String.length span) rest).
    destruct (tokens_from fuel (off + String.length span) rest) as [ts e] eqn:Hr.
    cbn [fst] in IH |- *. destruct IH as [IH1 IH2].
    destruct ts as [|t2 ts]; [simpl; auto|].
    assert (H2 : exists rest2,
               first_match Lexer rest = Some (Token_Type t2, Token_Value t2, rest2)).
    { destruct fuel as [|fuel]; [destruct rest; discriminate|].
      destruct rest as [|d rest']; [discriminate|].
      cbn [tokens_from] in Hr.
      destruct (first_match Lexer (String d rest')) as [[[ty2 span2] rest2]|];
        [|discriminate].
      destruct (Nat.ltb _ _); [|discriminate].
      destruct (tokens_from fuel _ rest2). injection Hr as <- _ _. simpl. eauto. }
    destruct H2 as (rest2 & H2).
    pose proof (first_match_well_spelt _ _ H2) as Hw2.
    apply first_match_sound in H2. destruct H2 as (Hrest & _).
    apply first_match_rule in Hm.
    cbn [no_two Token_Type]. repeat split; auto.
    + intros [-> E2]. apply matches_Plus_greedy in Hm.
      unfold well_spelt in Hw2. rewrite E2 in Hw2.
      apply identifier_head in Hw2. destruct Hw2 as (d & w' & Ev & Hd).
      rewrite Hrest, Ev in Hm. simpl in Hm. congruence.
    + intros [-> E2]. apply matches_Plus_greedy in Hm.
      unfold well_spelt in Hw2. rewrite E2 in Hw2.
      apply blank_head in Hw2. destruct Hw2 as (d & w' & Ev & Hd).
      rewrite Hrest, Ev in Hm. simpl in Hm. congruence.
Qed.

Lemma no_two_split ty ts :
  no_two ty ts ->
  forall pre t1 t2 post, ts = pre ++ t1 :: t2 :: post ->
    ~ (Token_Type t1 = ty /\ Token_Type t2 = ty).
Proof.
  intros H pre. revert ts H. induction pre as [|t0 pre IH]; intros ts H t1 t2 post ->.
  - simpl in H. tauto.
  - apply (IH (pre ++ t1 :: t2 :: post)) with (post := post); [|reflexivity].
    simpl in H. destruct (pre ++ t1 :: t2 :: post); [exact I | tauto].
Qed.

(** *** The characters of the rules *)

Lemma matches_Plus c s p :
  p c = true -> matches (Plus (Chars p)) (String c s) <> None.
Proof.
  intro Hc. unfold matches, Plus. cbn [Regex.run]. rewrite Hc.
  destruct (rounds _ _ _ _ _) eqn:E; [discriminate|].
  exfalso. revert E. apply rounds_total. discriminate.
Qed.

Lemma run_Or_right r1 r2 prev s k :
  Regex.run r2 prev s k <> None -> Regex.run (Or r1 r2) prev s k <> None.
Proof.
  intro H. cbn [Regex.run]. destruct (Regex.run r1 prev s k); [discriminate | exact H].
Qed.

Lemma matches_Operators c s :
  is_operator c = true -> matches OperatorsPattern (String c s) <> None.
Proof.
  intro Hc. unfold matches, OperatorsPattern.
  destruct (Regex.run _ None (String c s) _) eqn:E; [discriminate|].
  exfalso. revert E. do 3 apply run_Or_right. cbn [Regex.run]. rewrite Hc. discriminate.
Qed.

Lemma first_match_some rules ty r s :
  In (ty, r) rules -> matches r s <> None -> first_match rules s <> None.
Proof.
  induction rules as [|[ty' r'] rules IH]; intros Hin Hm; [contradiction|].
  cbn [first_match]. destruct (matches r' s) as [[sp rs]|] eqn:E; [discriminate|].
  destruct Hin as [[= -> ->] | Hin]; [contradiction | now apply IH].
Qed.

(** Where a word character, white space or an operator character
    stands, a rule matches. *)
Lemma first_match_plain c s :
  plain_char c = true -> first_match Lexer (String c s) <> None.
Proof.
  unfold plain_char. intro H.
  apply orb_true_iff in H. destruct H as [H | H];
    [apply orb_true_iff in H; destruct H as [H | H]|].
  - apply first_match_some with (ty := T_Text) (r := TextPattern);
      [simpl; tauto | now apply matches_Plus].
  - apply first_match_some with (ty := T_Whitespace) (r := WhitespacePattern);
      [simpl; tauto | now apply matches_Plus].
  - apply first_match_some with (ty := T_Operators) (r := OperatorsPattern);
      [simpl; tauto | now apply matches_Operators].
Qed.

Lemma all_plain_append u v : all_plain (u ++ v) = true -> all_plain v = true.
Proof.
  induction u as [|c u IH]; simpl; [auto|].
  intro H. apply andb_true_iff in H. now apply IH.
Qed.

Lemma tokens_from_plain : forall fuel off s,
  String.length s <= fuel -> all_plain s = true ->
  snd (tokens_from fuel off s) = None.
Proof.
  intros fuel off s Hfuel Hs.
  destruct (tokens_from fuel off s) as [toks [p|]] eqn:E; [|reflexivity].
  apply tokens_from_spec in E; [|assumption].
  destruct E as (_ & _ & _ & rest & -> & Hne & Hm).
  apply all_plain_append in Hs. destruct rest as [|c rest]; [congruence|].
  simpl in Hs. apply andb_true_iff in Hs. destruct Hs as [Hc _].
  now apply first_match_plain with (s := rest) in Hc.
Qed.

(** *** Quotes *)

Lemma count_quotes_append u v :
  count_quotes (u ++ v) = count_quotes u + count_quotes v.
Proof. induction u as [|c u IH]; simpl; [reflexivity | rewrite IH; lia]. Qed.

Lemma word_char_no_quote c : word_char c = true -> is_quote c = false.
Proof. destruct c as [[] [] [] [] [] [] [] []]; vm_compute; congruence. Qed.

Lemma is_space_no_quote c : is_space c = true -> is_quote c = false.
Proof. destruct c as [[] [] [] [] [] [] [] []]; vm_compute; congruence. Qed.

Lemma all_word_no_quote w : all_word w = true -> count_quotes w = 0.
Proof.
  induction w as [|c w IH]; simpl; [reflexivity|]. intro H.
  apply andb_true_iff in H. destruct H as [Hc Hw].
  now rewrite (word_char_no_quote _ Hc), IH.
Qed.

Lemma all_space_no_quote w : all_space w = true -> count_quotes w = 0.
Proof.
  induction w as [|c w IH]; simpl; [reflexivity|]. intro H.
  apply andb_true_iff in H. destruct H as [Hc Hw].
  now rewrite (is_space_no_quote _ Hc), IH.
Qed.

(** A token holds no quote or two at least. *)
Lemma well_spelt_quotes t : well_spelt t -> count_quotes (Token_Value t) <> 1.
Proof.
  unfold well_spelt. destruct (Token_Type t); try contradiction.
  - intro H. rewrite all_word_no_quote; [lia|].
    destruct (Token_Value t); [discriminate | exact H].
  - intros (inner & (q1 & q2 & H1 & H2 & ->) & _).
    cbn [count_quotes]. rewrite count_quotes_append. cbn [count_quotes].
    rewrite H1, H2. lia.
  - intro H. rewrite all_space_no_quote; [lia|].
    destruct (Token_Value t); [discriminate | exact H].
  - intro H. simpl in H.
    repeat (destruct H as [H | H]; [rewrite <- H; vm_compute; lia|]). contradiction.
Qed.

Lemma spelling_quotes toks :
  Forall well_spelt toks -> count_quotes (spelling toks) <> 1.
Proof.
  induction 1 as [|t ts Ht _ IH]; simpl; [lia|].
  rewrite count_quotes_append. apply well_spelt_quotes in Ht. lia.
Qed.

(** *** From lexemes to tokens *)

Lemma is_word_starts rest :
  is_word (head rest) = starts_with word_char rest.
Proof. destruct rest; reflexivity. Qed.

Lemma is_space_not_word c : is_space c = true -> word_char c = false.
Proof. destruct c as [[] [] [] [] [] [] [] []]; vm_compute; congruence. Qed.

Lemma rounds_space w : forall n prev rest,
  all_space w = true -> starts_with is_space rest = false ->
  String.length w <= n ->
  rounds (Regex.run (Chars is_space)) (fun _ r => Some r) n prev (w ++ rest)
  = Some rest.
Proof.
  induction w as [|c w IH]; intros n prev rest Hw Hr Hn.
  - simpl. destruct n; simpl; [reflexivity|].
    destruct rest as [|c r]; [reflexivity|].
    simpl in Hr. now rewrite Hr.
  - simpl in Hw. apply andb_true_iff in Hw. destruct Hw as [Hc Hw].
    destruct n as [|n]; [simpl in Hn; lia|].
    cbn [rounds append Regex.run]. rewrite Hc.
    replace (Nat.ltb (String.length (w ++ rest)) (String.length (String c (w ++ rest))))
      with true by (symmetry; apply Nat.ltb_lt; cbn [String.length]; lia).
    rewrite IH; [reflexivity | assumption | assumption | simpl in Hn; lia].
Qed.

Lemma first_match_blank w rest :
  blank w = true -> starts_with is_space rest = false ->
  first_match Lexer (w ++ rest) = Some (T_Whitespace, w, rest).
Proof.
  intros Hw Hr. destruct w as [|c w]; [discriminate|].
  simpl in Hw. apply andb_true_iff in Hw. destruct Hw as [Hc Hw].
  pose proof (is_space_not_word _ Hc) as Hnw.
  pose proof (is_space_no_quote _ Hc) as Hnq.
  unfold Lexer. cbn [first_match].
  assert (E1 : matches TextPattern (String c w ++ rest) = None).
  { unfold matches, TextPattern, Plus. cbn [Regex.run append]. now rewrite Hnw. }
  assert (E2 : matches StringPattern (String c w ++ rest) = None).
  { unfold matches, StringPattern. cbn [Regex.run append]. now rewrite Hnq. }
  assert (E3 : matches KeywordPattern (String c w ++ rest) = None).
  { unfold matches, KeywordPattern. cbn [Regex.run append is_word head]. now rewrite Hnw. }
  rewrite E1, E2, E3.
  unfold matches, WhitespacePattern, Plus. cbn [Regex.run append]. rewrite Hc.
  rewrite rounds_space by (auto; rewrite length_append; lia).
  f_equal. f_equal. f_equal.
  replace (String.length (String c (w ++ rest)) - String.length rest)
    with (String.length (String c w))
    by (cbn [String.length]; rewrite length_append; lia).
  apply (substring_append (String c w) rest).
Qed.

Lemma span_of (a rest : string) :
  substring 0 (String.length (a ++ rest) - String.length rest) (a ++ rest) = a.
Proof.
  replace (String.length (a ++ rest) - String.length rest) with (String.length a)
    by (rewrite length_append; lia).
  apply substring_append.
Qed.

Lemma first_match_operator op rest :
  In op operators ->
  (op = "<" \/ op = ">" -> starts_with (Ascii.eqb "=") rest = false) ->
  first_match Lexer (op ++ rest) = Some (T_Operators, op, rest).
Proof.
  intros Hin Hnext.
  assert (Hgen : forall r2,
             Regex.run OperatorsPattern None (op ++ rest)%string (fun _ r => Some r) = Some r2 ->
             matches TextPattern (op ++ rest) = None ->
             matches StringPattern (op ++ rest) = None ->
             matches KeywordPattern (op ++ rest) = None ->
             matches WhitespacePattern (op ++ rest) = None ->
             r2 = rest ->
             first_match Lexer (op ++ rest) = Some (T_Operators, op, rest)).
  { intros r2 E E1 E2 E3 E4 ->. unfold Lexer. cbn [first_match].
    rewrite E1, E2, E3, E4. unfold matches at 1. rewrite E.
    now rewrite span_of. }
  unfold operators in Hin. simpl in Hin.
  repeat (destruct Hin as [<- | Hin]); try contradiction.
  all: try (eapply Hgen; [reflexivity | reflexivity | reflexivity | reflexivity
                          | reflexivity | reflexivity]).
  - (* < *)
    assert (H : starts_with (Ascii.eqb "=") rest = false) by auto.
    eapply Hgen; try reflexivity.
    unfold OperatorsPattern. cbn [Regex.run Lit append].
    destruct rest as [|c r]; [reflexivity|]. simpl in H. simpl. now rewrite H.
  - (* > *)
    assert (H : starts_with (Ascii.eqb "=") rest = false) by auto.
    eapply Hgen; try reflexivity.
    unfold OperatorsPattern. cbn [Regex.run Lit append].
    destruct rest as [|c r]; [reflexivity|]. simpl in H. simpl. now rewrite H.
Qed.

Lemma existsb_operators op :
  existsb (String.eqb op) operators = true -> In op operators.
Proof.
  intro H. apply existsb_exists in H. destruct H as (x & Hin & E).
  apply String.eqb_eq in E. now subst.
Qed.

(** A lexeme that stands before the rest of the input is the first
    match there. *)
Lemma first_match_stands l rest :
  stands l rest = true ->
  first_match Lexer (snd l ++ rest) = Some (fst l, snd l, rest) /\
  snd l <> EmptyString.
Proof.
  destruct l as [ty v]. unfold stands. simpl. destruct ty; try discriminate; intro H;
    apply andb_true_iff in H; destruct H as [H1 H2]; apply negb_true_iff in H2.
  - split; [|intros ->; discriminate].
    apply first_match_identifier; [exact H1 | now rewrite is_word_starts].
  - split; [|intros ->; discriminate]. now apply first_match_blank.
  - apply existsb_operators in H1. split.
    + apply first_match_operator; [exact H1|].
      intros [-> | ->]; simpl in H2; exact H2.
    + intros ->. simpl in H1. repeat (destruct H1 as [H1 | H1]; [discriminate|]).
      exact H1.
Qed.

Lemma tokens_from_step fuel off s ty span rest :
  s <> EmptyString -> first_match Lexer s = Some (ty, span, rest) ->
  String.length rest < String.length s ->
  tokens_from (S fuel) off s =
  ({| Token_Type := ty; Token_Value := span; Token_Pos := {| Offset := off |} |}
     :: fst (tokens_from fuel (off + String.length span) rest),
   snd (tokens_from fuel (off + String.length span) rest)).
Proof.
  intros Hs Hm Hlt. destruct s as [|c s']; [congruence|].
  cbn [tokens_from]. rewrite Hm. apply Nat.ltb_lt in Hlt. rewrite Hlt.
  now destruct (tokens_from fuel (off + String.length span) rest).
Qed.

Lemma tokens_from_place ls : forall fuel off,
  canonical ls = true -> String.length (text_of ls) <= fuel ->
  tokens_from fuel off (text_of ls) = (place off ls, None).
Proof.
  induction ls as [|l ls IH]; intros fuel off Hc Hfuel.
  - simpl. destruct fuel; reflexivity.
  - cbn [canonical] in Hc. apply andb_true_iff in Hc. destruct Hc as [Hl Hc].
    apply first_match_stands in Hl. destruct Hl as [Hm Hne].
    cbn [text_of] in *.
    pose proof (@append_shorter (snd l) (text_of ls) Hne) as Hlt.
    destruct fuel as [|fuel]; [lia|].
    rewrite (tokens_from_step fuel off (s := (snd l ++ text_of ls)%string)
               (ty := fst l) (span := snd l) (rest := text_of ls)); auto.
    + rewrite IH by (auto; lia). reflexivity.
    + destruct (snd l); [congruence | discriminate].
Qed.

Lemma spelling_place ls off : spelling (place off ls) = text_of ls.
Proof.
  revert off. induction ls as [|l ls IH]; intro off; simpl; [reflexivity|].
  now rewrite IH.
Qed.

Lemma Lex_place ls :
  canonical ls = true -> Lex (text_of ls) = (place 0 ls, None).
Proof. intro H. unfold Lex. now apply tokens_from_place. Qed.

(* ================================================================== *)
(** * Properties of the parsing engine *)

Lemma cursor_Accept p b : cursor (Accept p b) = cursor b.
Proof. unfold Accept. destruct (_ <=? _); reflexivity. Qed.

Lemma cursor_MaybeUpdateError e p : cursor (MaybeUpdateError e p) = cursor p.
Proof. unfold MaybeUpdateError. destruct (_ <=? _); reflexivity. Qed.

(** [Stop] stops exactly when the branch is more than [lookahead]
    tokens ahead, and then moves the cursor to that of the branch. *)
Lemma Stop_far e b p :
  cursor p + lookahead < cursor b ->
  exists p', Stop e b p = (true, p') /\ cursor p' = cursor b.
Proof.
  intro H. unfold Stop. apply Nat.ltb_lt in H. rewrite H.
  eexists; split; [reflexivity | apply cursor_Accept].
Qed.

Lemma Stop_near e b p :
  cursor b <= cursor p + lookahead ->
  exists p', Stop e b p = (false, p') /\ cursor p' = cursor p.
Proof.
  intro H. unfold Stop.
  replace (cursor p + lookahead <? cursor b) with false
    by (symmetry; apply Nat.ltb_ge; exact H).
  eexists; split; [reflexivity|].
  destruct (_ <? _); [reflexivity|]. destruct (_ <=? _); reflexivity.
Qed.

Section EngineFacts.

Variable toks : list Token.
Variable eof : Token.

Lemma gives_literal s i :
  Token_Value (token_at toks eof i) = s ->
  gives (literal toks eof s) i s (S i).
Proof.
  intros H c Hc. unfold literal, Peek. rewrite Hc.
  unfold token_at in H. rewrite H, String.eqb_refl.
  eexists; split; [reflexivity | simpl; now rewrite Hc].
Qed.

Lemma misses_literal s i :
  Token_Value (token_at toks eof i) <> s -> misses (literal toks eof s) i.
Proof.
  intros H c Hc. unfold literal, Peek. rewrite Hc.
  apply String.eqb_neq in H. unfold token_at in H. rewrite H.
  eexists; split; [reflexivity | exact Hc].
Qed.

Lemma gives_reference ty i :
  Token_Type (token_at toks eof i) = ty ->
  gives (reference toks eof ty) i (Token_Value (token_at toks eof i)) (S i).
Proof.
  intros H c Hc. unfold reference, Peek. rewrite Hc.
  unfold token_at in *. rewrite H.
  replace (TokenType_eqb ty ty) with true by (destruct ty; reflexivity).
  eexists; split; [reflexivity | simpl; now rewrite Hc].
Qed.

Lemma misses_reference ty i :
  Token_Type (token_at toks eof i) <> ty -> misses (reference toks eof ty) i.
Proof.
  intros H c Hc. unfold reference, Peek. rewrite Hc. unfold token_at in H.
  replace (TokenType_eqb (Token_Type (nth i toks eof)) ty) with false
    by (destruct (Token_Type (nth i toks eof)), ty; try reflexivity; congruence).
  eexists; split; [reflexivity | exact Hc].
Qed.

Lemma gives_ret {A} (a : A) i : gives (ret a) i a i.
Proof. intros c Hc. eexists; split; [reflexivity | exact Hc]. Qed.

Lemma gives_bind {A B} (p : parser A) (f : A -> parser B) i a j b k :
  gives p i a j -> gives (f a) j b k -> gives (bind p f) i b k.
Proof.
  intros Hp Hf c Hc. destruct (Hp c Hc) as (c' & E & Hc').
  unfold bind. rewrite E. now apply Hf.
Qed.

Lemma misses_bind {A B} (p : parser A) (f : A -> parser B) i :
  misses p i -> misses (bind p f) i.
Proof.
  intros Hp c Hc. destruct (Hp c Hc) as (c' & E & Hc').
  unfold bind. rewrite E. eauto.
Qed.

Lemma fails_bind {A B} (p : parser A) (f : A -> parser B) i j :
  fails p i j -> fails (bind p f) i j.
Proof.
  intros Hp c Hc. destruct (Hp c Hc) as (e & c' & E & Hc').
  unfold bind. rewrite E. eauto.
Qed.

Lemma fails_bind_later {A B} (p : parser A) (f : A -> parser B) i a j k :
  gives p i a j -> fails (f a) j k -> fails (bind p f) i k.
Proof.
  intros Hp Hf c Hc. destruct (Hp c Hc) as (c' & E & Hc').
  unfold bind. rewrite E. now apply Hf.
Qed.

Lemma gives_must {A} (p : parser A) i a j :
  gives p i a j -> gives (must toks eof p) i a j.
Proof.
  intros Hp c Hc. destruct (Hp c Hc) as (c' & E & Hc').
  unfold must. rewrite E. eauto.
Qed.

Lemma fails_must {A} (p : parser A) i j :
  fails p i j -> fails (must toks eof p) i j.
Proof.
  intros Hp c Hc. destruct (Hp c Hc) as (e & c' & E & Hc').
  unfold must. rewrite E. eauto.
Qed.

(** An element of a sequence that is not its head has to match. *)
Lemma fails_must_misses {A} (p : parser A) i :
  misses p i -> fails (must toks eof p) i i.
Proof.
  intros Hp c Hc. destruct (Hp c Hc) as (c' & E & Hc').
  unfold must. rewrite E. eauto.
Qed.

Lemma gives_pmap {A B} (f : A -> B) (p : parser A) i a j :
  gives p i a j -> gives (pmap f p) i (f a) j.
Proof. intro H. eapply gives_bind; [exact H | apply gives_ret]. Qed.

Lemma misses_pmap {A B} (f : A -> B) (p : parser A) i :
  misses p i -> misses (pmap f p) i.
Proof. apply misses_bind. Qed.

Lemma fails_pmap {A B} (f : A -> B) (p : parser A) i j :
  fails p i j -> fails (pmap f p) i j.
Proof. apply fails_bind. Qed.

Lemma gives_strct {X T} (build : Position -> X -> T) (p : parser X) i x j :
  gives p i x j ->
  gives (strct toks eof build p) i (build (Token_Pos (token_at toks eof i)) x) j.
Proof.
  intros Hp c Hc. destruct (Hp c Hc) as (c' & E & Hc').
  unfold strct, Peek. rewrite E, Hc. eauto.
Qed.

Lemma misses_strct {X T} (build : Position -> X -> T) (p : parser X) i :
  misses p i -> misses (strct toks eof build p) i.
Proof.
  intros Hp c Hc. destruct (Hp c Hc) as (c' & E & Hc').
  unfold strct. rewrite E. eauto.
Qed.

Lemma fails_strct {X T} (build : Position -> X -> T) (p : parser X) i j :
  fails p i j -> fails (strct toks eof build p) i j.
Proof.
  intros Hp c Hc. destruct (Hp c Hc) as (e & c' & E & Hc').
  unfold strct. rewrite E. do 2 eexists; split; [reflexivity|].
  now rewrite cursor_MaybeUpdateError.
Qed.

(** *** Disjunctions *)

Lemma gives_disjunction_here {A} (a : parser A) rest fe d i v j :
  gives a i v j -> gives (disjunction_from (a :: rest) fe d) i v j.
Proof.
  intros Ha c Hc. destruct (Ha c Hc) as (c' & E & Hc').
  simpl. rewrite E. eexists; split; [reflexivity | now rewrite cursor_Accept].
Qed.

Lemma gives_disjunction_next {A} (a : parser A) rest fe d i v j :
  misses a i -> gives (disjunction_from rest fe d) i v j ->
  gives (disjunction_from (a :: rest) fe d) i v j.
Proof.
  intros Ha Hr c Hc. destruct (Ha c Hc) as (c' & E & Hc').
  simpl. rewrite E. now apply Hr.
Qed.

Lemma misses_disjunction_next {A} (a : parser A) rest fe d i :
  misses a i -> misses (disjunction_from rest fe d) i ->
  misses (disjunction_from (a :: rest) fe d) i.
Proof.
  intros Ha Hr c Hc. destruct (Ha c Hc) as (c' & E & Hc').
  simpl. rewrite E. now apply Hr.
Qed.

Lemma fails_disjunction_next {A} (a : parser A) rest fe d i j :
  misses a i -> fails (disjunction_from rest fe d) i j ->
  fails (disjunction_from (a :: rest) fe d) i j.
Proof.
  intros Ha Hr c Hc. destruct (Ha c Hc) as (c' & E & Hc').
  simpl. rewrite E. now apply Hr.
Qed.

Lemma misses_disjunction_nil {A} d i :
  misses (@disjunction_from A [] None d) i.
Proof. intros c Hc. simpl. eauto. Qed.

Lemma fails_disjunction_nil {A} e d i :
  fails (@disjunction_from A [] (Some e) d) i i.
Proof.
  intros c Hc. simpl. do 2 eexists; split; [reflexivity|].
  now rewrite cursor_MaybeUpdateError.
Qed.

(** An alternative that fails more than [lookahead] tokens ahead ends
    the disjunction: the later alternatives are not tried. *)
Lemma fails_disjunction_far {A} (a : parser A) rest fe d i j :
  fails a i j -> i + lookahead < j ->
  fails (disjunction_from (a :: rest) fe d) i j.
Proof.
  intros Ha Hfar c Hc. destruct (Ha c Hc) as (e & c' & E & Hc').
  simpl. rewrite E.
  destruct (Stop_far e c' c) as (p' & Es & Hp'); [lia|].
  rewrite Es. do 2 eexists; split; [reflexivity | congruence].
Qed.

(** An alternative that fails within the look-ahead is dropped and the
    later ones are tried. *)
Lemma gives_disjunction_retry {A} (a : parser A) rest fe d i j v k :
  fails a i j -> j <= i + lookahead ->
  (forall fe' d', gives (disjunction_from rest fe' d') i v k) ->
  gives (disjunction_from (a :: rest) fe d) i v k.
Proof.
  intros Ha Hnear Hr c Hc. destruct (Ha c Hc) as (e & c' & E & Hc').
  simpl. rewrite E.
  destruct (Stop_near e c' c) as (p' & Es & Hp'); [lia|].
  rewrite Es. destruct (d <=? cursor c'); apply Hr; congruence.
Qed.

Lemma fails_disjunction_retry {A} (a : parser A) rest fe d i j k :
  fails a i j -> j <= i + lookahead ->
  (forall fe' d', fails (disjunction_from rest fe' d') i k) ->
  fails (disjunction_from (a :: rest) fe d) i k.
Proof.
  intros Ha Hnear Hr c Hc. destruct (Ha c Hc) as (e & c' & E & Hc').
  simpl. rewrite E.
  destruct (Stop_near e c' c) as (p' & Es & Hp'); [lia|].
  rewrite Es. destruct (d <=? cursor c'); apply Hr; congruence.
Qed.

(** *** Groups *)

Lemma gives_group_end {A} mode m (out : list A) i :
  (m < MaxIterations)%N -> (group_min mode <= m)%N ->
  gives (group_end toks eof mode m out) i out i.
Proof.
  intros Hmax Hmin c Hc. unfold group_end.
  replace (MaxIterations <=? m)%N with false by (symmetry; apply N.leb_gt; exact Hmax).
  replace (m <? group_min mode)%N with false by (symmetry; apply N.ltb_ge; exact Hmin).
  eauto.
Qed.

Lemma fails_group_end_min {A} mode m (out : list A) i :
  (m < group_min mode)%N -> fails (group_end toks eof mode m out) i i.
Proof.
  intros Hmin c Hc. unfold group_end.
  destruct (MaxIterations <=? m)%N; [eauto|].
  replace (m <? group_min mode)%N with true by (symmetry; apply N.ltb_lt; exact Hmin).
  eauto.
Qed.

Lemma fails_group_end_max {A} mode m (out : list A) i :
  (MaxIterations <= m)%N -> fails (group_end toks eof mode m out) i i.
Proof.
  intros Hmax c Hc. unfold group_end.
  replace (MaxIterations <=? m)%N with true by (symmetry; apply N.leb_le; exact Hmax).
  eauto.
Qed.

(** The round does not match: the group ends. *)
Lemma group_from_misses {A} fuel mode (p : parser A) m out i :
  misses p i -> (m < group_max mode)%N ->
  forall c, cursor c = i ->
    exists c', cursor c' = i /\
      group_from toks eof (S fuel) mode p m out c = group_end toks eof mode m out c'.
Proof.
  intros Hp Hm c Hc. destruct (Hp c Hc) as (c' & E & Hc').
  cbn [group_from]. apply N.ltb_lt in Hm. rewrite Hm, E.
  eexists; split; [|reflexivity]. now rewrite cursor_Accept.
Qed.

(** The round fails within the look-ahead: the group ends. *)
Lemma group_from_fails_near {A} fuel mode (p : parser A) m out i j :
  fails p i j -> j <= i + lookahead -> (m < group_max mode)%N ->
  forall c, cursor c = i ->
    exists c', cursor c' = i /\
      group_from toks eof (S fuel) mode p m out c = group_end toks eof mode m out c'.
Proof.
  intros Hp Hnear Hm c Hc. destruct (Hp c Hc) as (e & c' & E & Hc').
  cbn [group_from]. apply N.ltb_lt in Hm. rewrite Hm, E.
  destruct (Stop_near e c' (MaybeUpdateError e c)) as (p' & Es & Hp').
  { rewrite cursor_MaybeUpdateError. lia. }
  rewrite Es. eexists; split; [|reflexivity].
  now rewrite Hp', cursor_MaybeUpdateError.
Qed.

(** The round fails beyond the look-ahead: the group fails. *)
Lemma fails_group_from_far {A} fuel mode (p : parser A) m out i j :
  fails p i j -> i + lookahead < j -> (m < group_max mode)%N ->
  fails (group_from toks eof (S fuel) mode p m out) i j.
Proof.
  intros Hp Hfar Hm c Hc. destruct (Hp c Hc) as (e & c' & E & Hc').
  cbn [group_from]. apply N.ltb_lt in Hm. rewrite Hm, E.
  destruct (Stop_far e c' (MaybeUpdateError e c)) as (p' & Es & Hp').
  { rewrite cursor_MaybeUpdateError. lia. }
  rewrite Es. do 2 eexists; split; [reflexivity | congruence].
Qed.

(** The round matches: the group goes on from where the round ended. *)
Lemma group_from_gives {A} fuel mode (p : parser A) m out i v j :
  gives p i v j -> (m < group_max mode)%N ->
  forall c, cursor c = i ->
    exists c', cursor c' = j /\
      group_from toks eof (S fuel) mode p m out c =
      group_from toks eof fuel mode p (m + 1)%N (out ++ [v]) c'.
Proof.
  intros Hp Hm c Hc. destruct (Hp c Hc) as (c' & E & Hc').
  cbn [group_from]. apply N.ltb_lt in Hm. rewrite Hm, E.
  eexists; split; [|reflexivity]. now rewrite cursor_Accept.
Qed.

(** The group has had all the rounds it may have. *)
Lemma group_from_done {A} fuel mode (p : parser A) m out c :
  (group_max mode <= m)%N ->
  group_from toks eof fuel mode p m out c = group_end toks eof mode m out c.
Proof.
  intro Hm. apply N.ltb_ge in Hm. destruct fuel; cbn [group_from]; now rewrite Hm.
Qed.

(** An optional group. *)
Lemma gives_optional_none {A} (p : parser A) i :
  misses p i -> gives (group toks eof groupMatchZeroOrOne p) i [] i.
Proof.
  intros Hp c Hc. unfold group.
  destruct (@group_from_misses A (length toks) groupMatchZeroOrOne p 0%N [] i
              Hp eq_refl c Hc) as (c' & Hc' & E).
  rewrite E. now apply gives_group_end.
Qed.

Lemma gives_optional_some {A} (p : parser A) i v j :
  gives p i v j -> gives (group toks eof groupMatchZeroOrOne p) i [v] j.
Proof.
  intros Hp c Hc. unfold group.
  destruct (@group_from_gives A (length toks) groupMatchZeroOrOne p 0%N [] i v j
              Hp eq_refl c Hc) as (c' & Hc' & E).
  rewrite E, group_from_done by (simpl; lia).
  now apply gives_group_end.
Qed.

(** A repetition whose first round does not match. *)
Lemma gives_star_none {A} (p : parser A) i :
  misses p i -> gives (group toks eof groupMatchZeroOrMore p) i [] i.
Proof.
  intros Hp c Hc. unfold group.
  destruct (@group_from_misses A (length toks) groupMatchZeroOrMore p 0%N [] i
              Hp eq_refl c Hc) as (c' & Hc' & E).
  rewrite E. now apply gives_group_end.
Qed.

(** [+] needs one round at least. *)
Lemma fails_plus_near {A} (p : parser A) i j :
  fails p i j -> j <= i + lookahead ->
  fails (group toks eof groupMatchOneOrMore p) i i.
Proof.
  intros Hp Hnear c Hc. unfold group.
  destruct (@group_from_fails_near A (length toks) groupMatchOneOrMore p 0%N []
              i j Hp Hnear eq_refl c Hc) as (c' & Hc' & E).
  rewrite E. now apply fails_group_end_min.
Qed.

(** The first round fails beyond the look-ahead. *)
Lemma fails_group_far {A} mode (p : parser A) i j :
  fails p i j -> i + lookahead < j -> fails (group toks eof mode p) i j.
Proof.
  intros Hp Hfar. unfold group. apply fails_group_from_far; auto.
  destruct mode; reflexivity.
Qed.

(** One round matches and the next one does not, or fails within the
    look-ahead: a repetition keeps the one value. *)
Lemma gives_group_one {A} mode (p : parser A) i v j :
  mode <> groupMatchZeroOrOne -> 1 <= length toks ->
  gives p i v j ->
  misses p j \/ (exists k, fails p j k /\ k <= j + lookahead) ->
  gives (group toks eof mode p) i [v] j.
Proof.
  intros Hmode Hlen Hp Hnext c Hc. unfold group.
  assert (Hmax : forall m, (m < 2)%N -> (m < group_max mode)%N).
  { intros m Hm. destruct mode; [congruence| |]; unfold group_max, MaxIterations; lia. }
  destruct (@group_from_gives A (length toks) mode p 0%N [] i v j Hp
              (Hmax 0%N eq_refl) c Hc) as (c1 & Hc1 & E1).
  rewrite E1. destruct (length toks) as [|fuel]; [lia|].
  assert (exists c2, cursor c2 = j /\
            group_from toks eof (S fuel) mode p (0 + 1)%N ([] ++ [v]) c1 =
            group_end toks eof mode (0 + 1)%N ([] ++ [v]) c2) as (c2 & Hc2 & E2).
  { destruct Hnext as [Hm | (k & Hf & Hk)].
    - now apply group_from_misses; [|apply Hmax|].
    - now apply group_from_fails_near with (j := k); [| |apply Hmax|]. }
  rewrite E2. apply gives_group_end; [reflexivity | destruct mode; simpl; lia | exact Hc2].
Qed.

(** The first round of a [*] fails within the look-ahead. *)
Lemma gives_star_fails_near {A} (p : parser A) i j :
  fails p i j -> j <= i + lookahead ->
  gives (group toks eof groupMatchZeroOrMore p) i [] i.
Proof.
  intros Hp Hnear c Hc. unfold group.
  destruct (@group_from_fails_near A (length toks) groupMatchZeroOrMore p 0%N []
              i j Hp Hnear eq_refl c Hc) as (c' & Hc' & E).
  rewrite E. now apply gives_group_end.
Qed.

Lemma gives_strct_eq {X T} (build : Position -> X -> T) (p : parser X) i x j t :
  gives p i x j -> build (Token_Pos (token_at toks eof i)) x = t ->
  gives (strct toks eof build p) i t j.
Proof. intros Hp <-. now apply gives_strct. Qed.

End EngineFacts.

(* ================================================================== *)
(** * Properties of the grammar *)

(** The parsers of the structs, one level of fuel unfolded. *)

Section Unfold.

Variable toks : list Token.
Variable eof : Token.

Local Open Scope parser_scope.

Local Abbreviation lit := (literal toks eof).
Local Abbreviation tok := (reference toks eof).
Local Abbreviation req := (must toks eof).
Local Abbreviation rep := (group toks eof).
Local Abbreviation node := (strct toks eof).

Lemma parseExpression_S n :
  parseExpression toks eof (S n) =
      node (fun pos ss =>
              {| Expression_Pos := pos; Expression_Sequence := ss |})
           (s <- parseSequence toks eof n ;;
            ss <- req (rep groupMatchZeroOrMore
                         (lit "AND" ;;; req (parseSequence toks eof n))) ;;
            ret (s :: ss)).
Proof. reflexivity. Qed.

Lemma parseSequence_S n :
  parseSequence toks eof (S n) =
      node (fun pos fs => {| Sequence_Pos := pos; Sequence_Factor := fs |})
           (rep groupMatchOneOrMore (parseFactor toks eof n)).
Proof. reflexivity. Qed.

Lemma parseFactor_S n :
  parseFactor toks eof (S n) =
      node (fun pos ts => {| Factor_Pos := pos; Factor_Term := ts |})
           (t <- parseTerm toks eof n ;;
            ts <- req (rep groupMatchZeroOrMore (lit "OR" ;;; req (parseTerm toks eof n))) ;;
            ret (t :: ts)).
Proof. reflexivity. Qed.

Lemma parseTerm_S n :
  parseTerm toks eof (S n) =
      node (fun pos (x : list string * Simple) =>
              {| Term_Pos := pos;
                 Term_Negate := match fst x with [] => false | _ => true end;
                 Term_Simple := snd x |})
           (neg <- rep groupMatchZeroOrOne (disjunction [lit "NOT"; lit "-"]) ;;
            s <- req (parseSimple toks eof n) ;;
            ret (neg, s)).
Proof. reflexivity. Qed.

Lemma parseSimple_S n :
  parseSimple toks eof (S n) =
      node (fun pos (x : Restriction + Composite) =>
              match x with
              | inl r => {| Simple_Pos := pos; Simple_Restriction := Some r;
                            Simple_Composite := None |}
              | inr c => {| Simple_Pos := pos; Simple_Restriction := None;
                            Simple_Composite := Some c |}
              end)
           (disjunction [pmap inl (parseRestriction toks eof n); pmap inr (parseComposite toks eof n)]).
Proof. reflexivity. Qed.

Lemma parseRestriction_S n :
  parseRestriction toks eof (S n) =
      node (fun pos (x : Comparable * list (string * Arg)) =>
              match snd x with
              | [] => {| Restriction_Pos := pos; Restriction_Comparable := fst x;
                         Restriction_Comparator := CompLessEquals;
                         Restriction_Arg := Arg0 |}
              | (op, a) :: _ =>
                  {| Restriction_Pos := pos; Restriction_Comparable := fst x;
                     Restriction_Comparator := Comparator_Capture [op];
                     Restriction_Arg := a |}
              end)
           (c <- parseComparable toks eof n ;;
            oa <- req (rep groupMatchZeroOrOne
                         (op <- (comparator toks eof) ;; a <- req (parseArg toks eof n) ;; ret (op, a))) ;;
            ret (c, oa)).
Proof. reflexivity. Qed.

Lemma parseComparable_S n :
  parseComparable toks eof (S n) =
      node (fun pos (x : Function + Member) =>
              match x with
              | inl f => {| Comparable_Pos := pos; Comparable_Function := Some f;
                            Comparable_Member := None |}
              | inr m => {| Comparable_Pos := pos; Comparable_Function := None;
                            Comparable_Member := Some m |}
              end)
           (disjunction [pmap inl (parseFunction toks eof n); pmap inr (parseMember toks eof)]).
Proof. reflexivity. Qed.

Lemma parseFunction_S n :
  parseFunction toks eof (S n) =
      node (fun pos (x : list Name * list Arg) =>
              {| Function_Pos := pos; Function_Name := fst x; Function_Args := snd x |})
           (nm <- (parseName toks eof) ;;
            nms <- req (rep groupMatchZeroOrMore (lit "." ;;; req (parseName toks eof))) ;;
            req (lit "(") ;;;
            args <- req (rep groupMatchZeroOrOne
                           (a <- parseArg toks eof n ;;
                            more <- req (rep groupMatchZeroOrMore
                                           (lit "," ;;; req (parseArg toks eof n))) ;;
                            ret (a :: more))) ;;
            req (lit ")") ;;;
            ret (nm :: nms, concat args)).
Proof. reflexivity. Qed.

Lemma parseComposite_S n :
  parseComposite toks eof (S n) =
      node (fun pos e => {| Composite_Pos := pos; Composite_Expression := e |})
           (lit "(" ;;; e <- req (parseExpression toks eof n) ;; req (lit ")") ;;; ret e).
Proof. reflexivity. Qed.

Lemma parseArg_S n :
  parseArg toks eof (S n) =
      node (fun pos (x : Comparable + Composite) =>
              match x with
              | inl c => {| Arg_Pos := pos; Arg_Comparable := c;
                            Arg_Composite := Composite0 |}
              | inr c => {| Arg_Pos := pos; Arg_Comparable := Comparable0;
                            Arg_Composite := c |}
              end)
           (disjunction [pmap inl (parseComparable toks eof n); pmap inr (parseComposite toks eof n)]).
Proof. reflexivity. Qed.

End Unfold.

Section GrammarFacts.

Variable toks : list Token.
Variable eof : Token.

Hypothesis eof_type : Token_Type eof = T_EOF.
Hypothesis eof_value : Token_Value eof = EmptyString.

Local Abbreviation at_ i := (token_at toks eof i).

Lemma inert_eof : inert eof.
Proof.
  unfold inert. rewrite eof_type, eof_value. repeat split; try discriminate.
  simpl. intuition discriminate.
Qed.

Lemma inert_dot off : inert (dot_token off).
Proof.
  unfold inert. simpl. repeat split; try discriminate. intuition discriminate.
Qed.

Lemma misses_literal_inert s i :
  inert (at_ i) -> In s ["AND"; "OR"; "NOT"; "-"; "("] ->
  misses (literal toks eof s) i.
Proof.
  intros (_ & _ & H) Hs. apply misses_literal. intro E. apply H. now rewrite E.
Qed.

Ltac inert_literal H :=
  apply misses_literal_inert; [exact H | simpl; tauto].

Lemma misses_keyword i : inert (at_ i) -> misses (keyword toks eof) i.
Proof.
  intro H. unfold keyword, disjunction.
  repeat (apply misses_disjunction_next; [inert_literal H|]).
  apply misses_disjunction_nil.
Qed.

Lemma misses_Name i : inert (at_ i) -> misses (parseName toks eof) i.
Proof.
  intro H. unfold parseName. apply misses_strct. unfold disjunction.
  apply misses_disjunction_next.
  { apply misses_pmap, misses_reference, H. }
  apply misses_disjunction_next.
  { apply misses_pmap, misses_keyword, H. }
  apply misses_disjunction_nil.
Qed.

Lemma misses_Value i : inert (at_ i) -> misses (parseValue toks eof) i.
Proof.
  intro H. unfold parseValue. apply misses_strct. unfold disjunction.
  apply misses_disjunction_next.
  { apply misses_pmap, misses_reference, H. }
  apply misses_disjunction_next.
  { apply misses_pmap, misses_reference, H. }
  apply misses_disjunction_nil.
Qed.

Lemma misses_Member i : inert (at_ i) -> misses (parseMember toks eof) i.
Proof.
  intro H. unfold parseMember. apply misses_strct, misses_bind, misses_Value, H.
Qed.

Lemma misses_Function n i :
  inert (at_ i) -> misses (parseFunction toks eof (S n)) i.
Proof.
  intro H. rewrite parseFunction_S. apply misses_strct, misses_bind, misses_Name, H.
Qed.

Lemma misses_Comparable n i :
  inert (at_ i) -> misses (parseComparable toks eof (S (S n))) i.
Proof.
  intro H. rewrite parseComparable_S. apply misses_strct. unfold disjunction.
  apply misses_disjunction_next.
  { apply misses_pmap, misses_Function, H. }
  apply misses_disjunction_next.
  { apply misses_pmap, misses_Member, H. }
  apply misses_disjunction_nil.
Qed.

Lemma misses_Restriction n i :
  inert (at_ i) -> misses (parseRestriction toks eof (S (S (S n)))) i.
Proof.
  intro H. rewrite parseRestriction_S.
  apply misses_strct, misses_bind, misses_Comparable, H.
Qed.

Lemma misses_Composite n i :
  inert (at_ i) -> misses (parseComposite toks eof (S n)) i.
Proof.
  intro H. rewrite parseComposite_S. apply misses_strct, misses_bind.
  inert_literal H.
Qed.

Lemma misses_Simple n i :
  inert (at_ i) -> misses (parseSimple toks eof (S (S (S (S n))))) i.
Proof.
  intro H. rewrite parseSimple_S. apply misses_strct. unfold disjunction.
  apply misses_disjunction_next.
  { apply misses_pmap, misses_Restriction, H. }
  apply misses_disjunction_next.
  { apply misses_pmap, misses_Composite, H. }
  apply misses_disjunction_nil.
Qed.

Lemma misses_negation i :
  Token_Value (at_ i) <> "NOT" -> Token_Value (at_ i) <> "-" ->
  misses (disjunction [literal toks eof "NOT"; literal toks eof "-"]) i.
Proof.
  intros H1 H2. unfold disjunction.
  apply misses_disjunction_next; [now apply misses_literal|].
  apply misses_disjunction_next; [now apply misses_literal|].
  apply misses_disjunction_nil.
Qed.

Lemma inert_no_negation t :
  inert t -> Token_Value t <> "NOT" /\ Token_Value t <> "-".
Proof. intros (_ & _ & H). split; intro E; apply H; rewrite E; simpl; tauto. Qed.

(** At a token that starts nothing a Term fails, and so do a Factor, a
    Sequence and an Expression, all without consuming anything. *)
Lemma fails_Term n i :
  inert (at_ i) -> fails (parseTerm toks eof (S (S (S (S (S n)))))) i i.
Proof.
  intro H. rewrite parseTerm_S. apply fails_strct.
  destruct (inert_no_negation H) as [H1 H2].
  eapply fails_bind_later.
  - apply gives_optional_none. now apply misses_negation.
  - apply fails_bind, fails_must_misses, misses_Simple, H.
Qed.

Lemma fails_Factor n i :
  inert (at_ i) -> fails (parseFactor toks eof (S (S (S (S (S (S n))))))) i i.
Proof.
  intro H. rewrite parseFactor_S. apply fails_strct, fails_bind, fails_Term, H.
Qed.

Lemma fails_Sequence n i :
  inert (at_ i) ->
  fails (parseSequence toks eof (S (S (S (S (S (S (S n)))))))) i i.
Proof.
  intro H. rewrite parseSequence_S. apply fails_strct.
  apply fails_plus_near with (j := i); [apply fails_Factor, H | lia].
Qed.

Lemma fails_Expression n i :
  inert (at_ i) ->
  fails (parseExpression toks eof (S (S (S (S (S (S (S (S n))))))))) i i.
Proof.
  intro H. rewrite parseExpression_S. apply fails_strct, fails_bind, fails_Sequence, H.
Qed.

(** ** Dotted chains *)

Lemma gives_Name_text i off w :
  at_ i = text_token off w ->
  gives (parseName toks eof) i (text_name off w) (S i).
Proof.
  intro H. unfold parseName. eapply gives_strct_eq.
  - unfold disjunction. apply gives_disjunction_here, gives_pmap, gives_reference.
    rewrite H. reflexivity.
  - rewrite H. reflexivity.
Qed.

Lemma gives_Value_text i off w :
  at_ i = text_token off w ->
  gives (parseValue toks eof) i (text_value off w) (S i).
Proof.
  intro H. unfold parseValue. eapply gives_strct_eq.
  - unfold disjunction. apply gives_disjunction_here, gives_pmap, gives_reference.
    rewrite H. reflexivity.
  - rewrite H. reflexivity.
Qed.

Lemma gives_Field_text i off w :
  at_ i = text_token off w ->
  gives (parseField toks eof) i (value_field (text_value off w)) (S i).
Proof.
  intro H. unfold parseField. eapply gives_strct_eq.
  - unfold disjunction.
    apply gives_disjunction_here, gives_pmap, gives_Value_text, H.
  - rewrite H. reflexivity.
Qed.

Lemma gives_dot i off :
  at_ i = dot_token off -> gives (literal toks eof ".") i "." (S i).
Proof. intro H. apply gives_literal. rewrite H. reflexivity. Qed.

Lemma misses_literal_eof s i :
  at_ i = eof -> s <> EmptyString -> misses (literal toks eof s) i.
Proof. intros H Hs. apply misses_literal. rewrite H, eof_value. congruence. Qed.

Lemma tail_at_end ws : forall i off,
  tail_at toks eof i off ws -> at_ (i + 2 * length ws) = eof.
Proof.
  induction ws as [|w ws IH]; intros i off H; simpl in *.
  - now rewrite Nat.add_0_r.
  - destruct H as (_ & _ & H). apply IH in H.
    now replace (i + S (length ws + S (length ws + 0)))
      with (S (S i) + 2 * length ws) by lia.
Qed.

(** The repetition of a Function takes all the names of the chain, *)
Lemma names_loop ws : forall i off m out fuel,
  tail_at toks eof i off ws -> length ws < fuel ->
  (m + N.of_nat (length ws) < MaxIterations)%N ->
  gives (group_from toks eof fuel groupMatchZeroOrMore (dot_Name toks eof) m out)
        i (out ++ chain_names off ws) (i + 2 * length ws).
Proof.
  induction ws as [|w ws IH]; intros i off m out fuel Ht Hf Hm c Hc;
    (destruct fuel as [|fuel]; [simpl in Hf; lia|]).
  - simpl in Ht.
    destruct (@group_from_misses toks eof _ fuel groupMatchZeroOrMore
                (dot_Name toks eof) m out i) with (c := c) as (c' & Hc' & E).
    + apply misses_bind, misses_literal_eof; [exact Ht | discriminate].
    + simpl in *. lia.
    + exact Hc.
    + rewrite E, app_nil_r. simpl. rewrite Nat.add_0_r.
      apply gives_group_end; [simpl in Hm; lia | simpl; lia | exact Hc'].
  - destruct Ht as (Hd & Hw & Ht).
    destruct (@group_from_gives toks eof _ fuel groupMatchZeroOrMore
                (dot_Name toks eof) m out i (text_name (S off) w) (S (S i)))
      with (c := c) as (c' & Hc' & E).
    + eapply gives_bind; [apply gives_dot with (off := off), Hd|].
      apply gives_must, gives_Name_text, Hw.
    + simpl in *. lia.
    + exact Hc.
    + rewrite E.
      replace (i + 2 * length (w :: ws)) with (S (S i) + 2 * length ws)
        by (simpl; lia).
      replace (out ++ chain_names off (w :: ws))
        with ((out ++ [text_name (S off) w])
                ++ chain_names (S off + String.length w) ws)
        by (rewrite <- app_assoc; reflexivity).
      apply IH; [exact Ht | simpl in Hf; lia | simpl in Hm; lia | exact Hc'].
Qed.

(** unless there are a million of them: then it fails, far ahead. *)
Lemma names_loop_max ws : forall i off m out fuel,
  tail_at toks eof i off ws -> length ws < fuel ->
  (MaxIterations <= m + N.of_nat (length ws))%N -> (m <= MaxIterations)%N ->
  fails (group_from toks eof fuel groupMatchZeroOrMore (dot_Name toks eof) m out)
        i (i + 2 * N.to_nat (MaxIterations - m)).
Proof.
  induction ws as [|w ws IH]; intros i off m out fuel Ht Hf Hm Hle c Hc.
  - simpl in Hm. assert (m = MaxIterations) by lia. subst m.
    rewrite group_from_done by (simpl; lia).
    rewrite N.sub_diag. simpl. rewrite Nat.add_0_r.
    apply fails_group_end_max; [lia | exact Hc].
  - destruct (N.eq_dec m MaxIterations) as [-> | Hne].
    + rewrite group_from_done by (simpl; lia).
      rewrite N.sub_diag. simpl. rewrite Nat.add_0_r.
      apply fails_group_end_max; [lia | exact Hc].
    + destruct fuel as [|fuel]; [simpl in Hf; lia|].
      destruct Ht as (Hd & Hw & Ht).
      destruct (@group_from_gives toks eof _ fuel groupMatchZeroOrMore
                  (dot_Name toks eof) m out i (text_name (S off) w) (S (S i)))
        with (c := c) as (c' & Hc' & E).
      * eapply gives_bind; [apply gives_dot with (off := off), Hd|].
        apply gives_must, gives_Name_text, Hw.
      * simpl. lia.
      * exact Hc.
      * rewrite E.
        replace (i + 2 * N.to_nat (MaxIterations - m))
          with (S (S i) + 2 * N.to_nat (MaxIterations - (m + 1))) by lia.
        apply (IH (S (S i)) (S off + String.length w) (m + 1)%N
                 (out ++ [text_name (S off) w]) fuel);
          [exact Ht | simpl in Hf; lia | simpl in Hm; lia | lia | exact Hc'].
Qed.

(** The repetition of a Member takes all the fields of the chain. *)
Lemma fields_loop ws : forall i off m out fuel,
  tail_at toks eof i off ws -> length ws < fuel ->
  (m + N.of_nat (length ws) < MaxIterations)%N ->
  gives (group_from toks eof fuel groupMatchZeroOrMore (dot_Field toks eof) m out)
        i (out ++ chain_fields off ws) (i + 2 * length ws).
Proof.
  induction ws as [|w ws IH]; intros i off m out fuel Ht Hf Hm c Hc;
    (destruct fuel as [|fuel]; [simpl in Hf; lia|]).
  - simpl in Ht.
    destruct (@group_from_misses toks eof _ fuel groupMatchZeroOrMore
                (dot_Field toks eof) m out i) with (c := c) as (c' & Hc' & E).
    + apply misses_bind, misses_literal_eof; [exact Ht | discriminate].
    + simpl in *. lia.
    + exact Hc.
    + rewrite E, app_nil_r. simpl. rewrite Nat.add_0_r.
      apply gives_group_end; [simpl in Hm; lia | simpl; lia | exact Hc'].
  - destruct Ht as (Hd & Hw & Ht).
    destruct (@group_from_gives toks eof _ fuel groupMatchZeroOrMore
                (dot_Field toks eof) m out i (value_field (text_value (S off) w))
                (S (S i)))
      with (c := c) as (c' & Hc' & E).
    + eapply gives_bind; [apply gives_dot with (off := off), Hd|].
      apply gives_must, gives_Field_text, Hw.
    + simpl in *. lia.
    + exact Hc.
    + rewrite E.
      replace (i + 2 * length (w :: ws)) with (S (S i) + 2 * length ws)
        by (simpl; lia).
      replace (out ++ chain_fields off (w :: ws))
        with ((out ++ [value_field (text_value (S off) w)])
                ++ chain_fields (S off + String.length w) ws)
        by (rewrite <- app_assoc; reflexivity).
      apply IH; [exact Ht | simpl in Hf; lia | simpl in Hm; lia | exact Hc'].
Qed.

Section ChainSpine.

(** A chain starts at cursor [i0] with the word [w] and goes on with
    the dotted words [ws]. *)
Variables (i0 o off : nat) (w : string) (ws : list string).
Hypothesis head_token : at_ i0 = text_token o w.
Hypothesis tail_tokens : tail_at toks eof (S i0) off ws.
Hypothesis enough_rounds : length ws <= length toks.

Local Abbreviation last := (S i0 + 2 * length ws).

Lemma chain_end : at_ last = eof.
Proof. exact (tail_at_end _ _ _ tail_tokens). Qed.

Lemma chain_end_inert : inert (at_ last).
Proof. rewrite chain_end. apply inert_eof. Qed.

(** The chain is not followed by a parenthesis: as a Function it fails,
    at its end, which is within the look-ahead for four words at most
    and beyond it for five words and more. *)
Lemma fails_Function_chain n :
  exists j, fails (parseFunction toks eof (S n)) i0 j /\
            (length ws <= 3 -> j = last) /\
            (4 <= length ws -> i0 + lookahead < j).
Proof.
  destruct (N.ltb_spec (N.of_nat (length ws)) MaxIterations) as [Hlt | Hge].
  - exists last. split; [|split; [reflexivity | unfold lookahead; lia]].
    rewrite parseFunction_S. apply fails_strct.
    eapply fails_bind_later; [apply gives_Name_text, head_token|].
    eapply fails_bind_later.
    + apply gives_must. unfold group.
      apply (@names_loop ws (S i0) off 0%N [] (S (length toks)));
        [exact tail_tokens | lia | lia].
    + apply fails_bind, fails_must_misses, misses_literal_eof;
        [apply chain_end | discriminate].
  - exists (S i0 + 2 * N.to_nat (MaxIterations - 0)).
    split; [|split].
    + rewrite parseFunction_S. apply fails_strct.
      eapply fails_bind_later; [apply gives_Name_text, head_token|].
      apply fails_bind, fails_must. unfold group.
      apply (@names_loop_max ws (S i0) off 0%N [] (S (length toks)));
        [exact tail_tokens | lia | lia | lia].
    + unfold MaxIterations in Hge. lia.
    + unfold MaxIterations, lookahead. lia.
Qed.

Lemma gives_Member_chain :
  length ws <= 3 ->
  gives (parseMember toks eof) i0
        (member (text_value o w) (chain_fields off ws)) last.
Proof.
  intro Hlen. unfold parseMember. eapply gives_strct_eq.
  - eapply gives_bind; [apply gives_Value_text, head_token|].
    eapply gives_bind; [|apply gives_ret].
    apply gives_must. unfold group.
    apply (@fields_loop ws (S i0) off 0%N [] (S (length toks)));
      [exact tail_tokens | lia | unfold MaxIterations; lia].
  - rewrite head_token. reflexivity.
Qed.

Local Abbreviation the_comparable :=
  (member_comparable (member (text_value o w) (chain_fields off ws))).

(** *** Four words at most: the chain is a Member *)

Lemma gives_Comparable_chain n :
  length ws <= 3 ->
  gives (parseComparable toks eof (S (S n))) i0 the_comparable last.
Proof.
  intro Hlen. destruct (fails_Function_chain n) as (j & Hf & Hj & _).
  rewrite parseComparable_S. eapply gives_strct_eq.
  - unfold disjunction. eapply gives_disjunction_retry.
    + apply fails_pmap, Hf.
    + rewrite (Hj Hlen). unfold lookahead. lia.
    + intros fe' d'. apply gives_disjunction_here, gives_pmap.
      now apply gives_Member_chain.
  - rewrite head_token. reflexivity.
Qed.

Lemma misses_comparator_eof i :
  at_ i = eof -> misses (comparator toks eof) i.
Proof.
  intro H. unfold comparator, disjunction.
  repeat (apply misses_disjunction_next;
          [apply misses_literal_eof; [exact H | discriminate]|]).
  apply misses_disjunction_nil.
Qed.

Lemma gives_Restriction_chain n :
  length ws <= 3 ->
  gives (parseRestriction toks eof (S (S (S n)))) i0
        (global_restriction the_comparable) last.
Proof.
  intro Hlen. rewrite parseRestriction_S. eapply gives_strct_eq.
  - eapply gives_bind; [now apply gives_Comparable_chain|].
    eapply gives_bind; [|apply gives_ret].
    apply gives_must, gives_optional_none, misses_bind, misses_comparator_eof.
    apply chain_end.
  - rewrite head_token. reflexivity.
Qed.

Lemma gives_Simple_chain n :
  length ws <= 3 ->
  gives (parseSimple toks eof (S (S (S (S n))))) i0
        (Term_Simple (restriction_term (global_restriction the_comparable))) last.
Proof.
  intro Hlen. rewrite parseSimple_S. eapply gives_strct_eq.
  - unfold disjunction. apply gives_disjunction_here, gives_pmap.
    now apply gives_Restriction_chain.
  - rewrite head_token. reflexivity.
Qed.

Hypothesis head_not_NOT : w <> "NOT".
Hypothesis head_not_minus : w <> "-".

Lemma misses_negation_head :
  misses (disjunction [literal toks eof "NOT"; literal toks eof "-"]) i0.
Proof. apply misses_negation; rewrite head_token; assumption. Qed.

Lemma gives_Term_chain n :
  length ws <= 3 ->
  gives (parseTerm toks eof (S (S (S (S (S n)))))) i0
        (restriction_term (global_restriction the_comparable)) last.
Proof.
  intro Hlen. rewrite parseTerm_S. eapply gives_strct_eq.
  - eapply gives_bind; [apply gives_optional_none, misses_negation_head|].
    eapply gives_bind; [|apply gives_ret].
    apply gives_must. now apply gives_Simple_chain.
  - rewrite head_token. reflexivity.
Qed.

Local Abbreviation the_factor :=
  (term_factor (restriction_term (global_restriction the_comparable))).

Lemma gives_Factor_chain n :
  length ws <= 3 ->
  gives (parseFactor toks eof (S (S (S (S (S (S n))))))) i0 the_factor last.
Proof.
  intro Hlen. rewrite parseFactor_S. eapply gives_strct_eq.
  - eapply gives_bind; [now apply gives_Term_chain|].
    eapply gives_bind; [|apply gives_ret].
    apply gives_must, gives_star_none, misses_bind, misses_literal_eof;
      [apply chain_end | discriminate].
  - rewrite head_token. reflexivity.
Qed.

Lemma tokens_nonempty : 1 <= length toks.
Proof.
  destruct (length toks) eqn:E; [|lia].
  apply length_zero_iff_nil in E. exfalso.
  pose proof head_token as H. unfold token_at in H. rewrite E in H.
  pose proof eof_type as Ht.
  destruct i0; simpl in H; rewrite H in Ht; discriminate.
Qed.

Lemma gives_Sequence_chain n :
  length ws <= 3 ->
  gives (parseSequence toks eof (S (S (S (S (S (S (S n)))))))) i0
        (sequence_of [the_factor]) last.
Proof.
  intro Hlen. rewrite parseSequence_S. eapply gives_strct_eq.
  - apply gives_group_one;
      [discriminate | apply tokens_nonempty | now apply gives_Factor_chain |].
    right. exists last. split; [apply fails_Factor, chain_end_inert | lia].
  - rewrite head_token. reflexivity.
Qed.

Lemma gives_Expression_chain n :
  length ws <= 3 ->
  gives (parseExpression toks eof (S (S (S (S (S (S (S (S n))))))))) i0
        (expression_of [sequence_of [the_factor]]) last.
Proof.
  intro Hlen. rewrite parseExpression_S. eapply gives_strct_eq.
  - eapply gives_bind; [now apply gives_Sequence_chain|].
    eapply gives_bind; [|apply gives_ret].
    apply gives_must, gives_star_none, misses_bind, misses_literal_eof;
      [apply chain_end | discriminate].
  - rewrite head_token. reflexivity.
Qed.

Lemma gives_Filter_chain n :
  length ws <= 3 ->
  gives (parseFilter toks eof (S (S (S (S (S (S (S (S n))))))))) i0
        (restriction_filter (global_restriction the_comparable)) last.
Proof.
  intro Hlen. unfold parseFilter. eapply gives_strct_eq.
  - apply gives_group_one;
      [discriminate | apply tokens_nonempty | now apply gives_Expression_chain |].
    right. exists last. split; [apply fails_Expression, chain_end_inert | lia].
  - rewrite head_token. reflexivity.
Qed.

(** *** Five words and more: the failure of the Function is final *)

Lemma fails_Filter_chain n :
  4 <= length ws ->
  exists j, fails (parseFilter toks eof (S (S (S (S (S (S (S (S n))))))))) i0 j.
Proof.
  intro Hlen. destruct (fails_Function_chain n) as (j & Hf & _ & Hj).
  specialize (Hj Hlen). exists j.
  unfold parseFilter. apply fails_strct, fails_group_far; [|exact Hj].
  rewrite parseExpression_S. apply fails_strct, fails_bind.
  rewrite parseSequence_S. apply fails_strct, fails_group_far; [|exact Hj].
  rewrite parseFactor_S. apply fails_strct, fails_bind.
  rewrite parseTerm_S. apply fails_strct.
  eapply fails_bind_later; [apply gives_optional_none, misses_negation_head|].
  apply fails_bind, fails_must.
  rewrite parseSimple_S. apply fails_strct. unfold disjunction.
  apply fails_disjunction_far; [|exact Hj]. apply fails_pmap.
  rewrite parseRestriction_S. apply fails_strct, fails_bind.
  rewrite parseComparable_S. apply fails_strct. unfold disjunction.
  apply fails_disjunction_far; [|exact Hj]. apply fails_pmap, Hf.
Qed.

End ChainSpine.

End GrammarFacts.

(** ** Parse on dotted chains *)

Lemma nth_after {A} (pre : list A) x rest d :
  nth (length pre) (pre ++ x :: rest) d = x.
Proof. induction pre; simpl; auto. Qed.

Lemma tail_at_chain_tail eof ws : forall pre off,
  tail_at (pre ++ chain_tail_tokens off ws) eof (length pre) off ws.
Proof.
  induction ws as [|w ws IH]; intros pre off; simpl.
  - unfold token_at. rewrite app_nil_r. apply nth_overflow. lia.
  - unfold token_at. split; [apply nth_after|]. split.
    + change (pre ++ dot_token off :: text_token (S off) w
                :: chain_tail_tokens (S (off + String.length w)) ws)
        with (pre ++ [dot_token off] ++ text_token (S off) w
                :: chain_tail_tokens (S (off + String.length w)) ws).
      rewrite app_assoc.
      replace (S (length pre)) with (length (pre ++ [dot_token off]))
        by (rewrite length_app; simpl; lia).
      apply nth_after.
    + specialize (IH (pre ++ [dot_token off; text_token (S off) w])
                     (S off + String.length w)).
      rewrite <- app_assoc in IH. simpl in IH.
      replace (length (pre ++ [dot_token off; text_token (S off) w]))
        with (S (S (length pre))) in IH by (rewrite length_app; simpl; lia).
      exact IH.
Qed.

Lemma chain_tail_tokens_length off ws :
  length (chain_tail_tokens off ws) = 2 * length ws.
Proof.
  revert off. induction ws as [|w ws IH]; intro off; simpl; [reflexivity|].
  rewrite IH. lia.
Qed.

Lemma identifier_not_minus w : identifier w = true -> w <> "-".
Proof. intros H ->. discriminate. Qed.

Lemma parse_fuel_enough toks :
  exists n, parse_fuel toks = S (S (S (S (S (S (S (S n))))))).
Proof. exists (12 * length toks + 4). unfold parse_fuel. lia. Qed.

Section ChainParse.

Variables (w : string) (ws : list string) (eof : Token).
Hypothesis eof_type : Token_Type eof = T_EOF.
Hypothesis eof_value : Token_Value eof = EmptyString.

Local Abbreviation toks := (chain_tokens w ws).

Lemma chain_head : token_at toks eof 0 = text_token 0 w.
Proof. reflexivity. Qed.

Lemma chain_tail : tail_at toks eof 1 (String.length w) ws.
Proof.
  exact (tail_at_chain_tail eof ws [text_token 0 w] (String.length w)).
Qed.

Lemma chain_rounds : length ws <= length toks.
Proof. unfold chain_tokens. simpl. rewrite chain_tail_tokens_length. lia. Qed.

(** Four words at most, the first of which is not [NOT]: the tokens
    parse to the Member of the chain. *)
Lemma parseTokens_chain_short :
  w <> "NOT" -> w <> "-" -> length ws <= 3 ->
  parseTokens toks eof =
  Parsed (restriction_filter (global_restriction (member_comparable
            (chain_member w ws)))).
Proof.
  intros H1 H2 Hlen. unfold parseTokens.
  destruct (parse_fuel_enough toks) as (n & ->).
  assert (Hg : gives (parseFilter toks eof (S (S (S (S (S (S (S (S n)))))))))
                 0 (restriction_filter (global_restriction (member_comparable
                      (chain_member w ws)))) (1 + 2 * length ws)).
  { eapply gives_Filter_chain;
      eauto using chain_head, chain_tail, chain_rounds. }
  destruct (Hg Context0 eq_refl) as (c' & E & Hc').
  rewrite E. unfold Peek. rewrite Hc'.
  pose proof chain_tail as He. apply tail_at_end in He.
  unfold token_at in He. rewrite He, eof_type. reflexivity.
Qed.

(** Five words and more, the first of which is not [NOT]: the parse
    fails. *)
Lemma parseTokens_chain_long :
  w <> "NOT" -> w <> "-" -> 4 <= length ws ->
  exists e, parseTokens toks eof = ParseFailure e.
Proof.
  intros H1 H2 Hlen. unfold parseTokens.
  destruct (parse_fuel_enough toks) as (n & ->).
  assert (Hg : exists j,
             fails (parseFilter toks eof (S (S (S (S (S (S (S (S n))))))))) 0 j).
  { eapply fails_Filter_chain;
      eauto using chain_head, chain_tail, chain_rounds. }
  destruct Hg as (j & Hf).
  destruct (Hf Context0 eq_refl) as (e & c' & E & _).
  rewrite E. eauto.
Qed.

End ChainParse.

(** A chain that starts with the word [NOT] and goes on: the word is
    taken as the negation of a Term, no Simple follows, and the parse
    fails. *)
Lemma parseTokens_chain_NOT w' ws eof :
  Token_Type eof = T_EOF -> Token_Value eof = EmptyString ->
  exists e, parseTokens (chain_tokens "NOT" (w' :: ws)) eof = ParseFailure e.
Proof.
  intros eof_type eof_value. unfold parseTokens.
  set (toks := chain_tokens "NOT" (w' :: ws)).
  destruct (parse_fuel_enough toks) as (n & ->).
  assert (Hterm : fails (parseTerm toks eof (S (S (S (S (S n)))))) 0 1).
  { rewrite parseTerm_S. apply fails_strct.
    eapply fails_bind_later.
    - apply gives_optional_some. unfold disjunction.
      apply gives_disjunction_here, gives_literal. reflexivity.
    - apply fails_bind, fails_must_misses, misses_Simple.
      change (token_at toks eof 1) with (dot_token 3). apply inert_dot. }
  assert (Hfilter : gives (parseFilter toks eof
                             (S (S (S (S (S (S (S (S n))))))))) 0
                      {| Filter_Pos := at_ 0; Filter_Expression := [] |} 0).
  { unfold parseFilter. eapply gives_strct_eq; [|reflexivity].
    apply gives_star_fails_near with (j := 0); [|lia].
    rewrite parseExpression_S. apply fails_strct, fails_bind.
    rewrite parseSequence_S. apply fails_strct.
    apply fails_plus_near with (j := 1); [|unfold lookahead; lia].
    rewrite parseFactor_S. apply fails_strct, fails_bind, Hterm. }
  destruct (Hfilter Context0 eq_refl) as (c' & E & Hc').
  rewrite E. unfold Peek. rewrite Hc'. simpl. eauto.
Qed.

Lemma eof_token_type s : Token_Type (eof_token s) = T_EOF.
Proof. reflexivity. Qed.

Lemma eof_token_value s : Token_Value (eof_token s) = EmptyString.
Proof. reflexivity. Qed.

Lemma Parse_chain w ws :
  Forall (fun x => identifier x = true) (w :: ws) ->
  Parse (dotted (w :: ws)) =
  parseTokens (chain_tokens w ws) (eof_token (dotted (w :: ws))).
Proof.
  intro H. unfold Parse, DefaultParser_ParseString.
  now rewrite Lex_chain, elide_chain.
Qed.

(** A chain of four words at most, not headed by [NOT], parses to the
    Member of the chain. *)
Lemma Parse_chain_short w ws :
  Forall (fun x => identifier x = true) (w :: ws) -> w <> "NOT" ->
  length ws <= 3 ->
  Parse (dotted (w :: ws)) =
  Parsed (restriction_filter (global_restriction (member_comparable
            (chain_member w ws)))).
Proof.
  intros Hall Hnot Hlen. rewrite Parse_chain by exact Hall.
  apply parseTokens_chain_short; auto.
  apply identifier_not_minus. now inversion Hall.
Qed.

(** A chain of five words and more does not parse. *)
Lemma Parse_chain_long w ws :
  Forall (fun x => identifier x = true) (w :: ws) -> 4 <= length ws ->
  exists e, Parse (dotted (w :: ws)) = ParseFailure e.
Proof.
  intros Hall Hlen. rewrite Parse_chain by exact Hall.
  destruct (string_dec w "NOT") as [-> | Hnot].
  - destruct ws as [|w' ws]; [simpl in Hlen; lia|].
    now apply parseTokens_chain_NOT.
  - apply parseTokens_chain_long; auto.
    apply identifier_not_minus. now inversion Hall.
Qed.

(* ================================================================== *)
(** * Parse always returns *)

Section GoodFacts.

Variable toks : list Token.
Variable eof : Token.

Hypothesis eof_type : Token_Type eof = T_EOF.
Hypothesis eof_value : Token_Value eof = EmptyString.

Local Abbreviation len := (length toks).
Local Abbreviation Good := (good toks).

Lemma good_weaken {A} (p : parser A) i : Good true p i -> Good false p i.
Proof.
  intros H c Hc. specialize (H c Hc).
  destruct (p c) as [[a| |e|] c']; auto. destruct H; split; [lia | assumption].
Qed.

Lemma good_literal s i :
  s <> EmptyString -> i <= len -> Good true (literal toks eof s) i.
Proof.
  intros Hs Hi c Hc. unfold literal, Peek. rewrite Hc.
  destruct (String.eqb_spec (Token_Value (nth i toks eof)) s) as [E | E].
  - simpl. rewrite Hc. split; [lia|].
    destruct (Nat.lt_ge_cases i len) as [Hlt | Hge]; [lia|].
    rewrite nth_overflow in E by assumption. congruence.
  - lia.
Qed.

Lemma good_reference ty i :
  ty <> T_EOF -> i <= len -> Good true (reference toks eof ty) i.
Proof.
  intros Hty Hi c Hc. unfold reference, Peek. rewrite Hc.
  destruct (TokenType_eqb (Token_Type (nth i toks eof)) ty) eqn:E.
  - simpl. rewrite Hc. split; [lia|].
    destruct (Nat.lt_ge_cases i len) as [Hlt | Hge]; [lia|].
    rewrite nth_overflow, eof_type in E by assumption.
    destruct ty; try discriminate; congruence.
  - lia.
Qed.

Lemma good_ret {A} (a : A) i : i <= len -> Good false (ret a) i.
Proof. intros Hi c Hc. simpl. lia. Qed.

Lemma good_bind {A B} s1 s2 (p : parser A) (f : A -> parser B) i :
  Good s1 p i ->
  (forall j a, (if s1 then i < j else i <= j) -> j <= len -> Good s2 (f a) j) ->
  Good (s1 || s2) (bind p f) i.
Proof.
  intros Hp Hf c Hc. specialize (Hp c Hc). unfold bind.
  destruct (p c) as [[a| |e|] c']; auto.
  destruct Hp as [H1 H2].
  specialize (Hf (cursor c') a H1 H2 c' eq_refl).
  destruct (f a c') as [[b| |e|] c'']; auto;
    destruct s1, s2; simpl in *; lia.
Qed.

Lemma good_must {A} s (p : parser A) i : Good s p i -> Good s (must toks eof p) i.
Proof.
  intros Hp c Hc. specialize (Hp c Hc). unfold must.
  destruct (p c) as [[a| |e|] c']; auto.
Qed.

Lemma good_pmap {A B} s (f : A -> B) (p : parser A) i :
  i <= len -> Good s p i -> Good s (pmap f p) i.
Proof.
  intros Hi Hp. unfold pmap. replace s with (s || false) by apply orb_false_r.
  apply good_bind; [assumption|]. intros j a _ Hj. now apply good_ret.
Qed.

Lemma good_strct {X T} s (build : Position -> X -> T) (p : parser X) i :
  Good s p i -> Good s (strct toks eof build p) i.
Proof.
  intros Hp c Hc. specialize (Hp c Hc). unfold strct.
  destruct (p c) as [[a| |e|] c']; auto.
  now rewrite cursor_MaybeUpdateError.
Qed.

Lemma cursor_Stop e b p :
  cursor (snd (Stop e b p)) = if fst (Stop e b p) then cursor b else cursor p.
Proof.
  unfold Stop. destruct (cursor p + lookahead <? cursor b); simpl.
  - apply cursor_Accept.
  - destruct (_ <? _); [reflexivity|]. destruct (_ <=? _); reflexivity.
Qed.

Lemma good_disjunction_from {A} s (nodes : list (parser A)) i :
  i <= len -> Forall (fun a => Good s a i) nodes ->
  forall fe d, Good s (disjunction_from nodes fe d) i.
Proof.
  intros Hi Hall. induction Hall as [|a nodes Ha Hall IH]; intros fe d c Hc.
  - simpl. destruct fe; simpl; [rewrite cursor_MaybeUpdateError|]; lia.
  - simpl. specialize (Ha c Hc).
    destruct (a c) as [[v| |e|] c'] eqn:E; auto.
    + rewrite cursor_Accept. exact Ha.
    + now apply IH.
    + pose proof (cursor_Stop e c' c) as Hs.
      destruct (Stop e c' c) as [stop ctx']. simpl in Hs.
      destruct stop.
      * lia.
      * destruct (d <=? cursor c'); apply IH; congruence.
Qed.

Lemma good_disjunction {A} s (nodes : list (parser A)) i :
  i <= len -> Forall (fun a => Good s a i) nodes ->
  Good s (disjunction nodes) i.
Proof. intros. now apply good_disjunction_from. Qed.

Lemma good_group_end {A} mode m (out : list A) i :
  i <= len -> Good false (group_end toks eof mode m out) i.
Proof.
  intros Hi c Hc. unfold group_end.
  destruct (_ <=? _)%N; [simpl; lia|]. destruct (_ <? _)%N; simpl; lia.
Qed.

(** A repetition whose rounds behave and consume behaves, as long as
    it has more fuel than there are tokens left. *)
Lemma good_group_from {A} mode (body : parser A) i0 :
  (forall j, i0 <= j -> j <= len -> Good true body j) ->
  forall fuel m out i,
    i0 <= i -> i <= len -> len - i < fuel ->
    Good false (group_from toks eof fuel mode body m out) i.
Proof.
  intros Hbody. induction fuel as [|fuel IH]; intros m out i Hi0 Hi Hfuel c Hc; [lia|].
  cbn [group_from]. destruct (m <? group_max mode)%N.
  - specialize (Hbody i Hi0 Hi c Hc).
    destruct (body c) as [[v| |e|] c'] eqn:E; auto.
    + destruct Hbody as [H1 H2]. simpl in H1.
      assert (Hg : Good false (group_from toks eof fuel mode body (m + 1) (out ++ [v]))
                     (cursor c')) by (apply IH; lia).
      specialize (Hg (Accept c c') (cursor_Accept c c')).
      destruct (group_from toks eof fuel mode body (m + 1) (out ++ [v]) (Accept c c'))
        as [[v'| |e'|] c'']; auto; lia.
    + destruct Hbody as [H1 H2].
      pose proof (@good_group_end A mode m out (cursor c') H2 (Accept c c')
                    (cursor_Accept c c')) as Hg.
      destruct (group_end toks eof mode m out (Accept c c')) as [[v'| |e'|] c''];
        auto; lia.
    + pose proof (cursor_Stop e c' (MaybeUpdateError e c)) as Hs.
      destruct (Stop e c' (MaybeUpdateError e c)) as [stop ctx']. simpl in Hs.
      rewrite cursor_MaybeUpdateError in Hs.
      destruct stop; [lia|].
      apply good_group_end; [assumption | congruence].
  - now apply good_group_end.
Qed.

Lemma good_group {A} mode (body : parser A) i :
  (forall j, i <= j -> j <= len -> Good true body j) -> i <= len ->
  Good false (group toks eof mode body) i.
Proof.
  intros Hb Hi. unfold group. apply good_group_from with (i0 := i); auto. lia.
Qed.

(** One round at least: the group consumes. *)
Lemma good_plus {A} (body : parser A) i :
  (forall j, i <= j -> j <= len -> Good true body j) -> i <= len ->
  Good true (group toks eof groupMatchOneOrMore body) i.
Proof.
  intros Hb Hi c Hc. unfold group. cbn [group_from].
  change (0 <? group_max groupMatchOneOrMore)%N with true. cbv iota.
  pose proof (Hb i (Nat.le_refl i) Hi c Hc) as Hbody.
  destruct (body c) as [[v| |e|] c'] eqn:E; auto.
  - destruct Hbody as [H1 H2]. simpl in H1.
    assert (Hg : Good false (group_from toks eof len groupMatchOneOrMore body
                               (0 + 1) ([] ++ [v])) (cursor c')).
    { apply good_group_from with (i0 := i); auto; lia. }
    specialize (Hg (Accept c c') (cursor_Accept c c')).
    destruct (group_from toks eof len groupMatchOneOrMore body (0 + 1) ([] ++ [v])
                (Accept c c')) as [[v'| |e'|] c'']; auto; lia.
  - unfold group_end. simpl. rewrite cursor_Accept. lia.
  - pose proof (cursor_Stop e c' (MaybeUpdateError e c)) as Hs.
    destruct (Stop e c' (MaybeUpdateError e c)) as [stop ctx']. simpl in Hs.
    rewrite cursor_MaybeUpdateError in Hs.
    destruct stop; [lia|]. unfold group_end. simpl. lia.
Qed.

(** *** The parsers of the grammar *)

Lemma good_keyword i : i <= len -> Good true (keyword toks eof) i.
Proof.
  intro Hi. unfold keyword. apply good_disjunction; [assumption|].
  repeat constructor; apply good_literal; (discriminate || assumption).
Qed.

Lemma good_comparator i : i <= len -> Good true (comparator toks eof) i.
Proof.
  intro Hi. unfold comparator. apply good_disjunction; [assumption|].
  repeat constructor; apply good_literal; (discriminate || assumption).
Qed.

Lemma good_Value i : i <= len -> Good true (parseValue toks eof) i.
Proof.
  intro Hi. unfold parseValue. apply good_strct, good_disjunction; [assumption|].
  repeat constructor; apply good_pmap; try assumption;
    apply good_reference; (discriminate || assumption).
Qed.

Lemma good_Name i : i <= len -> Good true (parseName toks eof) i.
Proof.
  intro Hi. unfold parseName. apply good_strct, good_disjunction; [assumption|].
  repeat constructor; apply good_pmap; try assumption.
  - apply good_reference; (discriminate || assumption).
  - now apply good_keyword.
Qed.

Lemma good_Field i : i <= len -> Good true (parseField toks eof) i.
Proof.
  intro Hi. unfold parseField. apply good_strct, good_disjunction; [assumption|].
  repeat constructor; apply good_pmap; try assumption.
  - now apply good_Value.
  - now apply good_keyword.
Qed.

(** A separator and then an element that has to follow. *)
Lemma good_separated {A} sep (p : parser A) i :
  sep <> EmptyString -> i <= len ->
  (forall j, i < j -> j <= len -> Good true p j) ->
  Good true (bind (literal toks eof sep) (fun _ => must toks eof p)) i.
Proof.
  intros Hs Hi Hp. apply (good_bind (s1 := true) (s2 := true)); [now apply good_literal|].
  intros j _ Hj Hl. apply good_must. now apply Hp.
Qed.

Lemma good_Member i : i <= len -> Good true (parseMember toks eof) i.
Proof.
  intro Hi. unfold parseMember. apply good_strct.
  apply (good_bind (s1 := true) (s2 := false)); [now apply good_Value|].
  intros j v Hj Hl. apply (good_bind (s1 := false) (s2 := false)).
  - apply good_must, good_group; [|assumption].
    intros k Hk Hkl. apply good_separated; [discriminate | assumption |].
    intros; now apply good_Field.
  - intros k fs Hk Hkl. now apply good_ret.
Qed.

(** The fuel a parser needs at cursor [i]: twelve for every token left,
    and the number of structs it may go through before a token is
    consumed. *)
Local Abbreviation enough rank n i := (12 * (len - i) + rank <= n).

Lemma good_parsers n :
  forall i, i <= len ->
    (enough 8 n i -> Good true (parseExpression toks eof n) i) /\
    (enough 7 n i -> Good true (parseSequence toks eof n) i) /\
    (enough 6 n i -> Good true (parseFactor toks eof n) i) /\
    (enough 5 n i -> Good true (parseTerm toks eof n) i) /\
    (enough 4 n i -> Good true (parseSimple toks eof n) i) /\
    (enough 3 n i -> Good true (parseRestriction toks eof n) i) /\
    (enough 2 n i -> Good true (parseComparable toks eof n) i) /\
    (enough 1 n i -> Good true (parseFunction toks eof n) i) /\
    (enough 1 n i -> Good true (parseComposite toks eof n) i) /\
    (enough 3 n i -> Good true (parseArg toks eof n) i).
Proof.
  induction n as [|n IH]; intros i Hi.
  { repeat split; intro H; lia. }
  assert (IHExpression : forall j, j <= len -> enough 8 n j ->
            Good true (parseExpression toks eof n) j) by (intros; now apply IH).
  assert (IHSequence : forall j, j <= len -> enough 7 n j ->
            Good true (parseSequence toks eof n) j) by (intros; now apply IH).
  assert (IHFactor : forall j, j <= len -> enough 6 n j ->
            Good true (parseFactor toks eof n) j) by (intros; now apply IH).
  assert (IHTerm : forall j, j <= len -> enough 5 n j ->
            Good true (parseTerm toks eof n) j) by (intros; now apply IH).
  assert (IHSimple : forall j, j <= len -> enough 4 n j ->
            Good true (parseSimple toks eof n) j) by (intros; now apply IH).
  assert (IHRestriction : forall j, j <= len -> enough 3 n j ->
            Good true (parseRestriction toks eof n) j) by (intros; now apply IH).
  assert (IHComparable : forall j, j <= len -> enough 2 n j ->
            Good true (parseComparable toks eof n) j) by (intros; now apply IH).
  assert (IHFunction : forall j, j <= len -> enough 1 n j ->
            Good true (parseFunction toks eof n) j) by (intros; now apply IH).
  assert (IHComposite : forall j, j <= len -> enough 1 n j ->
            Good true (parseComposite toks eof n) j) by (intros; now apply IH).
  assert (IHArg : forall j, j <= len -> enough 3 n j ->
            Good true (parseArg toks eof n) j) by (intros; now apply IH).
  clear IH. repeat split; intro Hn.
  - (* Expression *)
    rewrite parseExpression_S. apply good_strct.
    apply (good_bind (s1 := true) (s2 := false)); [apply IHSequence; lia|].
    intros j s Hj Hl. apply (good_bind (s1 := false) (s2 := false)).
    + apply good_must, good_group; [|assumption].
      intros k Hk Hkl. apply good_separated; [discriminate | assumption |].
      intros; apply IHSequence; lia.
    + intros; now apply good_ret.
  - (* Sequence *)
    rewrite parseSequence_S. apply good_strct, good_plus; [|assumption].
    intros; apply IHFactor; lia.
  - (* Factor *)
    rewrite parseFactor_S. apply good_strct.
    apply (good_bind (s1 := true) (s2 := false)); [apply IHTerm; lia|].
    intros j s Hj Hl. apply (good_bind (s1 := false) (s2 := false)).
    + apply good_must, good_group; [|assumption].
      intros k Hk Hkl. apply good_separated; [discriminate | assumption |].
      intros; apply IHTerm; lia.
    + intros; now apply good_ret.
  - (* Term *)
    rewrite parseTerm_S. apply good_strct.
    apply (good_bind (s1 := false) (s2 := true)).
    + apply good_group; [|assumption].
      intros k Hk Hkl. apply good_disjunction; [assumption|].
      repeat constructor; apply good_literal; (discriminate || assumption).
    + intros j neg Hj Hl. apply (good_bind (s1 := true) (s2 := false)).
      * apply good_must, IHSimple; lia.
      * intros; now apply good_ret.
  - (* Simple *)
    rewrite parseSimple_S. apply good_strct, good_disjunction; [assumption|].
    repeat constructor; apply good_pmap; try assumption.
    + apply IHRestriction; lia.
    + apply IHComposite; lia.
  - (* Restriction *)
    rewrite parseRestriction_S. apply good_strct.
    apply (good_bind (s1 := true) (s2 := false)); [apply IHComparable; lia|].
    intros j c Hj Hl. apply (good_bind (s1 := false) (s2 := false)).
    + apply good_must, good_group; [|assumption].
      intros k Hk Hkl. apply (good_bind (s1 := true) (s2 := false)); [now apply good_comparator|].
      intros k' op Hk' Hkl'. apply (good_bind (s1 := false) (s2 := false)).
      * apply good_weaken, good_must, IHArg; lia.
      * intros; now apply good_ret.
    + intros; now apply good_ret.
  - (* Comparable *)
    rewrite parseComparable_S. apply good_strct, good_disjunction; [assumption|].
    repeat constructor; apply good_pmap; try assumption.
    + apply IHFunction; lia.
    + now apply good_Member.
  - (* Function *)
    rewrite parseFunction_S. apply good_strct.
    apply (good_bind (s1 := true) (s2 := false)); [now apply good_Name|].
    intros j nm Hj Hl. apply (good_bind (s1 := false) (s2 := false)).
    { apply good_must, good_group; [|assumption].
      intros k Hk Hkl. apply good_separated; [discriminate | assumption |].
      intros; now apply good_Name. }
    intros j1 nms Hj1 Hl1. apply good_weaken.
    apply (good_bind (s1 := true) (s2 := false)).
    { apply good_must, good_literal; (discriminate || assumption). }
    intros j2 _ Hj2 Hl2. apply (good_bind (s1 := false) (s2 := false)).
    { apply good_must, good_group; [|assumption].
      intros k Hk Hkl. apply (good_bind (s1 := true) (s2 := false)); [apply IHArg; lia|].
      intros k1 a Hk1 Hkl1. apply (good_bind (s1 := false) (s2 := false)).
      - apply good_must, good_group; [|assumption].
        intros k2 Hk2 Hkl2. apply good_separated; [discriminate | assumption |].
        intros; apply IHArg; lia.
      - intros; now apply good_ret. }
    intros j3 args Hj3 Hl3. apply good_weaken.
    apply (good_bind (s1 := true) (s2 := false)).
    { apply good_must, good_literal; (discriminate || assumption). }
    intros; now apply good_ret.
  - (* Composite *)
    rewrite parseComposite_S. apply good_strct.
    apply (good_bind (s1 := true) (s2 := false)); [apply good_literal; (discriminate || assumption)|].
    intros j _ Hj Hl. apply good_weaken.
    apply (good_bind (s1 := true) (s2 := false)); [apply good_must, IHExpression; lia|].
    intros j1 e Hj1 Hl1. apply good_weaken.
    apply (good_bind (s1 := true) (s2 := false)).
    { apply good_must, good_literal; (discriminate || assumption). }
    intros; now apply good_ret.
  - (* Arg *)
    rewrite parseArg_S. apply good_strct, good_disjunction; [assumption|].
    repeat constructor; apply good_pmap; try assumption.
    + apply IHComparable; lia.
    + apply IHComposite; lia.
Qed.

Lemma good_Filter i :
  i <= len -> Good false (parseFilter toks eof (parse_fuel toks)) i.
Proof.
  intro Hi. unfold parseFilter. apply good_strct, good_group; [|assumption].
  intros j Hj Hl. apply good_parsers; [assumption|]. unfold parse_fuel. lia.
Qed.

(** [parseTokens] always gives a result. *)
Lemma parseTokens_returns : parseTokens toks eof <> FuelExhausted.
Proof.
  unfold parseTokens.
  pose proof (@good_Filter 0 (Nat.le_0_l _) Context0 eq_refl) as H.
  destruct (parseFilter toks eof (parse_fuel toks) Context0) as [[ast| |e|] c];
    try discriminate; [|contradiction].
  destruct (Token_Type (Peek toks eof c)); discriminate.
Qed.

End GoodFacts.

(** [Parse] always gives a result: the tree, or an error. *)
Lemma Parse_returns expression : Parse expression <> FuelExhausted.
Proof.
  unfold Parse, DefaultParser_ParseString.
  destruct (Lex expression) as [ts [pos|]]; [discriminate|].
  now apply parseTokens_returns.
Qed.

(* ================================================================== *)
(** * The conjunction is never parsed *)

Section Inversion.

Variable toks : list Token.
Variable eof : Token.

Lemma bind_Matched {A B} (p : parser A) (f : A -> parser B) c b c' :
  bind p f c = (Matched b, c') ->
  exists a c1, p c = (Matched a, c1) /\ f a c1 = (Matched b, c').
Proof.
  unfold bind. destruct (p c) as [[a| |e|] c1]; try discriminate. eauto.
Qed.

Lemma must_Matched {A} (p : parser A) c a c' :
  must toks eof p c = (Matched a, c') -> p c = (Matched a, c').
Proof. unfold must. destruct (p c) as [[v| |e|] c1]; try discriminate; auto. Qed.

Lemma strct_Matched {X T} (build : Position -> X -> T) (p : parser X) c t c' :
  strct toks eof build p c = (Matched t, c') ->
  exists x, p c = (Matched x, c') /\ t = build (Token_Pos (Peek toks eof c)) x.
Proof.
  unfold strct. destruct (p c) as [[x| |e|] c1]; try discriminate.
  intros [= <- <-]. eauto.
Qed.

Lemma sure_group_end {A} mode m (out : list A) : sure (group_end toks eof mode m out).
Proof.
  intro c. unfold group_end.
  destruct (_ <=? _)%N; [discriminate|]. destruct (_ <? _)%N; discriminate.
Qed.

Lemma sure_group_from {A} mode (body : parser A) :
  forall fuel m out, sure (group_from toks eof fuel mode body m out).
Proof.
  induction fuel as [|fuel IH]; intros m out c; cbn [group_from];
    (destruct (m <? group_max mode)%N; [|apply sure_group_end]).
  - discriminate.
  - destruct (body c) as [[v| |e|] c1]; try discriminate.
    + apply IH.
    + apply sure_group_end.
    + destruct (Stop e c1 (MaybeUpdateError e c)) as [[|] ctx'];
        [discriminate | apply sure_group_end].
Qed.

Lemma sure_group {A} mode (body : parser A) : sure (group toks eof mode body).
Proof. intro c. apply sure_group_from. Qed.

Lemma sure_must {A} (p : parser A) : sure (must toks eof p).
Proof. intro c. unfold must. destruct (p c) as [[v| |e|] c1]; discriminate. Qed.

Lemma sure_ret {A} (a : A) : sure (ret a).
Proof. intro c. discriminate. Qed.

Lemma sure_bind {A B} (p : parser A) (f : A -> parser B) :
  sure p -> (forall a, sure (f a)) -> sure (bind p f).
Proof.
  intros Hp Hf c. specialize (Hp c). unfold bind.
  destruct (p c) as [[a| |e|] c1]; try discriminate; [apply Hf | now elim Hp].
Qed.

Lemma sure_strct {X T} (build : Position -> X -> T) (p : parser X) :
  sure p -> sure (strct toks eof build p).
Proof.
  intros Hp c. specialize (Hp c). unfold strct.
  destruct (p c) as [[a| |e|] c1]; try discriminate. now elim Hp.
Qed.

(** A Term starts with an optional group: it matches or fails, and so
    does a Factor. *)
Lemma sure_Term n : sure (parseTerm toks eof n).
Proof.
  destruct n; [intro c; discriminate|].
  rewrite parseTerm_S. apply sure_strct, sure_bind; [apply sure_group|].
  intro neg. apply sure_bind; [apply sure_must | intro; apply sure_ret].
Qed.

Lemma sure_Factor n : sure (parseFactor toks eof n).
Proof.
  destruct n; [intro c; discriminate|].
  rewrite parseFactor_S. apply sure_strct, sure_bind; [apply sure_Term|].
  intro t. apply sure_bind; [apply sure_must | intro; apply sure_ret].
Qed.

(** A repetition that matches has stopped at a round that failed
    within the look-ahead, if its rounds are sure. *)
Lemma group_from_Matched_end {A} mode (body : parser A) :
  sure body -> mode <> groupMatchZeroOrOne ->
  forall fuel m out c out' c',
    group_from toks eof fuel mode body m out c = (Matched out', c') ->
    exists cl e b, cursor cl = cursor c' /\ body cl = (Failed e, b) /\
                   cursor b <= cursor cl + lookahead.
Proof.
  intros Hsure Hmode. induction fuel as [|fuel IH]; intros m out c out' c';
    cbn [group_from]; destruct (N.ltb_spec m (group_max mode)) as [Hlt | Hge].
  - discriminate.
  - unfold group_end. replace (MaxIterations <=? m)%N with true; [discriminate|].
    symmetry. apply N.leb_le. destruct mode; [congruence | exact Hge | exact Hge].
  - pose proof (Hsure c) as Hs.
    destruct (body c) as [[v| |e|] b] eqn:E; try discriminate.
    + apply IH.
    + now elim Hs.
    + destruct (Nat.lt_ge_cases (cursor (MaybeUpdateError e c) + lookahead) (cursor b))
        as [Hfar | Hnear].
      * destruct (Stop_far e b (MaybeUpdateError e c) Hfar) as (p' & -> & _).
        discriminate.
      * destruct (Stop_near e b (MaybeUpdateError e c) Hnear) as (p' & -> & Hp').
        unfold group_end.
        destruct (_ <=? _)%N; [discriminate|]. destruct (_ <? _)%N; [discriminate|].
        intros [= _ <-]. exists c, e, b.
        rewrite cursor_MaybeUpdateError in Hp', Hnear.
        repeat split; [congruence | exact E | exact Hnear].
  - unfold group_end. replace (MaxIterations <=? m)%N with true; [discriminate|].
    symmetry. apply N.leb_le. destruct mode; [congruence | exact Hge | exact Hge].
Qed.

End Inversion.

Section Firm.

Variable toks : list Token.
Variable eof : Token.

Hypothesis eof_type : Token_Type eof = T_EOF.
Hypothesis eof_value : Token_Value eof = EmptyString.

Local Abbreviation len := (length toks).
Local Abbreviation Good := (good toks).

Lemma firm_gives {A} (p : parser A) i a j : gives p i a j -> firm p i.
Proof. intros H c Hc. destruct (H c Hc) as (c' & -> & _). exact I. Qed.

Lemma firm_ret {A} (a : A) i : firm (ret a) i.
Proof. intros c Hc. exact I. Qed.

Lemma firm_strct {X T} (build : Position -> X -> T) (p : parser X) i :
  firm p i -> firm (strct toks eof build p) i.
Proof.
  intros H c Hc. specialize (H c Hc). unfold strct.
  destruct (p c) as [[x| |e|] c']; auto. now rewrite cursor_MaybeUpdateError.
Qed.

Lemma firm_must {A} (p : parser A) i : firm p i -> firm (must toks eof p) i.
Proof.
  intros H c Hc. specialize (H c Hc). unfold must.
  destruct (p c) as [[x| |e|] c']; auto. contradiction.
Qed.

(** After a first part that behaves, failures of what follows are far
    from the start if they are far from where it starts itself. *)
Lemma firm_bind {A B} s (p : parser A) (f : A -> parser B) i :
  Good s p i -> firm p i ->
  (forall j a, i <= j -> j <= len -> firm (f a) j) ->
  firm (bind p f) i.
Proof.
  intros Hg Hp Hf c Hc. specialize (Hg c Hc). specialize (Hp c Hc). unfold bind.
  destruct (p c) as [[a| |e|] c1]; auto.
  destruct Hg as [H1 H2].
  assert (Hi : i <= cursor c1) by (destruct s; lia).
  specialize (Hf (cursor c1) a Hi H2 c1 eq_refl).
  destruct (f a c1) as [[b| |e|] c2]; auto. lia.
Qed.

Lemma firm_pmap {A B} (f : A -> B) (p : parser A) i :
  firm p i -> firm (pmap f p) i.
Proof.
  intros Hp c Hc. specialize (Hp c Hc). unfold pmap, bind.
  destruct (p c) as [[a| |e|] c1]; auto.
Qed.

(** The first alternative is firm: the others do not matter. *)
Lemma firm_disjunction_head {A} (a : parser A) rest fe d i :
  firm a i -> firm (disjunction_from (a :: rest) fe d) i.
Proof.
  intros Ha c Hc. specialize (Ha c Hc). simpl.
  destruct (a c) as [[v| |e|] b]; auto; [contradiction|].
  destruct (Stop_far e b c) as (p' & -> & Hp'); [lia|]. lia.
Qed.

(** The later alternatives are firm: whatever the first one does, the
    disjunction is firm. *)
Lemma firm_disjunction_retry {A} (a : parser A) rest fe d i :
  (forall fe' d', firm (disjunction_from rest fe' d') i) ->
  firm (disjunction_from (a :: rest) fe d) i.
Proof.
  intros Hr c Hc. simpl.
  destruct (a c) as [[v| |e|] b]; auto.
  - now apply Hr.
  - destruct (Nat.lt_ge_cases (cursor c + lookahead) (cursor b)) as [Hfar | Hnear].
    + destruct (Stop_far e b c Hfar) as (p' & -> & Hp'). lia.
    + destruct (Stop_near e b c Hnear) as (p' & -> & Hp').
      destruct (d <=? cursor b); apply Hr; congruence.
Qed.

(** An optional group is firm, whatever is optional. *)
Lemma firm_optional {A} (body : parser A) i :
  firm (group toks eof groupMatchZeroOrOne body) i.
Proof.
  intros c Hc. unfold group. cbn [group_from].
  change (0 <? group_max groupMatchZeroOrOne)%N with true. cbv iota.
  destruct (body c) as [[v| |e|] b]; auto.
  - rewrite group_from_done by (simpl; lia). exact I.
  - exact I.
  - destruct (Nat.lt_ge_cases (cursor (MaybeUpdateError e c) + lookahead) (cursor b))
      as [Hfar | Hnear].
    + destruct (Stop_far e b (MaybeUpdateError e c) Hfar) as (p' & -> & Hp').
      rewrite cursor_MaybeUpdateError in Hfar. lia.
    + destruct (Stop_near e b (MaybeUpdateError e c) Hnear) as (p' & -> & Hp').
      exact I.
Qed.

Lemma group_end_star {A} m (out : list A) c :
  (m < MaxIterations)%N ->
  group_end toks eof groupMatchZeroOrMore m out c = (Matched out, c).
Proof.
  intro H. unfold group_end.
  replace (MaxIterations <=? m)%N with false by (symmetry; apply N.leb_gt; exact H).
  replace (m <? group_min groupMatchZeroOrMore)%N with false
    by (symmetry; apply N.ltb_ge; simpl; lia).
  reflexivity.
Qed.

(** A repetition of rounds that behave and consume is firm: it fails
    only when a round fails far, or after a million rounds. *)
Lemma firm_star_from {A} (body : parser A) i :
  (forall k, i <= k -> k <= len -> Good true body k) ->
  forall fuel m out c,
    i <= cursor c -> cursor c <= len -> N.to_nat m <= cursor c - i ->
    match group_from toks eof fuel groupMatchZeroOrMore body m out c with
    | (Unmatched, _) => False
    | (Failed _, b) => i + lookahead < cursor b
    | _ => True
    end.
Proof.
  intros Hbody. induction fuel as [|fuel IH]; intros m out c Hi Hl Hm;
    cbn [group_from]; destruct (N.ltb_spec m (group_max groupMatchZeroOrMore))
      as [Hlt | Hge].
  - exact I.
  - unfold group_end. replace (MaxIterations <=? m)%N with true
      by (symmetry; apply N.leb_le; exact Hge).
    simpl in Hge. unfold MaxIterations, lookahead in *. simpl. lia.
  - pose proof (Hbody (cursor c) Hi Hl c eq_refl) as Hg.
    destruct (body c) as [[v| |e|] b] eqn:E; auto.
    + destruct Hg as [H1 H2]. simpl in H1.
      apply IH; rewrite cursor_Accept; lia.
    + now rewrite group_end_star.
    + destruct (Nat.lt_ge_cases (cursor (MaybeUpdateError e c) + lookahead) (cursor b))
        as [Hfar | Hnear].
      * destruct (Stop_far e b (MaybeUpdateError e c) Hfar) as (p' & -> & Hp').
        rewrite cursor_MaybeUpdateError in Hfar. lia.
      * destruct (Stop_near e b (MaybeUpdateError e c) Hnear) as (p' & -> & Hp').
        now rewrite group_end_star.
  - unfold group_end. replace (MaxIterations <=? m)%N with true
      by (symmetry; apply N.leb_le; exact Hge).
    simpl in Hge. unfold MaxIterations, lookahead in *. simpl. lia.
Qed.

Lemma firm_star {A} (body : parser A) i :
  (forall k, i <= k -> k <= len -> Good true body k) -> i <= len ->
  firm (group toks eof groupMatchZeroOrMore body) i.
Proof.
  intros Hb Hi c Hc. unfold group. apply firm_star_from; auto; simpl; lia.
Qed.

Lemma firm_bind_ret {A B} (g : A -> B) (p : parser A) i :
  firm p i -> firm (bind p (fun a => ret (g a))) i.
Proof. exact (firm_pmap g (p := p) (i := i)). Qed.

Lemma firm_bind_gives {A B} (p : parser A) (f : A -> parser B) i a j :
  gives p i a j -> i <= j -> firm (f a) j -> firm (bind p f) i.
Proof.
  intros Hp Hij Hf c Hc. destruct (Hp c Hc) as (c1 & E & Hc1).
  unfold bind. rewrite E. specialize (Hf c1 Hc1).
  destruct (f a c1) as [[b| |e|] c2]; auto. lia.
Qed.

Lemma firm_out_of_fuel {A} i : firm (@out_of_fuel A) i.
Proof. intros c Hc. exact I. Qed.

(** *** A Factor at a word *)

Local Abbreviation enough rank n i := (12 * (len - i) + rank <= n).

Lemma text_token_eta t :
  Token_Type t = T_Text ->
  t = text_token (Offset (Token_Pos t)) (Token_Value t).
Proof. destruct t as [ty v [o]]. simpl. now intros ->. Qed.

Lemma firm_Member i :
  Token_Type (token_at toks eof i) = T_Text -> i <= len ->
  firm (parseMember toks eof) i.
Proof.
  intros Ht Hi. unfold parseMember. apply firm_strct.
  apply firm_bind with (s := true).
  - now apply good_Value.
  - eapply firm_gives, gives_Value_text, text_token_eta, Ht.
  - intros j v Hj Hl. apply firm_bind_ret, firm_must, firm_star; [|assumption].
    intros k Hk Hkl. apply good_separated; auto; [discriminate|].
    intros; now apply good_Field.
Qed.

Lemma firm_Comparable n i :
  Token_Type (token_at toks eof i) = T_Text -> i <= len ->
  firm (parseComparable toks eof n) i.
Proof.
  intros Ht Hi. destruct n; [apply firm_out_of_fuel|].
  rewrite parseComparable_S. apply firm_strct. unfold disjunction.
  apply firm_disjunction_retry. intros fe' d'.
  apply firm_disjunction_head, firm_pmap. now apply firm_Member.
Qed.

Lemma firm_Restriction n i :
  Token_Type (token_at toks eof i) = T_Text -> i <= len -> enough 3 n i ->
  firm (parseRestriction toks eof n) i.
Proof.
  intros Ht Hi Hn. destruct n; [apply firm_out_of_fuel|].
  rewrite parseRestriction_S. apply firm_strct.
  apply firm_bind with (s := true).
  - apply good_parsers; auto. lia.
  - now apply firm_Comparable.
  - intros j c Hj Hl. apply firm_bind_ret, firm_must, firm_optional.
Qed.

Lemma firm_Simple n i :
  Token_Type (token_at toks eof i) = T_Text -> i <= len -> enough 4 n i ->
  firm (parseSimple toks eof n) i.
Proof.
  intros Ht Hi Hn. destruct n; [apply firm_out_of_fuel|].
  rewrite parseSimple_S. apply firm_strct. unfold disjunction.
  apply firm_disjunction_head, firm_pmap, firm_Restriction; auto. lia.
Qed.

Lemma firm_Term n i :
  plain_word (token_at toks eof i) -> i <= len -> enough 5 n i ->
  firm (parseTerm toks eof n) i.
Proof.
  intros (Ht & Hnot & Hminus) Hi Hn. destruct n; [apply firm_out_of_fuel|].
  rewrite parseTerm_S. apply firm_strct.
  eapply firm_bind_gives.
  - apply gives_optional_none, misses_negation; assumption.
  - apply Nat.le_refl.
  - apply firm_bind_ret, firm_must, firm_Simple; auto. lia.
Qed.

(** At a word other than [NOT] a Factor matches or fails far ahead:
    the repetition of a Sequence does not stop there. *)
Lemma firm_Factor n i :
  plain_word (token_at toks eof i) -> i <= len -> enough 6 n i ->
  firm (parseFactor toks eof n) i.
Proof.
  intros Hw Hi Hn. destruct n; [apply firm_out_of_fuel|].
  rewrite parseFactor_S. apply firm_strct.
  apply firm_bind with (s := true).
  - apply good_parsers; auto. lia.
  - apply firm_Term; auto. lia.
  - intros j t Hj Hl. apply firm_bind_ret, firm_must, firm_star; [|assumption].
    intros k Hk Hkl. apply good_separated; auto; [discriminate|].
    intros k' Hk' Hkl'. apply good_parsers; auto. lia.
Qed.

(** *** An Expression has one Sequence *)

(** Every token that reads [AND] is a Text token. *)
Hypothesis AND_is_Text :
  forall t, In t toks -> Token_Value t = "AND" -> Token_Type t = T_Text.

Lemma Sequence_end_not_AND n c s c1 :
  cursor c <= len -> enough 7 n (cursor c) ->
  parseSequence toks eof n c = (Matched s, c1) ->
  cursor c1 <= len /\ Token_Value (token_at toks eof (cursor c1)) <> "AND".
Proof.
  intros Hl Hn H. destruct n; [discriminate|].
  pose proof (@good_parsers toks eof eof_type eof_value (S n) (cursor c) Hl) as Hg.
  destruct Hg as (_ & Hg & _). specialize (Hg Hn c eq_refl). rewrite H in Hg.
  destruct Hg as [Hlt Hle]. split; [exact Hle|].
  rewrite parseSequence_S in H. apply strct_Matched in H.
  destruct H as (fs & H & _). unfold group in H.
  apply group_from_Matched_end in H; [|apply sure_Factor|discriminate].
  destruct H as (cl & e & b & Hcl & Hfail & Hnear).
  intro Hand.
  assert (Hin : cursor c1 < len).
  { destruct (Nat.lt_ge_cases (cursor c1) len) as [Hlt' | Hge]; [assumption|].
    unfold token_at in Hand. rewrite nth_overflow, eof_value in Hand by assumption.
    discriminate. }
  assert (Hplain : plain_word (token_at toks eof (cursor c1))).
  { split; [|rewrite Hand; split; discriminate].
    apply AND_is_Text; [|exact Hand]. now apply nth_In. }
  pose proof (@firm_Factor n (cursor c1) Hplain Hle) as Hfirm.
  assert (Hc : enough 6 n (cursor c1)) by lia.
  specialize (Hfirm Hc cl Hcl). rewrite Hfail in Hfirm. lia.
Qed.

Lemma Expression_single n c e c' :
  cursor c <= len -> enough 8 n (cursor c) ->
  parseExpression toks eof n c = (Matched e, c') ->
  length (Expression_Sequence e) = 1.
Proof.
  intros Hl Hn H. destruct n; [discriminate|].
  rewrite parseExpression_S in H. apply strct_Matched in H.
  destruct H as (ss & H & ->). simpl.
  apply bind_Matched in H. destruct H as (s & c1 & Hs & H).
  apply bind_Matched in H. destruct H as (more & c2 & Hmore & H).
  injection H as <- _. apply must_Matched in Hmore.
  apply Sequence_end_not_AND in Hs; [|assumption|lia].
  destruct Hs as [Hle Hand].
  assert (Hnone : gives (group toks eof groupMatchZeroOrMore
                           (bind (literal toks eof "AND")
                              (fun _ => must toks eof (parseSequence toks eof n))))
                        (cursor c1) [] (cursor c1)).
  { apply gives_star_none, misses_bind, misses_literal, Hand. }
  destruct (Hnone c1 eq_refl) as (c3 & E & _).
  rewrite E in Hmore. now injection Hmore as <- _.
Qed.

(** The values of a repetition are values of its rounds. *)
Lemma group_from_Forall {A} mode (body : parser A) (Q : A -> Prop) :
  (forall j, j <= len -> Good true body j) ->
  (forall c a c1, cursor c <= len -> body c = (Matched a, c1) -> Q a) ->
  forall fuel m out c out' c',
    cursor c <= len -> Forall Q out ->
    group_from toks eof fuel mode body m out c = (Matched out', c') ->
    Forall Q out'.
Proof.
  intros Hgood HQ. induction fuel as [|fuel IH]; intros m out c out' c' Hl Hout;
    cbn [group_from]; (destruct (m <? group_max mode)%N; [|
      unfold group_end; destruct (_ <=? _)%N; [discriminate|];
      destruct (_ <? _)%N; [discriminate|]; now intros [= <- _]]).
  - discriminate.
  - pose proof (Hgood (cursor c) Hl c eq_refl) as Hg.
    destruct (body c) as [[v| |e|] b] eqn:E; try discriminate.
    + apply IH.
      * rewrite cursor_Accept. lia.
      * apply Forall_app; split; [assumption|]. repeat constructor.
        now apply HQ with (c := c) (c1 := b).
    + unfold group_end; destruct (_ <=? _)%N; [discriminate|];
        destruct (_ <? _)%N; [discriminate|]; now intros [= <- _].
    + destruct (Stop e b (MaybeUpdateError e c)) as [[|] ctx']; [discriminate|].
      unfold group_end; destruct (_ <=? _)%N; [discriminate|];
        destruct (_ <? _)%N; [discriminate|]; now intros [= <- _].
Qed.

(** In the Filter that the tokens parse to, every Expression has one
    Sequence: the alternative with [AND] is never taken. *)
Lemma parseTokens_single ast :
  parseTokens toks eof = Parsed ast ->
  Forall (fun e => length (Expression_Sequence e) = 1) (Filter_Expression ast).
Proof.
  unfold parseTokens.
  destruct (parseFilter toks eof (parse_fuel toks) Context0) as [[f| |e|] c] eqn:E;
    try discriminate.
  destruct (Token_Type (Peek toks eof c)); try discriminate.
  intros [= <-]. unfold parseFilter in E. apply strct_Matched in E.
  destruct E as (es & E & ->). simpl. unfold group in E.
  apply group_from_Forall
    with (Q := fun e => length (Expression_Sequence e) = 1) in E; auto.
  - intros j Hj. apply good_parsers; auto. unfold parse_fuel. lia.
  - intros c0 e c1 Hc0 He. apply Expression_single in He; auto.
    unfold parse_fuel. lia.
  - simpl. lia.
Qed.

End Firm.

(** Whatever the input, a Filter that Parse returns without error has
    one Sequence in every Expression. *)
Lemma Parse_single expression ast :
  Parse expression = Parsed ast ->
  Forall (fun e => length (Expression_Sequence e) = 1) (Filter_Expression ast).
Proof.
  unfold Parse, DefaultParser_ParseString.
  destruct (Lex expression) as [ts [pos|]] eqn:E; [discriminate|].
  apply parseTokens_single; try reflexivity.
  intros t Ht Hv. unfold elide in Ht. apply filter_In in Ht. destruct Ht as [Ht _].
  apply Lex_word_is_Text with (s := expression) (c := "A"%char) (x := "ND").
  - now rewrite E.
  - exact Hv.
  - reflexivity.
Qed.

(* ================================================================== *)
(** * The shape of the trees that are parsed *)

Section Shapes.

Variable toks : list Token.
Variable eof : Token.

Hypothesis eof_type : Token_Type eof = T_EOF.
Hypothesis eof_value : Token_Value eof = EmptyString.

Local Abbreviation len := (length toks).
Local Abbreviation Good := (good toks).
Local Abbreviation at_ i := (token_at toks eof i).

Lemma builds_weaken {A} (P Q : A -> Prop) (p : parser A) i :
  (forall a, P a -> Q a) -> builds P p i -> builds Q p i.
Proof. intros H Hp c Hc a c' E. eapply H, Hp; eauto. Qed.

Lemma builds_and {A} (P Q : A -> Prop) (p : parser A) i :
  builds P p i -> builds Q p i -> builds (fun a => P a /\ Q a) p i.
Proof. intros HP HQ c Hc a c' E. split; [eapply HP | eapply HQ]; eauto. Qed.

Lemma builds_gives {A} (P : A -> Prop) (p : parser A) i a j :
  gives p i a j -> P a -> builds P p i.
Proof.
  intros Hg Ha c Hc a' c' E. destruct (Hg c Hc) as (c1 & E1 & _).
  rewrite E1 in E. now injection E as <- _.
Qed.

Lemma builds_misses {A} (P : A -> Prop) (p : parser A) i :
  misses p i -> builds P p i.
Proof.
  intros Hm c Hc a' c' E. destruct (Hm c Hc) as (c1 & E1 & _).
  rewrite E1 in E. discriminate.
Qed.

Lemma builds_ret {A} (P : A -> Prop) (a : A) i : P a -> builds P (ret a) i.
Proof. intros Ha c Hc a' c' [= <- _]. exact Ha. Qed.

Lemma builds_bind {A B} s (Q : A -> Prop) (P : B -> Prop)
    (p : parser A) (f : A -> parser B) i :
  Good s p i -> builds Q p i ->
  (forall j a, (if s then i < j else i <= j) -> j <= len -> Q a ->
               builds P (f a) j) ->
  builds P (bind p f) i.
Proof.
  intros Hg Hp Hf c Hc b c' E. apply bind_Matched in E.
  destruct E as (a & c1 & E1 & E2).
  specialize (Hg c Hc). rewrite E1 in Hg. destruct Hg as [H1 H2].
  exact (Hf (cursor c1) a H1 H2 (Hp c Hc a c1 E1) c1 eq_refl b c' E2).
Qed.

Lemma builds_must {A} (P : A -> Prop) (p : parser A) i :
  builds P p i -> builds P (must toks eof p) i.
Proof. intros Hp c Hc a c' E. apply must_Matched in E. eapply Hp; eauto. Qed.

Lemma builds_pmap {A B} (P : B -> Prop) (f : A -> B) (p : parser A) i :
  builds (fun a => P (f a)) p i -> builds P (pmap f p) i.
Proof.
  intros Hp c Hc b c' E. unfold pmap in E. apply bind_Matched in E.
  destruct E as (a & c1 & E1 & [= <- _]). eapply Hp; eauto.
Qed.

Lemma builds_strct {X T} (Q : X -> Prop) (P : T -> Prop)
    (build : Position -> X -> T) (p : parser X) i :
  (forall pos x, Q x -> P (build pos x)) -> builds Q p i ->
  builds P (strct toks eof build p) i.
Proof.
  intros Hb Hp c Hc t c' E. apply strct_Matched in E.
  destruct E as (x & E & ->). eapply Hb, Hp; eauto.
Qed.

Lemma builds_disjunction_from {A} (P : A -> Prop) (nodes : list (parser A)) i :
  Forall (fun a => builds P a i) nodes ->
  forall fe d, builds P (disjunction_from nodes fe d) i.
Proof.
  induction 1 as [|a nodes Ha _ IH]; intros fe d c Hc v c' E.
  - simpl in E. destruct fe; discriminate.
  - simpl in E. destruct (a c) as [[w| |e|] b] eqn:Ea; try discriminate.
    + injection E as <- _. eapply Ha; eauto.
    + eapply IH; eauto.
    + pose proof (cursor_Stop e b c) as Hs.
      destruct (Stop e b c) as [[|] ctx']; [discriminate|]. simpl in Hs.
      destruct (d <=? cursor b); eapply IH; try exact E; congruence.
Qed.

Lemma builds_disjunction {A} (P : A -> Prop) (nodes : list (parser A)) i :
  Forall (fun a => builds P a i) nodes -> builds P (disjunction nodes) i.
Proof. intro H. now apply builds_disjunction_from. Qed.

(** What a group matches: values of its rounds, as many as its
    modifier allows. *)
Lemma builds_group_from {A} mode (body : parser A) (P : A -> Prop) i0 :
  (forall j, i0 <= j -> j <= len -> Good true body j) ->
  (forall j, i0 <= j -> j <= len -> builds P body j) ->
  forall fuel m out c out' c',
    i0 <= cursor c -> cursor c <= len -> Forall P out ->
    N.of_nat (length out) = m ->
    group_from toks eof fuel mode body m out c = (Matched out', c') ->
    Forall P out' /\ (group_min mode <= N.of_nat (length out'))%N /\
    (N.of_nat (length out') <= N.max m (group_max mode))%N.
Proof.
  intros Hgood Hbody.
  assert (Hend : forall m out c out' c',
             Forall P out -> N.of_nat (length out) = m ->
             group_end toks eof mode m out c = (Matched out', c') ->
             Forall P out' /\ (group_min mode <= N.of_nat (length out'))%N /\
             (N.of_nat (length out') <= N.max m (group_max mode))%N).
  { intros m out c out' c' Hout Hm. unfold group_end.
    destruct (MaxIterations <=? m)%N; [discriminate|].
    destruct (N.ltb_spec m (group_min mode)); [discriminate|].
    intros [= <- _]. repeat split; [assumption | lia | lia]. }
  induction fuel as [|fuel IH]; intros m out c out' c' Hi Hl Hout Hm;
    cbn [group_from]; (destruct (N.ltb_spec m (group_max mode)) as [Hlt | Hge];
                       [|now apply Hend]).
  - discriminate.
  - pose proof (Hgood (cursor c) Hi Hl c eq_refl) as Hg.
    destruct (body c) as [[v| |e|] b] eqn:E; try discriminate.
    + destruct Hg as [H1 H2]. intro Hr. apply IH in Hr.
      * destruct Hr as (Ha & Hb & Hc). repeat split; [assumption | assumption | lia].
      * rewrite cursor_Accept. lia.
      * rewrite cursor_Accept. lia.
      * apply Forall_app. split; [assumption|]. repeat constructor.
        now apply (Hbody (cursor c) Hi Hl c eq_refl v b).
      * rewrite length_app. simpl. lia.
    + now apply Hend.
    + destruct (Stop e b (MaybeUpdateError e c)) as [[|] ctx']; [discriminate|].
      now apply Hend.
Qed.

Lemma builds_group {A} mode (body : parser A) (P : A -> Prop) i :
  (forall j, i <= j -> j <= len -> Good true body j) ->
  (forall j, i <= j -> j <= len -> builds P body j) -> i <= len ->
  builds (fun l => Forall P l /\ (group_min mode <= N.of_nat (length l))%N /\
                   (N.of_nat (length l) <= group_max mode)%N)
         (group toks eof mode body) i.
Proof.
  intros Hg Hb Hi c Hc l c' E. unfold group in E.
  apply builds_group_from with (P := P) (i0 := i) in E; auto; try lia.
  destruct E as (H1 & H2 & H3). repeat split; auto. simpl in H3. lia.
Qed.

(** The elements that follow a separator. *)
Lemma builds_separated {A} sep (p : parser A) (P : A -> Prop) i :
  sep <> EmptyString -> i <= len ->
  (forall j, i < j -> j <= len -> Good true p j) ->
  (forall j, i < j -> j <= len -> builds P p j) ->
  builds (Forall P)
    (must toks eof (group toks eof groupMatchZeroOrMore
                     (bind (literal toks eof sep) (fun _ => must toks eof p)))) i.
Proof.
  intros Hs Hi Hg Hb. apply builds_must.
  eapply builds_weaken; [|apply builds_group with (P := P); [| |assumption]].
  - intros l (H & _). exact H.
  - intros j Hj Hl. apply good_separated; auto. intros; apply Hg; lia.
  - intros j Hj Hl. apply builds_bind with (s := true) (Q := fun _ => True).
    + apply good_literal; assumption.
    + intros c Hc a c' E. exact I.
    + intros k _ Hk Hkl _. apply builds_must, Hb; lia.
Qed.

Lemma good_tail {A} sep (p : parser A) i :
  sep <> EmptyString -> i <= len ->
  (forall j, i < j -> j <= len -> Good true p j) ->
  Good false
    (must toks eof (group toks eof groupMatchZeroOrMore
                     (bind (literal toks eof sep) (fun _ => must toks eof p)))) i.
Proof.
  intros Hs Hi Hg. apply good_must, good_group; [|assumption].
  intros j Hj Hl. apply good_separated; auto. intros; apply Hg; lia.
Qed.

(** The tokens come from the tokenizer: they are well spelt, and a
    token that reads [AND], [OR] or [NOT] is a Text token. *)
Hypothesis words_are_Text :
  forall t, In t toks -> In (Token_Value t) ["AND"; "OR"; "NOT"] ->
            Token_Type t = T_Text.
Hypothesis tokens_well_spelt : forall t, In t toks -> well_spelt t.

Lemma token_cases i : In (at_ i) toks \/ at_ i = eof.
Proof.
  unfold token_at. destruct (Nat.lt_ge_cases i len) as [H | H].
  - left. now apply nth_In.
  - right. now apply nth_overflow.
Qed.

Lemma closes_cons b c w :
  w <> EmptyString ->
  closes b (String c w) = (negb (is_quote c) || b) && closes (Ascii.eqb c backslash) w.
Proof. destruct w; [congruence | reflexivity]. Qed.

Lemma closes_quoted inner q b :
  is_quote q = true -> guarded b inner = true ->
  closes b (inner ++ String q EmptyString) = true.
Proof.
  intro Hq. revert b. induction inner as [|c inner IH]; intros b H.
  - exact Hq.
  - simpl in H. apply andb_true_iff in H. destruct H as [Hc H].
    cbn [append]. rewrite closes_cons by (destruct inner; discriminate).
    rewrite Hc. now apply IH.
Qed.

Lemma Text_token_word i :
  Token_Type (at_ i) = T_Text -> identifier (Token_Value (at_ i)) = true.
Proof.
  intro H. destruct (token_cases i) as [Hin | E].
  - apply tokens_well_spelt in Hin. unfold well_spelt in Hin. now rewrite H in Hin.
  - rewrite E in H. congruence.
Qed.

Lemma String_token_string i :
  Token_Type (at_ i) = T_String -> is_string (Token_Value (at_ i)) = true.
Proof.
  intro H. destruct (token_cases i) as [Hin | E].
  - apply tokens_well_spelt in Hin. unfold well_spelt in Hin. rewrite H in Hin.
    destruct Hin as (inner & (q1 & q2 & H1 & H2 & ->) & Hg).
    simpl. rewrite H1. now apply closes_quoted.
  - rewrite E in H. congruence.
Qed.

Lemma misses_keyword_other i :
  Token_Type (at_ i) <> T_Text -> misses (keyword toks eof) i.
Proof.
  intro H.
  assert (Hk : forall k, In k ["AND"; "OR"; "NOT"] -> Token_Value (at_ i) <> k).
  { intros k Hk E. destruct (token_cases i) as [Hin | Ee].
    - apply H, words_are_Text; [assumption | now rewrite E].
    - rewrite Ee, eof_value in E. subst k. simpl in Hk.
      destruct Hk as [Hk | [Hk | [Hk | []]]]; discriminate. }
  unfold keyword, disjunction.
  repeat (apply misses_disjunction_next;
          [apply misses_literal, Hk; simpl; tauto|]).
  apply misses_disjunction_nil.
Qed.

(** A Name is a Text: the Keyword alternative is never taken. *)
Lemma builds_Name i :
  builds (fun n => shaped_Name n = true) (parseName toks eof) i.
Proof.
  destruct (TokenType_eqb (Token_Type (at_ i)) T_Text) eqn:Ht.
  - assert (Hty : Token_Type (at_ i) = T_Text)
      by (destruct (Token_Type (at_ i)); try discriminate; reflexivity).
    eapply builds_gives.
    + apply gives_Name_text, text_token_eta, Hty.
    + unfold shaped_Name. simpl. now apply Text_token_word.
  - assert (Hty : Token_Type (at_ i) <> T_Text) by (intro E; rewrite E in Ht; discriminate).
    apply builds_misses. unfold parseName. apply misses_strct. unfold disjunction.
    apply misses_disjunction_next; [apply misses_pmap, misses_reference, Hty|].
    apply misses_disjunction_next; [apply misses_pmap, misses_keyword_other, Hty|].
    apply misses_disjunction_nil.
Qed.

Lemma gives_Value_string i :
  Token_Type (at_ i) = T_String ->
  gives (parseValue toks eof) i
        {| Value_Pos := Token_Pos (at_ i); Value_Text := EmptyString;
           Value_String := Token_Value (at_ i) |} (S i).
Proof.
  intro H. unfold parseValue. eapply gives_strct_eq.
  - unfold disjunction. apply gives_disjunction_next.
    + apply misses_pmap, misses_reference. rewrite H. discriminate.
    + apply gives_disjunction_here, gives_pmap, gives_reference, H.
  - reflexivity.
Qed.

Lemma misses_Value_other i :
  Token_Type (at_ i) <> T_Text -> Token_Type (at_ i) <> T_String ->
  misses (parseValue toks eof) i.
Proof.
  intros H1 H2. unfold parseValue. apply misses_strct. unfold disjunction.
  apply misses_disjunction_next; [apply misses_pmap, misses_reference, H1|].
  apply misses_disjunction_next; [apply misses_pmap, misses_reference, H2|].
  apply misses_disjunction_nil.
Qed.

(** A Value holds the Text or the String of its token. *)
Lemma builds_Value i :
  builds (fun v => shaped_Value v = true) (parseValue toks eof) i.
Proof.
  destruct (Token_Type (at_ i)) eqn:Hty.
  1, 4, 5, 6: apply builds_misses, misses_Value_other; rewrite Hty; discriminate.
  - eapply builds_gives.
    + apply gives_Value_text, text_token_eta, Hty.
    + unfold shaped_Value. simpl. rewrite Text_token_word by exact Hty. reflexivity.
  - eapply builds_gives.
    + apply gives_Value_string, Hty.
    + unfold shaped_Value. simpl. rewrite String_token_string by exact Hty. reflexivity.
Qed.

(** A Field is a Value: the Keyword alternative is never taken. *)
Lemma builds_Field i :
  builds (fun f => shaped_Field f = true) (parseField toks eof) i.
Proof.
  unfold parseField.
  destruct (TokenType_eqb (Token_Type (at_ i)) T_Text) eqn:Ht.
  - assert (Hty : Token_Type (at_ i) = T_Text)
      by (destruct (Token_Type (at_ i)); try discriminate; reflexivity).
    eapply builds_gives.
    + apply gives_Field_text, text_token_eta, Hty.
    + unfold shaped_Field, shaped_Value. simpl.
      rewrite Text_token_word by exact Hty. reflexivity.
  - assert (Hty : Token_Type (at_ i) <> T_Text) by (intro E; rewrite E in Ht; discriminate).
    eapply builds_strct with
      (Q := fun x : Value + string =>
              match x with inl v => shaped_Value v = true | inr _ => False end).
    + intros pos [v | k] H; [|contradiction]. unfold shaped_Field. simpl. exact H.
    + unfold disjunction. apply builds_disjunction_from. repeat constructor.
      * apply builds_pmap, builds_Value.
      * apply builds_misses. apply misses_pmap. apply misses_keyword_other, Hty.
Qed.

Lemma builds_Member i :
  i <= len -> builds (fun m => shaped_Member m = true) (parseMember toks eof) i.
Proof.
  intro Hi. unfold parseMember.
  apply builds_strct with
    (Q := fun x : Value * list Field =>
            shaped_Value (fst x) = true /\ forallb shaped_Field (snd x) = true).
  { intros pos [v fs] [H1 H2]. unfold shaped_Member. simpl in *. now rewrite H1, H2. }
  apply builds_bind with (s := true) (Q := fun v => shaped_Value v = true).
  - now apply good_Value.
  - apply builds_Value.
  - intros j v Hj Hl Hv.
    apply builds_bind with (s := false)
      (Q := Forall (fun f => shaped_Field f = true)).
    + apply good_tail; auto; [discriminate|]. intros; now apply good_Field.
    + apply builds_separated; auto; [discriminate | intros; now apply good_Field |].
      intros; apply builds_Field.
    + intros k fs _ _ Hfs. apply builds_ret. split; [exact Hv|].
      apply forallb_forall. rewrite Forall_forall in Hfs. exact Hfs.
Qed.

(** *** The parsers of the grammar *)

Local Abbreviation enough rank n i := (12 * (len - i) + rank <= n).

Lemma AND_Text t : In t toks -> Token_Value t = "AND" -> Token_Type t = T_Text.
Proof. intros Hin E. apply words_are_Text; [assumption|]. rewrite E. simpl. tauto. Qed.

Local Abbreviation is_Expression :=
  (fun e => length (Expression_Sequence e) = 1 /\ shaped_Expression e = true).
Local Abbreviation is_Sequence := (fun s => shaped_Sequence s = true).
Local Abbreviation is_Factor := (fun f => shaped_Factor f = true).
Local Abbreviation is_Term := (fun t => shaped_Term t = true).
Local Abbreviation is_Simple := (fun s => shaped_Simple s = true).
Local Abbreviation is_Restriction := (fun r => shaped_Restriction r = true).
Local Abbreviation is_Comparable :=
  (fun c => set_Comparable c = true /\ shaped_Comparable c = true).
Local Abbreviation is_Function := (fun f => shaped_Function f = true).
Local Abbreviation is_Composite :=
  (fun c => set_Composite c = true /\ shaped_Composite c = true).
Local Abbreviation is_Arg := (fun a => set_Arg a = true /\ shaped_Arg a = true).

Lemma Forall_forallb {A} (f : A -> bool) l :
  Forall (fun x => f x = true) l -> forallb f l = true.
Proof. intro H. apply forallb_forall. now rewrite Forall_forall in H. Qed.

Lemma some_of_length {A} (l : list A) :
  (1 <= N.of_nat (length l))%N -> some_of l = true.
Proof. destruct l; simpl; [lia | reflexivity]. Qed.

Lemma shaped_parsers n :
  forall i, i <= len ->
    (enough 8 n i -> builds is_Expression (parseExpression toks eof n) i) /\
    (enough 7 n i -> builds is_Sequence (parseSequence toks eof n) i) /\
    (enough 6 n i -> builds is_Factor (parseFactor toks eof n) i) /\
    (enough 5 n i -> builds is_Term (parseTerm toks eof n) i) /\
    (enough 4 n i -> builds is_Simple (parseSimple toks eof n) i) /\
    (enough 3 n i -> builds is_Restriction (parseRestriction toks eof n) i) /\
    (enough 2 n i -> builds is_Comparable (parseComparable toks eof n) i) /\
    (enough 1 n i -> builds is_Function (parseFunction toks eof n) i) /\
    (enough 1 n i -> builds is_Composite (parseComposite toks eof n) i) /\
    (enough 3 n i -> builds is_Arg (parseArg toks eof n) i).
Proof.
  induction n as [|n IH]; intros i Hi.
  { repeat apply conj; intro H; lia. }
  assert (IHExpression : forall j, j <= len -> enough 8 n j ->
            builds is_Expression (parseExpression toks eof n) j) by (intros; now apply IH).
  assert (IHSequence : forall j, j <= len -> enough 7 n j ->
            builds is_Sequence (parseSequence toks eof n) j) by (intros; now apply IH).
  assert (IHFactor : forall j, j <= len -> enough 6 n j ->
            builds is_Factor (parseFactor toks eof n) j) by (intros; now apply IH).
  assert (IHTerm : forall j, j <= len -> enough 5 n j ->
            builds is_Term (parseTerm toks eof n) j) by (intros; now apply IH).
  assert (IHSimple : forall j, j <= len -> enough 4 n j ->
            builds is_Simple (parseSimple toks eof n) j) by (intros; now apply IH).
  assert (IHRestriction : forall j, j <= len -> enough 3 n j ->
            builds is_Restriction (parseRestriction toks eof n) j) by (intros; now apply IH).
  assert (IHComparable : forall j, j <= len -> enough 2 n j ->
            builds is_Comparable (parseComparable toks eof n) j) by (intros; now apply IH).
  assert (IHFunction : forall j, j <= len -> enough 1 n j ->
            builds is_Function (parseFunction toks eof n) j) by (intros; now apply IH).
  assert (IHComposite : forall j, j <= len -> enough 1 n j ->
            builds is_Composite (parseComposite toks eof n) j) by (intros; now apply IH).
  assert (IHArg : forall j, j <= len -> enough 3 n j ->
            builds is_Arg (parseArg toks eof n) j) by (intros; now apply IH).
  clear IH.
  pose proof (fun j (Hj : j <= len) => @good_parsers toks eof eof_type eof_value n j Hj)
    as G.
  repeat apply conj; intro Hn.
  - (* Expression *)
    assert (H1 : builds (fun e => length (Expression_Sequence e) = 1)
                   (parseExpression toks eof (S n)) i).
    { intros c Hc e c' E.
      apply (@Expression_single toks eof eof_type eof_value AND_Text (S n) c e c');
        [lia | rewrite Hc; exact Hn | exact E]. }
    assert (H2 : builds (fun e => forallb shaped_Sequence (Expression_Sequence e) = true)
                   (parseExpression toks eof (S n)) i).
    { rewrite parseExpression_S.
      apply builds_strct with (Q := fun ss => forallb shaped_Sequence ss = true).
      { intros pos ss H. exact H. }
      apply builds_bind with (s := true) (Q := is_Sequence).
      - apply G; [assumption | lia].
      - apply IHSequence; [assumption | lia].
      - intros j s Hj Hl Hs.
        apply builds_bind with (s := false) (Q := Forall is_Sequence).
        + apply good_tail; auto; [discriminate|]. intros; apply G; lia.
        + apply builds_separated; auto; [discriminate | intros; apply G; lia |].
          intros; apply IHSequence; lia.
        + intros k ss _ _ Hss. apply builds_ret. simpl. rewrite Hs.
          now apply Forall_forallb. }
    intros c Hc e c' E. pose proof (H1 c Hc e c' E) as L. pose proof (H2 c Hc e c' E) as F.
    split; [exact L|]. destruct e as [pos ss]. simpl in *. now rewrite L, F.
  - (* Sequence *)
    rewrite parseSequence_S.
    apply builds_strct with
      (Q := fun fs => Forall is_Factor fs /\
                      (group_min groupMatchOneOrMore <= N.of_nat (length fs))%N /\
                      (N.of_nat (length fs) <= group_max groupMatchOneOrMore)%N).
    { intros pos fs (H1 & H2 & _). simpl.
      rewrite some_of_length by exact H2. now apply Forall_forallb. }
    apply builds_group; [| |assumption].
    + intros; apply G; lia.
    + intros; apply IHFactor; lia.
  - (* Factor *)
    rewrite parseFactor_S.
    apply builds_strct with (Q := fun ts => some_of ts = true /\ forallb shaped_Term ts = true).
    { intros pos ts [H1 H2]. simpl. now rewrite H1, H2. }
    apply builds_bind with (s := true) (Q := is_Term).
    + apply G; [assumption | lia].
    + apply IHTerm; [assumption | lia].
    + intros j t Hj Hl Ht.
      apply builds_bind with (s := false) (Q := Forall is_Term).
      * apply good_tail; auto; [discriminate|]. intros; apply G; lia.
      * apply builds_separated; auto; [discriminate | intros; apply G; lia |].
        intros; apply IHTerm; lia.
      * intros k ts _ _ Hts. apply builds_ret. split; [reflexivity|].
        simpl. rewrite Ht. now apply Forall_forallb.
  - (* Term *)
    rewrite parseTerm_S.
    apply builds_strct with (Q := fun x : list string * Simple => shaped_Simple (snd x) = true).
    { intros pos [neg s] H. exact H. }
    apply builds_bind with (s := false) (Q := fun _ => True).
    + apply good_group; [|assumption].
      intros k Hk Hkl. apply good_disjunction; [assumption|].
      repeat constructor; apply good_literal; (discriminate || assumption).
    + intros c Hc a c' E. exact I.
    + intros j neg Hj Hl _.
      apply builds_bind with (s := true) (Q := is_Simple).
      * apply good_must, G; [assumption | lia].
      * apply builds_must, IHSimple; [assumption | lia].
      * intros k s _ _ Hs. apply builds_ret. exact Hs.
  - (* Simple *)
    rewrite parseSimple_S.
    apply builds_strct with
      (Q := fun x : Restriction + Composite =>
              match x with
              | inl r => shaped_Restriction r = true
              | inr c => set_Composite c = true /\ shaped_Composite c = true
              end).
    { intros pos [r | c] H; simpl; [exact H|]. destruct H as [H1 H2].
      now rewrite H1, H2. }
    apply builds_disjunction. repeat constructor; apply builds_pmap.
    + apply IHRestriction; [assumption | lia].
    + apply IHComposite; [assumption | lia].
  - (* Restriction *)
    rewrite parseRestriction_S.
    apply builds_strct with
      (Q := fun x : Comparable * list (string * Arg) =>
              is_Comparable (fst x) /\ Forall (fun oa => is_Arg (snd oa)) (snd x)).
    { intros pos [c oa] [[H1 H2] H3]. simpl in *. destruct oa as [|[op a] oa].
      - simpl. now rewrite H1, H2.
      - inversion H3 as [|? ? [Ha1 Ha2] _]; subst. simpl in *.
        rewrite H1, H2, Ha2. simpl. unfold set_Arg in Ha1.
        destruct (set_Comparable (Arg_Comparable a)), (set_Composite (Arg_Composite a));
          try discriminate; reflexivity. }
    apply builds_bind with (s := true) (Q := is_Comparable).
    + apply G; [assumption | lia].
    + apply IHComparable; [assumption | lia].
    + intros j c Hj Hl Hc.
      apply builds_bind with (s := false)
        (Q := Forall (fun oa : string * Arg => is_Arg (snd oa))).
      * apply good_must, good_group; [|assumption].
        intros k Hk Hkl.
        apply (good_bind (s1 := true) (s2 := false)); [now apply good_comparator|].
        intros k' op Hk' Hkl'. apply (good_bind (s1 := false) (s2 := false)).
        -- apply good_weaken, good_must, G; [assumption | lia].
        -- intros; now apply good_ret.
      * apply builds_must.
        eapply builds_weaken;
          [|apply builds_group with (P := fun oa : string * Arg => is_Arg (snd oa));
            [| |assumption]].
        -- intros l (H & _). exact H.
        -- intros k Hk Hkl.
           apply (good_bind (s1 := true) (s2 := false)); [now apply good_comparator|].
           intros k' op Hk' Hkl'. apply (good_bind (s1 := false) (s2 := false)).
           ++ apply good_weaken, good_must, G; [assumption | lia].
           ++ intros; now apply good_ret.
        -- intros k Hk Hkl.
           apply builds_bind with (s := true) (Q := fun _ => True).
           ++ now apply good_comparator.
           ++ intros c0 Hc0 a c' E. exact I.
           ++ intros k' op Hk' Hkl' _.
              apply builds_bind with (s := true) (Q := is_Arg).
              ** apply good_must, G; [assumption | lia].
              ** apply builds_must, IHArg; [assumption | lia].
              ** intros k2 a _ _ Ha. apply builds_ret. exact Ha.
      * intros k oa _ _ Hoa. apply builds_ret. split; assumption.
  - (* Comparable *)
    rewrite parseComparable_S.
    apply builds_strct with
      (Q := fun x : Function + Member =>
              match x with
              | inl f => shaped_Function f = true
              | inr m => shaped_Member m = true
              end).
    { intros pos [f | m] H; split; simpl; auto. }
    apply builds_disjunction. repeat constructor; apply builds_pmap.
    + apply IHFunction; [assumption | lia].
    + now apply builds_Member.
  - (* Function *)
    rewrite parseFunction_S.
    apply builds_strct with
      (Q := fun x : list Name * list Arg =>
              (some_of (fst x) = true /\ forallb shaped_Name (fst x) = true) /\
              Forall is_Arg (snd x)).
    { intros pos [ns args] [[H1 H2] H3]. simpl in *. rewrite H1, H2. simpl.
      rewrite !Forall_forallb; [reflexivity | |].
      - eapply Forall_impl; [|exact H3]. now intros a [_ H].
      - eapply Forall_impl; [|exact H3]. now intros a [H _]. }
    apply builds_bind with (s := true) (Q := fun n => shaped_Name n = true).
    { now apply good_Name. }
    { apply builds_Name. }
    intros j nm Hj Hl Hnm.
    apply builds_bind with (s := false) (Q := Forall (fun n => shaped_Name n = true)).
    { apply good_tail; auto; [discriminate|]. intros; now apply good_Name. }
    { apply builds_separated; auto; [discriminate | intros; now apply good_Name |].
      intros; apply builds_Name. }
    intros j1 nms Hj1 Hl1 Hnms.
    apply builds_bind with (s := true) (Q := fun _ => True).
    { apply good_must, good_literal; (discriminate || assumption). }
    { intros c Hc a c' E. exact I. }
    intros j2 _ Hj2 Hl2 _.
    apply builds_bind with (s := false) (Q := Forall (Forall is_Arg)).
    { apply good_must, good_group; [|assumption].
      intros k Hk Hkl.
      apply (good_bind (s1 := true) (s2 := false)); [apply G; [assumption | lia]|].
      intros k1 a Hk1 Hkl1. apply (good_bind (s1 := false) (s2 := false)).
      - apply good_tail; auto; [discriminate|]. intros; apply G; lia.
      - intros; now apply good_ret. }
    { apply builds_must.
      eapply builds_weaken;
        [|apply builds_group with (P := Forall is_Arg); [| |assumption]].
      - intros l (H & _). exact H.
      - intros k Hk Hkl.
        apply (good_bind (s1 := true) (s2 := false)); [apply G; [assumption | lia]|].
        intros k1 a Hk1 Hkl1. apply (good_bind (s1 := false) (s2 := false)).
        + apply good_tail; auto; [discriminate|]. intros; apply G; lia.
        + intros; now apply good_ret.
      - intros k Hk Hkl.
        apply builds_bind with (s := true) (Q := is_Arg).
        + apply G; [assumption | lia].
        + apply IHArg; [assumption | lia].
        + intros k1 a Hk1 Hkl1 Ha.
          apply builds_bind with (s := false) (Q := Forall is_Arg).
          * apply good_tail; auto; [discriminate|]. intros; apply G; lia.
          * apply builds_separated; auto; [discriminate | intros; apply G; lia |].
            intros; apply IHArg; lia.
          * intros k2 more _ _ Hmore. apply builds_ret. now constructor. }
    intros j3 args Hj3 Hl3 Hargs.
    apply builds_bind with (s := true) (Q := fun _ => True).
    { apply good_must, good_literal; (discriminate || assumption). }
    { intros c Hc a c' E. exact I. }
    intros j4 _ _ _ _. apply builds_ret. simpl. repeat split.
    + now rewrite Hnm, Forall_forallb.
    + now apply Forall_concat.
  - (* Composite *)
    rewrite parseComposite_S.
    apply builds_strct with (Q := is_Expression).
    { intros pos e [H1 H2]. unfold set_Composite. simpl.
      destruct (Expression_Sequence e); [discriminate | auto]. }
    apply builds_bind with (s := true) (Q := fun _ => True).
    { apply good_literal; (discriminate || assumption). }
    { intros c Hc a c' E. exact I. }
    intros j _ Hj Hl _.
    apply builds_bind with (s := true) (Q := is_Expression).
    { apply good_must, G; [assumption | lia]. }
    { apply builds_must, IHExpression; [assumption | lia]. }
    intros j1 e Hj1 Hl1 He.
    apply builds_bind with (s := true) (Q := fun _ => True).
    { apply good_must, good_literal; (discriminate || assumption). }
    { intros c Hc a c' E. exact I. }
    intros j2 _ _ _ _. apply builds_ret. exact He.
  - (* Arg *)
    rewrite parseArg_S.
    apply builds_strct with
      (Q := fun x : Comparable + Composite =>
              match x with inl c => is_Comparable c | inr c => is_Composite c end).
    { intros pos [c | c] [H1 H2]; unfold set_Arg; simpl; rewrite H1, H2; auto. }
    apply builds_disjunction. repeat constructor; apply builds_pmap.
    + apply IHComparable; [assumption | lia].
    + apply IHComposite; [assumption | lia].
Qed.

(** The tokens parse to a Filter of that shape. *)
Lemma parseTokens_shaped ast :
  parseTokens toks eof = Parsed ast -> shaped_Filter ast = true.
Proof.
  unfold parseTokens.
  destruct (parseFilter toks eof (parse_fuel toks) Context0) as [[f| |e|] c] eqn:E;
    try discriminate.
  destruct (Token_Type (Peek toks eof c)); try discriminate.
  intros [= <-]. unfold parseFilter in E.
  revert E. generalize Context0 (eq_refl : cursor Context0 = 0). intros c0 Hc0 E.
  revert c0 Hc0 f c E.
  change (builds (fun f => shaped_Filter f = true)
            (strct toks eof
               (fun pos es => {| Filter_Pos := pos; Filter_Expression := es |})
               (group toks eof groupMatchZeroOrMore
                  (parseExpression toks eof (parse_fuel toks)))) 0).
  apply builds_strct with (Q := Forall is_Expression).
  { intros pos es H. unfold shaped_Filter. simpl. apply Forall_forallb.
    eapply Forall_impl; [|exact H]. intros e [H1 H2]. simpl.
    rewrite H1, H2. reflexivity. }
  eapply builds_weaken;
    [|apply builds_group with (P := is_Expression); [| |lia]].
  - intros l (H & _). exact H.
  - intros j Hj Hl. apply good_parsers; auto. unfold parse_fuel. lia.
  - intros j Hj Hl. apply shaped_parsers; auto. unfold parse_fuel. lia.
Qed.

End Shapes.

(** The tokens that [Parse] hands to the parser. *)
Lemma elide_In t ts : In t (elide ts) -> In t ts.
Proof. unfold elide. intro H. apply filter_In in H. tauto. Qed.

Lemma Lex_well_spelt s t : In t (fst (Lex s)) -> well_spelt t.
Proof.
  destruct (Lex s) as [toks e] eqn:E. apply Lex_spec in E.
  destruct E as (H & _). rewrite Forall_forall in H. apply H.
Qed.

Lemma Parse_shaped expression ast :
  Parse expression = Parsed ast -> shaped_Filter ast = true.
Proof.
  unfold Parse, DefaultParser_ParseString.
  destruct (Lex expression) as [ts [pos|]] eqn:E; [discriminate|].
  apply parseTokens_shaped; try reflexivity.
  - intros t Ht Hv. apply elide_In in Ht.
    assert (exists c x, Token_Value t = String c x /\ Regex.word_char c = true)
      as (c & x & Ev & Hc).
    { simpl in Hv. destruct Hv as [<- | [<- | [<- | []]]];
        do 2 eexists; split; reflexivity. }
    apply Lex_word_is_Text with (s := expression) (c := c) (x := x); auto.
    now rewrite E.
  - intros t Ht. apply elide_In in Ht.
    apply Lex_well_spelt with (s := expression). now rewrite E.
Qed.

(** *** Every node of the tree *)

Lemma forallb_nth_error {A} (f : A -> bool) l i x :
  forallb f l = true -> nth_error l i = Some x -> f x = true.
Proof.
  intros H E. apply nth_error_In in E. rewrite forallb_forall in H. now apply H.
Qed.

Lemma child_shaped n s m :
  shaped n = true -> child n s = Some m -> shaped m = true.
Proof.
  destruct n as [ast|ast|ast|ast|ast|ast|ast|ast|ast|ast|ast|ast|ast|ast|ast];
    destruct s; cbn [child shaped]; try (intros _ E; discriminate E); intros H E.
  - (* Filter *)
    destruct (nth_error (Filter_Expression ast) i) as [e|] eqn:En; [|discriminate].
    injection E as <-. unfold shaped_Filter in H.
    apply forallb_nth_error with (x := e) (i := i) in H; [|exact En].
    apply andb_true_iff in H. apply H.
  - (* Expression *)
    destruct ast as [pos ss]. simpl in *.
    destruct (nth_error ss i) as [x|] eqn:En; [|discriminate]. injection E as <-.
    apply andb_true_iff in H. destruct H as [_ H].
    now apply forallb_nth_error with (x := x) (i := i) in H.
  - (* Sequence *)
    destruct ast as [pos fs]. simpl in *.
    destruct (nth_error fs i) as [x|] eqn:En; [|discriminate]. injection E as <-.
    apply andb_true_iff in H. destruct H as [_ H].
    now apply forallb_nth_error with (x := x) (i := i) in H.
  - (* Factor *)
    destruct ast as [pos ts]. simpl in *.
    destruct (nth_error ts i) as [x|] eqn:En; [|discriminate]. injection E as <-.
    apply andb_true_iff in H. destruct H as [_ H].
    now apply forallb_nth_error with (x := x) (i := i) in H.
  - (* Term *)
    destruct ast as [pos neg s]. simpl in *. now injection E as <-.
  - (* Simple, its Restriction *)
    destruct ast as [pos [r|] [c|]]; simpl in *; try discriminate.
    now injection E as <-.
  - (* Simple, its Composite *)
    destruct ast as [pos [r|] [c|]]; simpl in *; try discriminate.
    injection E as <-. apply andb_true_iff in H. apply H.
  - (* Restriction, its Comparable *)
    destruct ast as [pos c op a]. simpl in *. injection E as <-.
    repeat (apply andb_true_iff in H; destruct H as [H ?]). assumption.
  - (* Restriction, its Arg *)
    destruct ast as [pos c op a]. simpl in *. injection E as <-.
    apply andb_true_iff in H. apply H.
  - (* Composite *)
    destruct ast as [pos e]. simpl in *. now injection E as <-.
  - (* Comparable, its Function *)
    destruct ast as [pos [f|] [mb|]]; simpl in *; try discriminate.
    now injection E as <-.
  - (* Comparable, its Member *)
    destruct ast as [pos [f|] [mb|]]; simpl in *; try discriminate.
    now injection E as <-.
  - (* Arg, its Composite *)
    destruct ast as [pos c k]. simpl in *. injection E as <-.
    apply andb_true_iff in H. apply H.
  - (* Arg, its Comparable *)
    destruct ast as [pos c k]. simpl in *. injection E as <-.
    apply andb_true_iff in H. apply H.
  - (* Function, a Name *)
    destruct ast as [pos ns args]. simpl in *.
    destruct (nth_error ns i) as [x|] eqn:En; [|discriminate]. injection E as <-.
    repeat (apply andb_true_iff in H; destruct H as [H ?]).
    now apply forallb_nth_error with (f := shaped_Name) (l := ns) (i := i).
  - (* Function, an Arg *)
    destruct ast as [pos ns args]. simpl in *.
    destruct (nth_error args i) as [x|] eqn:En; [|discriminate]. injection E as <-.
    apply andb_true_iff in H. destruct H as [_ H].
    now apply forallb_nth_error with (x := x) (i := i) in H.
  - (* Member, its Value *)
    unfold shaped_Member in H. injection E as <-.
    apply andb_true_iff in H. apply H.
  - (* Member, a Field *)
    unfold shaped_Member in H.
    destruct (nth_error (Member_Fields ast) i) as [x|] eqn:En; [|discriminate].
    injection E as <-. apply andb_true_iff in H. destruct H as [_ H].
    now apply forallb_nth_error with (x := x) (i := i) in H.
  - (* Field *)
    unfold shaped_Field in H. destruct (Field_Value ast) as [v|]; [|discriminate].
    injection E as <-. apply andb_true_iff in H. apply H.
Qed.

Lemma resolve_shaped path : forall n m,
  shaped n = true -> resolve n path = Some m -> shaped m = true.
Proof.
  induction path as [|s path IH]; intros n m H E; simpl in E.
  - now injection E as <-.
  - destruct (child n s) as [n'|] eqn:Ec; [|discriminate].
    apply (IH n' m); [|exact E]. now apply child_shaped with (n := n) (s := s).
Qed.

(** Every node of a tree that [Parse] returns has the shape. *)
Lemma Parse_node_shaped expression ast path n :
  Parse expression = Parsed ast -> resolve (N_Filter ast) path = Some n ->
  shaped n = true.
Proof.
  intros H E. apply resolve_shaped with (n := N_Filter ast) (path := path); auto.
  simpl. now apply Parse_shaped with (expression := expression).
Qed.

(** *** The operators that are captured *)

Section Captured.

Variable toks : list Token.
Variable eof : Token.



End Captured.



(* ================================================================== *)
(** * Parse on inputs made of words *)

Lemma ends_term_text off w : identifier w = true -> ends_term (text_token off w).
Proof.
  intro Hw. unfold ends_term, comparators. simpl.
  intros [E | [E | [E | [E | [E | [E | [E | [E | [E | []]]]]]]]]];
    subst w; discriminate.
Qed.

Section Words.

Variable toks : list Token.
Variable eof : Token.

Hypothesis eof_type : Token_Type eof = T_EOF.
Hypothesis eof_value : Token_Value eof = EmptyString.

Local Abbreviation tk i := (token_at toks eof i).
Local Abbreviation pos i := (Token_Pos (token_at toks eof i)).

(** The rounds of a repetition. *)
Lemma gives_group_from_repeats {A} mode (body : parser A) i vs j :
  repeats body i vs j ->
  forall fuel m out,
    length vs < fuel ->
    (m + N.of_nat (length vs) < group_max mode)%N ->
    (group_min mode <= m + N.of_nat (length vs))%N ->
    gives (group_from toks eof fuel mode body m out) i (out ++ vs) j.
Proof.
  induction 1 as [i Hend | i v k vs j Hv Hvs IH]; intros fuel m out Hf Hmax Hmin c Hc;
    (destruct fuel as [|fuel]; [simpl in Hf; lia|]); simpl in Hmax, Hmin.
  - assert (exists c', cursor c' = i /\
              group_from toks eof (S fuel) mode body m out c =
              group_end toks eof mode m out c') as (c' & Hc' & E).
    { destruct Hend as [Hm | (k & Hk & Hnear)].
      - apply group_from_misses; auto. lia.
      - apply group_from_fails_near with (j := k); auto. lia. }
    rewrite E, app_nil_r. apply gives_group_end; [|lia|exact Hc'].
    destruct mode; simpl in Hmax; unfold MaxIterations in *; lia.
  - destruct (@group_from_gives toks eof A fuel mode body m out i v k Hv)
      with (c := c) as (c' & Hc' & E); [lia | exact Hc|].
    rewrite E. replace (out ++ v :: vs) with ((out ++ [v]) ++ vs)
      by (rewrite <- app_assoc; reflexivity).
    apply IH; [simpl in Hf; lia | lia | lia | exact Hc'].
Qed.

Lemma gives_group_repeats {A} mode (body : parser A) i vs j :
  repeats body i vs j -> mode <> groupMatchZeroOrOne ->
  length vs <= length toks -> (N.of_nat (length vs) < MaxIterations)%N ->
  (mode = groupMatchOneOrMore -> vs <> []) ->
  gives (group toks eof mode body) i vs j.
Proof.
  intros H Hmode Hlen Hmax Hne. unfold group.
  change vs with ([] ++ vs).
  apply gives_group_from_repeats; [exact H | lia | |].
  - destruct mode; [congruence | |]; simpl; lia.
  - destruct mode; simpl; try lia.
    destruct vs; [now elim Hne | simpl; lia].
Qed.

(** *** A bare word *)

Lemma ends_term_not t s :
  ends_term t -> In s ("." :: "(" :: comparators) -> Token_Value t <> s.
Proof. intros H Hs E. apply H. now rewrite E. Qed.

Lemma ends_term_no_comparison t :
  ends_term t -> ~ In (Token_Value t) comparators.
Proof. intros H Hs. apply H. simpl. tauto. Qed.

Lemma ends_term_eof : ends_term eof.
Proof.
  unfold ends_term. rewrite eof_value. simpl. intuition discriminate.
Qed.

Section Word.

Variables (i off : nat) (w : string).
Hypothesis word_here : tk i = text_token off w.
Hypothesis no_field : Token_Value (tk (S i)) <> ".".
Hypothesis no_call : Token_Value (tk (S i)) <> "(".

(** A word that no parenthesis follows is no Function: it is a Member
    without Fields if no dot follows either. *)
Lemma fails_Function_word n :
  fails (parseFunction toks eof (S n)) i (S i).
Proof.
  rewrite parseFunction_S. apply fails_strct.
  eapply fails_bind_later; [apply gives_Name_text, word_here|].
  eapply fails_bind_later.
  - apply gives_must, gives_star_none, misses_bind, misses_literal, no_field.
  - apply fails_bind, fails_must_misses, misses_literal, no_call.
Qed.

Lemma gives_Member_word :
  gives (parseMember toks eof) i (member (text_value off w) []) (S i).
Proof.
  unfold parseMember. eapply gives_strct_eq.
  - eapply gives_bind; [apply gives_Value_text, word_here|].
    eapply gives_bind; [|apply gives_ret].
    apply gives_must, gives_star_none, misses_bind, misses_literal, no_field.
  - rewrite word_here. reflexivity.
Qed.

Lemma gives_Comparable_word n :
  gives (parseComparable toks eof (S (S n))) i
        (member_comparable (member (text_value off w) [])) (S i).
Proof.
  rewrite parseComparable_S. eapply gives_strct_eq.
  - unfold disjunction. eapply gives_disjunction_retry.
    + apply fails_pmap, fails_Function_word.
    + unfold lookahead. lia.
    + intros fe' d'. apply gives_disjunction_here, gives_pmap, gives_Member_word.
  - rewrite word_here. reflexivity.
Qed.

Lemma gives_Arg_word n :
  gives (parseArg toks eof (S (S (S n)))) i
        (comparable_arg (member_comparable (member (text_value off w) []))) (S i).
Proof.
  rewrite parseArg_S. eapply gives_strct_eq.
  - unfold disjunction. apply gives_disjunction_here, gives_pmap, gives_Comparable_word.
  - rewrite word_here. reflexivity.
Qed.

Hypothesis no_comparison : ~ In (Token_Value (tk (S i))) comparators.

Lemma misses_comparator_word : misses (comparator toks eof) (S i).
Proof.
  unfold comparator, disjunction.
  repeat (apply misses_disjunction_next;
          [apply misses_literal; intro E; apply no_comparison; rewrite E;
           unfold comparators; simpl; tauto|]).
  apply misses_disjunction_nil.
Qed.

Lemma gives_Restriction_word n :
  gives (parseRestriction toks eof (S (S (S n)))) i (word_restriction off w) (S i).
Proof.
  rewrite parseRestriction_S. eapply gives_strct_eq.
  - eapply gives_bind; [apply gives_Comparable_word|].
    eapply gives_bind; [|apply gives_ret].
    apply gives_must, gives_optional_none, misses_bind, misses_comparator_word.
  - rewrite word_here. reflexivity.
Qed.

Lemma gives_Simple_word n :
  gives (parseSimple toks eof (S (S (S (S n))))) i
        (Term_Simple (restriction_term (word_restriction off w))) (S i).
Proof.
  rewrite parseSimple_S. eapply gives_strct_eq.
  - unfold disjunction. apply gives_disjunction_here, gives_pmap, gives_Restriction_word.
  - rewrite word_here. reflexivity.
Qed.

Hypothesis word_not_NOT : w <> "NOT".
Hypothesis word_not_minus : w <> "-".

Lemma gives_Term_word n :
  gives (parseTerm toks eof (S (S (S (S (S n)))))) i
        (restriction_term (word_restriction off w)) (S i).
Proof.
  rewrite parseTerm_S. eapply gives_strct_eq.
  - eapply gives_bind.
    + apply gives_optional_none, misses_negation; rewrite word_here; assumption.
    + eapply gives_bind; [|apply gives_ret]. apply gives_must, gives_Simple_word.
  - rewrite word_here. reflexivity.
Qed.

Hypothesis no_alternative : Token_Value (tk (S i)) <> "OR".

Lemma gives_Factor_word n :
  gives (parseFactor toks eof (S (S (S (S (S (S n))))))) i (word off w) (S i).
Proof.
  rewrite parseFactor_S. eapply gives_strct_eq.
  - eapply gives_bind; [apply gives_Term_word|].
    eapply gives_bind; [|apply gives_ret].
    apply gives_must, gives_star_none, misses_bind, misses_literal.
    exact no_alternative.
  - rewrite word_here. reflexivity.
Qed.

End Word.

(** *** From a Restriction to the Filter *)

Lemma gives_Simple_of m i r j :
  gives (parseRestriction toks eof m) i r j -> Restriction_Pos r = pos i ->
  gives (parseSimple toks eof (S m)) i (Term_Simple (restriction_term r)) j.
Proof.
  intros Hr Hp. rewrite parseSimple_S. eapply gives_strct_eq.
  - unfold disjunction. apply gives_disjunction_here, gives_pmap, Hr.
  - simpl. now rewrite Hp.
Qed.

Lemma gives_Term_of m i s j :
  gives (parseSimple toks eof m) i s j ->
  Token_Value (tk i) <> "NOT" -> Token_Value (tk i) <> "-" ->
  gives (parseTerm toks eof (S m)) i
        {| Term_Pos := pos i; Term_Negate := false; Term_Simple := s |} j.
Proof.
  intros Hs H1 H2. rewrite parseTerm_S. eapply gives_strct_eq.
  - eapply gives_bind; [now apply gives_optional_none, misses_negation|].
    eapply gives_bind; [|apply gives_ret]. apply gives_must, Hs.
  - reflexivity.
Qed.

(** A Term that starts with [NOT] or [-] is negated. *)
Lemma gives_Term_negated m i s j :
  Token_Value (tk i) = "NOT" \/ Token_Value (tk i) = "-" ->
  gives (parseSimple toks eof m) (S i) s j ->
  gives (parseTerm toks eof (S m)) i
        {| Term_Pos := pos i; Term_Negate := true; Term_Simple := s |} j.
Proof.
  intros Hneg Hs. rewrite parseTerm_S.
  destruct Hneg as [E | E]; eapply gives_strct_eq.
  - eapply gives_bind.
    + apply gives_optional_some. unfold disjunction.
      apply gives_disjunction_here, gives_literal, E.
    + eapply gives_bind; [|apply gives_ret]. apply gives_must, Hs.
  - reflexivity.
  - eapply gives_bind.
    + apply gives_optional_some. unfold disjunction.
      apply gives_disjunction_next.
      * apply misses_literal. rewrite E. discriminate.
      * apply gives_disjunction_here, gives_literal, E.
    + eapply gives_bind; [|apply gives_ret]. apply gives_must, Hs.
  - reflexivity.
Qed.

Lemma gives_Factor_of m i t j :
  gives (parseTerm toks eof m) i t j -> Term_Pos t = pos i ->
  Token_Value (tk j) <> "OR" ->
  gives (parseFactor toks eof (S m)) i (term_factor t) j.
Proof.
  intros Ht Hp Hj. rewrite parseFactor_S. eapply gives_strct_eq.
  - eapply gives_bind; [exact Ht|].
    eapply gives_bind; [|apply gives_ret].
    apply gives_must, gives_star_none, misses_bind, misses_literal, Hj.
  - unfold term_factor. now rewrite Hp.
Qed.

Lemma gives_Sequence_one n i f j :
  gives (parseFactor toks eof (S (S (S (S (S (S n))))))) i f j ->
  Factor_Pos f = pos i -> inert (tk j) -> 1 <= length toks ->
  gives (parseSequence toks eof (S (S (S (S (S (S (S n)))))))) i (sequence_of [f]) j.
Proof.
  intros Hf Hp Hj Hlen. rewrite parseSequence_S. eapply gives_strct_eq.
  - apply gives_group_one; [discriminate | exact Hlen | exact Hf |].
    right. exists j. split; [|lia]. apply fails_Factor; auto.
  - unfold sequence_of. now rewrite Hp.
Qed.

Lemma gives_Sequence_of n i f j :
  gives (parseFactor toks eof (S (S (S (S (S (S n))))))) i f j ->
  Factor_Pos f = pos i -> tk j = eof -> 1 <= length toks ->
  gives (parseSequence toks eof (S (S (S (S (S (S (S n)))))))) i (sequence_of [f]) j.
Proof.
  intros Hf Hp Hj Hlen. apply gives_Sequence_one; auto.
  rewrite Hj. now apply inert_eof.
Qed.

Lemma gives_Expression_of n i s j :
  gives (parseSequence toks eof n) i s j -> Sequence_Pos s = pos i ->
  Token_Value (tk j) <> "AND" ->
  gives (parseExpression toks eof (S n)) i (expression_of [s]) j.
Proof.
  intros Hs Hp Hj. rewrite parseExpression_S. eapply gives_strct_eq.
  - eapply gives_bind; [exact Hs|].
    eapply gives_bind; [|apply gives_ret].
    apply gives_must, gives_star_none, misses_bind, misses_literal, Hj.
  - unfold expression_of. now rewrite Hp.
Qed.

Lemma gives_Filter_one n i e j :
  gives (parseExpression toks eof (S (S (S (S (S (S (S (S n)))))))))
        i e j -> Expression_Pos e = pos i ->
  inert (tk j) -> 1 <= length toks ->
  gives (parseFilter toks eof (S (S (S (S (S (S (S (S n))))))))) i (filter_of [e]) j.
Proof.
  intros He Hp Hj Hlen. unfold parseFilter. eapply gives_strct_eq.
  - apply gives_group_one; [discriminate | exact Hlen | exact He |].
    right. exists j. split; [|lia]. apply fails_Expression; auto.
  - unfold filter_of. now rewrite Hp.
Qed.

Lemma gives_Filter_of n i e j :
  gives (parseExpression toks eof (S (S (S (S (S (S (S (S n)))))))))
        i e j -> Expression_Pos e = pos i ->
  tk j = eof -> 1 <= length toks ->
  gives (parseFilter toks eof (S (S (S (S (S (S (S (S n))))))))) i (filter_of [e]) j.
Proof.
  intros He Hp Hj Hlen. apply gives_Filter_one; auto.
  rewrite Hj. now apply inert_eof.
Qed.

(** The tokens parse to the Filter that [parseFilter] gives when it
    stops at the end of the input. *)
Lemma parseTokens_gives ast j :
  gives (parseFilter toks eof (parse_fuel toks)) 0 ast j -> tk j = eof ->
  parseTokens toks eof = Parsed ast.
Proof.
  intros H Hj. unfold parseTokens.
  destruct (H Context0 eq_refl) as (c' & E & Hc').
  rewrite E. unfold Peek. rewrite Hc'. unfold token_at in Hj.
  now rewrite Hj, eof_type.
Qed.

Lemma parse_fuel_slack :
  1 <= length toks ->
  exists n, 16 <= n /\ parse_fuel toks = S (S (S (S (S (S (S (S n))))))).
Proof. intro H. exists (12 * length toks + 4). unfold parse_fuel. split; lia. Qed.

(** When the Filter stops before the end of the input, the parse
    fails. *)
Lemma parseTokens_trailing ast j :
  gives (parseFilter toks eof (parse_fuel toks)) 0 ast j ->
  Token_Type (tk j) <> T_EOF ->
  exists e, parseTokens toks eof = ParseFailure e.
Proof.
  intros H Hj. unfold parseTokens.
  destruct (H Context0 eq_refl) as (c' & E & Hc').
  rewrite E. unfold Peek. rewrite Hc'. unfold token_at in Hj.
  destruct (Token_Type (nth j toks eof)); try (eexists; reflexivity).
  congruence.
Qed.

Lemma inert_not_OR t : inert t -> Token_Value t <> "OR".
Proof. intros (_ & _ & H) E. apply H. rewrite E. simpl. tauto. Qed.

Lemma inert_not_AND t : inert t -> Token_Value t <> "AND".
Proof. intros (_ & _ & H) E. apply H. rewrite E. simpl. tauto. Qed.

(** The tokens of one Term. *)
Lemma gives_Filter_term t j :
  (forall n, 16 <= n -> gives (parseTerm toks eof (S (S (S (S (S n)))))) 0 t j) ->
  Term_Pos t = pos 0 -> inert (tk j) -> 1 <= length toks ->
  gives (parseFilter toks eof (parse_fuel toks)) 0
        (filter_of [expression_of [sequence_of [term_factor t]]]) j.
Proof.
  intros Ht Hp Hj Hlen.
  destruct (parse_fuel_slack Hlen) as (n & Hn & ->).
  apply gives_Filter_one; auto.
  apply gives_Expression_of; [| |now apply inert_not_AND].
  - apply gives_Sequence_one; auto.
    apply gives_Factor_of; auto. now apply inert_not_OR.
  - simpl. exact Hp.
Qed.

Lemma parseTokens_term t j :
  (forall n, 16 <= n -> gives (parseTerm toks eof (S (S (S (S (S n)))))) 0 t j) ->
  Term_Pos t = pos 0 -> tk j = eof -> 1 <= length toks ->
  parseTokens toks eof =
  Parsed (filter_of [expression_of [sequence_of [term_factor t]]]).
Proof.
  intros Ht Hp Hj Hlen. apply parseTokens_gives with (j := j); auto.
  apply gives_Filter_term; auto. rewrite Hj. now apply inert_eof.
Qed.

End Words.

Lemma word_char_not_space c : word_char c = true -> is_space c = false.
Proof.
  intro H. destruct (is_space c) eqn:E; [|reflexivity].
  apply is_space_not_word in E. congruence.
Qed.

Lemma identifier_starts w rest :
  identifier w = true -> starts_with is_space (w ++ rest) = false.
Proof.
  intro H. apply identifier_head in H. destruct H as (c & w' & -> & Hc).
  simpl. now apply word_char_not_space.
Qed.

Lemma elide_app a b : elide (a ++ b) = elide a ++ elide b.
Proof. unfold elide. apply filter_app. Qed.

(** *** Words separated by a blank *)

(** The lexemes of [w1 w2 ... wn]: after every word but the last, a
    blank. *)
Lemma canonical_spaced ws w :
  Forall (fun x => identifier x = true) (ws ++ [w]) ->
  canonical (spaced ws ++ [(T_Text, w)]) = true.
Proof.
  unfold spaced. induction ws as [|x ws IH]; intro H.
  - simpl in H. inversion H as [|? ? Hw _]; subst. unfold canonical, stands. simpl.
    now rewrite Hw.
  - simpl in H. inversion H as [|? ? Hx Hrest]; subst. specialize (IH Hrest).
    cbn [flat_map app canonical]. rewrite IH. unfold stands, space.
    cbn [fst snd text_of]. rewrite Hx.
    destruct ws as [|y ws]; inversion Hrest; subst; cbn [flat_map app text_of fst snd];
      rewrite identifier_starts by assumption; reflexivity.
Qed.

Lemma text_of_spaced ws w :
  text_of (spaced ws ++ [(T_Text, w)]) = String.concat " " (ws ++ [w]).
Proof.
  unfold spaced. induction ws as [|x ws IH].
  - simpl. apply append_empty.
  - cbn [flat_map app text_of fst snd]. rewrite IH.
    destruct ws; reflexivity.
Qed.

Lemma elide_place_spaced ws w : forall off,
  elide (place off (spaced ws ++ [(T_Text, w)])) = word_tokens off (ws ++ [w]).
Proof.
  unfold spaced, elide. induction ws as [|x ws IH]; intro off.
  - reflexivity.
  - cbn [flat_map app place fst snd filter Token_Type TokenType_eqb negb
           word_tokens space].
    rewrite IH. unfold text_token. simpl String.length.
    reflexivity.
Qed.

Lemma Lex_words ws w :
  Forall (fun x => identifier x = true) (ws ++ [w]) ->
  Lex (String.concat " " (ws ++ [w])) =
  (place 0 (spaced ws ++ [(T_Text, w)]), None).
Proof.
  intro H. rewrite <- text_of_spaced. now apply Lex_place, canonical_spaced.
Qed.

Section WordsParse.

Variable toks : list Token.
Variable eof : Token.

Hypothesis eof_type : Token_Type eof = T_EOF.
Hypothesis eof_value : Token_Value eof = EmptyString.

Local Abbreviation tk i := (token_at toks eof i).

(** The token after the words: the end of the input, or a closing
    parenthesis. *)
Variable close : Token.
Hypothesis close_inert : inert close.
Hypothesis close_ends : ends_term close.

Lemma words_at_next i off ws :
  words_at toks eof close i off ws -> Forall bare_word ws ->
  ends_term (tk i) /\ Token_Value (tk i) <> "OR".
Proof.
  destruct ws as [|w ws]; simpl.
  - intros -> _. split; [exact close_ends|].
    destruct close_inert as (_ & _ & H). intro E. apply H. rewrite E. simpl. tauto.
  - intros [-> _] H. inversion H as [|? ? [[Hw _] Hor] _]; subst.
    split; [now apply ends_term_text | exact Hor].
Qed.

(** Every word is one more Factor of the Sequence. *)
Lemma repeats_words n ws : forall i off,
  words_at toks eof close i off ws -> Forall bare_word ws ->
  repeats (parseFactor toks eof (S (S (S (S (S (S n))))))) i
          (word_factors off ws) (i + length ws).
Proof.
  induction ws as [|w ws IH]; intros i off Hat Hall.
  - simpl in *. rewrite Nat.add_0_r. constructor. right. exists i. split; [|lia].
    apply fails_Factor; auto. now rewrite Hat.
  - destruct Hat as [Hw Hat]. inversion Hall as [|? ? Hb Hrest]; subst.
    simpl. replace (i + S (length ws)) with (S i + length ws) by lia.
    apply repeats_more with (k := S i).
    + destruct Hb as ((Hid & Hnot) & _).
      destruct (@words_at_next (S i) (off + String.length w + 1) ws Hat Hrest).
      apply gives_Factor_word; auto;
        try (apply ends_term_not; [assumption | simpl; tauto]).
      * now apply ends_term_no_comparison.
      * now apply identifier_not_minus.
    + now apply IH.
Qed.

Lemma words_at_end ws : forall i off,
  words_at toks eof close i off ws -> tk (i + length ws) = close.
Proof.
  induction ws as [|w ws IH]; intros i off H; simpl in *.
  - now rewrite Nat.add_0_r.
  - destruct H as [_ H]. apply IH in H.
    now replace (i + S (length ws)) with (S i + length ws) by lia.
Qed.

Lemma length_word_factors ws off : length (word_factors off ws) = length ws.
Proof. revert off. induction ws; intro off; simpl; auto. Qed.

(** The words are the Factors of one Sequence, which is the one
    Sequence of an Expression. *)
Lemma gives_Expression_words n i off w ws :
  words_at toks eof close i off (w :: ws) -> Forall bare_word (w :: ws) ->
  S (length ws) <= length toks -> (N.of_nat (S (length ws)) < MaxIterations)%N ->
  gives (parseExpression toks eof (S (S (S (S (S (S (S (S n)))))))))
        i (expression_of [sequence_of (word_factors off (w :: ws))])
        (i + S (length ws)).
Proof.
  intros Hat Hall Hlen Hmax.
  pose proof (@words_at_end (w :: ws) i off Hat) as Hend. simpl in Hend.
  apply gives_Expression_of; [|destruct Hat as [-> _]; reflexivity|].
  - rewrite parseSequence_S. eapply gives_strct_eq.
    + apply gives_group_repeats with (mode := groupMatchOneOrMore).
      * apply (@repeats_words n (w :: ws) i off Hat Hall).
      * discriminate.
      * rewrite length_word_factors. exact Hlen.
      * rewrite length_word_factors. exact Hmax.
      * discriminate.
    + destruct Hat as [-> _]. reflexivity.
  - rewrite Hend. destruct close_inert as (_ & _ & H). intro E. apply H.
    rewrite E. simpl. tauto.
Qed.

End WordsParse.

Lemma words_at_tokens eof close ws : forall pre off post,
  words_at (pre ++ word_tokens off ws ++ close :: post) eof close (length pre) off ws.
Proof.
  induction ws as [|w ws IH]; intros pre off post; simpl.
  - unfold token_at. apply nth_after.
  - split; [apply nth_after|].
    specialize (IH (pre ++ [text_token off w]) (off + String.length w + 1) post).
    rewrite <- app_assoc in IH. simpl in IH.
    replace (length (pre ++ [text_token off w])) with (S (length pre)) in IH
      by (rewrite length_app; simpl; lia).
    exact IH.
Qed.

Lemma words_at_tokens_eof eof ws : forall pre off,
  words_at (pre ++ word_tokens off ws) eof eof (length pre) off ws.
Proof.
  induction ws as [|w ws IH]; intros pre off; simpl.
  - unfold token_at. rewrite app_nil_r. apply nth_overflow. lia.
  - split; [apply nth_after|].
    specialize (IH (pre ++ [text_token off w]) (off + String.length w + 1)).
    rewrite <- app_assoc in IH. simpl in IH.
    replace (length (pre ++ [text_token off w])) with (S (length pre)) in IH
      by (rewrite length_app; simpl; lia).
    exact IH.
Qed.

Lemma length_word_tokens ws off : length (word_tokens off ws) = length ws.
Proof. revert off. induction ws; intro off; simpl; auto. Qed.

Lemma parseTokens_words eof w ws :
  Token_Type eof = T_EOF -> Token_Value eof = EmptyString ->
  Forall bare_word (w :: ws) -> (N.of_nat (S (length ws)) < MaxIterations)%N ->
  parseTokens (word_tokens 0 (w :: ws)) eof =
  Parsed (filter_of [expression_of [sequence_of (word_factors 0 (w :: ws))]]).
Proof.
  intros eof_type eof_value Hall Hmax.
  pose proof (words_at_tokens_eof eof (w :: ws) [] 0) as Hat. simpl app in Hat.
  assert (Hlen : S (length ws) <= length (word_tokens 0 (w :: ws)))
    by (rewrite length_word_tokens; simpl; lia).
  pose proof (@words_at_end _ eof eof (w :: ws) 0 0 Hat) as Hend. simpl in Hend.
  apply parseTokens_gives with (j := S (length ws)); auto.
  destruct (parse_fuel_enough (word_tokens 0 (w :: ws))) as (n & ->).
  apply gives_Filter_of; auto; [|simpl; lia].
  apply gives_Expression_words with (close := eof) (off := 0); auto.
  - now apply inert_eof.
  - now apply ends_term_eof.
Qed.

(** Bare words separated by a blank parse to one Sequence with a
    Factor for every word. *)
Lemma Parse_spaced ws w :
  Forall bare_word (ws ++ [w]) -> (N.of_nat (length (ws ++ [w])) < MaxIterations)%N ->
  Parse (String.concat " " (ws ++ [w])) =
  Parsed (filter_of [expression_of [sequence_of (word_factors 0 (ws ++ [w]))]]).
Proof.
  intros Hall Hlen. unfold Parse, DefaultParser_ParseString.
  rewrite Lex_words by (eapply Forall_impl; [|exact Hall]; now intros a [[H _] _]).
  rewrite elide_place_spaced.
  destruct (ws ++ [w]) as [|x xs] eqn:E; [destruct ws; discriminate|].
  now apply parseTokens_words.
Qed.

(** *** Words separated by [OR] *)

Lemma canonical_alternatives ws :
  Forall (fun x => identifier x = true) ws ->
  canonical (alternatives ws) = true /\
  starts_with word_char (text_of (alternatives ws)) = false.
Proof.
  unfold alternatives, space. induction 1 as [|x ws Hx _ [IH1 IH2]].
  - split; reflexivity.
  - split; [|reflexivity].
    cbn [flat_map app canonical]. rewrite IH1. unfold stands.
    cbn [fst snd text_of]. rewrite Hx, IH2.
    rewrite (@identifier_starts x _ Hx). reflexivity.
Qed.

Lemma text_of_alternatives ws : forall w,
  text_of ((T_Text, w) :: alternatives ws) = String.concat " OR " (w :: ws).
Proof.
  unfold alternatives. induction ws as [|x ws IH]; intro w.
  - simpl. apply append_empty.
  - specialize (IH x). cbn [flat_map app text_of fst snd space] in *.
    rewrite IH. reflexivity.
Qed.

Lemma elide_place_alternatives ws : forall off,
  elide (place off (alternatives ws)) = alternative_tokens off ws.
Proof.
  unfold alternatives, elide. induction ws as [|x ws IH]; intro off.
  - reflexivity.
  - cbn [flat_map app place fst snd filter Token_Type TokenType_eqb negb
           alternative_tokens space].
    rewrite IH. unfold text_token. simpl String.length.
    replace (off + 1 + 2 + 1) with (off + 4) by lia. reflexivity.
Qed.

Lemma Lex_alternatives w ws :
  Forall (fun x => identifier x = true) (w :: ws) ->
  Lex (String.concat " OR " (w :: ws)) =
  (place 0 ((T_Text, w) :: alternatives ws), None).
Proof.
  intro H. inversion H as [|? ? Hw Hws]; subst.
  rewrite <- text_of_alternatives. apply Lex_place.
  destruct (canonical_alternatives Hws) as [H1 H2].
  cbn [canonical]. rewrite H1. unfold stands. cbn [fst snd]. now rewrite Hw, H2.
Qed.

Section AlternativesParse.

Variable toks : list Token.
Variable eof : Token.

Hypothesis eof_type : Token_Type eof = T_EOF.
Hypothesis eof_value : Token_Value eof = EmptyString.

Local Abbreviation tk i := (token_at toks eof i).

Lemma alternatives_at_next i off ws :
  alternatives_at toks eof i off ws -> ends_term (tk i).
Proof.
  destruct ws as [|w ws]; simpl.
  - intros ->. now apply ends_term_eof.
  - intros (-> & _). now apply ends_term_text.
Qed.

(** Every [OR] and the word after it are one more Term of the Factor. *)
Lemma repeats_alternatives n ws : forall i off,
  alternatives_at toks eof i off ws -> Forall value_word ws ->
  repeats (bind (literal toks eof "OR")
             (fun _ => must toks eof (parseTerm toks eof (S (S (S (S (S n))))))))
          i (alternative_terms off ws) (i + 2 * length ws).
Proof.
  induction ws as [|w ws IH]; intros i off Hat Hall.
  - simpl in *. rewrite Nat.add_0_r. constructor. left.
    apply misses_bind, misses_literal_eof; auto. discriminate.
  - destruct Hat as (Hor & Hw & Hat). inversion Hall as [|? ? [Hid Hnot] Hrest]; subst.
    simpl. replace (i + S (length ws + S (length ws + 0)))
      with (S (S i) + 2 * length ws) by lia.
    apply repeats_more with (k := S (S i)).
    + eapply gives_bind.
      * apply gives_literal. rewrite Hor. reflexivity.
      * pose proof (@alternatives_at_next (S (S i)) (off + 4 + String.length w) ws Hat)
          as Hnext.
        apply gives_must, gives_Term_word; auto;
          try (apply ends_term_not; [assumption | simpl; tauto]).
        -- now apply ends_term_no_comparison.
        -- now apply identifier_not_minus.
    + now apply IH.
Qed.

Lemma alternatives_at_end ws : forall i off,
  alternatives_at toks eof i off ws -> tk (i + 2 * length ws) = eof.
Proof.
  induction ws as [|w ws IH]; intros i off H; simpl in *.
  - now rewrite Nat.add_0_r.
  - destruct H as (_ & _ & H). apply IH in H.
    now replace (i + S (length ws + S (length ws + 0)))
      with (S (S i) + 2 * length ws) by lia.
Qed.

Lemma length_alternative_terms ws off :
  length (alternative_terms off ws) = length ws.
Proof. revert off. induction ws; intro off; simpl; auto. Qed.

Lemma parseTokens_alternatives w ws :
  tk 0 = text_token 0 w -> alternatives_at toks eof 1 (String.length w) ws ->
  Forall value_word (w :: ws) ->
  S (length ws) <= length toks -> (N.of_nat (length ws) < MaxIterations)%N ->
  parseTokens toks eof =
  Parsed (filter_of [expression_of [sequence_of
    [{| Factor_Pos := at_ 0;
        Factor_Term := restriction_term (word_restriction 0 w)
                         :: alternative_terms (String.length w) ws |}]]]).
Proof.
  intros Hw Hat Hall Hlen Hmax.
  inversion Hall as [|? ? [Hid Hnot] Hrest]; subst.
  pose proof (alternatives_at_end _ _ _ Hat) as Hend.
  apply parseTokens_gives with (j := 1 + 2 * length ws); auto.
  destruct (parse_fuel_enough toks) as (n & ->).
  apply gives_Filter_of; auto; [|rewrite Hw; reflexivity|lia].
  apply gives_Expression_of; [|rewrite Hw; reflexivity
                              |rewrite Hend, eof_value; discriminate].
  rewrite parseSequence_S. eapply gives_strct_eq.
  - apply gives_group_one; [discriminate | lia | |].
    + rewrite parseFactor_S. eapply gives_strct_eq.
      * eapply gives_bind.
        -- pose proof (@alternatives_at_next 1 (String.length w) ws Hat) as Hnext.
           apply gives_Term_word with (off := 0) (w := w); auto;
             try (apply ends_term_not; [assumption | simpl; tauto]).
           ++ now apply ends_term_no_comparison.
           ++ now apply identifier_not_minus.
        -- eapply gives_bind; [|apply gives_ret].
           apply gives_must, gives_group_repeats.
           ++ apply (@repeats_alternatives n ws 1 (String.length w) Hat Hrest).
           ++ discriminate.
           ++ rewrite length_alternative_terms. lia.
           ++ now rewrite length_alternative_terms.
           ++ discriminate.
      * rewrite Hw. reflexivity.
    + right. exists (1 + 2 * length ws). split; [|lia].
      apply fails_Factor; auto. rewrite Hend. now apply inert_eof.
  - rewrite Hw. reflexivity.
Qed.

End AlternativesParse.

Lemma alternatives_at_tokens eof ws : forall pre off,
  alternatives_at (pre ++ alternative_tokens off ws) eof (length pre) off ws.
Proof.
  induction ws as [|w ws IH]; intros pre off; simpl.
  - unfold token_at. rewrite app_nil_r. apply nth_overflow. lia.
  - unfold token_at. split; [apply nth_after|]. split.
    + change (pre ++ text_token (off + 1) "OR" :: text_token (off + 4) w
                :: alternative_tokens (off + 4 + String.length w) ws)
        with (pre ++ [text_token (off + 1) "OR"] ++ text_token (off + 4) w
                :: alternative_tokens (off + 4 + String.length w) ws).
      rewrite app_assoc.
      replace (S (length pre)) with (length (pre ++ [text_token (off + 1) "OR"]))
        by (rewrite length_app; simpl; lia).
      apply nth_after.
    + specialize (IH (pre ++ [text_token (off + 1) "OR"; text_token (off + 4) w])
                     (off + 4 + String.length w)).
      rewrite <- app_assoc in IH. simpl in IH.
      replace (length (pre ++ [text_token (off + 1) "OR"; text_token (off + 4) w]))
        with (S (S (length pre))) in IH by (rewrite length_app; simpl; lia).
      exact IH.
Qed.

Lemma length_alternative_tokens ws off :
  length (alternative_tokens off ws) = 2 * length ws.
Proof. revert off. induction ws as [|w ws IH]; intro off; simpl; [|rewrite IH]; lia. Qed.

(** Words separated by [OR] parse to one Factor with a Term for every
    word. *)
Lemma Parse_alternatives w ws :
  Forall value_word (w :: ws) -> (N.of_nat (length ws) < MaxIterations)%N ->
  Parse (String.concat " OR " (w :: ws)) =
  Parsed (filter_of [expression_of [sequence_of
    [{| Factor_Pos := at_ 0;
        Factor_Term := restriction_term (word_restriction 0 w)
                         :: alternative_terms (String.length w) ws |}]]]).
Proof.
  intros Hall Hmax. unfold Parse, DefaultParser_ParseString.
  rewrite Lex_alternatives by (eapply Forall_impl; [|exact Hall]; now intros a [H _]).
  cbn [place fst snd elide filter Token_Type TokenType_eqb negb].
  fold (elide (place (0 + String.length w) (alternatives ws))).
  rewrite elide_place_alternatives. simpl Nat.add.
  apply parseTokens_alternatives; auto.
  - exact (alternatives_at_tokens _ ws [text_token 0 w] (String.length w)).
  - simpl. rewrite length_alternative_tokens. lia.
Qed.

(** *** Comparisons and negations of words *)

Lemma text_of_app a b : text_of (a ++ b) = (text_of a ++ text_of b)%string.
Proof.
  induction a as [|l a IH]; simpl; [reflexivity|]. now rewrite IH, append_append.
Qed.

Lemma place_app a b off :
  place off (a ++ b) = place off a ++ place (off + String.length (text_of a)) b.
Proof.
  revert off. induction a as [|l a IH]; intro off; simpl.
  - now rewrite Nat.add_0_r.
  - rewrite IH, length_append. now rewrite Nat.add_assoc.
Qed.

Lemma text_of_gap sp : text_of (gap sp) = sp.
Proof. destruct sp; simpl; [reflexivity|]. now rewrite append_empty. Qed.

Lemma elide_place_gap sp off : elide (place off (gap sp)) = [].
Proof. destruct sp; reflexivity. Qed.

Lemma canonical_gap sp ls :
  all_space sp = true -> canonical ls = true ->
  starts_with is_space (text_of ls) = false ->
  canonical (gap sp ++ ls) = true.
Proof.
  intros Hsp Hls Hs. destruct sp as [|c sp]; [exact Hls|].
  cbn [gap app canonical]. rewrite Hls. unfold stands. cbn [fst snd blank].
  now rewrite Hsp, Hs.
Qed.

Lemma starts_gap (p : ascii -> bool) sp rest :
  all_space sp = true -> (forall c, is_space c = true -> p c = false) ->
  starts_with p rest = false -> starts_with p (sp ++ rest) = false.
Proof.
  intros Hsp Hp Hr. destruct sp as [|c sp]; [exact Hr|].
  simpl in *. apply andb_true_iff in Hsp. now apply Hp.
Qed.

Lemma is_space_not_equals c : is_space c = true -> Ascii.eqb "=" c = false.
Proof. destruct c as [[] [] [] [] [] [] [] []]; vm_compute; congruence. Qed.

Lemma word_char_not_equals c : word_char c = true -> Ascii.eqb "=" c = false.
Proof. destruct c as [[] [] [] [] [] [] [] []]; vm_compute; congruence. Qed.

Lemma identifier_no_equals w rest :
  identifier w = true -> starts_with (Ascii.eqb "=") (w ++ rest) = false.
Proof.
  intro H. apply identifier_head in H. destruct H as (c & w' & -> & Hc).
  simpl. now apply word_char_not_equals.
Qed.

Lemma comparator_starts op rest :
  In op comparators ->
  starts_with word_char (op ++ rest) = false /\
  starts_with is_space (op ++ rest) = false /\
  existsb (String.eqb op) operators = true.
Proof.
  unfold comparators. simpl.
  intros [<- | [<- | [<- | [<- | [<- | [<- | [<- | []]]]]]]]; repeat split.
Qed.

Lemma canonical_comparison a sp1 op sp2 b :
  identifier a = true -> identifier b = true -> In op comparators ->
  all_space sp1 = true -> all_space sp2 = true ->
  canonical (comparison a sp1 op sp2 b) = true.
Proof.
  intros Ha Hb Hop H1 H2. destruct (comparator_starts (sp2 ++ b ++ EmptyString) Hop) as (Hw & Hs & Hin).
  assert (Hb' : canonical [(T_Text, b)] = true).
  { unfold canonical, stands. simpl. now rewrite Hb. }
  assert (Hrest : canonical ((T_Operators, op) :: gap sp2 ++ [(T_Text, b)]) = true).
  { cbn [canonical]. rewrite canonical_gap; auto.
    - unfold stands. cbn [fst snd]. rewrite Hin, text_of_app, text_of_gap.
      cbn [text_of fst snd].
      rewrite (@starts_gap (Ascii.eqb "=") sp2 (b ++ EmptyString)); auto.
      + now rewrite andb_false_r.
      + apply is_space_not_equals.
      + now apply identifier_no_equals.
    - cbn [text_of fst snd]. now apply identifier_starts. }
  unfold comparison. cbn [canonical]. rewrite canonical_gap; auto.
  - unfold stands. cbn [fst snd]. rewrite Ha, text_of_app, text_of_gap.
    cbn [text_of fst snd]. rewrite text_of_app, text_of_gap. cbn [text_of fst snd].
    rewrite (@starts_gap word_char sp1); auto.
    apply is_space_not_word.
  - cbn [text_of fst snd]. rewrite text_of_app, text_of_gap. cbn [text_of fst snd].
    exact Hs.
Qed.

Lemma text_of_comparison a sp1 op sp2 b :
  text_of (comparison a sp1 op sp2 b) = (a ++ sp1 ++ op ++ sp2 ++ b)%string.
Proof.
  unfold comparison. cbn [text_of fst snd].
  rewrite text_of_app, text_of_gap. cbn [text_of fst snd].
  rewrite text_of_app, text_of_gap. cbn [text_of fst snd].
  now rewrite append_empty.
Qed.

Lemma elide_place_comparison a sp1 op sp2 b :
  elide (place 0 (comparison a sp1 op sp2 b)) =
  [text_token 0 a;
   {| Token_Type := T_Operators; Token_Value := op;
      Token_Pos := at_ (String.length a + String.length sp1) |};
   text_token (String.length a + String.length sp1 + String.length op
               + String.length sp2) b].
Proof.
  unfold comparison. cbn [place fst snd]. rewrite place_app.
  cbn [place fst snd]. rewrite place_app. cbn [place fst snd].
  rewrite !text_of_gap.
  change (elide (?x :: ?l)) with (elide ([x] ++ l)).
  rewrite !elide_app, elide_place_gap.
  change (elide (place ?o (gap sp2) ++ ?l)) with (elide (place o (gap sp2) ++ l)).
  cbn [app]. 
  change ({| Token_Type := T_Operators; Token_Value := op;
             Token_Pos := at_ (0 + String.length a + String.length sp1) |}
          :: place (0 + String.length a + String.length sp1 + String.length op) (gap sp2)
             ++ [{| Token_Type := T_Text; Token_Value := b;
                    Token_Pos := at_ (0 + String.length a + String.length sp1
                                      + String.length op + String.length sp2) |}])
    with ([{| Token_Type := T_Operators; Token_Value := op;
              Token_Pos := at_ (0 + String.length a + String.length sp1) |}]
          ++ place (0 + String.length a + String.length sp1 + String.length op) (gap sp2)
             ++ [{| Token_Type := T_Text; Token_Value := b;
                    Token_Pos := at_ (0 + String.length a + String.length sp1
                                      + String.length op + String.length sp2) |}]).
  rewrite !elide_app, elide_place_gap. reflexivity.
Qed.

Section ComparisonParse.

Variable eof : Token.
Hypothesis eof_type : Token_Type eof = T_EOF.
Hypothesis eof_value : Token_Value eof = EmptyString.

Lemma gives_comparator toks op i :
  Token_Value (token_at toks eof i) = op -> In op comparators ->
  gives (comparator toks eof) i op (S i).
Proof.
  intros E Hop. unfold comparator, disjunction, comparators in *. simpl in Hop.
  destruct Hop as [<- | [<- | [<- | [<- | [<- | [<- | [<- | []]]]]]]];
    repeat (first [ apply gives_disjunction_here, gives_literal, E
                  | apply gives_disjunction_next;
                    [apply misses_literal; rewrite E; discriminate|] ]).
Qed.

Variables (a op b : string) (o1 o2 : nat).

Local Abbreviation toks :=
  [text_token 0 a;
   {| Token_Type := T_Operators; Token_Value := op; Token_Pos := at_ o1 |};
   text_token o2 b].

(** A word, a comparison operator and a word are one Restriction. *)
Lemma parseTokens_comparison :
  value_word a -> identifier b = true -> In op comparators ->
  parseTokens toks eof = Parsed (restriction_filter (word_comparison a op o2 b)).
Proof.
  intros [Ha Hnot] Hb Hop.
  assert (Hdot : op <> ".") by (intros ->; simpl in Hop; intuition discriminate).
  assert (Hpar : op <> "(") by (intros ->; simpl in Hop; intuition discriminate).
  apply parseTokens_term with (j := 3); auto; [|simpl; lia].
  intros [|n] Hn; [lia|].
  change (restriction_term (word_comparison a op o2 b))
    with {| Term_Pos := Token_Pos (token_at toks eof 0); Term_Negate := false;
            Term_Simple := Term_Simple (restriction_term (word_comparison a op o2 b)) |}.
  apply gives_Term_of; [|exact Hnot|now apply identifier_not_minus].
  apply gives_Simple_of; [|reflexivity].
  rewrite parseRestriction_S. eapply gives_strct_eq.
  - eapply gives_bind.
    + apply gives_Comparable_word with (off := 0) (w := a); auto.
    + eapply gives_bind; [|apply gives_ret].
      apply gives_must, gives_optional_some.
      eapply gives_bind; [apply gives_comparator with (op := op); auto|].
      eapply gives_bind; [|apply gives_ret].
      apply gives_must, gives_Arg_word with (off := o2) (w := b);
        [reflexivity | |]; simpl; rewrite eof_value; discriminate.
  - reflexivity.
Qed.

End ComparisonParse.

(** The comparison of two words parses to one Restriction, with the
    Comparator of the operator, whatever the white space around the
    operator. *)
Lemma Parse_comparison a sp1 op sp2 b :
  value_word a -> identifier b = true -> In op comparators ->
  all_space sp1 = true -> all_space sp2 = true ->
  Parse (a ++ sp1 ++ op ++ sp2 ++ b) =
  Parsed (restriction_filter
            (word_comparison a op
               (String.length a + String.length sp1 + String.length op
                + String.length sp2) b)).
Proof.
  intros Ha Hb Hop H1 H2. unfold Parse, DefaultParser_ParseString.
  rewrite <- text_of_comparison.
  rewrite Lex_place by (apply canonical_comparison; auto; apply Ha).
  rewrite elide_place_comparison. now apply parseTokens_comparison.
Qed.

(** *** Negations *)

Section NegationParse.

Variable eof : Token.
Hypothesis eof_type : Token_Type eof = T_EOF.
Hypothesis eof_value : Token_Value eof = EmptyString.

Variables (neg : Token) (off : nat) (w : string).

Lemma parseTokens_negation :
  Token_Value neg = "NOT" \/ Token_Value neg = "-" -> Token_Pos neg = at_ 0 ->
  parseTokens [neg; text_token off w] eof =
  Parsed (filter_of [expression_of [sequence_of [term_factor (negated_word off w)]]]).
Proof.
  intros Hneg Hpos. apply parseTokens_term with (j := 2); auto; [|simpl; lia].
  intros n _. unfold negated_word. rewrite <- Hpos.
  apply gives_Term_negated with (i := 0); [exact Hneg|].
  apply gives_Simple_word; [reflexivity | | |]; simpl; rewrite eof_value;
    try discriminate.
  unfold comparators. simpl. intuition discriminate.
Qed.

End NegationParse.

(** A word after [-], or after [NOT] and white space, is negated. *)
Lemma Parse_negation neg sp w :
  identifier w = true -> all_space sp = true ->
  neg = "-" \/ (neg = "NOT" /\ sp <> EmptyString) ->
  Parse (neg ++ sp ++ w) =
  Parsed (filter_of [expression_of [sequence_of
    [term_factor (negated_word (String.length neg + String.length sp) w)]]]).
Proof.
  intros Hw Hsp Hneg. unfold Parse, DefaultParser_ParseString.
  pose (ty := if (neg =? "-")%string then T_Operators else T_Text).
  assert (Hc : canonical ((ty, neg) :: gap sp ++ [(T_Text, w)]) = true).
  { cbn [canonical]. rewrite canonical_gap; auto.
    - rewrite text_of_app, text_of_gap. cbn [text_of fst snd].
      destruct Hneg as [-> | [-> Hne]]; subst ty; unfold stands; simpl.
      + reflexivity.
      + destruct sp as [|c sp]; [congruence|]. simpl in *.
        apply andb_true_iff in Hsp. destruct Hsp as [Hc _].
        now rewrite (is_space_not_word _ Hc).
    - unfold canonical, stands. simpl. now rewrite Hw.
    - cbn [text_of fst snd]. now apply identifier_starts. }
  replace (neg ++ sp ++ w)%string with (text_of ((ty, neg) :: gap sp ++ [(T_Text, w)]))
    by (cbn [text_of fst snd]; rewrite text_of_app, text_of_gap; cbn [text_of fst snd];
        now rewrite append_empty).
  rewrite Lex_place by exact Hc.
  cbn [place fst snd]. rewrite place_app. cbn [place fst snd]. rewrite text_of_gap.
  change (elide (?x :: ?l)) with (elide ([x] ++ l)).
  rewrite !elide_app, elide_place_gap.
  assert (Hty : elide [{| Token_Type := ty; Token_Value := neg; Token_Pos := at_ 0 |}]
                = [{| Token_Type := ty; Token_Value := neg; Token_Pos := at_ 0 |}]).
  { destruct Hneg as [-> | [-> _]]; reflexivity. }
  rewrite Hty. cbn [app elide filter Token_Type TokenType_eqb negb].
  apply parseTokens_negation; auto.
  destruct Hneg as [-> | [-> _]]; auto.
Qed.

(** *** Calls *)

Section CallParse.

Variable toks : list Token.
Variable eof : Token.

Hypothesis eof_type : Token_Type eof = T_EOF.
Hypothesis eof_value : Token_Value eof = EmptyString.

Local Abbreviation tk i := (token_at toks eof i).

Lemma misses_comparator_other j :
  ~ In (Token_Value (tk j)) comparators -> misses (comparator toks eof) j.
Proof.
  intro H. unfold comparator, disjunction.
  repeat (apply misses_disjunction_next;
          [apply misses_literal; intro E; apply H; rewrite E;
           unfold comparators; simpl; tauto|]).
  apply misses_disjunction_nil.
Qed.

Lemma misses_Arg n i :
  inert (tk i) -> misses (parseArg toks eof (S (S (S n)))) i.
Proof.
  intro H. rewrite parseArg_S. apply misses_strct. unfold disjunction.
  apply misses_disjunction_next; [apply misses_pmap, misses_Comparable; auto|].
  apply misses_disjunction_next; [apply misses_pmap, misses_Composite; auto|].
  apply misses_disjunction_nil.
Qed.

Lemma more_arguments_at_next i off ws :
  more_arguments_at toks eof i off ws ->
  Token_Value (tk i) <> "." /\ Token_Value (tk i) <> "(".
Proof.
  destruct ws as [|w ws]; simpl.
  - intros [-> _]. split; discriminate.
  - intros (-> & _). split; discriminate.
Qed.

(** Every comma and the word after it are one more Arg. *)
Lemma repeats_arguments n ws : forall i off,
  more_arguments_at toks eof i off ws -> Forall (fun w => identifier w = true) ws ->
  repeats (bind (literal toks eof ",")
             (fun _ => must toks eof (parseArg toks eof (S (S (S n))))))
          i (more_word_args off ws) (i + 2 * length ws).
Proof.
  induction ws as [|w ws IH]; intros i off Hat Hall.
  - simpl in *. rewrite Nat.add_0_r. constructor. left.
    apply misses_bind, misses_literal. destruct Hat as [-> _]. discriminate.
  - destruct Hat as (Hc & Hw & Hat). inversion Hall as [|? ? Hid Hrest]; subst.
    simpl. replace (i + S (length ws + S (length ws + 0)))
      with (S (S i) + 2 * length ws) by lia.
    apply repeats_more with (k := S (S i)).
    + eapply gives_bind.
      * apply gives_literal. rewrite Hc. reflexivity.
      * destruct (more_arguments_at_next _ _ _ Hat).
        apply gives_must, gives_Arg_word; auto.
    + now apply IH.
Qed.

Lemma more_arguments_at_end ws : forall i off,
  more_arguments_at toks eof i off ws ->
  Token_Value (tk (i + 2 * length ws)) = ")" /\ tk (S (i + 2 * length ws)) = eof.
Proof.
  induction ws as [|w ws IH]; intros i off H; simpl in *.
  - rewrite Nat.add_0_r. destruct H as [-> H]. split; [reflexivity | exact H].
  - destruct H as (_ & _ & H). apply IH in H.
    now replace (i + S (length ws + S (length ws + 0)))
      with (S (S i) + 2 * length ws) by lia.
Qed.

Lemma length_more_word_args ws off : length (more_word_args off ws) = length ws.
Proof. revert off. induction ws; intro off; simpl; auto. Qed.

Variables (f : string) (ws : list string).
Hypothesis name_here : tk 0 = text_token 0 f.
Hypothesis open_here : tk 1 = operator_token (String.length f) "(".
Hypothesis arguments_here : arguments_at toks eof 2 (String.length f + 1) ws.
Hypothesis arguments_are_words : Forall (fun w => identifier w = true) ws.
Hypothesis tokens_enough : length ws <= length toks.
Hypothesis arguments_few : (N.of_nat (length ws) < MaxIterations)%N.

Lemma call_closes :
  Token_Value (tk (call_end ws)) = ")" /\ tk (S (call_end ws)) = eof.
Proof.
  unfold call_end. destruct ws as [|w ws'].
  - destruct arguments_here as [-> H]. split; [reflexivity | exact H].
  - destruct arguments_here as [_ H]. now apply more_arguments_at_end in H.
Qed.

Lemma gives_Function_call n :
  gives (parseFunction toks eof (S (S (S (S n))))) 0 (word_call f ws) (S (call_end ws)).
Proof.
  destruct call_closes as [Hclose Hend].
  rewrite parseFunction_S. eapply gives_strct_eq.
  - eapply gives_bind; [apply gives_Name_text, name_here|].
    eapply gives_bind.
    { apply gives_must, gives_star_none, misses_bind, misses_literal.
      rewrite open_here. discriminate. }
    eapply gives_bind.
    { apply gives_must, gives_literal. rewrite open_here. reflexivity. }
    eapply gives_bind.
    { apply gives_must.
      instantiate (1 := (call_end ws)).
      instantiate (1 := match word_args (String.length f + 1) ws with
                        | [] => [] | args => [args] end).
      unfold call_end. destruct ws as [|w ws'].
      - apply gives_optional_none, misses_bind, misses_Arg.
        destruct arguments_here as [-> _]. unfold inert. simpl.
        repeat split; try discriminate. intuition discriminate.
      - destruct arguments_here as [Hw Hmore].
        inversion arguments_are_words as [|? ? Hid Hrest]; subst.
        destruct (more_arguments_at_next _ _ _ Hmore).
        apply gives_optional_some. eapply gives_bind.
        + apply gives_Arg_word with (off := String.length f + 1) (w := w); auto.
        + eapply gives_bind; [|apply gives_ret].
          apply gives_must, gives_group_repeats.
          * apply (@repeats_arguments n ws' 3 (String.length f + 1 + String.length w)
                     Hmore Hrest).
          * discriminate.
          * rewrite length_more_word_args. simpl in tokens_enough. lia.
          * rewrite length_more_word_args. simpl in arguments_few. lia.
          * discriminate. }
    eapply gives_bind; [apply gives_must, gives_literal, Hclose|].
    apply gives_ret.
  - rewrite name_here. unfold word_call. simpl. f_equal.
    destruct ws; simpl; [reflexivity | now rewrite app_nil_r].
Qed.

(** The tokens of a call parse to the Restriction that is the call. *)
Lemma parseTokens_call :
  f <> "NOT" -> identifier f = true ->
  parseTokens toks eof =
  Parsed (restriction_filter (global_restriction (function_comparable (word_call f ws)))).
Proof.
  intros Hnot Hid. destruct call_closes as [Hclose Hend].
  assert (Hlen : 1 <= length toks).
  { destruct (length toks) eqn:E; [|lia]. apply length_zero_iff_nil in E.
    pose proof name_here as H. unfold token_at in H. rewrite E in H. simpl in H.
    rewrite H in eof_type. discriminate. }
  apply parseTokens_term with (j := S (call_end ws));
    [assumption | assumption | | rewrite name_here; reflexivity | exact Hend | exact Hlen].
  intros n Hn. destruct n as [|[|[|[|n]]]]; try lia.
  change (restriction_term (global_restriction (function_comparable (word_call f ws))))
    with {| Term_Pos := at_ 0; Term_Negate := false;
            Term_Simple := Term_Simple (restriction_term
              (global_restriction (function_comparable (word_call f ws)))) |}.
  replace (at_ 0) with (Token_Pos (tk 0)) at 1 by (rewrite name_here; reflexivity).
  apply gives_Term_of.
  - apply gives_Simple_of; [|rewrite name_here; reflexivity].
    rewrite parseRestriction_S. eapply gives_strct_eq.
    + eapply gives_bind.
      * rewrite parseComparable_S. eapply gives_strct_eq.
        -- unfold disjunction.
           apply gives_disjunction_here, gives_pmap, gives_Function_call.
        -- rewrite name_here. reflexivity.
      * eapply gives_bind; [|apply gives_ret].
        apply gives_must, gives_optional_none, misses_bind, misses_comparator_other.
        rewrite Hend, eof_value. unfold comparators. simpl. intuition discriminate.
    + rewrite name_here. reflexivity.
  - rewrite name_here. exact Hnot.
  - rewrite name_here. now apply identifier_not_minus.
Qed.

End CallParse.

Lemma canonical_more_arguments ws rest :
  Forall (fun w => identifier w = true) ws -> canonical rest = true ->
  starts_with word_char (text_of rest) = false ->
  canonical (more_arguments ws ++ rest) = true /\
  starts_with word_char (text_of (more_arguments ws ++ rest)) = false.
Proof.
  intros Hall Hrest Hs. unfold more_arguments.
  induction Hall as [|w ws Hw _ [IH1 IH2]]; [now split|].
  split; [|reflexivity].
  cbn [flat_map app canonical]. rewrite IH1. unfold stands. cbn [fst snd].
  now rewrite Hw, IH2.
Qed.

Lemma canonical_call f ws :
  Forall (fun w => identifier w = true) (f :: ws) -> canonical (call f ws) = true.
Proof.
  intro H. inversion H as [|? ? Hf Hws]; subst. unfold call, arguments.
  assert (Hclose : canonical [(T_Operators, ")")] = true) by reflexivity.
  destruct ws as [|w ws].
  - cbn [app canonical]. unfold stands. cbn [fst snd]. now rewrite Hf.
  - inversion Hws as [|? ? Hw Hrest]; subst.
    destruct (@canonical_more_arguments ws [(T_Operators, ")")] Hrest Hclose eq_refl)
      as [H1 H2].
    cbn [app canonical]. rewrite H1. unfold stands. cbn [fst snd text_of].
    rewrite Hf, Hw, H2. reflexivity.
Qed.

Lemma text_of_more_arguments ws : forall w,
  (w ++ text_of (more_arguments ws ++ [(T_Operators, ")")]))%string =
  (String.concat "," (w :: ws) ++ ")")%string.
Proof.
  unfold more_arguments. induction ws as [|x ws IH]; intro w.
  - reflexivity.
  - cbn [flat_map app text_of fst snd]. rewrite (IH x).
    change (String.concat "," (w :: x :: ws))
      with (w ++ "," ++ String.concat "," (x :: ws))%string.
    now rewrite !append_append.
Qed.

Lemma text_of_call f ws :
  text_of (call f ws) = (f ++ "(" ++ String.concat "," ws ++ ")")%string.
Proof.
  unfold call, arguments. cbn [text_of fst snd]. destruct ws as [|w ws].
  - reflexivity.
  - cbn [app text_of fst snd]. now rewrite text_of_more_arguments.
Qed.

Lemma elide_plain ts :
  Forall (fun t => Token_Type t <> T_Whitespace) ts -> elide ts = ts.
Proof.
  induction 1 as [|t ts Ht _ IH]; [reflexivity|].
  unfold elide in *. simpl. rewrite IH.
  destruct (Token_Type t); try reflexivity. congruence.
Qed.

Lemma place_types ls off (P : TokenType -> Prop) :
  Forall (fun l => P (fst l)) ls -> Forall (fun t => P (Token_Type t)) (place off ls).
Proof.
  intro H. revert off. induction H as [|l ls Hl _ IH]; intro off; simpl; constructor; auto.
Qed.

Lemma more_arguments_at_place eof ws : forall pre off,
  more_arguments_at (pre ++ place off (more_arguments ws ++ [(T_Operators, ")")])) eof
    (length pre) off ws.
Proof.
  unfold more_arguments. induction ws as [|w ws IH]; intros pre off.
  - simpl. unfold token_at. split; [apply nth_after|].
    apply nth_overflow. rewrite length_app. simpl. lia.
  - cbn [flat_map app place fst snd more_arguments_at]. unfold token_at.
    split; [apply nth_after|]. split.
    + match goal with
      | |- nth _ (pre ++ ?a :: ?b :: ?l) _ = _ =>
          change (pre ++ a :: b :: l) with (pre ++ [a] ++ b :: l);
          rewrite app_assoc;
          replace (S (length pre)) with (length (pre ++ [a]))
            by (rewrite length_app; simpl; lia);
          rewrite nth_after
      end.
      simpl String.length. reflexivity.
    + match goal with
      | |- more_arguments_at (pre ++ ?a :: ?b :: ?l) _ _ _ _ =>
          change (pre ++ a :: b :: l) with (pre ++ [a; b] ++ l);
          rewrite app_assoc;
          replace (S (S (length pre))) with (length (pre ++ [a; b]))
            by (rewrite length_app; simpl; lia)
      end.
      simpl String.length.
      apply IH.
Qed.

Lemma length_more_arguments ws : length (more_arguments ws) = 2 * length ws.
Proof. unfold more_arguments. induction ws; simpl; lia. Qed.

Lemma length_place ls off : length (place off ls) = length ls.
Proof. revert off. induction ls; intro off; simpl; auto. Qed.

(** A word, a parenthesis, words separated by commas and a parenthesis
    are the call of a Function on these words. *)
Lemma Parse_call f ws :
  value_word f -> Forall (fun w => identifier w = true) ws ->
  (N.of_nat (length ws) < MaxIterations)%N ->
  Parse (f ++ "(" ++ String.concat "," ws ++ ")") =
  Parsed (restriction_filter (global_restriction (function_comparable (word_call f ws)))).
Proof.
  intros [Hf Hnot] Hws Hmax. unfold Parse, DefaultParser_ParseString.
  rewrite <- text_of_call.
  rewrite Lex_place by (apply canonical_call; now constructor).
  rewrite elide_plain.
  2:{ apply place_types with (P := fun ty => ty <> T_Whitespace).
      unfold call, arguments, more_arguments.
      repeat constructor; try discriminate.
      apply Forall_app. split; [|repeat constructor; discriminate].
      destruct ws as [|w ws']; constructor; try discriminate.
      apply Forall_flat_map. apply Forall_forall. intros x _.
      repeat constructor; discriminate. }
  apply parseTokens_call with (f := f) (ws := ws); auto.
  - unfold call, arguments. cbn [place fst snd]. unfold arguments_at.
    destruct ws as [|w ws'].
    + simpl. unfold token_at. simpl. split; reflexivity.
    + cbn [app place fst snd]. split; [reflexivity|].
      match goal with
      | |- more_arguments_at (?a :: ?b :: ?c :: ?l) _ _ _ _ =>
          change (a :: b :: c :: l) with ([a; b; c] ++ l)
      end.
      simpl String.length.
      replace (0 + String.length f + 1 + String.length w)
        with (String.length f + 1 + String.length w) by lia.
      apply (more_arguments_at_place _ ws'
               [{| Token_Type := T_Text; Token_Value := f; Token_Pos := at_ 0 |};
                {| Token_Type := T_Operators; Token_Value := "(";
                   Token_Pos := at_ (0 + String.length f) |};
                {| Token_Type := T_Text; Token_Value := w;
                   Token_Pos := at_ (0 + String.length f + 1) |}]).
  - rewrite length_place. unfold call, arguments. simpl.
    destruct ws; simpl; [lia|]. rewrite length_app, length_more_arguments.
    simpl. lia.
Qed.

(** *** Words in parentheses *)

Section CompositeParse.

Variable toks : list Token.
Variable eof : Token.

Hypothesis eof_type : Token_Type eof = T_EOF.
Hypothesis eof_value : Token_Value eof = EmptyString.

Local Abbreviation tk i := (token_at toks eof i).

Lemma misses_Restriction_open n i :
  Token_Value (tk i) = "(" -> Token_Type (tk i) = T_Operators ->
  misses (parseRestriction toks eof (S (S (S n)))) i.
Proof.
  intros Hv Ht. rewrite parseRestriction_S. apply misses_strct, misses_bind.
  rewrite parseComparable_S. apply misses_strct. unfold disjunction.
  apply misses_disjunction_next.
  { apply misses_pmap. rewrite parseFunction_S. apply misses_strct, misses_bind.
    unfold parseName. apply misses_strct. unfold disjunction.
    apply misses_disjunction_next.
    { apply misses_pmap, misses_reference. rewrite Ht. discriminate. }
    apply misses_disjunction_next; [|apply misses_disjunction_nil].
    apply misses_pmap. unfold keyword, disjunction.
    repeat (apply misses_disjunction_next;
            [apply misses_literal; rewrite Hv; discriminate|]).
    apply misses_disjunction_nil. }
  apply misses_disjunction_next; [|apply misses_disjunction_nil].
  apply misses_pmap. unfold parseMember. apply misses_strct, misses_bind.
  unfold parseValue. apply misses_strct. unfold disjunction.
  apply misses_disjunction_next.
  { apply misses_pmap, misses_reference. rewrite Ht. discriminate. }
  apply misses_disjunction_next; [|apply misses_disjunction_nil].
  apply misses_pmap, misses_reference. rewrite Ht. discriminate.
Qed.

Variables (w : string) (ws : list string) (close : Token).

Hypothesis open_here : tk 0 = operator_token 0 "(".
Hypothesis close_type : Token_Type close = T_Operators.
Hypothesis close_value : Token_Value close = ")".
Hypothesis words_here : words_at toks eof close 1 1 (w :: ws).
Hypothesis end_here : tk (S (S (S (length ws)))) = eof.
Hypothesis words_are_bare : Forall bare_word (w :: ws).
Hypothesis words_few : (N.of_nat (S (length ws)) < MaxIterations)%N.

Lemma length_parenthesized : S (length ws) <= length toks.
Proof.
  destruct (Nat.le_gt_cases (S (length ws)) (length toks)) as [H|H]; [exact H|].
  pose proof (@words_at_end toks eof close (w :: ws) 1 1 words_here) as E.
  unfold token_at in E. rewrite nth_overflow in E by (simpl; lia).
  rewrite <- E in close_type. congruence.
Qed.

Lemma gives_Composite_words n :
  gives (parseComposite toks eof (S (S (S (S (S (S (S (S (S n))))))))))
        0 {| Composite_Pos := at_ 0;
             Composite_Expression :=
               expression_of [sequence_of (word_factors 1 (w :: ws))] |}
        (S (S (S (length ws)))).
Proof.
  pose proof (@words_at_end toks eof close (w :: ws) 1 1 words_here) as Hend.
  simpl in Hend.
  rewrite parseComposite_S. eapply gives_strct_eq.
  - eapply gives_bind.
    { apply gives_literal. rewrite open_here. reflexivity. }
    eapply gives_bind.
    { apply gives_must.
      apply gives_Expression_words with (close := close) (off := 1);
        [| | exact words_here | exact words_are_bare | apply length_parenthesized
         | exact words_few].
      - unfold inert. rewrite close_type, close_value. repeat split; try discriminate.
        simpl. intuition discriminate.
      - unfold ends_term. rewrite close_value. unfold comparators. simpl.
        intuition discriminate. }
    eapply gives_bind; [|apply gives_ret].
    apply gives_must, gives_literal. simpl. rewrite Hend. exact close_value.
  - rewrite open_here. reflexivity.
Qed.

(** The tokens of words in parentheses parse to one Term, the
    Composite of their Sequence. *)
Lemma parseTokens_parenthesized :
  parseTokens toks eof =
  Parsed (filter_of [expression_of [sequence_of [term_factor
    (composite_term (expression_of [sequence_of (word_factors 1 (w :: ws))]))]]]).
Proof.
  pose proof length_parenthesized as Hlen.
  apply parseTokens_term with (j := S (S (S (length ws))));
    [assumption | assumption | | rewrite open_here; reflexivity | exact end_here | lia].
  intros n Hn. do 6 (destruct n as [|n]; [lia|]).
  unfold composite_term.
  replace (at_ 0) with (Token_Pos (tk 0)) at 1 by (rewrite open_here; reflexivity).
  apply gives_Term_of; try (rewrite open_here; discriminate).
  rewrite parseSimple_S. eapply gives_strct_eq.
  - unfold disjunction. apply gives_disjunction_next.
    + apply misses_pmap, misses_Restriction_open; rewrite open_here; reflexivity.
    + apply gives_disjunction_here, gives_pmap, gives_Composite_words.
  - rewrite open_here. reflexivity.
Qed.

End CompositeParse.

Lemma canonical_spaced_then ws rest :
  Forall (fun x => identifier x = true) ws -> canonical rest = true ->
  starts_with is_space (text_of rest) = false ->
  canonical (spaced ws ++ rest) = true /\
  starts_with is_space (text_of (spaced ws ++ rest)) = false.
Proof.
  intros Hall Hrest Hs. unfold spaced.
  induction Hall as [|x ws Hx _ [IH1 IH2]]; [now split|].
  split.
  - cbn [flat_map app canonical]. rewrite IH1. unfold stands, space.
    cbn [fst snd text_of]. unfold space in IH2. now rewrite Hx, IH2.
  - cbn [flat_map app text_of fst snd]. now apply identifier_starts.
Qed.

Lemma canonical_parenthesized ws w :
  Forall (fun x => identifier x = true) (ws ++ [w]) ->
  canonical (parenthesized ws w) = true.
Proof.
  intro H. apply Forall_app in H. destruct H as [Hws Hw].
  inversion Hw as [|? ? Hid _]; subst. unfold parenthesized.
  rewrite <- app_assoc.
  destruct (@canonical_spaced_then ws ([(T_Text, w)] ++ [(T_Operators, ")")]) Hws)
    as [H1 _].
  - unfold canonical, stands. simpl. now rewrite Hid.
  - simpl. now apply identifier_starts.
  - change (stands (T_Operators, "(")
              (text_of (spaced ws ++ [(T_Text, w)] ++ [(T_Operators, ")")]))
            && canonical (spaced ws ++ [(T_Text, w)] ++ [(T_Operators, ")")]) = true).
    rewrite H1. reflexivity.
Qed.

Lemma text_of_parenthesized ws w :
  text_of (parenthesized ws w) = ("(" ++ String.concat " " (ws ++ [w]) ++ ")")%string.
Proof.
  unfold parenthesized. cbn [text_of fst snd]. rewrite text_of_app, text_of_spaced.
  reflexivity.
Qed.

(** Words in parentheses are a Composite: one Term that holds the
    Sequence of the words. *)
Lemma Parse_parenthesized ws w :
  Forall bare_word (ws ++ [w]) -> (N.of_nat (length (ws ++ [w])) < MaxIterations)%N ->
  Parse ("(" ++ String.concat " " (ws ++ [w]) ++ ")") =
  Parsed (filter_of [expression_of [sequence_of [term_factor
    (composite_term (expression_of [sequence_of (word_factors 1 (ws ++ [w]))]))]]]).
Proof.
  intros Hall Hmax. unfold Parse, DefaultParser_ParseString.
  rewrite <- text_of_parenthesized.
  rewrite Lex_place
    by (apply canonical_parenthesized; eapply Forall_impl; [|exact Hall];
        now intros a [[H _] _]).
  assert (Htoks : elide (place 0 (parenthesized ws w)) =
            [operator_token 0 "("] ++ word_tokens 1 (ws ++ [w]) ++
            [operator_token (1 + String.length (text_of (spaced ws ++ [(T_Text, w)])))
               ")"]).
  { unfold parenthesized. cbn [place fst snd]. rewrite place_app.
    change (elide (?a :: ?l)) with (a :: elide l).
    rewrite elide_app, elide_place_spaced. reflexivity. }
  rewrite Htoks. clear Htoks.
  remember (operator_token (1 + String.length (text_of (spaced ws ++ [(T_Text, w)])))
              ")") as close.
  destruct (ws ++ [w]) as [|x xs] eqn:E; [destruct ws; discriminate|].
  apply parseTokens_parenthesized with (close := close); auto.
  - subst close. reflexivity.
  - subst close. reflexivity.
  - apply (@words_at_tokens (eof_token (text_of (parenthesized ws w))) close (x :: xs)
             [operator_token 0 "("] 1 []).
  - unfold token_at. apply nth_overflow. rewrite !length_app, length_word_tokens.
    simpl. lia.
Qed.

Lemma Parse_words ws :
  ws <> [] -> Forall bare_word ws -> (N.of_nat (length ws) < MaxIterations)%N ->
  Parse (String.concat " " ws) =
  Parsed (filter_of [expression_of [sequence_of (word_factors 0 ws)]]).
Proof.
  intros Hne Hall Hmax. destruct (exists_last Hne) as (ws' & w & ->).
  now apply Parse_spaced.
Qed.

Lemma schedule_word_factors ws : forall off,
  flat_map schedule_Factor (word_factors off ws) = word_hooks off ws.
Proof.
  induction ws as [|w ws IH]; intro off; [reflexivity|].
  cbn [word_factors flat_map word_hooks]. rewrite IH. reflexivity.
Qed.

(** *** Inputs that are rejected *)

Section Rejected.

Variable toks : list Token.
Variable eof : Token.

Hypothesis eof_type : Token_Type eof = T_EOF.
Hypothesis eof_value : Token_Value eof = EmptyString.

Local Abbreviation tk i := (token_at toks eof i).

Lemma gives_optional_fails_near {A} (p : parser A) i j :
  fails p i j -> j <= i + lookahead ->
  gives (group toks eof groupMatchZeroOrOne p) i [] i.
Proof.
  intros Hp Hnear c Hc. unfold group.
  destruct (@group_from_fails_near toks eof A (length toks) groupMatchZeroOrOne p 0%N []
              i j Hp Hnear eq_refl c Hc) as (c' & Hc' & E).
  rewrite E. now apply gives_group_end.
Qed.

(** No Expression starts at a token that is no value, no negation and
    no parenthesis: the Filter is empty, and the token is left over. *)
Lemma parseTokens_leading :
  inert (tk 0) -> Token_Type (tk 0) <> T_EOF ->
  exists e, parseTokens toks eof = ParseFailure e.
Proof.
  intros Hin Hty.
  apply parseTokens_trailing
    with (ast := {| Filter_Pos := Token_Pos (tk 0); Filter_Expression := [] |}) (j := 0);
    auto.
  destruct (parse_fuel_enough toks) as (n & ->).
  unfold parseFilter. eapply gives_strct_eq; [|reflexivity].
  apply gives_star_fails_near with (j := 0); [|lia].
  apply fails_Expression; auto.
Qed.

(** A word and a comparison operator with nothing after it: the
    operator is left over. *)
Lemma parseTokens_dangling a op o1 :
  toks = [text_token 0 a; operator_token o1 op] ->
  value_word a -> In op comparators ->
  exists e, parseTokens toks eof = ParseFailure e.
Proof.
  intros Htoks [Ha Hnot] Hop.
  assert (H0 : tk 0 = text_token 0 a) by (rewrite Htoks; reflexivity).
  assert (H1 : tk 1 = operator_token o1 op) by (rewrite Htoks; reflexivity).
  assert (H2 : tk 2 = eof) by (rewrite Htoks; reflexivity).
  assert (Hdot : op <> ".") by (intros ->; simpl in Hop; intuition discriminate).
  assert (Hpar : op <> "(") by (intros ->; simpl in Hop; intuition discriminate).
  assert (Hin : inert (tk 1)).
  { rewrite H1. unfold inert. simpl. repeat split; try discriminate.
    unfold comparators in Hop. simpl in Hop.
    destruct Hop as [<- | [<- | [<- | [<- | [<- | [<- | [<- | []]]]]]]];
      intuition discriminate. }
  apply parseTokens_trailing
    with (ast := filter_of [expression_of [sequence_of
                   [term_factor (restriction_term (word_restriction 0 a))]]]) (j := 1);
    auto; [|rewrite H1; discriminate].
  apply gives_Filter_term; auto; [|rewrite H0; reflexivity|rewrite Htoks; simpl; lia].
  intros [|n] Hn; [lia|].
  change (restriction_term (word_restriction 0 a))
    with {| Term_Pos := at_ 0; Term_Negate := false;
            Term_Simple := Term_Simple (restriction_term (word_restriction 0 a)) |}.
  replace (at_ 0) with (Token_Pos (tk 0)) at 1 by (rewrite H0; reflexivity).
  apply gives_Term_of;
    [|rewrite H0; exact Hnot|rewrite H0; now apply identifier_not_minus].
  apply gives_Simple_of; [|rewrite H0; reflexivity].
  rewrite parseRestriction_S. eapply gives_strct_eq.
  - eapply gives_bind.
    + apply gives_Comparable_word with (off := 0) (w := a); auto;
        rewrite H1; assumption.
    + eapply gives_bind; [|apply gives_ret].
      apply gives_must, gives_optional_fails_near with (j := 2); [|unfold lookahead; lia].
      eapply fails_bind_later.
      * apply gives_comparator with (op := op); auto. now rewrite H1.
      * apply fails_bind, fails_must_misses, misses_Arg; auto.
        rewrite H2. now apply inert_eof.
  - rewrite H0. reflexivity.
Qed.

(** Words and a token after them at which no Factor starts: the token
    is left over. *)
Lemma parseTokens_closed w ws close :
  words_at toks eof close 0 0 (w :: ws) -> Forall bare_word (w :: ws) ->
  inert close -> ends_term close -> Token_Type close <> T_EOF ->
  (N.of_nat (S (length ws)) < MaxIterations)%N ->
  exists e, parseTokens toks eof = ParseFailure e.
Proof.
  intros Hat Hall Hin Hends Hty Hmax.
  pose proof (@words_at_end toks eof close (w :: ws) 0 0 Hat) as Hend. simpl in Hend.
  assert (Hlen : S (length ws) <= length toks).
  { destruct (Nat.le_gt_cases (S (length ws)) (length toks)) as [H|H]; [exact H|].
    unfold token_at in Hend. rewrite nth_overflow in Hend by lia.
    rewrite <- Hend in Hty. congruence. }
  apply parseTokens_trailing
    with (ast := filter_of [expression_of [sequence_of (word_factors 0 (w :: ws))]])
         (j := S (length ws)); [|now rewrite Hend].
  destruct (parse_fuel_enough toks) as (n & ->).
  apply gives_Filter_one; auto; [| |rewrite Hend; exact Hin|lia].
  - apply gives_Expression_words with (close := close) (off := 0); auto.
  - destruct Hat as [-> _]. reflexivity.
Qed.

End Rejected.

(** An input whose first token is an operator other than [-] and [(]
    is rejected. *)
Lemma Parse_leading_operator s toks t rest :
  Lex s = (toks, None) -> elide toks = t :: rest ->
  Token_Type t = T_Operators -> Token_Value t <> "-" -> Token_Value t <> "(" ->
  exists e, Parse s = ParseFailure e.
Proof.
  intros HL He Hty H1 H2. unfold Parse, DefaultParser_ParseString. rewrite HL, He.
  assert (Hw : well_spelt t).
  { apply (@Lex_well_spelt s). rewrite HL. simpl.
    apply elide_In. rewrite He. now left. }
  apply parseTokens_leading; try reflexivity; unfold token_at; simpl.
  - unfold inert. rewrite Hty. repeat split; try discriminate.
    unfold well_spelt in Hw. rewrite Hty in Hw. unfold operators in Hw.
    simpl in Hw. simpl. intuition (try congruence);
      match goal with
      | E1 : _ = Token_Value t, E2 : Token_Value t = _ |- _ =>
          rewrite <- E1 in E2; discriminate
      end.
  - rewrite Hty. discriminate.
Qed.

Lemma all_space_no_equals sp :
  all_space sp = true -> starts_with (Ascii.eqb "=") sp = false.
Proof.
  destruct sp as [|c sp]; [reflexivity|]. simpl. intro H.
  apply andb_true_iff in H. now apply is_space_not_equals.
Qed.

Lemma canonical_dangling a sp1 op sp2 :
  identifier a = true -> In op comparators ->
  all_space sp1 = true -> all_space sp2 = true ->
  canonical (dangling a sp1 op sp2) = true.
Proof.
  intros Ha Hop H1 H2.
  destruct (comparator_starts (text_of (gap sp2)) Hop) as (Hw & Hs & Hin).
  assert (Hgap : canonical (gap sp2) = true).
  { rewrite <- (app_nil_r (gap sp2)). now apply canonical_gap. }
  assert (Hrest : canonical ((T_Operators, op) :: gap sp2) = true).
  { cbn [canonical]. rewrite Hgap. unfold stands. cbn [fst snd].
    rewrite Hin, text_of_gap, all_space_no_equals by assumption.
    now rewrite andb_false_r. }
  unfold dangling. cbn [canonical]. rewrite canonical_gap by auto.
  unfold stands. cbn [fst snd]. rewrite Ha, text_of_app, text_of_gap.
  cbn [text_of fst snd].
  rewrite (@starts_gap word_char sp1); auto. apply is_space_not_word.
Qed.

Lemma text_of_dangling a sp1 op sp2 :
  text_of (dangling a sp1 op sp2) = (a ++ sp1 ++ op ++ sp2)%string.
Proof.
  unfold dangling. cbn [text_of fst snd].
  rewrite text_of_app, text_of_gap. cbn [text_of fst snd].
  now rewrite text_of_gap.
Qed.

Lemma elide_place_dangling a sp1 op sp2 :
  elide (place 0 (dangling a sp1 op sp2)) =
  [text_token 0 a; operator_token (String.length a + String.length sp1) op].
Proof.
  unfold dangling.
  change ((T_Text, a) :: gap sp1 ++ (T_Operators, op) :: gap sp2)
    with ([(T_Text, a)] ++ gap sp1 ++ [(T_Operators, op)] ++ gap sp2).
  rewrite !place_app, !elide_app, !elide_place_gap, text_of_gap.
  cbn [text_of fst snd]. rewrite append_empty. reflexivity.
Qed.

(** A comparison without its right side is rejected. *)
Lemma Parse_dangling a sp1 op sp2 :
  value_word a -> In op comparators ->
  all_space sp1 = true -> all_space sp2 = true ->
  exists e, Parse (a ++ sp1 ++ op ++ sp2) = ParseFailure e.
Proof.
  intros Ha Hop H1 H2. unfold Parse, DefaultParser_ParseString.
  rewrite <- text_of_dangling.
  rewrite Lex_place by (apply canonical_dangling; auto; apply Ha).
  rewrite elide_place_dangling.
  eapply parseTokens_dangling; try reflexivity; assumption.
Qed.

Lemma canonical_closed_words ws w op :
  Forall (fun x => identifier x = true) (ws ++ [w]) -> op = ")" \/ op = "," ->
  canonical (closed_words ws w op) = true.
Proof.
  intros H Hop. apply Forall_app in H. destruct H as [Hws Hw].
  inversion Hw as [|? ? Hid _]; subst. unfold closed_words.
  apply canonical_spaced_then; auto.
  - unfold canonical, stands. cbn [fst snd text_of]. rewrite Hid.
    destruct Hop as [-> | ->]; reflexivity.
  - cbn [text_of fst snd]. now apply identifier_starts.
Qed.

Lemma text_of_closed_words ws w op :
  text_of (closed_words ws w op) = (String.concat " " (ws ++ [w]) ++ op)%string.
Proof.
  unfold closed_words.
  change (spaced ws ++ [(T_Text, w); (T_Operators, op)])
    with (spaced ws ++ [(T_Text, w)] ++ [(T_Operators, op)]).
  rewrite app_assoc, text_of_app, text_of_spaced. cbn [text_of fst snd].
  now rewrite append_empty.
Qed.

(** Words with a closing parenthesis or a comma after the last are
    rejected. *)
Lemma Parse_closed_words ws w op :
  Forall bare_word (ws ++ [w]) -> op = ")" \/ op = "," ->
  (N.of_nat (length (ws ++ [w])) < MaxIterations)%N ->
  exists e, Parse (String.concat " " (ws ++ [w]) ++ op) = ParseFailure e.
Proof.
  intros Hall Hop Hmax. unfold Parse, DefaultParser_ParseString.
  rewrite <- text_of_closed_words.
  rewrite Lex_place
    by (apply canonical_closed_words; auto; eapply Forall_impl; [|exact Hall];
        now intros x [[H _] _]).
  assert (Htoks : exists off,
            elide (place 0 (closed_words ws w op)) =
            [] ++ word_tokens 0 (ws ++ [w]) ++ [operator_token off op]).
  { unfold closed_words.
    change (spaced ws ++ [(T_Text, w); (T_Operators, op)])
      with (spaced ws ++ [(T_Text, w)] ++ [(T_Operators, op)]).
    rewrite app_assoc, place_app, elide_app, elide_place_spaced.
    eexists. reflexivity. }
  destruct Htoks as (off & ->).
  destruct (ws ++ [w]) as [|x xs] eqn:E; [destruct ws; discriminate|].
  eapply parseTokens_closed with (close := operator_token off op) (w := x) (ws := xs);
    try reflexivity; auto.
  - apply (@words_at_tokens (eof_token (text_of (closed_words ws w op)))
             (operator_token off op) (x :: xs) [] 0 []).
  - unfold inert. simpl. repeat split; try discriminate.
    destruct Hop as [-> | ->]; intuition discriminate.
  - unfold ends_term, comparators. simpl.
    destruct Hop as [-> | ->]; intuition discriminate.
  - discriminate.
Qed.

(** *** Nothing but white space *)

Lemma parseTokens_nil eof :
  Token_Type eof = T_EOF -> Token_Value eof = EmptyString ->
  parseTokens [] eof =
  Parsed {| Filter_Pos := Token_Pos eof; Filter_Expression := [] |}.
Proof.
  intros eof_type eof_value. apply parseTokens_gives with (j := 0); auto.
  destruct (parse_fuel_enough []) as (n & ->).
  unfold parseFilter. eapply gives_strct_eq; [|reflexivity].
  apply gives_star_fails_near with (j := 0); [|lia].
  apply fails_Expression; auto. now apply inert_eof.
Qed.

Lemma Parse_blank s :
  all_space s = true ->
  Parse s = Parsed {| Filter_Pos := at_ (String.length s); Filter_Expression := [] |}.
Proof.
  intro H. unfold Parse, DefaultParser_ParseString.
  replace s with (text_of (gap s)) at 1 by apply text_of_gap.
  rewrite Lex_place.
  - rewrite elide_place_gap. now apply parseTokens_nil.
  - replace (gap s) with (gap s ++ []) by apply app_nil_r.
    now apply canonical_gap.
Qed.

(* ================================================================== *)
(** * Properties of the visitor *)

Section VisitorFacts.

Variables E V : Type.
Variable visitor : FilterVisitor E V.

Lemma and_then_nil_l (a : action E V) v : and_then nil_ a v = a v.
Proof. reflexivity. Qed.

Lemma and_then_nil_r (a : action E V) v : and_then a nil_ v = a v.
Proof. unfold and_then, nil_. destruct (a v) as [v' [err|]]; reflexivity. Qed.

Lemma and_then_assoc (a b c : action E V) v :
  and_then (and_then a b) c v = and_then a (and_then b c) v.
Proof. unfold and_then. destruct (a v) as [v' [err|]]; reflexivity. Qed.

Lemma and_then_ext (a a' b b' : action E V) :
  (forall v, a v = a' v) -> (forall v, b v = b' v) ->
  forall v, and_then a b v = and_then a' b' v.
Proof.
  intros Ha Hb v. unfold and_then. rewrite Ha.
  destruct (a' v) as [v' [err|]]; [reflexivity | apply Hb].
Qed.

Lemma run_app (hs hs' : list Hook) v :
  run visitor (hs ++ hs') v = and_then (run visitor hs) (run visitor hs') v.
Proof.
  revert v. induction hs as [|h hs IH]; intro v; simpl.
  - reflexivity.
  - rewrite and_then_assoc. apply and_then_ext; [reflexivity | exact IH].
Qed.

Lemma run_one (h : Hook) v : run visitor [h] v = invoke visitor h v.
Proof. simpl. apply and_then_nil_r. Qed.

(** A loop over the children runs the hook calls of the children one
    after the other. *)
Lemma for_range_run {A} (accept : A -> action E V) (sched : A -> list Hook)
    (xs : list A) :
  (forall x v, accept x v = run visitor (sched x) v) ->
  forall v, for_range accept xs v = run visitor (flat_map sched xs) v.
Proof.
  intros H. induction xs as [|x xs IH]; intro v; simpl.
  - reflexivity.
  - rewrite run_app. apply and_then_ext; [apply H | exact IH].
Qed.

Lemma Comparable_Accept_run ast v :
  Comparable_Accept visitor ast v = run visitor (schedule_Comparable ast) v.
Proof.
  unfold Comparable_Accept, schedule_Comparable, Function_Accept, Member_Accept.
  destruct (Comparable_Function ast) as [f|].
  - rewrite and_then_nil_l, run_one. reflexivity.
  - destruct (Comparable_Member ast) as [m|].
    + rewrite and_then_nil_l, run_one. reflexivity.
    + reflexivity.
Qed.

Lemma Restriction_Accept_run ast v :
  Restriction_Accept visitor ast v = run visitor (schedule_Restriction ast) v.
Proof.
  unfold Restriction_Accept, schedule_Restriction, Arg_Accept.
  rewrite run_app.
  apply and_then_ext; intro v'.
  - apply Comparable_Accept_run.
  - rewrite and_then_nil_l, run_one. reflexivity.
Qed.

Lemma Simple_Accept_run ast v :
  Simple_Accept visitor ast v = run visitor (schedule_Simple ast) v.
Proof.
  unfold Simple_Accept, schedule_Simple, Composite_Accept.
  destruct (Simple_Restriction ast) as [r|].
  - apply Restriction_Accept_run.
  - destruct (Simple_Composite ast); reflexivity.
Qed.

Lemma Term_Accept_run ast v :
  Term_Accept visitor ast v = run visitor (schedule_Term ast) v.
Proof.
  unfold Term_Accept, schedule_Term. rewrite run_app.
  apply and_then_ext; intro v'; [apply Simple_Accept_run | now rewrite run_one].
Qed.

Lemma Factor_Accept_run ast v :
  Factor_Accept visitor ast v = run visitor (schedule_Factor ast) v.
Proof.
  unfold Factor_Accept, schedule_Factor. rewrite run_app.
  apply and_then_ext; intro v'.
  - apply for_range_run. intros; apply Term_Accept_run.
  - now rewrite run_one.
Qed.

Lemma Sequence_Accept_run ast v :
  Sequence_Accept visitor ast v = run visitor (schedule_Sequence ast) v.
Proof.
  unfold Sequence_Accept, schedule_Sequence. rewrite run_app.
  apply and_then_ext; intro v'.
  - apply for_range_run. intros; apply Factor_Accept_run.
  - now rewrite run_one.
Qed.

Lemma Expression_Accept_run ast v :
  Expression_Accept visitor ast v = run visitor (schedule_Expression ast) v.
Proof.
  unfold Expression_Accept, schedule_Expression.
  apply for_range_run. intros; apply Sequence_Accept_run.
Qed.

Lemma Visit_run ast v :
  Visit visitor ast v = run visitor (schedule_Filter ast) v.
Proof.
  unfold Visit, Filter_Accept, schedule_Filter.
  apply for_range_run. intros; apply Expression_Accept_run.
Qed.

(** A run stops at the first hook that returns an error. *)
Lemma run_stops (before : list Hook) (h : Hook) (after : list Hook) v v1 v2 err :
  run visitor before v = (v1, None) ->
  invoke visitor h v1 = (v2, Some err) ->
  run visitor (before ++ h :: after) v = (v2, Some err).
Proof.
  intros Hb Hh. rewrite run_app. unfold and_then at 1. rewrite Hb.
  simpl. unfold and_then. rewrite Hh. reflexivity.
Qed.

End VisitorFacts.

(** ** Where the hooks are called *)

Lemma sound_below avoid root s n hs :
  child root s = Some n -> avoid s = false ->
  Forall (sound avoid n) hs -> Forall (sound avoid root) (below s hs).
Proof.
  intros Hc Hs H. unfold below. rewrite Forall_map.
  eapply Forall_impl; [|exact H].
  intros [p h] [Hr Ha]; split; simpl in *.
  - rewrite Hc. exact Hr.
  - rewrite Hs. exact Ha.
Qed.

Lemma sound_indexed {A} avoid root (at_ : nat -> step) (inj : A -> node)
    (sub : A -> list (list step * Hook)) (all : list A) :
  (forall i x, nth_error all i = Some x -> child root (at_ i) = Some (inj x)) ->
  (forall i, avoid (at_ i) = false) ->
  (forall x, Forall (sound avoid (inj x)) (sub x)) ->
  forall xs i, (forall j, nth_error xs j = nth_error all (i + j)) ->
  Forall (sound avoid root) (indexed at_ sub i xs).
Proof.
  intros Hc Ha Hs. induction xs as [|x xs IH]; intros i Hx; simpl.
  - constructor.
  - apply Forall_app; split.
    + apply sound_below with (n := inj x); auto.
      apply Hc. rewrite <- (Nat.add_0_r i), <- Hx. reflexivity.
    + apply IH. intro j. rewrite Nat.add_succ_comm. apply (Hx (S j)).
Qed.

Lemma indexed_hooks {A} (at_ : nat -> step) (sub : A -> list (list step * Hook))
    (sched : A -> list Hook) :
  (forall x, map snd (sub x) = sched x) ->
  forall xs i, map snd (indexed at_ sub i xs) = flat_map sched xs.
Proof.
  intros H. induction xs as [|x xs IH]; intro i; simpl.
  - reflexivity.
  - rewrite map_app, IH. f_equal. unfold below. rewrite map_map. simpl. apply H.
Qed.

Lemma below_hooks s hs : map snd (below s hs) = map snd hs.
Proof. unfold below. rewrite map_map. reflexivity. Qed.

Lemma stops_Comparable_hooks ast :
  map snd (stops_Comparable ast) = schedule_Comparable ast.
Proof.
  unfold stops_Comparable, schedule_Comparable.
  destruct (Comparable_Function ast); [reflexivity|].
  destruct (Comparable_Member ast); reflexivity.
Qed.

Lemma stops_Restriction_hooks ast :
  map snd (stops_Restriction ast) = schedule_Restriction ast.
Proof.
  unfold stops_Restriction, schedule_Restriction.
  rewrite map_app, below_hooks, stops_Comparable_hooks. reflexivity.
Qed.

Lemma stops_Simple_hooks ast : map snd (stops_Simple ast) = schedule_Simple ast.
Proof.
  unfold stops_Simple, schedule_Simple.
  destruct (Simple_Restriction ast); [|reflexivity].
  rewrite below_hooks. apply stops_Restriction_hooks.
Qed.

Lemma stops_Term_hooks ast : map snd (stops_Term ast) = schedule_Term ast.
Proof.
  unfold stops_Term, schedule_Term.
  rewrite map_app, below_hooks, stops_Simple_hooks. reflexivity.
Qed.

Lemma stops_Factor_hooks ast : map snd (stops_Factor ast) = schedule_Factor ast.
Proof.
  unfold stops_Factor, schedule_Factor.
  rewrite map_app, (indexed_hooks _ _ schedule_Term); [reflexivity|].
  apply stops_Term_hooks.
Qed.

Lemma stops_Sequence_hooks ast :
  map snd (stops_Sequence ast) = schedule_Sequence ast.
Proof.
  unfold stops_Sequence, schedule_Sequence.
  rewrite map_app, (indexed_hooks _ _ schedule_Factor); [reflexivity|].
  apply stops_Factor_hooks.
Qed.

Lemma stops_Expression_hooks ast :
  map snd (stops_Expression ast) = schedule_Expression ast.
Proof.
  unfold stops_Expression, schedule_Expression.
  apply indexed_hooks, stops_Sequence_hooks.
Qed.

Lemma stops_Filter_hooks ast : map snd (stops_Filter ast) = schedule_Filter ast.
Proof.
  unfold stops_Filter, schedule_Filter.
  apply indexed_hooks, stops_Expression_hooks.
Qed.

Section Addresses.

Variable avoid : step -> bool.

(** The steps that lead to the nodes with a hook are not avoided. *)
Hypothesis avoid_spine :
  (forall i, avoid (Expression_at i) = false) /\
  (forall i, avoid (Sequence_at i) = false) /\
  (forall i, avoid (Factor_at i) = false) /\
  (forall i, avoid (Term_at i) = false) /\
  avoid Simple_of = false /\ avoid Restriction_of = false /\
  avoid Comparable_of = false /\ avoid Function_of = false /\
  avoid Member_of = false.

Lemma sound_here root h : hooked h = root -> Forall (sound avoid root) [([], h)].
Proof. intros <-. repeat constructor. Qed.

Lemma stops_Comparable_sound ast :
  Forall (sound avoid (N_Comparable ast)) (stops_Comparable ast).
Proof.
  unfold stops_Comparable.
  destruct (Comparable_Function ast) as [f|] eqn:Hf.
  - repeat constructor; simpl; [rewrite Hf; reflexivity|].
    now rewrite (proj1 (proj2 (proj2 (proj2 (proj2 (proj2 (proj2 (proj2 avoid_spine)))))))).
  - destruct (Comparable_Member ast) as [m|] eqn:Hm; [|constructor].
    repeat constructor; simpl; [rewrite Hm; reflexivity|].
    now rewrite (proj2 (proj2 (proj2 (proj2 (proj2 (proj2 (proj2 (proj2 avoid_spine)))))))).
Qed.

Lemma stops_Restriction_sound ast :
  Forall (sound avoid (N_Restriction ast)) (stops_Restriction ast).
Proof.
  unfold stops_Restriction. apply Forall_app; split.
  - eapply sound_below; [reflexivity | apply avoid_spine | apply stops_Comparable_sound].
  - now apply sound_here.
Qed.

Lemma stops_Simple_sound ast :
  Forall (sound avoid (N_Simple ast)) (stops_Simple ast).
Proof.
  unfold stops_Simple. destruct (Simple_Restriction ast) as [r|] eqn:Hr; [|constructor].
  eapply sound_below; [simpl; rewrite Hr; reflexivity | apply avoid_spine
                      | apply stops_Restriction_sound].
Qed.

Lemma stops_Term_sound ast : Forall (sound avoid (N_Term ast)) (stops_Term ast).
Proof.
  unfold stops_Term. apply Forall_app; split.
  - eapply sound_below; [reflexivity | apply avoid_spine | apply stops_Simple_sound].
  - now apply sound_here.
Qed.

Lemma stops_Factor_sound ast :
  Forall (sound avoid (N_Factor ast)) (stops_Factor ast).
Proof.
  unfold stops_Factor. apply Forall_app; split.
  - apply sound_indexed with (inj := N_Term) (all := Factor_Term ast).
    + intros i x Hx; simpl; now rewrite Hx.
    + apply avoid_spine.
    + apply stops_Term_sound.
    + reflexivity.
  - now apply sound_here.
Qed.

Lemma stops_Sequence_sound ast :
  Forall (sound avoid (N_Sequence ast)) (stops_Sequence ast).
Proof.
  unfold stops_Sequence. apply Forall_app; split.
  - apply sound_indexed with (inj := N_Factor) (all := Sequence_Factor ast).
    + intros i x Hx; simpl; now rewrite Hx.
    + apply avoid_spine.
    + apply stops_Factor_sound.
    + reflexivity.
  - now apply sound_here.
Qed.

Lemma stops_Expression_sound ast :
  Forall (sound avoid (N_Expression ast)) (stops_Expression ast).
Proof.
  unfold stops_Expression.
  apply sound_indexed with (inj := N_Sequence) (all := Expression_Sequence ast).
  - intros i x Hx; simpl; now rewrite Hx.
  - apply avoid_spine.
  - apply stops_Sequence_sound.
  - reflexivity.
Qed.

Lemma stops_Filter_sound ast :
  Forall (sound avoid (N_Filter ast)) (stops_Filter ast).
Proof.
  unfold stops_Filter.
  apply sound_indexed with (inj := N_Expression) (all := Filter_Expression ast).
  - intros i x Hx; simpl; now rewrite Hx.
  - apply avoid_spine.
  - apply stops_Expression_sound.
  - reflexivity.
Qed.

End Addresses.

(** *** Visitors whose hooks do not fail, and errors *)

Section VisitFacts.

Variables (E V : Type) (visitor : FilterVisitor E V).

Lemma run_no_error hs :
  (forall h v, snd (invoke visitor h v) = None) ->
  forall v, snd (run visitor hs v) = None.
Proof.
  intro H. induction hs as [|h hs IH]; intro v; [reflexivity|].
  cbn [run]. unfold and_then. specialize (H h v).
  destruct (invoke visitor h v) as [v' [e|]]; [discriminate | apply IH].
Qed.

Lemma run_error hs : forall v v' err,
  run visitor hs v = (v', Some err) ->
  exists before h after v1,
    hs = before ++ h :: after /\ run visitor before v = (v1, None) /\
    invoke visitor h v1 = (v', Some err).
Proof.
  induction hs as [|h hs IH]; intros v v' err H; [discriminate|].
  cbn [run] in H. unfold and_then in H.
  destruct (invoke visitor h v) as [v1 [e|]] eqn:Eh.
  - injection H as <- <-. exists [], h, hs, v. repeat split. exact Eh.
  - apply IH in H. destruct H as (before & h' & after & v2 & -> & Hb & Hh).
    exists (h :: before), h', after, v2. repeat split; [|exact Hh].
    cbn [run]. unfold and_then. now rewrite Eh.
Qed.

End VisitFacts.

Lemma run_Visitor (E V : Type) hs (v : V) : run (@Visitor E V) hs v = (v, None).
Proof.
  induction hs as [|h hs IH]; [reflexivity|].
  cbn [run]. unfold and_then. destruct h; simpl; exact IH.
Qed.

(* ================================================================== *)
(** * Specification of the visitor *)

(** C3.  Whatever the filter and the visitor, the hooks that [Visit]
    calls are those of [stops_Filter], in that order and until one
    returns an error; each is called on the node that its address
    names in the filter, and no address enters the interior Expression
    of a Composite.  A Simple that holds a Composite is traversed
    without any hook being called. *)
Theorem Visit_never_enters_a_composite :
  forall (E V : Type) (visitor : FilterVisitor E V) (ast : Filter) (v : V),
    Visit visitor ast v = run visitor (map snd (stops_Filter ast)) v /\
    Forall (fun ph => resolve (N_Filter ast) (fst ph) = Some (hooked (snd ph)) /\
                      in_composite (fst ph) = false)
           (stops_Filter ast) /\
    (forall pos (c : Composite),
        Simple_Accept visitor
          {| Simple_Pos := pos; Simple_Restriction := None;
             Simple_Composite := Some c |} v = (v, None)).
Proof.
  intros E V visitor ast v. split; [|split].
  - rewrite stops_Filter_hooks. apply Visit_run.
  - apply (stops_Filter_sound is_interior). repeat split; reflexivity.
  - reflexivity.
Qed.

(** C4.  When the hooks called before [h] all return nil and [h]
    returns the error [err], [Visit] returns [err] itself and the
    visitor is left in the state in which [h] left it: no hook is
    called after [h]. *)
Theorem Visit_stops_at_first_error :
  forall (E V : Type) (visitor : FilterVisitor E V) (ast : Filter)
         (before : list Hook) (h : Hook) (after : list Hook)
         (v v1 v2 : V) (err : E),
    schedule_Filter ast = before ++ h :: after ->
    run visitor before v = (v1, None) ->
    invoke visitor h v1 = (v2, Some err) ->
    Visit visitor ast v = (v2, Some err).
Proof.
  intros E V visitor ast before h after v v1 v2 err Hs Hb Hh.
  rewrite Visit_run, Hs. now apply run_stops with (v1 := v1).
Qed.

(** On [a b], with a visitor whose [VisitFactor] always fails, the
    traversal ends at the first factor: [VisitSequence] is not called
    and the second factor is not visited. *)
Lemma Visit_stops_at_first_error_witness :
  Visit failing_factor_visitor two_words [] =
  (["VisitMember"; "VisitRestriction"; "VisitTerm"; "VisitFactor"],
   Some "no factors").
Proof.
  apply (@Visit_stops_at_first_error _ _ failing_factor_visitor two_words
           (firstn 3 (schedule_Filter two_words))
           (nth 3 (schedule_Filter two_words) (OnFactor (word 0 "a")))
           (skipn 4 (schedule_Filter two_words))
           [] ["VisitMember"; "VisitRestriction"; "VisitTerm"]);
    reflexivity.
Defined.

(** C5.  The hooks come in post-order: the hook of a Sequence after
    those of its Factors in order, the hook of a Factor after those of
    its Terms in order, the hook of a Term after those of its Simple;
    a Filter and an Expression only pass through their children. *)
Theorem Visit_is_post_order :
  forall (E V : Type) (visitor : FilterVisitor E V) (v : V),
    (forall ast : Sequence,
        Sequence_Accept visitor ast v =
        run visitor (flat_map schedule_Factor (Sequence_Factor ast)
                     ++ [OnSequence ast]) v) /\
    (forall ast : Factor,
        Factor_Accept visitor ast v =
        run visitor (flat_map schedule_Term (Factor_Term ast) ++ [OnFactor ast]) v) /\
    (forall ast : Term,
        Term_Accept visitor ast v =
        run visitor (schedule_Simple (Term_Simple ast) ++ [OnTerm ast]) v) /\
    (forall ast : Expression,
        Expression_Accept visitor ast v =
        run visitor (flat_map schedule_Sequence (Expression_Sequence ast)) v) /\
    (forall ast : Filter,
        Visit visitor ast v =
        run visitor
          (flat_map (fun e => flat_map schedule_Sequence (Expression_Sequence e))
             (Filter_Expression ast)) v).
Proof.
  intros E V visitor v. repeat split; intro ast.
  - apply Sequence_Accept_run.
  - apply Factor_Accept_run.
  - apply Term_Accept_run.
  - apply Expression_Accept_run.
  - apply Visit_run.
Qed.

(** C6.  A Restriction has the hook of its Comparable called, then
    [VisitRestriction]; a Comparable that holds a Function has
    [VisitFunction] called on that Function, one that holds only a
    Member has [VisitMember] called on that Member; and in a whole
    traversal no hook is called at an address inside the Arg of a
    Restriction, the Name list or the Args of a Function, or the Fields
    of a Member. *)
Theorem Visit_is_shallow_at_restrictions :
  forall (E V : Type) (visitor : FilterVisitor E V) (v : V),
    (forall ast : Restriction,
        Restriction_Accept visitor ast v =
        and_then (Comparable_Accept visitor (Restriction_Comparable ast))
                 (VisitRestriction visitor ast) v) /\
    (forall pos (f : Function) (m : option Member),
        Comparable_Accept visitor
          {| Comparable_Pos := pos; Comparable_Function := Some f;
             Comparable_Member := m |} v = VisitFunction visitor f v) /\
    (forall pos (m : Member),
        Comparable_Accept visitor
          {| Comparable_Pos := pos; Comparable_Function := None;
             Comparable_Member := Some m |} v = VisitMember visitor m v) /\
    (forall ast : Filter,
        Visit visitor ast v = run visitor (map snd (stops_Filter ast)) v /\
        Forall (fun ph => resolve (N_Filter ast) (fst ph) = Some (hooked (snd ph)) /\
                          in_detail (fst ph) = false)
               (stops_Filter ast)).
Proof.
  intros E V visitor v. split; [|split; [|split]].
  - intro ast. reflexivity.
  - intros pos f m. reflexivity.
  - intros pos m. reflexivity.
  - intro ast. split.
    + rewrite stops_Filter_hooks. apply Visit_run.
    + apply (stops_Filter_sound is_detail). repeat split; reflexivity.
Qed.

(* ================================================================== *)
(** * Specification of Parse *)

(** C1.  The example of the doc comment of [Expression].  The Text rule
    comes first in [Lexer] and matches wherever the Keyword rule does,
    so no input has a Keyword token and [AND] is a Text token; the
    repetition of Factors in a Sequence takes it as a bare value before
    the literal of [Expression] is ever tried.  The parse gives one
    Sequence of six Factors, two of which are the word [AND]. *)
Theorem Parse_AND_is_a_factor :
  Parse "a b AND c AND d" =
  Parsed (filter_of [expression_of [sequence_of
    [word 0 "a"; word 2 "b"; word 4 "AND"; word 8 "c"; word 10 "AND";
     word 14 "d"]]]) /\
  (forall s : string,
      forallb (fun t => negb (TokenType_eqb (Token_Type t) T_Keyword))
              (fst (Lex s)) = true).
Proof.
  split; [vm_compute; reflexivity|].
  intro s. apply forallb_forall. intros t Ht.
  apply Lex_never_Keyword in Ht. destruct (Token_Type t); try reflexivity.
  now elim Ht.
Qed.

(** C7.  [a AND] is parsed without error, for the same reason: the
    trailing [AND] is taken as a second Factor. *)
Theorem Parse_trailing_AND_is_accepted :
  Parse "a AND" =
  Parsed (filter_of [expression_of [sequence_of [word 0 "a"; word 2 "AND"]]]).
Proof. vm_compute. reflexivity. Qed.

(** C9.  The empty string parses, without error, to the Filter with no
    Expression. *)
Theorem Parse_empty :
  Parse EmptyString = Parsed {| Filter_Pos := at_ 0; Filter_Expression := [] |}.
Proof. vm_compute. reflexivity. Qed.

(** C10.  The input that opens with a single quote and closes with a
    double quote is one String token, and Parse accepts it as the
    String of a Value. *)
Theorem Parse_mixed_quotes :
  Lex sq_abc_dq =
    ([{| Token_Type := T_String; Token_Value := sq_abc_dq; Token_Pos := at_ 0 |}],
     None) /\
  Parse sq_abc_dq =
    Parsed (restriction_filter (global_restriction (member_comparable
              (member (string_value 0 sq_abc_dq) [])))).
Proof. split; vm_compute; reflexivity. Qed.

(** C2, as stated, fails: a chain of five words is not followed by a
    parenthesis and does not parse as a Member.  The Function
    alternative fails nine tokens ahead, beyond the look-ahead of 7, and
    the Member alternative is not tried. *)
Lemma Parse_five_words_fails :
  Parse "a.b.c.d.e" =
  ParseFailure (UnexpectedToken
    {| Token_Type := T_EOF; Token_Value := EmptyString; Token_Pos := at_ 9 |}).
Proof. vm_compute. reflexivity. Qed.

(** C2, amended.  For a chain of identifiers that is the whole input:
    with four words at most (seven tokens, the look-ahead) and a head
    other than [NOT] it parses to the Member of its words, the first as
    the head Value and the others as Fields; with five words and more
    Parse returns an error.  [field.type_map.1.val] is a Member with
    three Fields, and [func.func(a,b)], where a parenthesis follows, is a
    Function. *)
Theorem Parse_chain_within_lookahead :
  forall (w : string) (ws : list string),
    Forall (fun x => identifier x = true) (w :: ws) ->
    (w <> "NOT" -> length ws <= 3 ->
     Parse (dotted (w :: ws)) =
     Parsed (restriction_filter (global_restriction (member_comparable
               (chain_member w ws))))) /\
    (4 <= length ws -> exists e, Parse (dotted (w :: ws)) = ParseFailure e) /\
    Parse "field.type_map.1.val" =
      Parsed (restriction_filter (global_restriction (member_comparable
        (member (text_value 0 "field")
           [value_field (text_value 6 "type_map");
            value_field (text_value 15 "1");
            value_field (text_value 17 "val")])))) /\
    Parse "func.func(a,b)" =
      Parsed (restriction_filter (global_restriction (function_comparable
        {| Function_Pos := at_ 0;
           Function_Name := [text_name 0 "func"; text_name 5 "func"];
           Function_Args :=
             [comparable_arg (member_comparable (member (text_value 10 "a") []));
              comparable_arg (member_comparable (member (text_value 12 "b") []))]
        |}))).
Proof.
  intros w ws Hall. split; [|split; [|split]].
  - intros Hnot Hlen. now apply Parse_chain_short.
  - intro Hlen. now apply Parse_chain_long.
  - vm_compute. reflexivity.
  - vm_compute. reflexivity.
Qed.

(** The chain of the example, through the general statement. *)
Lemma Parse_chain_within_lookahead_witness :
  Parse (dotted ["field"; "type_map"; "1"; "val"]) =
  Parsed (restriction_filter (global_restriction (member_comparable
            (chain_member "field" ["type_map"; "1"; "val"])))) /\
  exists e, Parse (dotted ["a"; "b"; "c"; "d"; "e"; "f"]) = ParseFailure e.
Proof.
  split.
  - apply (proj1 (@Parse_chain_within_lookahead "field" ["type_map"; "1"; "val"]
                    ltac:(repeat constructor))).
    + discriminate.
    + simpl. lia.
  - apply (proj1 (proj2 (@Parse_chain_within_lookahead "a" ["b"; "c"; "d"; "e"; "f"]
                           ltac:(repeat constructor)))).
    simpl. lia.
Defined.

(** C8.  [field.and.val] parses, without error, to the Member with head
    [field] and the Fields [and] and [val], each a Value with a Text.
    In any input a token that reads [and], [or] or [not] is a Text
    token, and the literals [AND], [OR] and [NOT] of the grammar do not
    match it. *)
Theorem Parse_lowercase_keywords_are_text :
  Parse "field.and.val" =
    Parsed (restriction_filter (global_restriction (member_comparable
      (member (text_value 0 "field")
         [value_field (text_value 6 "and"); value_field (text_value 10 "val")])))) /\
  (forall (s : string) (t : Token),
      In t (fst (Lex s)) -> In (Token_Value t) ["and"; "or"; "not"] ->
      Token_Type t = T_Text) /\
  (forall (toks : list Token) (eof : Token) (c : Context) (k : string),
      In (Token_Value (Peek toks eof c)) ["and"; "or"; "not"] ->
      In k ["AND"; "OR"; "NOT"] ->
      literal toks eof k c = (Unmatched, c)).
Proof.
  split; [vm_compute; reflexivity | split].
  - intros s t Ht Hv.
    assert (exists c x, Token_Value t = String c x /\ Regex.word_char c = true)
      as (c & x & E & Hc).
    { simpl in Hv. destruct Hv as [<- | [<- | [<- | []]]];
        do 2 eexists; split; reflexivity. }
    now apply Lex_word_is_Text with (s := s) (c := c) (x := x).
  - intros toks eof c k Hv Hk. unfold literal.
    replace (Token_Value (Peek toks eof c) =? k)%string with false; [reflexivity|].
    symmetry. apply String.eqb_neq. intro E. rewrite E in Hv.
    simpl in Hv, Hk.
    destruct Hk as [<- | [<- | [<- | []]]];
      destruct Hv as [Hv | [Hv | [Hv | []]]]; discriminate.
Qed.

(** The tokens of [field.and.val]: the second word is a Text token that
    the literal [AND] does not match. *)
Lemma Parse_lowercase_keywords_are_text_witness :
  Token_Type (nth 2 (fst (Lex "field.and.val")) (eof_token EmptyString)) = T_Text /\
  literal (fst (Lex "field.and.val")) (eof_token EmptyString) "AND"
    {| cursor := 2; deepestError := None; deepestErrorDepth := 0 |}
  = (Unmatched, {| cursor := 2; deepestError := None; deepestErrorDepth := 0 |}).
Proof.
  split.
  - apply (proj1 (proj2 Parse_lowercase_keywords_are_text) "field.and.val").
    + vm_compute. tauto.
    + vm_compute. tauto.
  - apply (proj2 (proj2 Parse_lowercase_keywords_are_text)).
    + vm_compute. tauto.
    + simpl. tauto.
Defined.

(* ================================================================== *)
(** * Further properties of Parse *)

(** X1.  Whatever the input, every Expression of a Filter that Parse
    returns without error holds exactly one Sequence: a word [AND] is
    taken by the Sequence before it as one more Factor, so the
    conjunction of [Expression] is never parsed. *)
Theorem Parse_never_splits_at_AND :
  forall (expression : string) (ast : Filter),
    Parse expression = Parsed ast ->
    Forall (fun e => length (Expression_Sequence e) = 1) (Filter_Expression ast).
Proof. exact Parse_single. Qed.

Lemma Parse_never_splits_at_AND_witness :
  Forall (fun e => length (Expression_Sequence e) = 1)
    (Filter_Expression
       (filter_of [expression_of [sequence_of
          [word 0 "a"; word 2 "b"; word 4 "AND"; word 8 "c"; word 10 "AND";
           word 14 "d"]]])).
Proof.
  apply (@Parse_never_splits_at_AND "a b AND c AND d").
  vm_compute. reflexivity.
Defined.

(** X2.  Parse returns for every input: a tree, a parse error or a
    tokenizer error.  The fuel of the model always suffices. *)
Theorem Parse_always_returns :
  forall expression : string, returned (Parse expression) = true.
Proof.
  intro expression. pose proof (Parse_returns expression) as H.
  destruct (Parse expression); try reflexivity. now elim H.
Qed.

(* ================================================================== *)
(** * Further properties of the tokenizer *)

(** X3.  When the tokenizer reaches the end of the input, the texts of
    its tokens, white space included, put end to end are the input:
    no character is dropped or changed. *)
Theorem Lex_spells_the_input :
  forall (s : string) (toks : list Token),
    Lex s = (toks, None) -> spelling toks = s.
Proof.
  intros s toks H. apply Lex_spec in H. destruct H as (_ & _ & H). now symmetry.
Qed.

Lemma Lex_spells_the_input_witness :
  spelling (fst (Lex "msg != 'hello' AND -x")) = "msg != 'hello' AND -x".
Proof.
  apply (@Lex_spells_the_input "msg != 'hello' AND -x"). vm_compute. reflexivity.
Defined.

(** X4.  The position of a token is the byte offset at which its text
    starts: the length of the texts of the tokens before it.  This
    holds of the tokens before an error as well. *)
Theorem Lex_positions_are_offsets :
  forall (s : string) (pre : list Token) (t : Token) (post : list Token),
    fst (Lex s) = pre ++ t :: post ->
    Offset (Token_Pos t) = String.length (spelling pre).
Proof.
  intros s pre t post H. destruct (Lex s) as [toks e] eqn:E.
  apply Lex_spec in E. destruct E as (_ & Hoff & _). now apply Hoff with (post := post).
Qed.

Lemma Lex_positions_are_offsets_witness :
  Offset (Token_Pos (text_token 3 "cd")) =
  String.length (spelling [text_token 0 "ab";
                           {| Token_Type := T_Whitespace; Token_Value := " ";
                              Token_Pos := at_ 2 |}]).
Proof.
  apply (@Lex_positions_are_offsets "ab cd" _ _ []). vm_compute. reflexivity.
Defined.

(** X5.  What a token of each type reads: a Text token a non-empty run
    of letters, digits and underscores; a Whitespace token a non-empty
    run of blanks, tabs and line ends; an Operators token one of the
    twelve operators; a String token a text between two quotes (of
    either kind, not necessarily the same) in which every quote stands
    after a backslash.  No token is a Keyword token. *)
Theorem Lex_tokens_are_well_spelt :
  forall (s : string) (t : Token), In t (fst (Lex s)) -> well_spelt t.
Proof. exact Lex_well_spelt. Qed.

Lemma Lex_tokens_are_well_spelt_witness :
  well_spelt {| Token_Type := T_String; Token_Value := "'a\'b'"; Token_Pos := at_ 4 |}.
Proof.
  apply (@Lex_tokens_are_well_spelt "x = 'a\'b'"). vm_compute. tauto.
Defined.

(** X6.  When the tokenizer fails, the tokens before the error spell
    the input up to the position of the error, and the character at
    that position is none that a Text, a Whitespace or an Operators
    token starts with (it is a quote that opens no String, an
    exclamation mark without [=], or a character foreign to the
    language).  [Parse] then returns the error of the tokenizer and
    no tree. *)
Theorem Lex_error_is_at_a_foreign_character :
  forall (s : string) (toks : list Token) (p : Position),
    Lex s = (toks, Some p) ->
    Parse s = LexFailure (LexError p) /\
    exists (c : ascii) (rest : string),
      s = (spelling toks ++ String c rest)%string /\
      Offset p = String.length (spelling toks) /\
      plain_char c = false.
Proof.
  intros s toks p H. split.
  - unfold Parse, DefaultParser_ParseString. now rewrite H.
  - apply Lex_spec in H. destruct H as (_ & _ & Hp & rest & Hs & Hne & Hm).
    destruct rest as [|c rest]; [congruence|]. exists c, rest. repeat split; auto.
    destruct (plain_char c) eqn:Hc; [|reflexivity].
    now apply first_match_plain with (s := rest) in Hc.
Qed.

Lemma Lex_error_is_at_a_foreign_character_witness :
  Parse "a ! b" = LexFailure (LexError (at_ 2)) /\
  exists (c : ascii) (rest : string),
    "a ! b" = (spelling [text_token 0 "a";
                          {| Token_Type := T_Whitespace; Token_Value := " ";
                             Token_Pos := at_ 1 |}] ++ String c rest)%string /\
    Offset (at_ 2) = String.length (spelling [text_token 0 "a";
                          {| Token_Type := T_Whitespace; Token_Value := " ";
                             Token_Pos := at_ 1 |}]) /\
    plain_char c = false.
Proof.
  apply (@Lex_error_is_at_a_foreign_character "a ! b"). vm_compute. reflexivity.
Defined.

(** X7.  An input made of letters, digits, underscores, white space
    and the characters [= : . < > ( ) , -] only is always tokenized to
    its end: the tokenizer has no error for it. *)
Theorem Lex_accepts_plain_input :
  forall s : string, all_plain s = true -> snd (Lex s) = None.
Proof. intros s H. unfold Lex. now apply tokens_from_plain. Qed.

Lemma Lex_accepts_plain_input_witness : snd (Lex "f(a, b.c) <= -3") = None.
Proof. apply Lex_accepts_plain_input. vm_compute. reflexivity. Defined.

(** X8.  An input that holds exactly one quote character is rejected
    by the tokenizer: a String that is not closed is an error, and so
    is a quote that closes nothing. *)
Theorem Lex_rejects_a_lone_quote :
  forall s : string,
    count_quotes s = 1 ->
    exists p : Position, snd (Lex s) = Some p /\ Parse s = LexFailure (LexError p).
Proof.
  intros s H. destruct (Lex s) as [toks [p|]] eqn:E.
  - exists p. split; [reflexivity|].
    unfold Parse, DefaultParser_ParseString. now rewrite E.
  - exfalso. apply Lex_spec in E. destruct E as (Hall & _ & Hs).
    apply spelling_quotes in Hall. congruence.
Qed.

Lemma Lex_rejects_a_lone_quote_witness :
  exists p : Position,
    snd (Lex "msg = 'hello") = Some p /\
    Parse "msg = 'hello" = LexFailure (LexError p).
Proof. apply Lex_rejects_a_lone_quote. vm_compute. reflexivity. Defined.

(** X9.  Text and Whitespace tokens are maximal: in the tokens of an
    input a Text token is never followed by a Text token, nor a
    Whitespace token by a Whitespace token. *)
Theorem Lex_tokens_are_maximal :
  forall (s : string) (pre : list Token) (t1 t2 : Token) (post : list Token),
    fst (Lex s) = pre ++ t1 :: t2 :: post ->
    ~ (Token_Type t1 = T_Text /\ Token_Type t2 = T_Text) /\
    ~ (Token_Type t1 = T_Whitespace /\ Token_Type t2 = T_Whitespace).
Proof.
  intros s pre t1 t2 post H. unfold Lex in H.
  destruct (tokens_from_no_two (String.length s) 0 s) as [H1 H2].
  split.
  - eapply no_two_split; [exact H1 | exact H].
  - eapply no_two_split; [exact H2 | exact H].
Qed.

Lemma Lex_tokens_are_maximal_witness :
  ~ (Token_Type (text_token 0 "ab") = T_Text /\
     Token_Type {| Token_Type := T_Whitespace; Token_Value := "  ";
                   Token_Pos := at_ 2 |} = T_Text) /\
  ~ (Token_Type (text_token 0 "ab") = T_Whitespace /\
     Token_Type {| Token_Type := T_Whitespace; Token_Value := "  ";
                   Token_Pos := at_ 2 |} = T_Whitespace).
Proof.
  apply (@Lex_tokens_are_maximal "ab  cd" [] _ _ [text_token 4 "cd"]).
  vm_compute. reflexivity.
Defined.

(** X10.  The tokenizer inverts the spelling: of words, white space
    and operators written end to end, where no word is followed by a
    word character, no white space by white space and no [<] or [>]
    by [=], the tokens are these lexemes, each at the offset where it
    stands, and there is no error. *)
Theorem Lex_of_lexemes :
  forall ls : list lexeme,
    canonical ls = true -> Lex (text_of ls) = (place 0 ls, None).
Proof. exact Lex_place. Qed.

Lemma Lex_of_lexemes_witness :
  Lex (text_of [(T_Text, "a"); (T_Operators, "<="); (T_Whitespace, " ");
                (T_Operators, "-"); (T_Text, "b")]) =
  (place 0 [(T_Text, "a"); (T_Operators, "<="); (T_Whitespace, " ");
            (T_Operators, "-"); (T_Text, "b")], None).
Proof. apply Lex_of_lexemes. vm_compute. reflexivity. Defined.

(* ================================================================== *)
(** * Further properties of the trees that are parsed *)

(** X11.  In a tree that [Parse] returns no Expression, at whatever
    depth, holds more than one Sequence, and the Expression between
    the parentheses of a Simple holds exactly one: inside parentheses
    too a word [AND] is one more Factor, and the conjunction is never
    parsed. *)
Theorem Parse_has_no_conjunction_inside :
  forall (expression : string) (ast : Filter),
    Parse expression = Parsed ast ->
    (forall (path : list step) (e : Expression),
        resolve (N_Filter ast) path = Some (N_Expression e) ->
        length (Expression_Sequence e) <= 1) /\
    (forall (path : list step) (s : Simple) (c : Composite),
        resolve (N_Filter ast) path = Some (N_Simple s) ->
        Simple_Composite s = Some c ->
        length (Expression_Sequence (Composite_Expression c)) = 1).
Proof.
  intros expression ast H. split.
  - intros path e R. (eapply Parse_node_shaped in R; [|exact H]).
    destruct e as [pos ss]. simpl in *. apply andb_true_iff in R.
    destruct R as [R _]. now apply Nat.leb_le.
  - intros path s c R Hc. (eapply Parse_node_shaped in R; [|exact H]).
    destruct s as [pos [r|] [k|]]; simpl in *; try discriminate.
    injection Hc as ->. apply andb_true_iff in R. destruct R as [R1 R2].
    unfold set_Composite in R1. destruct c as [cpos [epos ss]]. simpl in *.
    apply andb_true_iff in R2. destruct R2 as [R2 _]. apply Nat.leb_le in R2.
    destruct ss as [|x [|y ss]]; simpl in *; (discriminate || lia).
Qed.

Lemma Parse_has_no_conjunction_inside_witness :
  length (Expression_Sequence
            (expression_of [sequence_of [word 1 "a"; word 3 "AND"; word 7 "b"]])) <= 1.
Proof.
  eapply (proj1 (@Parse_has_no_conjunction_inside "(a AND b)" _ ltac:(vm_compute; reflexivity))
            [Expression_at 0; Sequence_at 0; Factor_at 0; Term_at 0; Simple_of;
             Composite_of; Interior_of]).
  vm_compute. reflexivity.
Defined.

(** X12.  In a tree that [Parse] returns every Sequence has a Factor,
    every Factor a Term and every Function a Name: the lists that the
    grammar fills with [+], or with a first element, are never
    empty. *)
Theorem Parse_fills_the_lists :
  forall (expression : string) (ast : Filter) (path : list step),
    Parse expression = Parsed ast ->
    (forall s : Sequence,
        resolve (N_Filter ast) path = Some (N_Sequence s) -> Sequence_Factor s <> []) /\
    (forall f : Factor,
        resolve (N_Filter ast) path = Some (N_Factor f) -> Factor_Term f <> []) /\
    (forall f : Function,
        resolve (N_Filter ast) path = Some (N_Function f) -> Function_Name f <> []).
Proof.
  intros expression ast path H. repeat split.
  - intros [pos fs] R. (eapply Parse_node_shaped in R; [|exact H]). simpl in *.
    destruct fs; [discriminate | discriminate].
  - intros [pos ts] R. (eapply Parse_node_shaped in R; [|exact H]). simpl in *.
    destruct ts; [discriminate | discriminate].
  - intros [pos ns args] R. (eapply Parse_node_shaped in R; [|exact H]). simpl in *.
    destruct ns; [discriminate | discriminate].
Qed.

Lemma Parse_fills_the_lists_witness :
  Function_Name
    {| Function_Pos := at_ 0; Function_Name := [text_name 0 "now"];
       Function_Args := [] |} <> [].
Proof.
  eapply (proj2 (proj2 (@Parse_fills_the_lists "now()" _
            [Expression_at 0; Sequence_at 0; Factor_at 0; Term_at 0; Simple_of;
             Restriction_of; Comparable_of; Function_of]
            ltac:(vm_compute; reflexivity)))).
  vm_compute. reflexivity.
Defined.

(** X13.  In a tree that [Parse] returns every Simple holds a
    Restriction or a Composite and not both, the Comparable of every
    Restriction holds a Function or a Member and not both, and every
    argument of a Function holds a Comparable or a Composite and not
    both: the branches of [Simple.Accept] and [Comparable.Accept] that
    find neither are not reached on such a tree. *)
Theorem Parse_sets_one_alternative :
  forall (expression : string) (ast : Filter) (path : list step),
    Parse expression = Parsed ast ->
    (forall s : Simple,
        resolve (N_Filter ast) path = Some (N_Simple s) ->
        match Simple_Restriction s, Simple_Composite s with
        | Some _, None | None, Some _ => True
        | _, _ => False
        end) /\
    (forall r : Restriction,
        resolve (N_Filter ast) path = Some (N_Restriction r) ->
        set_Comparable (Restriction_Comparable r) = true) /\
    (forall f : Function,
        resolve (N_Filter ast) path = Some (N_Function f) ->
        forallb set_Arg (Function_Args f) = true).
Proof.
  intros expression ast path H. repeat split.
  - intros [pos [r|] [c|]] R; (eapply Parse_node_shaped in R; [|exact H]); simpl in *;
      (exact I || discriminate).
  - intros [pos c op a] R. (eapply Parse_node_shaped in R; [|exact H]). simpl in *.
    repeat (apply andb_true_iff in R; destruct R as [R ?]). exact R.
  - intros [pos ns args] R. (eapply Parse_node_shaped in R; [|exact H]). simpl in *.
    repeat (apply andb_true_iff in R; destruct R as [R ?]). assumption.
Qed.

Lemma Parse_sets_one_alternative_witness :
  set_Comparable
    (Restriction_Comparable
       (word_comparison "a" "<=" 3 "b")) = true.
Proof.
  eapply (proj1 (proj2 (@Parse_sets_one_alternative "a<=b" _
            [Expression_at 0; Sequence_at 0; Factor_at 0; Term_at 0; Simple_of;
             Restriction_of]
            ltac:(vm_compute; reflexivity)))).
  vm_compute. reflexivity.
Defined.

(** X14.  In a tree that [Parse] returns the Keyword of every Field
    and of every Name is empty: a Field always holds a Value and a
    Name a Text, also where the word is [AND], [OR] or [NOT].  The
    Keyword alternatives of [Field] and [Name] are never taken. *)
Theorem Parse_leaves_keywords_empty :
  forall (expression : string) (ast : Filter) (path : list step),
    Parse expression = Parsed ast ->
    (forall f : Field,
        resolve (N_Filter ast) path = Some (N_Field f) ->
        Field_Keyword f = EmptyString /\ exists v, Field_Value f = Some v) /\
    (forall n : Name,
        resolve (N_Filter ast) path = Some (N_Name n) ->
        Name_Keyword n = EmptyString /\ identifier (Name_Text n) = true).
Proof.
  intros expression ast path H. split.
  - intros f R. (eapply Parse_node_shaped in R; [|exact H]). simpl in R.
    unfold shaped_Field in R. apply andb_true_iff in R. destruct R as [R1 R2].
    split; [destruct (Field_Keyword f); [reflexivity | discriminate]|].
    destruct (Field_Value f) as [v|]; [eauto | discriminate].
  - intros n R. (eapply Parse_node_shaped in R; [|exact H]). simpl in R.
    unfold shaped_Name in R. apply andb_true_iff in R. destruct R as [R1 R2].
    split; [destruct (Name_Keyword n); [reflexivity | discriminate] | exact R2].
Qed.

Lemma Parse_leaves_keywords_empty_witness :
  Field_Keyword (value_field (text_value 2 "AND")) = EmptyString /\
  exists v, Field_Value (value_field (text_value 2 "AND")) = Some v.
Proof.
  eapply (proj1 (@Parse_leaves_keywords_empty "a.AND.b" _
            [Expression_at 0; Sequence_at 0; Factor_at 0; Term_at 0; Simple_of;
             Restriction_of; Comparable_of; Member_of; Fields_at 0]
            ltac:(vm_compute; reflexivity))).
  vm_compute. reflexivity.
Defined.

(** X15.  In a tree that [Parse] returns every Value holds either a
    Text that is a non-empty run of letters, digits and underscores,
    its String being empty, or a String that still has its two quotes
    around it, its Text being empty. *)
Theorem Parse_values_are_words_or_strings :
  forall (expression : string) (ast : Filter) (path : list step) (v : Value),
    Parse expression = Parsed ast ->
    resolve (N_Filter ast) path = Some (N_Value v) ->
    (identifier (Value_Text v) = true /\ Value_String v = EmptyString) \/
    (Value_Text v = EmptyString /\ is_string (Value_String v) = true).
Proof.
  intros expression ast path v H R. (eapply Parse_node_shaped in R; [|exact H]). simpl in R.
  unfold shaped_Value in R. apply orb_true_iff in R.
  destruct R as [R | R]; apply andb_true_iff in R; destruct R as [R1 R2].
  - left. split; [exact R1|]. destruct (Value_String v); [reflexivity | discriminate].
  - right. split; [|exact R2]. destruct (Value_Text v); [reflexivity | discriminate].
Qed.

Lemma Parse_values_are_words_or_strings_witness :
  (identifier (Value_Text (string_value 4 "'hello'")) = true /\
   Value_String (string_value 4 "'hello'") = EmptyString) \/
  (Value_Text (string_value 4 "'hello'") = EmptyString /\
   is_string (Value_String (string_value 4 "'hello'")) = true).
Proof.
  eapply (@Parse_values_are_words_or_strings "msg='hello'" _
            [Expression_at 0; Sequence_at 0; Factor_at 0; Term_at 0; Simple_of;
             Restriction_of; Arg_of; Comparable_of; Member_of; Value_of]).
  - vm_compute. reflexivity.
  - vm_compute. reflexivity.
Defined.

(* ================================================================== *)
(** * Further properties of Parse: what whole inputs parse to *)

(** X16.  Words separated by one blank, none of them [NOT] or [OR],
    parse to a Filter with one Expression and one Sequence that holds
    one Factor for every word, in order and at the offset of the word;
    each is a Restriction without operator on a Member without Fields.
    The word [AND] is such a word. *)
Theorem Parse_of_words :
  forall ws : list string,
    ws <> [] -> Forall bare_word ws ->
    (N.of_nat (length ws) < MaxIterations)%N ->
    Parse (String.concat " " ws) =
    Parsed (filter_of [expression_of [sequence_of (word_factors 0 ws)]]).
Proof. exact Parse_words. Qed.

Lemma Parse_of_words_witness :
  Parse "a AND b1" =
  Parsed (filter_of [expression_of [sequence_of
    [word 0 "a"; word 2 "AND"; word 6 "b1"]]]).
Proof.
  apply (@Parse_of_words ["a"; "AND"; "b1"]).
  - discriminate.
  - repeat constructor; discriminate.
  - reflexivity.
Defined.

(** X17.  Words separated by [OR] between blanks, none of them [NOT],
    parse to one Factor that holds one Term for every word: the
    disjunction binds tighter than the sequence. *)
Theorem Parse_of_alternatives :
  forall (w : string) (ws : list string),
    Forall value_word (w :: ws) ->
    (N.of_nat (length ws) < MaxIterations)%N ->
    Parse (String.concat " OR " (w :: ws)) =
    Parsed (filter_of [expression_of [sequence_of
      [{| Factor_Pos := at_ 0;
          Factor_Term := restriction_term (word_restriction 0 w)
                           :: alternative_terms (String.length w) ws |}]]]).
Proof. exact Parse_alternatives. Qed.

Lemma Parse_of_alternatives_witness :
  Parse "a OR bc OR d" =
  Parsed (filter_of [expression_of [sequence_of
    [{| Factor_Pos := at_ 0;
        Factor_Term := [restriction_term (word_restriction 0 "a");
                        restriction_term (word_restriction 5 "bc");
                        restriction_term (word_restriction 11 "d")] |}]]]).
Proof.
  apply (@Parse_of_alternatives "a" ["bc"; "d"]).
  - repeat constructor; discriminate.
  - reflexivity.
Defined.

(** X18.  Two words with one of the seven comparison operators between
    them, with or without white space around the operator, parse to one
    Restriction: its Comparable is the first word, its Comparator the
    value of [comparatorMap] at the operator, its Arg the second
    word. *)
Theorem Parse_of_a_comparison :
  forall a sp1 op sp2 b : string,
    value_word a -> identifier b = true -> In op comparators ->
    all_space sp1 = true -> all_space sp2 = true ->
    Parse (a ++ sp1 ++ op ++ sp2 ++ b) =
    Parsed (restriction_filter
      (word_comparison a op
         (String.length a + String.length sp1 + String.length op + String.length sp2)
         b)).
Proof. exact Parse_comparison. Qed.

Lemma Parse_of_a_comparison_witness :
  Parse "retries >=  10" =
  Parsed (restriction_filter
    {| Restriction_Pos := at_ 0;
       Restriction_Comparable := member_comparable (member (text_value 0 "retries") []);
       Restriction_Comparator := CompGreaterEquals;
       Restriction_Arg :=
         comparable_arg (member_comparable (member (text_value 12 "10") [])) |}).
Proof.
  apply (@Parse_of_a_comparison "retries" " " ">=" "  " "10").
  - split; [reflexivity | discriminate].
  - reflexivity.
  - simpl. tauto.
  - reflexivity.
  - reflexivity.
Defined.

(** X19.  A word after [-], or after [NOT] and white space, parses to
    one negated Term whose Simple is the Restriction of the word.  After
    [-] the white space may be missing. *)
Theorem Parse_of_a_negation :
  forall neg sp w : string,
    identifier w = true -> all_space sp = true ->
    neg = "-" \/ (neg = "NOT" /\ sp <> EmptyString) ->
    Parse (neg ++ sp ++ w) =
    Parsed (filter_of [expression_of [sequence_of
      [term_factor (negated_word (String.length neg + String.length sp) w)]]]).
Proof. exact Parse_negation. Qed.

Lemma Parse_of_a_negation_witness :
  Parse "NOT x" =
  Parsed (filter_of [expression_of [sequence_of
    [term_factor
       {| Term_Pos := at_ 0; Term_Negate := true;
          Term_Simple :=
            Term_Simple (restriction_term (word_restriction 4 "x")) |}]]]).
Proof.
  apply (@Parse_of_a_negation "NOT" " " "x").
  - reflexivity.
  - reflexivity.
  - right. split; [reflexivity | discriminate].
Defined.

(** X20.  An input of white space only parses, without error, to the
    Filter with no Expression, whose position is the end of the
    input. *)
Theorem Parse_of_white_space :
  forall s : string,
    all_space s = true ->
    Parse s = Parsed {| Filter_Pos := at_ (String.length s); Filter_Expression := [] |}.
Proof. exact Parse_blank. Qed.

Lemma Parse_of_white_space_witness :
  Parse "   " = Parsed {| Filter_Pos := at_ 3; Filter_Expression := [] |}.
Proof. apply (@Parse_of_white_space "   "). reflexivity. Defined.

(** X21.  A word other than [NOT], a parenthesis, words separated by
    commas (or none) and a parenthesis parse to one Restriction on a
    Function: its Name is the first word and it has one Arg for every
    word between the parentheses, in order. *)
Theorem Parse_of_a_call :
  forall (f : string) (ws : list string),
    value_word f -> Forall (fun w => identifier w = true) ws ->
    (N.of_nat (length ws) < MaxIterations)%N ->
    Parse (f ++ "(" ++ String.concat "," ws ++ ")") =
    Parsed (restriction_filter
      (global_restriction (function_comparable (word_call f ws)))).
Proof. exact Parse_call. Qed.

Lemma Parse_of_a_call_witness :
  Parse "max(a,bc,d)" =
  Parsed (restriction_filter (global_restriction (function_comparable
    {| Function_Pos := at_ 0; Function_Name := [text_name 0 "max"];
       Function_Args := [word_arg 4 "a"; word_arg 6 "bc"; word_arg 9 "d"] |}))).
Proof.
  apply (@Parse_of_a_call "max" ["a"; "bc"; "d"]).
  - split; [reflexivity | discriminate].
  - repeat constructor.
  - reflexivity.
Defined.

(** X22.  Words separated by one blank between parentheses, none of
    them [NOT] or [OR], parse to one Term whose Simple holds a
    Composite and no Restriction; the Expression of the Composite is
    the one that the words parse to, at their offsets. *)
Theorem Parse_of_parenthesized_words :
  forall ws : list string,
    ws <> [] -> Forall bare_word ws ->
    (N.of_nat (length ws) < MaxIterations)%N ->
    Parse ("(" ++ String.concat " " ws ++ ")") =
    Parsed (filter_of [expression_of [sequence_of [term_factor
      (composite_term (expression_of [sequence_of (word_factors 1 ws)]))]]]).
Proof.
  intros ws Hne Hall Hmax. destruct (exists_last Hne) as (ws' & w & ->).
  now apply Parse_parenthesized.
Qed.

Lemma Parse_of_parenthesized_words_witness :
  Parse "(a AND b)" =
  Parsed (filter_of [expression_of [sequence_of [term_factor
    (composite_term (expression_of [sequence_of
       [word 1 "a"; word 3 "AND"; word 7 "b"]]))]]]).
Proof.
  apply (@Parse_of_parenthesized_words ["a"; "AND"; "b"]).
  - discriminate.
  - repeat constructor; discriminate.
  - reflexivity.
Defined.


(* ================================================================== *)
(** * Further properties of Parse: inputs that are rejected *)

(** X24.  An input whose first token, white space apart, is an
    operator other than [-] and [(] is rejected with a parse error: no
    Expression starts at such a token. *)
Theorem Parse_rejects_a_leading_operator :
  forall (s : string) (toks : list Token) (t : Token) (rest : list Token),
    Lex s = (toks, None) -> elide toks = t :: rest ->
    Token_Type t = T_Operators ->
    Token_Value t <> "-" -> Token_Value t <> "(" ->
    exists e : Error, Parse s = ParseFailure e.
Proof. exact Parse_leading_operator. Qed.

Lemma Parse_rejects_a_leading_operator_witness :
  exists e : Error, Parse " : a" = ParseFailure e.
Proof.
  apply (@Parse_rejects_a_leading_operator " : a"
           [{| Token_Type := T_Whitespace; Token_Value := " "; Token_Pos := at_ 0 |};
            {| Token_Type := T_Operators; Token_Value := ":"; Token_Pos := at_ 1 |};
            {| Token_Type := T_Whitespace; Token_Value := " "; Token_Pos := at_ 2 |};
            text_token 3 "a"]
           {| Token_Type := T_Operators; Token_Value := ":"; Token_Pos := at_ 1 |}
           [text_token 3 "a"]).
  - vm_compute. reflexivity.
  - vm_compute. reflexivity.
  - reflexivity.
  - discriminate.
  - discriminate.
Defined.

(** X25.  A word and a comparison operator with nothing after it but
    white space are rejected with a parse error: the operator wants
    its Arg, and without it the operator is left over. *)
Theorem Parse_rejects_a_dangling_operator :
  forall a sp1 op sp2 : string,
    value_word a -> In op comparators ->
    all_space sp1 = true -> all_space sp2 = true ->
    exists e : Error, Parse (a ++ sp1 ++ op ++ sp2) = ParseFailure e.
Proof. exact Parse_dangling. Qed.

Lemma Parse_rejects_a_dangling_operator_witness :
  exists e : Error, Parse "retries >= " = ParseFailure e.
Proof.
  apply (@Parse_rejects_a_dangling_operator "retries" " " ">=" " ").
  - split; [reflexivity | discriminate].
  - simpl. tauto.
  - reflexivity.
  - reflexivity.
Defined.

(** X26.  Words separated by one blank with a closing parenthesis or a
    comma after the last are rejected with a parse error: a parenthesis
    that was not opened is not skipped. *)
Theorem Parse_rejects_a_stray_closer :
  forall (ws : list string) (op : string),
    ws <> [] -> Forall bare_word ws -> op = ")" \/ op = "," ->
    (N.of_nat (length ws) < MaxIterations)%N ->
    exists e : Error, Parse (String.concat " " ws ++ op) = ParseFailure e.
Proof.
  intros ws op Hne Hall Hop Hmax. destruct (exists_last Hne) as (ws' & w & ->).
  now apply Parse_closed_words.
Qed.

Lemma Parse_rejects_a_stray_closer_witness :
  exists e : Error, Parse "a b)" = ParseFailure e.
Proof.
  apply (@Parse_rejects_a_stray_closer ["a"; "b"] ")").
  - discriminate.
  - repeat constructor; discriminate.
  - left. reflexivity.
  - reflexivity.
Defined.

(* ================================================================== *)
(** * Further properties of the visitor *)

(** X27.  When no hook of the visitor returns an error, [Visit]
    returns nil, whatever the tree; with the base [Visitor] it also
    leaves the state of the visitor as it was. *)
Theorem Visit_without_failing_hooks :
  forall (E V : Type) (ast : Filter),
    (forall visitor : FilterVisitor E V,
        (forall h v, snd (invoke visitor h v) = None) ->
        forall v, snd (Visit visitor ast v) = None) /\
    (forall v : V, Visit (@Visitor E V) ast v = (v, None)).
Proof.
  intros E V ast. split.
  - intros visitor H v. rewrite Visit_run. now apply run_no_error.
  - intro v. rewrite Visit_run. apply run_Visitor.
Qed.

(** X28.  An error that [Visit] returns is the error that a hook
    returned: the hook was called in its turn, on a node of the tree,
    after the hooks before it had returned nil, and the visitor is left
    in the state in which that hook left it. *)
Theorem Visit_error_is_from_a_hook :
  forall (E V : Type) (visitor : FilterVisitor E V) (ast : Filter)
         (v v' : V) (err : E),
    Visit visitor ast v = (v', Some err) ->
    exists (before : list Hook) (h : Hook) (after : list Hook) (v1 : V),
      schedule_Filter ast = before ++ h :: after /\
      run visitor before v = (v1, None) /\
      invoke visitor h v1 = (v', Some err).
Proof.
  intros E V visitor ast v v' err H. rewrite Visit_run in H.
  now apply run_error in H.
Qed.

Lemma Visit_error_is_from_a_hook_witness :
  exists (before : list Hook) (h : Hook) (after : list Hook) (v1 : list string),
    schedule_Filter two_words = before ++ h :: after /\
    run failing_factor_visitor before [] = (v1, None) /\
    invoke failing_factor_visitor h v1 =
      (["VisitMember"; "VisitRestriction"; "VisitTerm"; "VisitFactor"],
       Some "no factors").
Proof.
  apply (@Visit_error_is_from_a_hook string (list string) failing_factor_visitor
           two_words []).
  vm_compute. reflexivity.
Defined.

(** X29.  Parsing and visiting composed, on words separated by one
    blank: [Visit] calls, for every word in order, [VisitMember],
    [VisitRestriction], [VisitTerm] and [VisitFactor] on the nodes of
    that word, and at the end [VisitSequence] on the one Sequence. *)
Theorem Visit_of_words :
  forall (E V : Type) (visitor : FilterVisitor E V) (ws : list string) (v : V),
    ws <> [] -> Forall bare_word ws ->
    (N.of_nat (length ws) < MaxIterations)%N ->
    exists ast : Filter,
      Parse (String.concat " " ws) = Parsed ast /\
      Visit visitor ast v =
      run visitor
        (word_hooks 0 ws ++ [OnSequence (sequence_of (word_factors 0 ws))]) v.
Proof.
  intros E V visitor ws v Hne Hall Hmax. eexists. split.
  - now apply Parse_words.
  - rewrite Visit_run. unfold schedule_Filter, filter_of, expression_of.
    cbn [Filter_Expression flat_map schedule_Expression Expression_Sequence].
    rewrite !app_nil_r. unfold schedule_Sequence.
    cbn [Sequence_Factor sequence_of]. now rewrite schedule_word_factors.
Qed.

Lemma Visit_of_words_witness :
  exists ast : Filter,
    Parse "a b" = Parsed ast /\
    Visit failing_factor_visitor ast [] =
    run failing_factor_visitor
      (word_hooks 0 ["a"; "b"] ++ [OnSequence (sequence_of (word_factors 0 ["a"; "b"]))])
      [].
Proof.
  apply (@Visit_of_words string (list string) failing_factor_visitor ["a"; "b"] []).
  - discriminate.
  - repeat constructor; discriminate.
  - reflexivity.
Defined.
